(** * typhonjs-config-resolver: a shallow embedding of [src/ConfigResolver.js]

    The resolver walks the [extends] chain of a configuration object, loads
    every parent through the host (file system or module loader) and merges
    parents and child with [_deepMerge].  JavaScript objects and arrays are
    mutable and shared by reference, and [_deepMerge] both allocates new
    structures and writes into one of its operands, so the embedding keeps an
    explicit store of objects and arrays and passes references around, as the
    source does.

    Conventions of the model:
    - numbers are integers ([Z]); functions, symbols and prototypes are left
      out (configuration data is JSON-like);
    - an object is an association list in insertion order;
    - the host (Node's [path] module, [process.cwd()], [require], the file
      reader with [JSON.parse], and the validator of typhonjs-object-util) is a
      record of functions, see [Env];
    - the optional event bus only receives a log line and is left out. *)

From Stdlib Require Import ZArith String Ascii List Bool Lia DecimalString.
From stdpp Require Import base option list strings.
Import ListNotations.

Set Warnings "-register-all".

Local Open Scope string_scope.
Local Open Scope list_scope.

(** ** Values, objects and the store *)

Abbreviation loc := nat.

Inductive val :=
| VUndef
| VNull
| VBool (b : bool)
| VNum (n : Z)
| VStr (s : string)
| VRef (l : loc).

Inductive obj :=
| OArr (elems : list val)
| OObj (props : list (string * val)).

Abbreviation heap := (list obj).

(** Plain data without sharing: what [JSON.parse] returns, what a caller
    writes as a literal, and what the resolver data holds. *)
Inductive tree :=
| TUndef
| TNull
| TBool (b : bool)
| TNum (n : Z)
| TStr (s : string)
| TArr (elems : list tree)
| TObj (props : list (string * tree)).

(** ** Errors and outcomes *)

Inductive error_name := TypeError | SyntaxError | Error.

Record error := mkError { name : error_name; message : string }.

(** [Abort] is not a JavaScript outcome: the model gives no answer (the fuel
    of a recursive definition ran out, or a reference points outside the
    store). *)
Inductive res (A : Type) :=
| Ret (a : A)
| Throw (e : error)
| Abort.

Arguments Ret {A} a.
Arguments Throw {A} e.
Arguments Abort {A}.

(** ** The state and exception monad

    The state survives an exception: the catch block of [_resolveExtends]
    reads [loadedConfigs] after the throw. *)

Definition M (S A : Type) : Type := S -> res A * S.

Definition ret {S A} (a : A) : M S A := fun s => (Ret a, s).

Definition throw {S A} (e : error) : M S A := fun s => (Throw e, s).

Definition abort {S A} : M S A := fun s => (Abort, s).

Definition bind {S A B} (m : M S A) (f : A -> M S B) : M S B :=
  fun s =>
    match m s with
    | (Ret a, s') => f a s'
    | (Throw e, s') => (Throw e, s')
    | (Abort, s') => (Abort, s')
    end.

Notation "x <- m ;; k" := (bind m (fun x => k))
  (at level 100, m at next level, right associativity).
Notation "m ;;; k" := (bind m (fun _ => k))
  (at level 100, right associativity).

Definition get {S} : M S S := fun s => (Ret s, s).
Definition put {S} (s : S) : M S unit := fun _ => (Ret tt, s).

Definition typeError {S A} (msg : string) : M S A := throw (mkError TypeError msg).

Definition when {S} (b : bool) (m : M S unit) : M S unit := if b then m else ret tt.

(** [Array.prototype.forEach] over a snapshot of the elements. *)
Fixpoint forEach {S A} (f : A -> M S unit) (l : list A) : M S unit :=
  match l with
  | [] => ret tt
  | x :: r => f x ;;; forEach f r
  end.

(** Computations over the store alone; [HM] is what [_deepMerge] lives in. *)
Abbreviation HM := (M (list obj)).

(** The state of the walk of the [extends] chain: the store and the
    [loadedConfigs] array, which every call of the walk shares. *)
Abbreviation RM := (M (list obj * list string)).

(** ** Primitive operations of the language *)

Definition val_eqb (a b : val) : bool :=
  match a, b with
  | VUndef, VUndef => true
  | VNull, VNull => true
  | VBool x, VBool y => Bool.eqb x y
  | VNum x, VNum y => Z.eqb x y
  | VStr x, VStr y => String.eqb x y
  | VRef x, VRef y => Nat.eqb x y
  | _, _ => false
  end.

Definition typeof (v : val) : string :=
  match v with
  | VUndef => "undefined"
  | VNull => "object"
  | VBool _ => "boolean"
  | VNum _ => "number"
  | VStr _ => "string"
  | VRef _ => "object"
  end.

Definition truthy (v : val) : bool :=
  match v with
  | VUndef | VNull => false
  | VBool b => b
  | VNum n => negb (Z.eqb n 0)
  | VStr s => negb (String.eqb s "")
  | VRef _ => true
  end.

(** [Array.isArray] *)
Definition isArray (h : heap) (v : val) : bool :=
  match v with
  | VRef l => match h !! l with Some (OArr _) => true | _ => false end
  | _ => false
  end.

Definition string_of_nat (n : nat) : string := NilEmpty.string_of_uint (Nat.to_uint n).

Fixpoint assoc_get {A} (k : string) (p : list (string * A)) : option A :=
  match p with
  | [] => None
  | (k', v) :: r => if String.eqb k k' then Some v else assoc_get k r
  end.

Fixpoint assoc_set {A} (k : string) (v : A) (p : list (string * A)) : list (string * A) :=
  match p with
  | [] => [(k, v)]
  | (k', v') :: r => if String.eqb k k' then (k', v) :: r else (k', v') :: assoc_set k v r
  end.

Fixpoint assoc_del {A} (k : string) (p : list (string * A)) : list (string * A) :=
  match p with
  | [] => []
  | (k', v') :: r => if String.eqb k k' then assoc_del k r else (k', v') :: assoc_del k r
  end.

Definition char_at (s : string) (i : nat) : string :=
  match String.get i s with
  | Some c => String c EmptyString
  | None => ""
  end.

(** The index a property name denotes on an array or a string of length [n]. *)
Fixpoint index_of_key (k : string) (n : nat) : option nat :=
  match n with
  | O => None
  | S m => if String.eqb k (string_of_nat m) then Some m else index_of_key k m
  end.

(** [a[i] = v] on an array: writing past the end extends the array (the
    skipped positions read as [undefined]). *)
Definition arr_set (l : list val) (i : nat) (v : val) : list val :=
  if Nat.ltb i (length l) then <[i := v]> l
  else l ++ replicate (i - length l) VUndef ++ [v].

Definition alloc (o : obj) : HM val :=
  fun h => (Ret (VRef (length h)), h ++ [o]).

Definition readObj (l : loc) : HM obj :=
  fun h => match h !! l with Some o => (Ret o, h) | None => (Abort, h) end.

Definition writeObj (l : loc) (o : obj) : HM unit :=
  fun h => match h !! l with Some _ => (Ret tt, <[l := o]> h) | None => (Abort, h) end.

Definition isArrayM (v : val) : HM bool := fun h => (Ret (isArray h v), h).

(** The store holds the own properties of an object and no prototype chain.
    The names below are the members of [Object.prototype]: an object that has
    no own property of such a name reads a function there (an object or
    [null] for ["__proto__"]) where [getKey] gives [undefined], and an
    assignment to ["__proto__"] runs a setter and stores no own property
    where [setKey] stores an entry.  The statements about the value under a
    key leave these names out where the difference shows. *)
Definition objectPrototypeKey (k : string) : bool :=
  existsb (String.eqb k)
    ["__proto__"; "constructor"; "hasOwnProperty"; "isPrototypeOf";
     "propertyIsEnumerable"; "toLocaleString"; "toString"; "valueOf";
     "__defineGetter__"; "__defineSetter__"; "__lookupGetter__"; "__lookupSetter__"].

(** [v[k]] for a property name [k]: the own property. *)
Definition getKey (v : val) (k : string) : HM val :=
  match v with
  | VUndef => typeError ("Cannot read property '" ++ k ++ "' of undefined")
  | VNull => typeError ("Cannot read property '" ++ k ++ "' of null")
  | VBool _ | VNum _ => ret VUndef
  | VStr s =>
      if String.eqb k "length" then ret (VNum (Z.of_nat (String.length s)))
      else match index_of_key k (String.length s) with
           | Some i => ret (VStr (char_at s i))
           | None => ret VUndef
           end
  | VRef l =>
      o <- readObj l ;;
      match o with
      | OObj p => ret (default VUndef (assoc_get k p))
      | OArr a =>
          if String.eqb k "length" then ret (VNum (Z.of_nat (length a)))
          else match index_of_key k (length a) with
               | Some i => ret (default VUndef (a !! i))
               | None => ret VUndef
               end
      end
  end.

(** [v[i]] for a number [i]. *)
Definition getIdx (v : val) (i : nat) : HM val :=
  match v with
  | VUndef => typeError ("Cannot read property '" ++ string_of_nat i ++ "' of undefined")
  | VNull => typeError ("Cannot read property '" ++ string_of_nat i ++ "' of null")
  | VBool _ | VNum _ => ret VUndef
  | VStr s => ret (if Nat.ltb i (String.length s) then VStr (char_at s i) else VUndef)
  | VRef l =>
      o <- readObj l ;;
      match o with
      | OObj p => ret (default VUndef (assoc_get (string_of_nat i) p))
      | OArr a => ret (default VUndef (a !! i))
      end
  end.

(** [v[k] = x] (strict mode: a primitive receiver throws). *)
Definition setKey (v : val) (k : string) (x : val) : HM unit :=
  match v with
  | VRef l =>
      o <- readObj l ;;
      match o with
      | OObj p => writeObj l (OObj (assoc_set k x p))
      | OArr a =>
          match index_of_key k (S (length a)) with
          | Some i => writeObj l (OArr (arr_set a i x))
          | None => abort
          end
      end
  | _ => typeError ("Cannot create property '" ++ k ++ "'")
  end.

(** [v[i] = x] *)
Definition setIdx (v : val) (i : nat) (x : val) : HM unit :=
  match v with
  | VRef l =>
      o <- readObj l ;;
      match o with
      | OObj p => writeObj l (OObj (assoc_set (string_of_nat i) x p))
      | OArr a => writeObj l (OArr (arr_set a i x))
      end
  | _ => typeError ("Cannot create property '" ++ string_of_nat i ++ "'")
  end.

(** [delete v[k]] *)
Definition deleteKey (v : val) (k : string) : HM unit :=
  match v with
  | VRef l =>
      o <- readObj l ;;
      match o with
      | OObj p => writeObj l (OObj (assoc_del k p))
      | OArr a => ret tt
      end
  | VUndef | VNull => typeError "Cannot convert undefined or null to object"
  | _ => ret tt
  end.

(** [Object.keys(v)] *)
Definition objectKeys (v : val) : HM (list string) :=
  match v with
  | VUndef | VNull => typeError "Cannot convert undefined or null to object"
  | VBool _ | VNum _ => ret []
  | VStr s => ret (map string_of_nat (seq 0 (String.length s)))
  | VRef l =>
      o <- readObj l ;;
      match o with
      | OObj p => ret (map fst p)
      | OArr a => ret (map string_of_nat (seq 0 (length a)))
      end
  end.

(** The elements of an array receiver; [what] names the method for the
    error a non-array receiver raises. *)
Definition arrayElems (v : val) (what : string) : HM (list val) :=
  match v with
  | VUndef => typeError ("Cannot read property '" ++ what ++ "' of undefined")
  | VNull => typeError ("Cannot read property '" ++ what ++ "' of null")
  | VRef l =>
      o <- readObj l ;;
      match o with
      | OArr a => ret a
      | OObj _ => typeError (what ++ " is not a function")
      end
  | _ => typeError (what ++ " is not a function")
  end.

Definition setElems (v : val) (a : list val) : HM unit :=
  match v with
  | VRef l =>
      o <- readObj l ;;
      match o with
      | OArr _ => writeObj l (OArr a)
      | OObj _ => abort
      end
  | _ => abort
  end.

(** [[].concat(v)]: an array argument is spread, anything else is one element. *)
Definition concatInto (v : val) : HM val :=
  b <- isArrayM v ;;
  if b then (a <- arrayElems v "concat" ;; alloc (OArr a))
  else alloc (OArr [v]).

(** [a.push(x)] *)
Definition push (a : val) (x : val) : HM unit :=
  l <- arrayElems a "push" ;; setElems a (l ++ [x]).

(** [a.unshift(x)] *)
Definition unshift (a : val) (x : val) : HM unit :=
  l <- arrayElems a "unshift" ;; setElems a (x :: l).

(** [a.splice(i, 1)] *)
Definition splice1 (a : val) (i : nat) : HM unit :=
  l <- arrayElems a "splice" ;; setElems a (take i l ++ drop (S i) l).

(** [a.reverse()] *)
Definition reverse (a : val) : HM unit :=
  l <- arrayElems a "reverse" ;; setElems a (rev l).

(** [a.indexOf(x) === -1] *)
Definition notIn (a : val) (x : val) : HM bool :=
  l <- arrayElems a "indexOf" ;; ret (negb (existsb (val_eqb x) l)).

(** The first element (with its index) that satisfies [p]; serves both
    [Array.prototype.find] and [findIndex]. *)
Fixpoint findFrom (p : val -> HM bool) (l : list val) (i : nat) : HM (option (nat * val)) :=
  match l with
  | [] => ret None
  | x :: r =>
      b <- p x ;;
      if b then ret (Some (i, x)) else findFrom p r (S i)
  end.

(** ** The resolver instance

    The four fields [setResolverData] assigns.  [_upgradeMergeList] holds the
    elements of the array that passed the [Array.isArray] test. *)

Record ConfigResolver := mkResolver {
  _defaultValues : tree;
  _preValidate : tree;
  _postValidate : tree;
  _upgradeMergeList : list tree
}.

Definition tree_is_str (k : string) (t : tree) : bool :=
  match t with
  | TStr s => String.eqb k s
  | _ => false
  end.

(** [this._upgradeMergeList.indexOf(k) >= 0] for a property name [k]. *)
Definition inUpgradeMergeList (this : ConfigResolver) (k : string) : bool :=
  existsb (tree_is_str k) (_upgradeMergeList this).

(** ** [_deepMerge] *)

Section DeepMerge.

Variable this : ConfigResolver.

Definition isPlugins (parentKey : option string) : bool :=
  match parentKey with
  | Some k => String.eqb k "plugins"
  | None => false
  end.

(** [(dstPlugin) => dstPlugin.name === plugin.name] *)
Definition sameName (plugin dstPlugin : val) : HM bool :=
  a <- getKey dstPlugin "name" ;;
  b <- getKey plugin "name" ;;
  ret (val_eqb a b).

(** Lines 119-138: the two [forEach] loops of the plugin case. *)
Definition mergePlugins (dst target src : val) : HM unit :=
  ts <- arrayElems target "forEach" ;;
  forEach (fun plugin =>
    d <- arrayElems dst "find" ;;
    found <- findFrom (sameName plugin) d 0 ;;
    if negb (truthy (match found with Some (_, x) => x | None => VUndef end))
    then push dst plugin
    else ret tt) ts ;;;
  ss <- arrayElems src "forEach" ;;
  forEach (fun plugin =>
    d <- arrayElems dst "findIndex" ;;
    found <- findFrom (sameName plugin) d 0 ;;
    match found with
    | Some (index, _) => splice1 dst index
    | None => ret tt
    end ;;;
    unshift dst plugin) ss.

(** Lines 140-169: the body of the loop over the positions of [src]. *)
Definition mergeElement (rec : val -> val -> bool -> option string -> HM val)
    (dst target src : val) (combine : bool) (parentKey : option string)
    (srcIndex : nat) : HM unit :=
  srcElement <- getIdx src srcIndex ;;
  d <- getIdx dst srcIndex ;;
  if String.eqb (typeof d) "undefined" then setIdx dst srcIndex srcElement
  else if String.eqb (typeof srcElement) "object" then
    if negb (isPlugins parentKey) then
      t <- getIdx target srcIndex ;;
      r <- rec t srcElement combine parentKey ;;
      setIdx dst srcIndex r
    else ret tt
  else if negb combine then setIdx dst srcIndex srcElement
  else
    b <- notIn dst srcElement ;;
    if b then push dst srcElement else ret tt.

(** Lines 183-187: a single value under an upgrade-merge key is replaced, in
    [src] itself, by a one-element array. *)
Definition upgradeKey (src : val) (srcKey : string) : HM unit :=
  if inUpgradeMergeList this srcKey then
    v <- getKey src srcKey ;;
    a <- isArrayM v ;;
    if negb a then
      arr <- alloc (OArr [v]) ;;
      setKey src srcKey arr
    else ret tt
  else ret tt.

(** Lines 181-202: the body of the loop over the keys of [src]. *)
Definition mergeKey (rec : val -> val -> bool -> option string -> HM val)
    (dst target src : val) (combine : bool) (srcKey : string) : HM unit :=
  upgradeKey src srcKey ;;;
  sv <- getKey src srcKey ;;
  sa <- isArrayM sv ;;
  ta <- (if sa then ret false else tv <- getKey target srcKey ;; isArrayM tv) ;;
  if sa || ta then
    tv <- getKey target srcKey ;;
    r <- rec tv sv (inUpgradeMergeList this srcKey) (Some srcKey) ;;
    setKey dst srcKey r
  else if negb (String.eqb (typeof sv) "object") || negb (truthy sv) then
    setKey dst srcKey sv
  else
    tv <- getKey target srcKey ;;
    t <- (if truthy tv then ret tv else alloc (OObj [])) ;;
    r <- rec t sv combine (Some srcKey) ;;
    setKey dst srcKey r.

(** Lines 175-178 *)
Definition copyKey (dst target : val) (targetKey : string) : HM unit :=
  v <- getKey target targetKey ;;
  setKey dst targetKey v.

(** Lines 99-170, given the recursive call. *)
Definition mergeArray (rec : val -> val -> bool -> option string -> HM val)
    (target src : val) (combine : bool) (parentKey : option string) : HM val :=
  target <- (if truthy target then ret target else alloc (OArr [])) ;;
  sa <- isArrayM src ;;
  n <- (if sa then l <- arrayElems src "length" ;; ret (length l) else ret 0) ;;
  dst <- (if sa && Nat.ltb 1 n then concatInto src else concatInto target) ;;
  sa' <- isArrayM src ;;
  src <- (if negb (String.eqb (typeof src) "object") && negb sa'
          then alloc (OArr [src]) else ret src) ;;
  ta <- isArrayM target ;;
  (if isPlugins parentKey && ta then mergePlugins dst target src else ret tt) ;;;
  keys <- objectKeys src ;;
  forEach (mergeElement rec dst target src combine parentKey) (seq 0 (length keys)) ;;;
  ret dst.

(** Lines 173-202, given the recursive call. *)
Definition mergeObject (rec : val -> val -> bool -> option string -> HM val)
    (dst target src : val) (combine : bool) : HM val :=
  (if truthy target && String.eqb (typeof target) "object" then
     keys <- objectKeys target ;;
     forEach (copyKey dst target) keys
   else ret tt) ;;;
  keys <- objectKeys src ;;
  forEach (mergeKey rec dst target src combine) keys ;;;
  ret dst.

(** The recursion follows references of the store, which may form cycles,
    so it is bounded by [fuel]. *)
Fixpoint _deepMerge (fuel : nat) (target src : val) (combine : bool)
    (parentKey : option string) : HM val :=
  match fuel with
  | O => abort
  | S fuel' =>
      sa <- isArrayM src ;;
      ta <- isArrayM target ;;
      let array := sa || ta in
      dst <- alloc (if array then OArr [] else OObj []) ;;
      if array then mergeArray (_deepMerge fuel') target src combine parentKey
      else mergeObject (_deepMerge fuel') dst target src combine
  end.

End DeepMerge.

(** ** The host *)

(** The functions of Node's [path] module the resolver calls.  [resolve]
    takes the working directory, which Node reads from the process. *)
Record PathApi := mkPath {
  isAbsolute : string -> bool;
  join : string -> string -> string;
  dirname : string -> string;
  extname : string -> string;
  resolve_from : string -> string -> string -> string
}.

(** What the resolver finds around it: the [path] module, [process.cwd()],
    [require(id)], the reading of a JSON file ([fs.readFileSync], then
    [stripJsonComments], then [JSON.parse]), and [ObjectUtil.validate] of
    typhonjs-object-util, which reads the configuration and either accepts
    it or throws. *)
Record Env := mkEnv {
  path : PathApi;
  cwd : string;
  require : string -> error + tree;
  readJSON : string -> error + tree;
  validate : heap -> val -> tree -> string -> option error
}.

(** A model of [path.posix] for the worked examples. *)
Module posix.

Definition is_slash (c : ascii) : bool := Ascii.eqb c "/"%char.

Fixpoint split (s : string) : list string :=
  match s with
  | EmptyString => [""]
  | String c r =>
      if is_slash c then "" :: split r
      else match split r with
           | x :: t => String c x :: t
           | [] => [String c ""]
           end
  end.

(** [normalizeString]: drops empty and [.] segments and resolves [..]. *)
Fixpoint normSegs (allowAboveRoot : bool) (segs acc : list string) : list string :=
  match segs with
  | [] => rev acc
  | seg :: r =>
      if String.eqb seg "" || String.eqb seg "." then normSegs allowAboveRoot r acc
      else if String.eqb seg ".." then
        match acc with
        | top :: acc' =>
            if String.eqb top ".." then normSegs allowAboveRoot r (seg :: acc)
            else normSegs allowAboveRoot r acc'
        | [] =>
            if allowAboveRoot then normSegs allowAboveRoot r [seg]
            else normSegs allowAboveRoot r []
        end
      else normSegs allowAboveRoot r (seg :: acc)
  end.

Definition normalizeString (p : string) (allowAboveRoot : bool) : string :=
  String.concat "/" (normSegs allowAboveRoot (split p) []).

Definition isAbsolute (p : string) : bool :=
  match p with
  | String c _ => is_slash c
  | EmptyString => false
  end.

Definition ends_with_slash (p : string) : bool :=
  match String.get (String.length p - 1) p with
  | Some c => is_slash c
  | None => false
  end.

Definition normalize (p : string) : string :=
  if String.eqb p "" then "."
  else
    let abs := isAbsolute p in
    let trailing := ends_with_slash p in
    let q := normalizeString p (negb abs) in
    if String.eqb q "" then (if abs then "/" else if trailing then "./" else ".")
    else
      let q' := if trailing then q +:+ "/" else q in
      if abs then "/" +:+ q' else q'.

Definition join (a b : string) : string :=
  match filter (fun s => negb (String.eqb s "")) [a; b] with
  | [] => "."
  | l => normalize (String.concat "/" l)
  end.

(** [path.resolve(a, b)]: from right to left until an absolute path is
    built, falling back on the working directory. *)
Definition resolve_from (cwd a b : string) : string :=
  let step (acc : string * bool) (p : string) : string * bool :=
    if snd acc || String.eqb p "" then acc
    else (p +:+ "/" +:+ fst acc, isAbsolute p) in
  let '(r, abs) := fold_left step [b; a; cwd] ("", false) in
  let q := normalizeString r (negb abs) in
  if abs then "/" +:+ q
  else if String.eqb q "" then "." else q.

Fixpoint dirname_scan (p : string) (i : nat) (matchedSlash : bool) : option nat :=
  match i with
  | O => None
  | S j =>
      match String.get i p with
      | Some c =>
          if is_slash c then
            if matchedSlash then dirname_scan p j true else Some i
          else dirname_scan p j false
      | None => dirname_scan p j matchedSlash
      end
  end.

Definition dirname (p : string) : string :=
  if String.eqb p "" then "."
  else
    let hasRoot := isAbsolute p in
    match dirname_scan p (String.length p - 1) true with
    | None => if hasRoot then "/" else "."
    | Some e => if hasRoot && Nat.eqb e 1 then "//" else String.substring 0 e p
    end.

Fixpoint last_dot (s : string) (i : nat) (found : option nat) : option nat :=
  match s with
  | EmptyString => found
  | String c r => last_dot r (S i) (if Ascii.eqb c "."%char then Some i else found)
  end.

(** [path.extname]: the part of the last segment from its last dot on;
    empty when there is none, or when the segment starts with its only dot. *)
Definition extname (p : string) : string :=
  let base := List.last (filter (fun s => negb (String.eqb s "")) (split p)) "" in
  if String.eqb base ".." then ""
  else match last_dot base 0 None with
       | Some (S i) => String.substring (S i) (String.length base - S i) base
       | _ => ""
       end.

Definition api : PathApi := mkPath isAbsolute join dirname extname resolve_from.

End posix.

(** ** Plain data in and out of the store *)

(** The elements of an array literal, allocated from left to right. *)
Definition allocAll (f : tree -> HM val) : list tree -> HM (list val) :=
  fix go (l : list tree) : HM (list val) :=
    match l with
    | [] => ret []
    | x :: r => v <- f x ;; vs <- go r ;; ret (v :: vs)
    end.

(** The properties of an object literal, likewise. *)
Definition allocProps (f : tree -> HM val) : list (string * tree) -> HM (list (string * val)) :=
  fix go (p : list (string * tree)) : HM (list (string * val)) :=
    match p with
    | [] => ret []
    | kx :: r => v <- f (snd kx) ;; ps <- go r ;; ret ((fst kx, v) :: ps)
    end.

Fixpoint alloc_tree (t : tree) : HM val :=
  match t with
  | TUndef => ret VUndef
  | TNull => ret VNull
  | TBool b => ret (VBool b)
  | TNum n => ret (VNum n)
  | TStr s => ret (VStr s)
  | TArr l => vs <- allocAll alloc_tree l ;; alloc (OArr vs)
  | TObj p => ps <- allocProps alloc_tree p ;; alloc (OObj ps)
  end.

(** The value behind [v] as plain data, to a depth of [fuel]. *)
Fixpoint read_tree (fuel : nat) (h : heap) (v : val) : option tree :=
  match v with
  | VUndef => Some TUndef
  | VNull => Some TNull
  | VBool b => Some (TBool b)
  | VNum n => Some (TNum n)
  | VStr s => Some (TStr s)
  | VRef l =>
      match fuel with
      | O => None
      | S fuel' =>
          match h !! l with
          | None => None
          | Some (OArr a) =>
              option_map TArr
                (fold_right (fun x acc =>
                   match read_tree fuel' h x, acc with
                   | Some t, Some ts => Some (t :: ts)
                   | _, _ => None
                   end) (Some []) a)
          | Some (OObj p) =>
              option_map TObj
                (fold_right (fun kx acc =>
                   match read_tree fuel' h (snd kx), acc with
                   | Some t, Some ts => Some ((fst kx, t) :: ts)
                   | _, _ => None
                   end) (Some []) p)
          end
      end
  end.

(** What [JSON.stringify] keeps of plain data: a property whose value is
    [undefined] is dropped, an [undefined] array element becomes [null]. *)
Fixpoint json_of (t : tree) : tree :=
  match t with
  | TArr l => TArr (map (fun x => match x with TUndef => TNull | _ => json_of x end) l)
  | TObj p =>
      TObj ((fix go (p : list (string * tree)) : list (string * tree) :=
               match p with
               | [] => []
               | (k, TUndef) :: r => go r
               | (k, x) :: r => (k, json_of x) :: go r
               end) p)
  | _ => t
  end.

(** [JSON.parse(JSON.stringify(v))] for an object or an array.  A cyclic
    structure, on which JavaScript throws, exhausts the fuel. *)
Definition jsonCopy (fuel : nat) (v : val) : HM val :=
  h <- get ;;
  match read_tree fuel h v with
  | Some t => alloc_tree (json_of t)
  | None => abort
  end.

Definition tree_truthy (t : tree) : bool :=
  match t with
  | TUndef | TNull => false
  | TBool b => b
  | TNum n => negb (Z.eqb n 0)
  | TStr s => negb (String.eqb s "")
  | TArr _ | TObj _ => true
  end.

Definition tree_typeof (t : tree) : string :=
  match t with
  | TUndef => "undefined"
  | TBool _ => "boolean"
  | TNum _ => "number"
  | TStr _ => "string"
  | TNull | TArr _ | TObj _ => "object"
  end.

(** ** The resolver *)

Definition newline : string := String (ascii_of_nat 10) EmptyString.

(** [/\w|@/.test(c)] for the result [c] of [charAt(0)]: the empty string
    when there is no first character. *)
Definition is_word_char (c : ascii) : bool :=
  let n := nat_of_ascii c in
  (Nat.leb 48 n && Nat.leb n 57) || (Nat.leb 65 n && Nat.leb n 90)
  || (Nat.leb 97 n && Nat.leb n 122) || Nat.eqb n 95.

Definition test_word_or_at (c : string) : bool :=
  match c with
  | String a _ => is_word_char a || Ascii.eqb a "@"%char
  | EmptyString => false
  end.

Section Resolver.

Variable env : Env.
Variable this : ConfigResolver.

(** The bound of the recursion of [_deepMerge] and of [jsonCopy]. *)
Variable depth : nat.

(** Line 236 *)
Definition _isFilePath (filePath : string) : bool :=
  isAbsolute (path env) filePath || negb (test_word_or_at (char_at filePath 0)).


Definition liftH {A} (m : HM A) : RM A :=
  fun s => let '(r, h') := m (fst s) in (r, (h', snd s)).

Definition loaded : RM (list string) := fun s => (Ret (snd s), s).

Definition pushLoaded (x : string) : RM unit := fun s => (Ret tt, (fst s, snd s ++ [x])).

Definition ofHost {A} (r : error + A) : RM A :=
  match r with
  | inl e => throw e
  | inr a => ret a
  end.

(** Lines 348-351 *)
Definition preValidate (config : val) (configName : string) : HM unit :=
  if tree_truthy (_preValidate this) then
    fun h => match validate env h config (_preValidate this) configName with
             | Some e => (Throw e, h)
             | None => (Ret tt, h)
             end
  else ret tt.

(** Lines 335-338 *)
Definition postValidate (config : val) (configName : string) : HM unit :=
  if tree_truthy (_postValidate this) then
    fun h => match validate env h config (_postValidate this) configName with
             | Some e => (Throw e, h)
             | None => (Ret tt, h)
             end
  else ret tt.

(** Lines 53-59: the identifier a reference is recorded and loaded under.
    A file path that is not absolute is joined to [relativeTo], or to the
    directory of the referencing file when [relativeTo] is missing or empty. *)
Definition resolveParentPath (filePath : string) (relativeTo : option string)
    (parentPath : string) : string :=
  if _isFilePath parentPath then
    if negb (isAbsolute (path env) parentPath) then
      join (path env)
        (match relativeTo with
         | Some r => if String.eqb r "" then dirname (path env) filePath else r
         | None => dirname (path env) filePath
         end) parentPath
    else parentPath
  else parentPath.

(** The callback of [reduceRight], lines 52-70, given [_load].  A reference
    that is not a string makes [path.isAbsolute] throw. *)
Definition extendsStep
    (load : string -> option string -> option (val -> HM unit) -> RM val)
    (filePath : string) (relativeTo : option string)
    (validate : option (val -> HM unit))
    (previousValue parentPath : val) : RM val :=
  match parentPath with
  | VStr p =>
      let parentPath := resolveParentPath filePath relativeTo p in
      loadedConfigs <- loaded ;;
      if existsb (String.eqb parentPath) loadedConfigs then ret previousValue
      else
        pushLoaded parentPath ;;;
        parent <- load parentPath relativeTo validate ;;
        liftH (_deepMerge this depth parent previousValue false None)
  | _ => typeError "Path must be a string"
  end.

Fixpoint reduceM {S A B} (f : B -> A -> M S B) (l : list A) (b : B) : M S B :=
  match l with
  | [] => ret b
  | x :: r => b' <- f b x ;; reduceM f r b'
  end.

(** Lines 43-73, given [_load]. *)
Definition applyExtendsWith
    (load : string -> option string -> option (val -> HM unit) -> RM val)
    (config : val) (filePath : string) (relativeTo : option string)
    (validate : option (val -> HM unit)) : RM val :=
  e <- liftH (getKey config "extends") ;;
  a <- liftH (isArrayM e) ;;
  configExtends <- (if a then liftH (arrayElems e "reduceRight") else ret [e]) ;;
  reduceM (extendsStep load filePath relativeTo validate) (rev configExtends) config.

(** Lines 257-278: what the host returns for an identifier, with the
    directory of the file ([undefined] for a module). *)
Definition hostLoad (filePath : string) (relativeTo : string) : error + (tree * option string) :=
  if _isFilePath filePath then
    let resolvedPath := resolve_from (path env) (cwd env) relativeTo filePath in
    let dirname := dirname (path env) resolvedPath in
    let ext := extname (path env) resolvedPath in
    match (if String.eqb ext ".js" then require env resolvedPath
           else readJSON env resolvedPath) with
    | inl e => inl e
    | inr t => inr (t, Some dirname)
    end
  else
    match require env filePath with
    | inl e => inl e
    | inr t => inr (t, None)
    end.

(** Lines 252-294.  Each call loads one more parent, so the recursion is
    bounded by the number of parents, [fuel]. *)
Fixpoint _load (fuel : nat) (filePath : string) (relativeTo : option string)
    (validate : option (val -> HM unit)) : RM val :=
  match fuel with
  | O => abort
  | S fuel' =>
      let relativeTo := default "" relativeTo in
      loadedFile <- ofHost (hostLoad filePath relativeTo) ;;
      config <- liftH (alloc_tree (fst loadedFile)) ;;
      match validate with
      | Some check => liftH (check config)
      | None => ret tt
      end ;;;
      if truthy config then
        e <- liftH (getKey config "extends") ;;
        if truthy e then
          applyExtendsWith (_load fuel') config filePath (snd loadedFile) validate
        else ret config
      else ret config
  end.

Definition _applyExtends (fuel : nat) := applyExtendsWith (_load fuel).

(** Line 400 *)
Definition referencedFrom (err : error) (loadedConfigs : list string) : error :=
  mkError (name err)
    (message err +:+ newline +:+ "Referenced from: " +:+ newline
       +:+ String.concat newline loadedConfigs).

(** Lines 383-417 *)
Definition _resolveExtends (fuel : nat) (config : val) : HM val :=
  e <- getKey config "extends" ;;
  if negb (truthy e) then jsonCopy depth config
  else
    let dirPath := cwd env in
    walk <- (fun h =>
      match _applyExtends fuel config dirPath (Some dirPath)
              (Some (fun c => preValidate c "config")) (h, []) with
      | (Ret v, (h', l)) => (Ret (v, l), h')
      | (Throw err, (h', l)) => (Throw (referencedFrom err l), h')
      | (Abort, (h', l)) => (Abort, h')
      end) ;;
    let resolvedConfig := fst walk in
    let loadedConfigs := snd walk in
    (if Nat.ltb 0 (length loadedConfigs) then
       deleteKey resolvedConfig "extends" ;;;
       arr <- alloc (OArr (map VStr loadedConfigs)) ;;
       setKey resolvedConfig "extends" arr
     else ret tt) ;;;
    plugins <- getKey resolvedConfig "plugins" ;;
    isArr <- isArrayM plugins ;;
    (if isArr then reverse plugins else ret tt) ;;;
    ret resolvedConfig.

(** Modelled from the spec: [ObjectUtil.safeSetAll(config, defaults,
    'set-undefined', false)] of the package typhonjs-object-util, which
    [setDefaultValues] calls: every key of the default-value mapping that is
    absent or [undefined] in the result is set, and no existing value is
    overwritten. *)
Definition safeSetAllUndefined (config : val) (defaults : tree) : HM unit :=
  match defaults with
  | TObj p =>
      forEach (fun kv =>
        cur <- getKey config (fst kv) ;;
        if String.eqb (typeof cur) "undefined" then
          v <- alloc_tree (snd kv) ;;
          setKey config (fst kv) v
        else ret tt) p
  | _ => ret tt
  end.

(** Lines 424-427 *)
Definition setDefaultValues (config : val) : HM unit :=
  if tree_truthy (_defaultValues this) then safeSetAllUndefined config (_defaultValues this)
  else ret tt.

(** Line 362 *)
Definition resolveGuard (config : val) : HM unit :=
  if negb (String.eqb (typeof config) "object")
  then typeError "'config' is not an 'object'."
  else ret tt.

(** Lines 360-373 *)
Definition resolve (fuel : nat) (config : val) : HM val :=
  resolveGuard config ;;;
  preValidate config "config" ;;;
  resolvedConfig <- _resolveExtends fuel config ;;
  setDefaultValues resolvedConfig ;;;
  postValidate resolvedConfig "config" ;;;
  ret resolvedConfig.

(** [resolve] on a configuration given as plain data, with the result read
    back as plain data: the store starts empty. *)
Definition resolveTree (fuel : nat) (config : tree) : res tree :=
  match (c <- alloc_tree config ;; resolve fuel c) [] with
  | (Ret v, h) =>
      match read_tree depth h v with
      | Some t => Ret t
      | None => Abort
      end
  | (Throw e, _) => Throw e
  | (Abort, _) => Abort
  end.

End Resolver.

(** ** The walk with a trace of its loads

    The walk of lines 43-73 and 252-294 once more, with one addition that
    the program does not have: [_load] notes the identifier it is called
    with in a trace, a third component of the state.  Everything else is the
    walk above, run on the first two components. *)

Definition TM (A : Type) : Type := M ((heap * list string) * list string) A.

Definition liftR {A} (m : RM A) : TM A :=
  fun s => let '(r, s') := m (fst s) in (r, (s', snd s)).

Definition note (id : string) : TM unit :=
  fun s => (Ret tt, (fst s, snd s ++ [id])).

Section Traced.

Variable env : Env.
Variable this : ConfigResolver.
Variable depth : nat.

Definition extendsStepT
    (load : string -> option string -> option (val -> HM unit) -> TM val)
    (filePath : string) (relativeTo : option string)
    (validate : option (val -> HM unit))
    (previousValue parentPath : val) : TM val :=
  match parentPath with
  | VStr p =>
      let parentPath := resolveParentPath env filePath relativeTo p in
      loadedConfigs <- liftR loaded ;;
      if existsb (String.eqb parentPath) loadedConfigs then ret previousValue
      else
        liftR (pushLoaded parentPath) ;;;
        parent <- load parentPath relativeTo validate ;;
        liftR (liftH (_deepMerge this depth parent previousValue false None))
  | _ => typeError "Path must be a string"
  end.

Definition applyExtendsWithT
    (load : string -> option string -> option (val -> HM unit) -> TM val)
    (config : val) (filePath : string) (relativeTo : option string)
    (validate : option (val -> HM unit)) : TM val :=
  e <- liftR (liftH (getKey config "extends")) ;;
  a <- liftR (liftH (isArrayM e)) ;;
  configExtends <- (if a then liftR (liftH (arrayElems e "reduceRight")) else ret [e]) ;;
  reduceM (extendsStepT load filePath relativeTo validate) (rev configExtends) config.

Fixpoint _loadT (fuel : nat) (filePath : string) (relativeTo : option string)
    (validate : option (val -> HM unit)) : TM val :=
  note filePath ;;;
  match fuel with
  | O => abort
  | S fuel' =>
      let relativeTo := default "" relativeTo in
      loadedFile <- liftR (ofHost (hostLoad env filePath relativeTo)) ;;
      config <- liftR (liftH (alloc_tree (fst loadedFile))) ;;
      match validate with
      | Some check => liftR (liftH (check config))
      | None => ret tt
      end ;;;
      if truthy config then
        e <- liftR (liftH (getKey config "extends")) ;;
        if truthy e then
          applyExtendsWithT (_loadT fuel') config filePath (snd loadedFile) validate
        else ret config
      else ret config
  end.

Definition _applyExtendsT (fuel : nat) := applyExtendsWithT (_loadT fuel).

End Traced.

(** ** [setResolverData] and [getResolverData] *)

(** The destructured parameter [{ name = {} }]: the default applies when the
    property is [undefined]. *)
Definition fieldOr (data : tree) (k : string) (dflt : tree) : tree :=
  match data with
  | TObj p =>
      match assoc_get k p with
      | Some TUndef | None => dflt
      | Some t => t
      end
  | _ => dflt
  end.

(** Lines 434-464.  The instance is the state; the parameter defaults to
    [{}] when it is [undefined], and destructuring [null] throws. *)
Definition setResolverData (data : tree) : M ConfigResolver unit :=
  match data with
  | TNull => typeError "Cannot destructure 'null' as it is null."
  | _ =>
      let data := match data with TUndef => TObj [] | _ => data end in
      let defaultValues := fieldOr data "defaultValues" (TObj []) in
      let preValidate := fieldOr data "preValidate" (TObj []) in
      let postValidate := fieldOr data "postValidate" (TObj []) in
      let upgradeMergeList := fieldOr data "upgradeMergeList" (TArr []) in
      if negb (String.eqb (tree_typeof defaultValues) "object")
      then typeError "'defaultValues' is not an 'object'."
      else if negb (String.eqb (tree_typeof preValidate) "object")
      then typeError "'preValidate' is not an 'object'."
      else if negb (String.eqb (tree_typeof postValidate) "object")
      then typeError "'postValidate' is not an 'object'."
      else
        match upgradeMergeList with
        | TArr elems =>
            this <- get ;;
            put (mkResolver defaultValues (_preValidate this) (_postValidate this)
                   (_upgradeMergeList this)) ;;;
            this <- get ;;
            put (mkResolver (_defaultValues this) preValidate (_postValidate this)
                   (_upgradeMergeList this)) ;;;
            this <- get ;;
            put (mkResolver (_defaultValues this) (_preValidate this) postValidate
                   (_upgradeMergeList this)) ;;;
            this <- get ;;
            put (mkResolver (_defaultValues this) (_preValidate this) (_postValidate this)
                   elems)
        | _ => typeError "'upgradeMergeList' is not an 'array'."
        end
  end.

(** Lines 215-223 *)
Definition getResolverData (this : ConfigResolver) : tree :=
  TObj [("defaultValues", _defaultValues this);
        ("preValidate", _preValidate this);
        ("postValidate", _postValidate this);
        ("upgradeMergeList", TArr (_upgradeMergeList this))].

(** ** [onPluginLoad] *)

(** The methods of the instance that [onPluginLoad] binds. *)
Inductive handler := HResolve | HPreValidate | HPostValidate.

(** An event bus of the plugin manager as [onPluginLoad] uses it: the
    bindings made by [eventbus.on], in order.  The buses live in a store of
    their own, and a value names a bus by its place there. *)
Definition binding : Type := string * handler.

Definition buses : Type := list (list binding).

(** The plugin event: [ev.eventbus], which is a bus or [undefined], and
    [ev.pluginOptions]. *)
Record PluginEvent := mkEvent {
  eventbus : option loc;
  pluginOptions : tree
}.

(** The instance with its field [_eventbus], which the constructor does not
    set ([None] is [undefined]). *)
Record Plugin := mkPlugin {
  resolver : ConfigResolver;
  _eventbus : option loc
}.

(** The state of [onPluginLoad]: the instance and the store of the buses. *)
Definition PM (A : Type) : Type := M (Plugin * buses) A.

Definition liftThis {A} (m : M ConfigResolver A) : PM A :=
  fun s =>
    let '(r, this') := m (resolver (fst s)) in
    (r, (mkPlugin this' (_eventbus (fst s)), snd s)).

(** [this._eventbus = eventbus] *)
Definition setEventbus (bus : option loc) : PM unit :=
  fun s => (Ret tt, (mkPlugin (resolver (fst s)) bus, snd s)).

(** [options.name] for the plugin options of the event. *)
Definition optionOf (options : tree) (k : string) : PM tree :=
  match options with
  | TUndef => typeError ("Cannot read property '" ++ k ++ "' of undefined")
  | TNull => typeError ("Cannot read property '" ++ k ++ "' of null")
  | TObj p => ret (default TUndef (assoc_get k p))
  | _ => ret TUndef
  end.

(** The prefix of the event names: [`${options.eventPrepend}:`] for a
    string, and [''] else. *)
Definition eventPrepend (prepend : tree) : string :=
  match prepend with
  | TStr s => s +:+ ":"
  | _ => ""
  end.

Section PluginLoad.

(** The event bus is an object of the plugin manager: whether [on] throws
    rather than binds, given the bindings the bus has and the name to bind,
    is its own affair. *)
Variable onThrows : list binding -> string -> option error.

(** [eventbus.on(name, method, this)] *)
Definition on (bus : option loc) (name : string) (m : handler) : PM unit :=
  match bus with
  | None => typeError "Cannot read property 'on' of undefined"
  | Some l =>
      fun s =>
        match snd s !! l with
        | None => (Abort, s)
        | Some bound =>
            match onThrows bound name with
            | Some e => (Throw e, s)
            | None => (Ret tt, (fst s, <[l := bound ++ [(name, m)]]> (snd s)))
            end
        end
  end.

(** Lines 305-326 *)
Definition onPluginLoad (ev : PluginEvent) : PM unit :=
  let eventbus := eventbus ev in
  let options := pluginOptions ev in
  setEventbus eventbus ;;;
  resolverData <- optionOf options "resolverData" ;;
  (if String.eqb (tree_typeof resolverData) "object"
   then liftThis (setResolverData resolverData)
   else ret tt) ;;;
  prepend <- optionOf options "eventPrepend" ;;
  on eventbus (eventPrepend prepend +:+ "config:resolver:resolve") HResolve ;;;
  on eventbus (eventPrepend prepend +:+ "config:resolver:validate:pre") HPreValidate ;;;
  on eventbus (eventPrepend prepend +:+ "config:resolver:validate:post") HPostValidate.

End PluginLoad.

(** * Reasoning about computations

    [post m s Q E]: run from [s], [m] either returns a value and a state that
    satisfy [Q], or stops (by an exception or by [Abort]) in a state that
    satisfies [E]. *)

Definition post {S A} (m : M S A) (s : S) (Q : A -> S -> Prop) (E : S -> Prop) : Prop :=
  match m s with
  | (Ret a, s') => Q a s'
  | (_, s') => E s'
  end.

Lemma post_ret {S A} (a : A) (s : S) Q E : Q a s -> post (ret a) s Q E.
Proof. intros H. exact H. Qed.

Lemma post_throw {S A} (e : error) (s : S) (Q : A -> S -> Prop) E :
  E s -> post (throw e) s Q E.
Proof. intros H. exact H. Qed.

Lemma post_typeError {S A} (msg : string) (s : S) (Q : A -> S -> Prop) E :
  E s -> post (typeError msg) s Q E.
Proof. intros H. exact H. Qed.

Lemma post_abort {S A} (s : S) (Q : A -> S -> Prop) E : E s -> post abort s Q E.
Proof. intros H. exact H. Qed.

Lemma post_bind {S A B} (m : M S A) (f : A -> M S B) s Q E :
  post m s (fun a s' => post (f a) s' Q E) E -> post (bind m f) s Q E.
Proof.
  unfold post, bind. destruct (m s) as [[a | e |] s']; auto.
Qed.

Lemma post_seq {S A B} (m : M S A) (f : A -> M S B) s (R : A -> S -> Prop) Q E :
  post m s R E ->
  (forall a s', R a s' -> post (f a) s' Q E) ->
  post (bind m f) s Q E.
Proof.
  unfold post, bind. destruct (m s) as [[a | e |] s']; auto.
  intros HR Hf. apply (Hf a s' HR).
Qed.

Lemma post_mono {S A} (m : M S A) s (Q Q' : A -> S -> Prop) (E E' : S -> Prop) :
  post m s Q E ->
  (forall a s', Q a s' -> Q' a s') ->
  (forall s', E s' -> E' s') ->
  post m s Q' E'.
Proof.
  unfold post. destruct (m s) as [[a | e |] s']; auto.
Qed.

Lemma post_conj {S A} (m : M S A) s (Q1 Q2 : A -> S -> Prop) (E1 E2 : S -> Prop) :
  post m s Q1 E1 -> post m s Q2 E2 ->
  post m s (fun a s' => Q1 a s' /\ Q2 a s') (fun s' => E1 s' /\ E2 s').
Proof.
  unfold post. destruct (m s) as [[a | e |] s']; auto.
Qed.

Lemma post_returns {S A} (m : M S A) s a s' Q E :
  m s = (Ret a, s') -> post m s Q E -> Q a s'.
Proof. unfold post. intros ->. auto. Qed.

Lemma post_stops {S A} (m : M S A) s (r : res A) s' Q E :
  m s = (r, s') -> post m s Q E -> (forall a, r <> Ret a) -> E s'.
Proof.
  unfold post. intros ->. destruct r; auto. intros _ H. now destruct (H a).
Qed.

Lemma post_any {S A} (m : M S A) s r s' (P : S -> Prop) :
  m s = (r, s') -> post m s (fun _ => P) P -> P s'.
Proof. unfold post. intros ->. destruct r; auto. Qed.

Lemma post_if {S A} (b : bool) (m1 m2 : M S A) s Q E :
  (b = true -> post m1 s Q E) -> (b = false -> post m2 s Q E) ->
  post (if b then m1 else m2) s Q E.
Proof. destruct b; auto. Qed.

(** A loop keeps an invariant that each round keeps. *)
Lemma post_forEach {S A} (f : A -> M S unit) (l : list A) (I : S -> Prop) (E : S -> Prop) s :
  I s ->
  (forall x s, In x l -> I s -> post (f x) s (fun _ s' => I s') E) ->
  post (forEach f l) s (fun _ s' => I s') E.
Proof.
  revert s. induction l as [| x r IH]; intros s Hs Hf; simpl.
  - apply post_ret. exact Hs.
  - apply post_bind. eapply post_mono.
    + apply Hf; [now left | exact Hs].
    + intros u s' Hs'. apply IH; [exact Hs' |].
      intros y s0 Hy. apply Hf. now right.
    + auto.
Qed.

(** The same with an invariant that knows the rounds already done. *)
Lemma post_forEach_done {S A} (f : A -> M S unit) (l : list A)
    (I : list A -> S -> Prop) (E : S -> Prop) s :
  I [] s ->
  (forall pre x s, (exists suf, l = pre ++ x :: suf) -> I pre s ->
     post (f x) s (fun _ s' => I (pre ++ [x]) s') E) ->
  post (forEach f l) s (fun _ s' => I l s') E.
Proof.
  intros H0 Hstep.
  assert (G : forall todo pre s, l = pre ++ todo -> I pre s ->
              post (forEach f todo) s (fun _ s' => I l s') E).
  { induction todo as [| x r IH]; intros pre s0 Hl Hpre; simpl.
    - apply post_ret. rewrite Hl, app_nil_r. exact Hpre.
    - apply post_bind. eapply post_mono.
      + apply (Hstep pre x s0); [exists r; exact Hl | exact Hpre].
      + intros u s' Hs'. apply (IH (pre ++ [x])); [| exact Hs'].
        rewrite <- app_assoc. exact Hl.
      + auto. }
  apply (G l [] s); auto.
Qed.

Lemma post_reduceM {S A B} (f : B -> A -> M S B) (l : list A) (I : B -> S -> Prop)
    (E : S -> Prop) b s :
  I b s ->
  (forall b x s, In x l -> I b s -> post (f b x) s I E) ->
  post (reduceM f l b) s I E.
Proof.
  revert b s. induction l as [| x r IH]; intros b s Hs Hf; simpl.
  - apply post_ret. exact Hs.
  - apply post_bind. eapply post_mono.
    + apply Hf; [now left | exact Hs].
    + intros b' s' Hs'. apply IH; [exact Hs' |].
      intros b0 y s0 Hy. apply Hf. now right.
    + auto.
Qed.

(** ** Computations that only read the store *)

Definition readonly {A} (m : HM A) : Prop := forall h, snd (m h) = h.

Lemma post_bind_read {A B} (m : HM A) (f : A -> HM B) h Q E :
  readonly m ->
  E h ->
  (forall a, m h = (Ret a, h) -> post (f a) h Q E) ->
  post (bind m f) h Q E.
Proof.
  intros Hro HE Hk. unfold post, bind. specialize (Hro h).
  destruct (m h) as [[a | e |] h'] eqn:Hm; simpl in Hro; subst h'; auto.
  apply (Hk a eq_refl).
Qed.

Lemma post_read {A} (m : HM A) h (P : heap -> Prop) :
  readonly m -> P h -> post m h (fun _ => P) P.
Proof.
  intros Hro HP. unfold post. specialize (Hro h).
  destruct (m h) as [[a | e |] h']; simpl in Hro; subst h'; auto.
Qed.

Lemma readonly_ret {A} (a : A) : readonly (ret a).
Proof. intros h. reflexivity. Qed.

Lemma readonly_throw {A} (e : error) : readonly (throw (A := A) e).
Proof. intros h. reflexivity. Qed.

Lemma readonly_abort {A} : readonly (abort (A := A)).
Proof. intros h. reflexivity. Qed.

Lemma readonly_bind {A B} (m : HM A) (f : A -> HM B) :
  readonly m -> (forall a, readonly (f a)) -> readonly (bind m f).
Proof.
  intros Hm Hf h. unfold bind. specialize (Hm h).
  destruct (m h) as [[a | e |] h']; simpl in *; subst; auto. apply Hf.
Qed.

Lemma readonly_isArrayM v : readonly (isArrayM v).
Proof. intros h. reflexivity. Qed.

Lemma readonly_readObj l : readonly (readObj l).
Proof. intros h. unfold readObj. destruct (h !! l); reflexivity. Qed.

Lemma readonly_get : readonly get.
Proof. intros h. reflexivity. Qed.

Create HintDb readonly.
#[local] Hint Resolve readonly_ret readonly_throw readonly_abort readonly_isArrayM
  readonly_readObj readonly_get : readonly.

Ltac readonly_tac :=
  repeat first
    [ apply readonly_ret | apply readonly_throw | apply readonly_abort
    | apply readonly_isArrayM | apply readonly_readObj | apply readonly_get
    | apply readonly_bind; [| intros ? ]
    | match goal with
      | |- readonly (typeError _) => apply readonly_throw
      | |- readonly (match ?x with _ => _ end) => destruct x
      | |- readonly (if ?x then _ else _) => destruct x
      end ].

Lemma readonly_getKey v k : readonly (getKey v k).
Proof. unfold getKey. readonly_tac. Qed.

Lemma readonly_getIdx v i : readonly (getIdx v i).
Proof. unfold getIdx. readonly_tac. Qed.

Lemma readonly_objectKeys v : readonly (objectKeys v).
Proof. unfold objectKeys. readonly_tac. Qed.

Lemma readonly_arrayElems v what : readonly (arrayElems v what).
Proof. unfold arrayElems. readonly_tac. Qed.

Lemma readonly_notIn a x : readonly (notIn a x).
Proof. unfold notIn. readonly_tac. apply readonly_arrayElems. Qed.

Lemma readonly_sameName p d : readonly (sameName p d).
Proof. unfold sameName. readonly_tac; apply readonly_getKey. Qed.

Lemma readonly_findFrom p l i :
  (forall x, readonly (p x)) -> readonly (findFrom p l i).
Proof.
  intros Hp. revert i. induction l as [| x r IH]; intros i; simpl.
  - apply readonly_ret.
  - apply readonly_bind; [apply Hp |]. intros [|]; [apply readonly_ret | apply IH].
Qed.

#[local] Hint Resolve readonly_getKey readonly_getIdx readonly_objectKeys
  readonly_arrayElems readonly_notIn readonly_sameName readonly_findFrom : readonly.

(** ** What a merge may change in the store

    [ext n h h']: every object of [h] is still there in [h'], with its kind
    (array or mapping).  Below the location [n], moreover, an array is
    unchanged, and a mapping has the same entries in the same order, each
    with its value, unless the key is in the upgrade-merge list and the
    value, not an array before, is an array now. *)

Section Frame.

Variable this : ConfigResolver.

Definition upgraded (h h' : heap) (k : string) (v v' : val) : Prop :=
  v' = v \/
  (inUpgradeMergeList this k = true /\ isArray h v = false /\ isArray h' v' = true).

Definition entry_ext (h h' : heap) (e e' : string * val) : Prop :=
  fst e' = fst e /\ upgraded h h' (fst e) (snd e) (snd e').

Definition obj_ext (h h' : heap) (o o' : obj) : Prop :=
  match o, o' with
  | OArr a, OArr a' => a' = a
  | OObj p, OObj p' => Forall2 (entry_ext h h') p p'
  | _, _ => False
  end.

(** Same kind, and a mapping has lost no key. *)
Definition same_kind (o o' : obj) : Prop :=
  match o, o' with
  | OArr _, OArr _ => True
  | OObj p, OObj p' => incl (map fst p) (map fst p')
  | _, _ => False
  end.

Definition kinds_kept (h h' : heap) : Prop :=
  forall l o, h !! l = Some o -> exists o', h' !! l = Some o' /\ same_kind o o'.

Definition ext (n : nat) (h h' : heap) : Prop :=
  kinds_kept h h' /\
  forall l o, l < n -> h !! l = Some o -> exists o', h' !! l = Some o' /\ obj_ext h h' o o'.

(** The frame of a whole call: all the objects there were before it. *)
Definition heap_ext (h h' : heap) : Prop := ext (length h) h h'.

Lemma same_kind_refl o : same_kind o o.
Proof. destruct o; simpl; [exact I | apply incl_refl]. Qed.

Lemma same_kind_trans o1 o2 o3 : same_kind o1 o2 -> same_kind o2 o3 -> same_kind o1 o3.
Proof.
  destruct o1, o2, o3; simpl; auto; try contradiction. apply incl_tran.
Qed.

Lemma entries_kept h h' p : Forall2 (entry_ext h h') p p.
Proof.
  induction p as [| e r IH]; constructor; [| exact IH]. split; [reflexivity | now left].
Qed.

Lemma obj_ext_refl h o : obj_ext h h o o.
Proof. destruct o as [a | p]; simpl; [reflexivity | apply entries_kept]. Qed.

Lemma entries_keys h h' p p' : Forall2 (entry_ext h h') p p' -> map fst p' = map fst p.
Proof.
  induction 1 as [| e e' r r' [He _] _ IH]; simpl; [reflexivity | now rewrite He, IH].
Qed.

Lemma entries_get h h' p p' k v :
  Forall2 (entry_ext h h') p p' -> assoc_get k p = Some v ->
  exists v', assoc_get k p' = Some v' /\ upgraded h h' k v v'.
Proof.
  induction 1 as [| [k0 v0] [k0' v0'] r r' [He Hu] _ IH]; simpl; [discriminate |].
  simpl in He, Hu. subst k0'. destruct (String.eqb k k0) eqn:E.
  - intros [= <-]. apply String.eqb_eq in E. subst k0. eauto.
  - exact IH.
Qed.

Lemma kinds_kept_refl h : kinds_kept h h.
Proof. intros l o Hl. exists o. split; [exact Hl | apply same_kind_refl]. Qed.

Lemma kinds_kept_trans h1 h2 h3 : kinds_kept h1 h2 -> kinds_kept h2 h3 -> kinds_kept h1 h3.
Proof.
  intros H1 H2 l o Hl. destruct (H1 l o Hl) as (o2 & Hl2 & Hk2).
  destruct (H2 l o2 Hl2) as (o3 & Hl3 & Hk3). exists o3. split; [exact Hl3 |].
  eapply same_kind_trans; eauto.
Qed.

Lemma kinds_kept_length h h' : kinds_kept h h' -> length h <= length h'.
Proof.
  intros Hk. destruct (decide (length h = 0)) as [-> | Hne]; [lia |].
  destruct (lookup_lt_is_Some_2 h (length h - 1)) as [o Ho]; [lia |].
  destruct (Hk _ _ Ho) as (o' & Ho' & _). apply lookup_lt_Some in Ho'. lia.
Qed.

Lemma ext_refl n h : ext n h h.
Proof.
  split; [apply kinds_kept_refl |]. intros l o _ Hl. exists o. split; [exact Hl | apply obj_ext_refl].
Qed.

Lemma ext_length n h h' : ext n h h' -> length h <= length h'.
Proof. intros [Hk _]. now apply kinds_kept_length. Qed.

Lemma ext_weaken m n h h' : m <= n -> ext n h h' -> ext m h h'.
Proof.
  intros Hmn [Hk Hobj]. split; [exact Hk |]. intros l o Hl. apply Hobj. lia.
Qed.

Lemma isArray_kept h h' v : kinds_kept h h' -> isArray h v = true -> isArray h' v = true.
Proof.
  intros Hk. destruct v as [| | | | | l]; simpl; try discriminate.
  destruct (h !! l) as [[a | p] |] eqn:Hl; try discriminate. intros _.
  destruct (Hk l _ Hl) as (o' & -> & Ho).
  destruct o'; simpl in Ho; [reflexivity | contradiction].
Qed.

Lemma isArray_kept_false h h' v :
  kinds_kept h h' -> isArray h' v = false -> isArray h v = false.
Proof.
  intros Hk Hf. destruct (isArray h v) eqn:Ha; [| reflexivity].
  rewrite (isArray_kept h h' v Hk Ha) in Hf. discriminate.
Qed.

Lemma isArray_mono n h h' v : ext n h h' -> isArray h v = true -> isArray h' v = true.
Proof. intros [Hk _]. now apply isArray_kept. Qed.

Lemma upgraded_trans h h1 h2 k v v1 v2 :
  kinds_kept h h1 -> kinds_kept h1 h2 ->
  upgraded h h1 k v v1 -> upgraded h1 h2 k v1 v2 -> upgraded h h2 k v v2.
Proof.
  intros K1 K2 Hu1 Hu2.
  destruct Hu1 as [-> | (Hin & Hna & Ha1)].
  - destruct Hu2 as [-> | (Hin & Hna & Ha2)]; [now left | right].
    repeat split; auto. eapply isArray_kept_false; eauto.
  - destruct Hu2 as [-> | (_ & Hna2 & _)]; [| congruence].
    right. repeat split; auto. eapply isArray_kept; eauto.
Qed.

Lemma obj_ext_trans h h1 h2 o o1 o2 :
  kinds_kept h h1 -> kinds_kept h1 h2 ->
  obj_ext h h1 o o1 -> obj_ext h1 h2 o1 o2 -> obj_ext h h2 o o2.
Proof.
  intros K1 K2 Ho1 Ho2.
  destruct o as [a | p], o1 as [a1 | p1]; simpl in Ho1; try contradiction;
    destruct o2 as [a2 | p2]; simpl in Ho2; try contradiction; simpl.
  - congruence.
  - revert p2 Ho2. induction Ho1 as [| e e1 r r1 [He1 Hu1] _ IH]; intros p2 Ho2.
    + inversion Ho2. constructor.
    + inversion Ho2 as [| ? e2 ? r2 [He2 Hu2] Hr2]; subst. constructor; [| now apply IH].
      split; [congruence |]. rewrite He1 in Hu2. eapply upgraded_trans; eauto.
Qed.

Lemma ext_trans n h h1 h2 : ext n h h1 -> ext n h1 h2 -> ext n h h2.
Proof.
  intros [K1 O1] [K2 O2]. split; [eapply kinds_kept_trans; eauto |].
  intros l o Hn Hl.
  destruct (O1 l o Hn Hl) as (o1 & Hl1 & Ho1).
  destruct (O2 l o1 Hn Hl1) as (o2 & Hl2 & Ho2).
  exists o2. split; [exact Hl2 |]. eapply obj_ext_trans; eauto.
Qed.

Lemma kinds_kept_alloc h o : kinds_kept h (h ++ [o]).
Proof.
  intros l o0 Hl. exists o0. split; [| apply same_kind_refl].
  rewrite lookup_app_l by (eapply lookup_lt_Some; eauto). exact Hl.
Qed.

Lemma kinds_kept_write h l o o' :
  h !! l = Some o -> same_kind o o' -> kinds_kept h (<[l := o']> h).
Proof.
  intros Hl Hk l0 o0 Hl0. destruct (decide (l = l0)) as [<- | Hne].
  - exists o'. split; [apply list_lookup_insert_eq; eapply lookup_lt_Some; eauto |].
    congruence.
  - exists o0. split; [now rewrite list_lookup_insert_ne | apply same_kind_refl].
Qed.

Lemma obj_ext_kept h h' o : kinds_kept h h' -> obj_ext h h' o o.
Proof. intros _. destruct o as [a | p]; simpl; [reflexivity | apply entries_kept]. Qed.

Lemma ext_alloc n h o : ext n h (h ++ [o]).
Proof.
  split; [apply kinds_kept_alloc |]. intros l o0 _ Hl. exists o0. split.
  - rewrite lookup_app_l by (eapply lookup_lt_Some; eauto). exact Hl.
  - apply obj_ext_kept, kinds_kept_alloc.
Qed.

(** Writing, without a change of kind, at or above the bound. *)
Lemma ext_write n h l o o' :
  n <= l -> h !! l = Some o -> same_kind o o' -> ext n h (<[l := o']> h).
Proof.
  intros Hn Hl Hk. split; [eapply kinds_kept_write; eauto |].
  intros l0 o0 Hl0n Hl0. exists o0. split.
  - rewrite list_lookup_insert_ne; [exact Hl0 | lia].
  - eapply obj_ext_kept, kinds_kept_write; eauto.
Qed.

Lemma assoc_get_set_eq {A} k (v : A) p : assoc_get k (assoc_set k v p) = Some v.
Proof.
  induction p as [| [k' v'] r IH]; simpl.
  - now rewrite String.eqb_refl.
  - destruct (String.eqb k k') eqn:E; simpl; rewrite E; auto.
Qed.

Lemma assoc_get_set_ne {A} k k' (v : A) p :
  k <> k' -> assoc_get k' (assoc_set k v p) = assoc_get k' p.
Proof.
  intros Hne. induction p as [| [k0 v0] r IH]; simpl.
  - destruct (String.eqb k' k) eqn:E; [| reflexivity].
    apply String.eqb_eq in E. congruence.
  - destruct (String.eqb k k0) eqn:E; simpl.
    + apply String.eqb_eq in E. subst k0.
      destruct (String.eqb k' k) eqn:E'; [| reflexivity].
      apply String.eqb_eq in E'. congruence.
    + destruct (String.eqb k' k0); auto.
Qed.

Lemma assoc_get_In {A} k (p : list (string * A)) :
  In k (map fst p) -> exists v, assoc_get k p = Some v.
Proof.
  induction p as [| [k' v'] r IH]; simpl; [contradiction |].
  intros [-> | Hin].
  - rewrite String.eqb_refl. eauto.
  - destruct (String.eqb k k'); eauto.
Qed.

Lemma assoc_get_Some_In {A} k (v : A) p : assoc_get k p = Some v -> In k (map fst p).
Proof.
  induction p as [| [k' v'] r IH]; simpl; [discriminate |].
  destruct (String.eqb k k') eqn:E.
  - apply String.eqb_eq in E. auto.
  - auto.
Qed.

Lemma assoc_set_keys {A} k (v : A) p :
  In k (map fst p) -> map fst (assoc_set k v p) = map fst p.
Proof.
  induction p as [| [k' v'] r IH]; simpl; [contradiction |].
  intros Hin. destruct (String.eqb k k') eqn:E; simpl; [reflexivity |].
  f_equal. apply IH. destruct Hin as [-> | Hin]; [| exact Hin].
  rewrite String.eqb_refl in E. discriminate.
Qed.

Lemma assoc_set_incl {A} k (v : A) p : incl (map fst p) (map fst (assoc_set k v p)).
Proof.
  induction p as [| [k' v'] r IH]; simpl; [intros x [] |].
  destruct (String.eqb k k'); simpl; [apply incl_refl |].
  intros x [-> | Hx]; [now left | right; now apply IH].
Qed.

Lemma entries_upgrade h h2 k arr p :
  inUpgradeMergeList this k = true ->
  isArray h (default VUndef (assoc_get k p)) = false ->
  isArray h2 arr = true ->
  In k (map fst p) ->
  Forall2 (entry_ext h h2) p (assoc_set k arr p).
Proof.
  intros Hin Hna Harr. induction p as [| [k0 v0] r IH]; simpl in *; [contradiction |].
  destruct (String.eqb k k0) eqn:E; simpl.
  - intros _. apply String.eqb_eq in E. subst k0.
    constructor; [| apply entries_kept].
    split; [reflexivity |]. right. auto.
  - intros [-> | Hk]; [rewrite String.eqb_refl in E; discriminate |].
    constructor; [split; [reflexivity | now left] | now apply IH].
Qed.

(** The write of [upgradeKey], with the allocation before it: under a key
    of the upgrade-merge list, a value that is not an array is replaced by a
    new one-element array that holds it. *)
Lemma ext_upgrade n h l p k :
  h !! l = Some (OObj p) ->
  inUpgradeMergeList this k = true ->
  isArray h (default VUndef (assoc_get k p)) = false ->
  In k (map fst p) ->
  ext n h (<[l := OObj (assoc_set k (VRef (length h)) p)]>
             (h ++ [OArr [default VUndef (assoc_get k p)]])).
Proof.
  intros Hl Hin Hna Hk.
  set (h1 := h ++ [OArr [default VUndef (assoc_get k p)]]).
  set (arr := VRef (length h)).
  assert (Hl1 : h1 !! l = Some (OObj p)).
  { unfold h1. rewrite lookup_app_l by (eapply lookup_lt_Some; eauto). exact Hl. }
  assert (Hkind : same_kind (OObj p) (OObj (assoc_set k arr p))) by apply assoc_set_incl.
  assert (K : kinds_kept h (<[l := OObj (assoc_set k arr p)]> h1)).
  { eapply kinds_kept_trans; [apply kinds_kept_alloc |].
    eapply kinds_kept_write; eauto. }
  assert (Harr : isArray (<[l := OObj (assoc_set k arr p)]> h1) arr = true).
  { unfold arr, isArray. rewrite list_lookup_insert_ne.
    - unfold h1. rewrite lookup_app_r by lia. now rewrite Nat.sub_diag.
    - apply lookup_lt_Some in Hl. lia. }
  split; [exact K |].
  intros l0 o0 _ Hl0. destruct (decide (l = l0)) as [<- | Hne].
  - exists (OObj (assoc_set k arr p)). split.
    + apply list_lookup_insert_eq. eapply lookup_lt_Some; eauto.
    + rewrite Hl in Hl0. injection Hl0 as <-. simpl.
      apply entries_upgrade; auto.
  - exists o0. split.
    + rewrite list_lookup_insert_ne by exact Hne.
      unfold h1. rewrite lookup_app_l by (eapply lookup_lt_Some; eauto). exact Hl0.
    + now apply obj_ext_kept.
Qed.

End Frame.

(** ** The frame of [_deepMerge] *)

Section MergeFrame.

Variable this : ConfigResolver.

(** A reference at or above [n]; a value that is no reference cannot be
    written to at all. *)
Definition above (n : nat) (v : val) : Prop :=
  match v with
  | VRef l => n <= l
  | _ => True
  end.

Lemma readObj_ret l h o h' : readObj l h = (Ret o, h') -> h !! l = Some o /\ h' = h.
Proof.
  unfold readObj. destruct (h !! l); intros E; inversion E; subst; auto.
Qed.

Lemma sp_alloc n hb h o :
  ext this n hb h ->
  post (alloc o) h
    (fun v h' => ext this n hb h' /\ v = VRef (length h) /\ h' = h ++ [o])
    (ext this n hb).
Proof.
  intros H. unfold post, alloc. split; [| auto].
  eapply ext_trans; [exact H | apply ext_alloc].
Qed.

Lemma sp_writeObj n hb h l o' :
  ext this n hb h -> n <= l ->
  (forall o, h !! l = Some o -> same_kind o o') ->
  post (writeObj l o') h (fun _ => ext this n hb) (ext this n hb).
Proof.
  intros H Hn Hk. unfold post, writeObj. destruct (h !! l) as [o |] eqn:E; [| exact H].
  eapply ext_trans; [exact H |]. eapply ext_write; eauto.
Qed.

Ltac fr_read :=
  apply post_bind_read; [solve [auto with readonly] | assumption | intros ? ?].

Ltac fr_obj H :=
  apply readObj_ret in H; destruct H as [H _].

Lemma sp_setKey n hb h v k x :
  ext this n hb h -> above n v ->
  post (setKey v k x) h (fun _ => ext this n hb) (ext this n hb).
Proof.
  intros H Ha. destruct v as [| | | | | l]; simpl; try (apply post_typeError; exact H).
  fr_read. fr_obj H0. destruct a as [a | p].
  - match goal with |- post (match ?j with _ => _ end) _ _ _ => destruct j end;
      [| apply post_abort; exact H].
    apply sp_writeObj; auto. intros o Ho. rewrite H0 in Ho. injection Ho as <-. exact I.
  - apply sp_writeObj; auto. intros o Ho. rewrite H0 in Ho. injection Ho as <-.
    apply assoc_set_incl.
Qed.

Lemma sp_setIdx n hb h v i x :
  ext this n hb h -> above n v ->
  post (setIdx v i x) h (fun _ => ext this n hb) (ext this n hb).
Proof.
  intros H Ha. destruct v as [| | | | | l]; simpl; try (apply post_typeError; exact H).
  fr_read. fr_obj H0. destruct a as [a | p].
  - apply sp_writeObj; auto. intros o Ho. rewrite H0 in Ho. injection Ho as <-. exact I.
  - apply sp_writeObj; auto. intros o Ho. rewrite H0 in Ho. injection Ho as <-.
    apply assoc_set_incl.
Qed.

Lemma sp_setElems n hb h v a :
  ext this n hb h -> above n v ->
  post (setElems v a) h (fun _ => ext this n hb) (ext this n hb).
Proof.
  intros H Ha. destruct v as [| | | | | l]; simpl; try (apply post_abort; exact H).
  fr_read. fr_obj H0. destruct a0 as [a0 | p]; [| apply post_abort; exact H].
  apply sp_writeObj; auto. intros o Ho. rewrite H0 in Ho. injection Ho as <-. exact I.
Qed.

Lemma sp_push n hb h v x :
  ext this n hb h -> above n v ->
  post (push v x) h (fun _ => ext this n hb) (ext this n hb).
Proof. intros H Ha. unfold push. fr_read. now apply sp_setElems. Qed.

Lemma sp_unshift n hb h v x :
  ext this n hb h -> above n v ->
  post (unshift v x) h (fun _ => ext this n hb) (ext this n hb).
Proof. intros H Ha. unfold unshift. fr_read. now apply sp_setElems. Qed.

Lemma sp_splice1 n hb h v i :
  ext this n hb h -> above n v ->
  post (splice1 v i) h (fun _ => ext this n hb) (ext this n hb).
Proof. intros H Ha. unfold splice1. fr_read. now apply sp_setElems. Qed.

Lemma sp_concatInto n hb h v :
  ext this n hb h ->
  post (concatInto v) h
    (fun d h' => ext this n hb h' /\ d = VRef (length h) /\ isArray h' d = true)
    (ext this n hb).
Proof.
  intros H. unfold concatInto. fr_read.
  assert (G : forall a0, post (alloc (OArr a0)) h
            (fun d h' => ext this n hb h' /\ d = VRef (length h) /\ isArray h' d = true)
            (ext this n hb)).
  { intros a0. unfold post, alloc. split; [| split; [reflexivity |]].
    - eapply ext_trans; [exact H | apply ext_alloc].
    - unfold isArray. rewrite lookup_app_r by lia. now rewrite Nat.sub_diag. }
  destruct a; [fr_read |]; apply G.
Qed.

(** What the recursive call is assumed to do, and [_deepMerge] is proved to
    do: it changes the store within [heap_ext] and returns a reference that
    did not exist, to an array exactly when an operand is an array. *)
Definition rec_ok (rec : val -> val -> bool -> option string -> HM val) : Prop :=
  forall t s c pk h,
    post (rec t s c pk) h
      (fun d h' => heap_ext this h h' /\
         exists l, d = VRef l /\ length h <= l /\
                   isArray h' d = (isArray h s || isArray h t))
      (heap_ext this h).

Lemma rec_lift rec n hb h t s c pk :
  rec_ok rec -> n <= length hb -> ext this n hb h ->
  post (rec t s c pk) h
    (fun d h' => ext this n hb h' /\ kinds_kept h h' /\
       exists l, d = VRef l /\ length h <= l /\
                 isArray h' d = (isArray h s || isArray h t))
    (ext this n hb).
Proof.
  intros Hrec Hn H. pose proof (ext_length _ _ _ _ H) as Hlen.
  eapply post_mono; [apply Hrec | |].
  - intros d h' [He Hd]. split; [| split; [apply He | exact Hd]].
    eapply ext_trans; [exact H |]. eapply ext_weaken; [| exact He]. lia.
  - intros h' He. eapply ext_trans; [exact H |]. eapply ext_weaken; [| exact He]. lia.
Qed.

Tactic Notation "fr_read" "as" ident(a) ident(Ha) :=
  apply post_bind_read; [solve [auto with readonly] | assumption | intros a Ha].

Ltac fr_step lem :=
  eapply post_seq; [apply lem; eauto | cbv beta].

Lemma fr_mergePlugins n hb dst t s h :
  ext this n hb h -> above n dst ->
  post (mergePlugins dst t s) h (fun _ => ext this n hb) (ext this n hb).
Proof.
  intros H Ha. unfold mergePlugins. fr_read as ts Hts.
  eapply post_seq; [apply (post_forEach _ _ (ext this n hb)); [exact H |] | cbv beta].
  - intros plugin h1 _ H1. fr_read as d Hd. fr_read as found Hfound.
    destruct (negb _); [now apply sp_push | now apply post_ret].
  - intros _ h1 H1. fr_read as ss Hss.
    apply (post_forEach _ _ (ext this n hb)); [exact H1 |].
    intros plugin h2 _ H2. fr_read as d Hd. fr_read as found Hfound.
    eapply post_seq with (R := fun _ => ext this n hb).
    + destruct found as [[index x] |]; [now apply sp_splice1 | now apply post_ret].
    + intros _ h3 H3. now apply sp_unshift.
Qed.

Lemma fr_mergeElement rec n hb dst t s c pk i h :
  rec_ok rec -> n <= length hb -> above n dst -> ext this n hb h ->
  post (mergeElement rec dst t s c pk i) h (fun _ => ext this n hb) (ext this n hb).
Proof.
  intros Hrec Hn Ha H. unfold mergeElement.
  fr_read as srcElement Hse. fr_read as d Hd.
  destruct (String.eqb (typeof d) "undefined"); [now apply sp_setIdx |].
  destruct (String.eqb (typeof srcElement) "object").
  - destruct (negb (isPlugins pk)); [| now apply post_ret].
    fr_read as te Hte. fr_step rec_lift.
    intros r h1 (H1 & _). now apply sp_setIdx.
  - destruct (negb c); [now apply sp_setIdx |].
    fr_read as b Hb. destruct b; [now apply sp_push | now apply post_ret].
Qed.

(** The operand [src] of a mapping merge, seen from the store [hb]: below
    the bound it is a mapping that has the key [k]. *)
Definition src_ok (n : nat) (hb : heap) (src : val) (k : string) : Prop :=
  forall sl, src = VRef sl -> sl < n ->
    exists p, hb !! sl = Some (OObj p) /\ In k (map fst p).

Lemma getKey_ref_ret l k h v h' :
  getKey (VRef l) k h = (Ret v, h') ->
  (exists p, h !! l = Some (OObj p) /\ v = default VUndef (assoc_get k p)) \/
  (exists a, h !! l = Some (OArr a)).
Proof.
  unfold getKey, bind, readObj. destruct (h !! l) as [[a | p] |]; intros E.
  - right. eauto.
  - left. exists p. inversion E. auto.
  - inversion E.
Qed.

Lemma fr_upgradeKey n hb s k h :
  n <= length hb -> src_ok n hb s k -> ext this n hb h ->
  post (upgradeKey this s k) h (fun _ => ext this n hb) (ext this n hb).
Proof.
  intros Hn Hs H. unfold upgradeKey.
  destruct (inUpgradeMergeList this k) eqn:Hin; [| now apply post_ret].
  fr_read as v Hv. fr_read as a Ha. destruct a; simpl; [now apply post_ret |].
  apply post_bind. unfold post at 1, alloc.
  assert (H1 : ext this n hb (h ++ [OArr [v]]))
    by (eapply ext_trans; [exact H | apply ext_alloc]).
  destruct s as [| | | | | sl]; simpl; try (apply post_typeError; exact H1).
  apply post_bind_read; [auto with readonly | exact H1 | intros o Ho].
  apply readObj_ret in Ho. destruct Ho as [Ho _].
  destruct (decide (n <= sl)) as [Hge | Hlt].
  - destruct o as [a | p].
    + match goal with |- post (match ?j with _ => _ end) _ _ _ => destruct j end;
        [| apply post_abort; exact H1].
      apply sp_writeObj; auto. intros o Ho'. rewrite Ho in Ho'. injection Ho' as <-. exact I.
    + apply sp_writeObj; auto. intros o Ho'. rewrite Ho in Ho'. injection Ho' as <-.
      apply assoc_set_incl.
  - destruct (Hs sl eq_refl) as (pb & Hpb & Hkb); [lia |].
    destruct H as [K O]. destruct (K sl _ Hpb) as (oh & Hoh & Hkind).
    assert (Ho2 : (h ++ [OArr [v]]) !! sl = Some oh).
    { rewrite lookup_app_l by (eapply lookup_lt_Some; eauto). exact Hoh. }
    rewrite Ho in Ho2. injection Ho2 as ->.
    destruct oh as [a | p]; simpl in Hkind; [contradiction |].
    apply getKey_ref_ret in Hv. destruct Hv as [(p' & Hp' & ->) | (a & Ha')];
      [| congruence].
    rewrite Hoh in Hp'. injection Hp' as <-.
    unfold post, writeObj. rewrite Ho.
    eapply ext_trans; [split; [exact K | exact O] |].
    apply ext_upgrade; auto.
    inversion Ha. auto.
Qed.

Lemma fr_mergeKey rec n hb dst t s c k h :
  rec_ok rec -> n <= length hb -> above n dst -> src_ok n hb s k ->
  ext this n hb h ->
  post (mergeKey this rec dst t s c k) h (fun _ => ext this n hb) (ext this n hb).
Proof.
  intros Hrec Hn Ha Hs H. unfold mergeKey.
  fr_step fr_upgradeKey. intros _ h1 H1.
  fr_read as sv Hsv. fr_read as sa Hsa.
  apply post_bind_read; [| exact H1 | intros ta Hta].
  { destruct sa; auto with readonly. apply readonly_bind; auto with readonly. }
  destruct (sa || ta).
  - fr_read as tv Htv. fr_step rec_lift. intros r h2 (H2 & _). now apply sp_setKey.
  - destruct (negb (String.eqb (typeof sv) "object") || negb (truthy sv));
      [now apply sp_setKey |].
    fr_read as tv Htv.
    eapply post_seq with (R := fun _ => ext this n hb).
    + destruct (truthy tv); [now apply post_ret |].
      eapply post_mono; [apply sp_alloc; eauto | cbv beta; tauto | auto].
    + intros t' h2 H2. fr_step rec_lift. intros r h3 (H3 & _). now apply sp_setKey.
Qed.

Lemma fr_copyKey n hb dst t k h :
  above n dst -> ext this n hb h ->
  post (copyKey dst t k) h (fun _ => ext this n hb) (ext this n hb).
Proof.
  intros Ha H. unfold copyKey. fr_read as v Hv. now apply sp_setKey.
Qed.

Lemma isArrayM_ret v h b h' : isArrayM v h = (Ret b, h') -> b = isArray h v /\ h' = h.
Proof. unfold isArrayM. intros E. inversion E. auto. Qed.

Lemma fr_mergeArray rec n t s c pk h :
  rec_ok rec -> n <= length h ->
  post (mergeArray rec t s c pk) h
    (fun d h' => ext this n h h' /\
       exists l, d = VRef l /\ length h <= l /\ isArray h' d = true)
    (ext this n h).
Proof.
  intros Hrec Hn. unfold mergeArray.
  assert (H : ext this n h h) by apply ext_refl.
  eapply post_seq with (R := fun _ => ext this n h).
  { destruct (truthy t); [now apply post_ret |].
    eapply post_mono; [apply sp_alloc; eauto | cbv beta; tauto | auto]. }
  intros t' h1 H1. fr_read as sa Hsa.
  apply post_bind_read; [| exact H1 | intros len Hlen].
  { destruct sa; auto with readonly. apply readonly_bind; auto with readonly. }
  eapply post_seq with
    (R := fun d h' => ext this n h h' /\ d = VRef (length h1) /\ isArray h' d = true).
  { destruct (sa && Nat.ltb 1 len); now apply sp_concatInto. }
  intros dst h2 (H2 & -> & Hdst).
  pose proof (ext_length _ _ _ _ H1) as Hl1.
  assert (Hab : above n (VRef (length h1))) by (simpl; lia).
  assert (Hn2 : n <= length h2) by (pose proof (ext_length _ _ _ _ H2); lia).
  eapply post_mono.
  - assert (B : ext this n h2 h2) by apply ext_refl.
    instantiate (1 := ext this n h2).
    instantiate (1 := fun d h' => ext this n h2 h' /\ d = VRef (length h1)).
    fr_read as sa' Hsa'.
    eapply post_seq with (R := fun _ => ext this n h2).
    { destruct (_ && _); [| now apply post_ret].
      eapply post_mono; [apply sp_alloc; eauto | cbv beta; tauto | auto]. }
    intros s' h3 H3. fr_read as ta Hta.
    eapply post_seq with (R := fun _ => ext this n h2).
    { destruct (_ && _); [now apply fr_mergePlugins | now apply post_ret]. }
    intros _ h4 H4. fr_read as keys Hkeys.
    eapply post_seq with (R := fun _ => ext this n h2).
    { apply (post_forEach _ _ (ext this n h2)); [exact H4 |].
      intros i h5 _ H5. now apply fr_mergeElement. }
    intros _ h5 H5. apply post_ret. auto.
  - cbv beta. intros d h' (He & ->). split; [eapply ext_trans; eauto |].
    exists (length h1). repeat split; [lia |].
    eapply isArray_mono; eauto.
  - intros h' He. eapply ext_trans; eauto.
Qed.

Lemma objectKeys_ref_ret l h keys h' :
  objectKeys (VRef l) h = (Ret keys, h') ->
  (exists p, h !! l = Some (OObj p) /\ keys = map fst p) \/
  (exists a, h !! l = Some (OArr a)).
Proof.
  unfold objectKeys, bind, readObj. destruct (h !! l) as [[a | p] |]; intros E.
  - right. eauto.
  - left. exists p. inversion E. auto.
  - inversion E.
Qed.

Lemma src_ok_keys n hb h s keys k :
  ext this n hb h -> n <= length hb -> isArray hb s = false ->
  objectKeys s h = (Ret keys, h) -> In k keys -> src_ok n hb s k.
Proof.
  intros [K O] Hn Hna Hkeys Hk sl -> Hlt.
  destruct (lookup_lt_is_Some_2 hb sl) as [ob Hob]; [lia |].
  destruct (O sl ob Hlt Hob) as (o1 & Ho1 & Hext).
  destruct ob as [a | pb].
  - simpl in Hna. rewrite Hob in Hna. discriminate.
  - exists pb. split; [exact Hob |].
    destruct o1 as [a1 | p1]; simpl in Hext; [contradiction |].
    apply entries_keys in Hext. rename Hext into Hfst.
    apply objectKeys_ref_ret in Hkeys. destruct Hkeys as [(p & Hp & ->) | (a & Ha)];
      [| congruence].
    rewrite Ho1 in Hp. injection Hp as <-. now rewrite <- Hfst.
Qed.

Lemma fr_mergeObject rec n hb dst t s c h :
  rec_ok rec -> n <= length hb -> above n dst -> isArray hb s = false ->
  ext this n hb h ->
  post (mergeObject this rec dst t s c) h
    (fun d h' => ext this n hb h' /\ d = dst) (ext this n hb).
Proof.
  intros Hrec Hn Ha Hna H. unfold mergeObject.
  eapply post_seq with (R := fun _ => ext this n hb).
  { destruct (_ && _); [| now apply post_ret].
    fr_read as keys Hkeys. apply (post_forEach _ _ (ext this n hb)); [exact H |].
    intros k h1 _ H1. now apply fr_copyKey. }
  intros _ h1 H1. fr_read as keys Hkeys.
  eapply post_seq with (R := fun _ => ext this n hb).
  { apply (post_forEach_done _ _ (fun _ => ext this n hb)); [exact H1 |].
    intros pre k h2 [suf Hsuf] H2. apply fr_mergeKey; auto.
    apply (src_ok_keys n hb h1 s keys k); auto.
    rewrite Hsuf. apply in_or_app. right. now left. }
  intros _ h2 H2. apply post_ret. auto.
Qed.

Lemma isArray_alloc_obj h v p :
  isArray h v = false -> isArray (h ++ [OObj p]) v = false.
Proof.
  destruct v as [| | | | | l]; simpl; auto.
  destruct (decide (l < length h)) as [Hlt | Hge].
  - now rewrite lookup_app_l by exact Hlt.
  - intros _. rewrite lookup_app_r by lia.
    destruct (l - length h) as [| j]; reflexivity.
Qed.

(** The frame of [_deepMerge], whatever the fuel and the outcome. *)
Lemma deepMerge_rec_ok fuel : rec_ok (_deepMerge this fuel).
Proof.
  induction fuel as [| fuel IH]; intros t s c pk h; simpl.
  - apply post_abort. apply ext_refl.
  - assert (H : ext this (length h) h h) by apply ext_refl.
    unfold heap_ext. fr_read as sa Hsa. fr_read as ta Hta.
    apply isArrayM_ret in Hsa, Hta. destruct Hsa as [-> _], Hta as [-> _].
    eapply post_seq; [apply sp_alloc; exact H | cbv beta].
    intros dst h1 (H1 & -> & ->).
    destruct (isArray h s || isArray h t) eqn:Harr.
    + eapply post_mono; [apply (fr_mergeArray _ (length h)); [exact IH |] | |].
      * rewrite length_app. lia.
      * cbv beta. intros d h' (He & l & -> & Hl & Hd).
        split; [eapply ext_trans; eauto |].
        exists l. rewrite length_app in Hl. repeat split; [lia | exact Hd].
      * intros h' He. eapply ext_trans; eauto.
    + apply orb_false_iff in Harr. destruct Harr as [Hs Ht].
      eapply post_mono;
        [apply (fr_mergeObject _ (length h) (h ++ [OObj []]));
           [exact IH | rewrite length_app; lia | simpl; lia
           | now apply isArray_alloc_obj | apply ext_refl] | |].
      * cbv beta. intros d h' (He & ->).
        split; [eapply ext_trans; eauto |].
        exists (length h). repeat split; [lia |].
        destruct He as [K _].
        destruct (K (length h) (OObj [])) as (o' & Ho' & Hk).
        { rewrite lookup_app_r by lia. now rewrite Nat.sub_diag. }
        unfold isArray. rewrite Ho'. destruct o'; [contradiction | reflexivity].
      * intros h' He. eapply ext_trans; eauto.
Qed.

End MergeFrame.

(** ** What a merge writes

    The frame of [_deepMerge] once more, in full.  A merge writes into the
    arrays and mappings that it makes itself, and into nothing that existed
    but one thing: under a key of the upgrade-merge list, in [src] or in a
    mapping nested in [src], a value that is no array is replaced by a new
    one-element array that holds it. *)

(** The values an object holds. *)
Definition values (o : obj) : list val :=
  match o with
  | OArr a => a
  | OObj p => map snd p
  end.

(** The objects of the store [h] that are reached from the value [v]. *)
Inductive reach (h : heap) : val -> loc -> Prop :=
| reach_here l : reach h (VRef l) l
| reach_step l0 o v l :
    h !! l0 = Some o -> In v (values o) -> reach h v l -> reach h (VRef l0) l.

(** Every object reached from [v] is in the store. *)
Definition closed_from (h : heap) (v : val) : Prop :=
  forall l, reach h v l -> l < length h.

(** [s'] is no reference, or it is a value that the object [s] holds. *)
Definition part_of (h : heap) (s s' : val) : Prop :=
  (forall l, s' <> VRef l) \/
  exists sl o, s = VRef sl /\ h !! sl = Some o /\ In s' (values o).

Section MergeWrites.

Variable this : ConfigResolver.

(** The value [v] under the key [k] is kept; or [k] is in the upgrade-merge
    list, [v] is no array, and [v'] is a new one-element array that holds
    [v]. *)
Definition replaced (h h' : heap) (k : string) (v v' : val) : Prop :=
  v' = v \/
  (inUpgradeMergeList this k = true /\ isArray h v = false /\
   exists m, v' = VRef m /\ length h <= m /\ h' !! m = Some (OArr [v])).

Definition entry_kept (h h' : heap) (e e' : string * val) : Prop :=
  fst e' = fst e /\ replaced h h' (fst e) (snd e) (snd e').

Definition obj_kept (h h' : heap) (o o' : obj) : Prop :=
  match o, o' with
  | OArr a, OArr a' => a' = a
  | OObj p, OObj p' => Forall2 (entry_kept h h') p p'
  | _, _ => False
  end.

(** [wr own F h h']: every object of [h] is in [h'] with its kind; but for
    the object [own], an array is unchanged and a mapping has its entries,
    in order, each with its value kept or replaced; and an object outside
    [F] is unchanged altogether. *)
Definition wr (own : option loc) (F : loc -> Prop) (h h' : heap) : Prop :=
  kinds_kept h h' /\
  forall l o, h !! l = Some o -> own <> Some l ->
    exists o', h' !! l = Some o' /\ obj_kept h h' o o' /\ (~ F l -> o' = o).

Lemma entries_same h h' p : Forall2 (entry_kept h h') p p.
Proof.
  induction p as [| e r IH]; constructor; [| exact IH]. split; [reflexivity | now left].
Qed.

Lemma obj_kept_same h h' o : obj_kept h h' o o.
Proof. destruct o as [a | p]; simpl; [reflexivity | apply entries_same]. Qed.

Lemma entries_kept_keys h h' p p' : Forall2 (entry_kept h h') p p' -> map fst p' = map fst p.
Proof.
  induction 1 as [| e e' r r' [He _] _ IH]; simpl; [reflexivity | now rewrite He, IH].
Qed.

Lemma wr_refl own F h : wr own F h h.
Proof.
  split; [apply kinds_kept_refl |]. intros l o Hl _. exists o.
  split; [exact Hl |]. split; [apply obj_kept_same | reflexivity].
Qed.

Lemma wr_length own F h h' : wr own F h h' -> length h <= length h'.
Proof. intros [K _]. now apply kinds_kept_length. Qed.

Lemma replaced_trans h h1 h2 k v v1 v2 :
  kinds_kept h h1 -> kinds_kept h1 h2 ->
  (forall m a, length h <= m -> h1 !! m = Some (OArr a) -> h2 !! m = Some (OArr a)) ->
  replaced h h1 k v v1 -> replaced h1 h2 k v1 v2 -> replaced h h2 k v v2.
Proof.
  intros K1 K2 P R1 R2.
  destruct R1 as [-> | (Hin & Hna & m & -> & Hm & Hh1)].
  - destruct R2 as [-> | (Hin & Hna & m & -> & Hm & Hh2)]; [now left | right].
    split; [exact Hin |]. split; [eapply isArray_kept_false; eauto |].
    exists m. split; [reflexivity |]. split; [| exact Hh2].
    pose proof (kinds_kept_length _ _ K1). lia.
  - destruct R2 as [-> | (_ & Hna2 & _)].
    + right. split; [exact Hin |]. split; [exact Hna |].
      exists m. split; [reflexivity |]. split; [exact Hm |]. now apply P.
    + simpl in Hna2. rewrite Hh1 in Hna2. discriminate.
Qed.

Lemma obj_kept_trans h h1 h2 o o1 o2 :
  kinds_kept h h1 -> kinds_kept h1 h2 ->
  (forall m a, length h <= m -> h1 !! m = Some (OArr a) -> h2 !! m = Some (OArr a)) ->
  obj_kept h h1 o o1 -> obj_kept h1 h2 o1 o2 -> obj_kept h h2 o o2.
Proof.
  intros K1 K2 P Ho1 Ho2.
  destruct o as [a | p], o1 as [a1 | p1]; simpl in Ho1; try contradiction;
    destruct o2 as [a2 | p2]; simpl in Ho2; try contradiction; simpl.
  - congruence.
  - revert p2 Ho2. induction Ho1 as [| e e1 r r1 [He1 Hu1] _ IH]; intros p2 Ho2.
    + inversion Ho2. constructor.
    + inversion Ho2 as [| ? e2 ? r2 [He2 Hu2] Hr2]; subst. constructor; [| now apply IH].
      split; [congruence |]. rewrite He1 in Hu2. eapply replaced_trans; eauto.
Qed.

(** The arrays made since [h] are kept by a step that does not write [own],
    an object of [h]. *)
Lemma wr_new_arrays own F (h h1 h2 : heap) :
  wr own F h1 h2 -> (forall l, own = Some l -> l < length h) ->
  forall m a, length h <= m -> h1 !! m = Some (OArr a) -> h2 !! m = Some (OArr a).
Proof.
  intros [_ O] Hown m a Hm Hl.
  destruct (O m _ Hl) as (o' & Ho' & Hk & _).
  { intros ->. specialize (Hown m eq_refl). lia. }
  destruct o'; simpl in Hk; [now subst | contradiction].
Qed.

Lemma wr_trans own F h h1 h2 :
  (forall l, own = Some l -> l < length h) ->
  wr own F h h1 -> wr own F h1 h2 -> wr own F h h2.
Proof.
  intros Hown [K1 O1] [K2 O2]. split; [eapply kinds_kept_trans; eauto |].
  intros l o Hl Hne.
  destruct (O1 l o Hl Hne) as (o1 & Hl1 & Ho1 & E1).
  destruct (O2 l o1 Hl1 Hne) as (o2 & Hl2 & Ho2 & E2).
  exists o2. split; [exact Hl2 |]. split.
  - eapply obj_kept_trans; eauto.
    eapply wr_new_arrays; [split; [exact K2 | exact O2] | exact Hown].
  - intros HF. rewrite (E2 HF). now apply E1.
Qed.

(** A whole call exempts nothing: it is a step of any caller. *)
Lemma wr_own own F h h' : wr None F h h' -> wr own F h h'.
Proof.
  intros [K O]. split; [exact K |]. intros l o Hl _. apply O; [exact Hl | discriminate].
Qed.

Lemma wr_mono own (F F' : loc -> Prop) h h' :
  (forall l, l < length h -> F l -> F' l) -> wr own F h h' -> wr own F' h h'.
Proof.
  intros HF [K O]. split; [exact K |]. intros l o Hl Hne.
  destruct (O l o Hl Hne) as (o' & Hl' & Ho' & E). exists o'.
  split; [exact Hl' |]. split; [exact Ho' |]. intros HF'. apply E. intros Hf. apply HF'.
  apply HF; [eapply lookup_lt_Some; eauto | exact Hf].
Qed.

Lemma isArray_app h hx v : isArray (h ++ hx) v = false -> isArray h v = false.
Proof.
  destruct v as [| | | | | l]; simpl; auto.
  destruct (h !! l) as [o |] eqn:E; [| reflexivity].
  now rewrite (lookup_app_l_Some _ _ _ _ E).
Qed.

(** Seen from a store of which the store of the start is an extension. *)
Lemma wr_base own F h hx h' : wr own F (h ++ hx) h' -> wr own F h h'.
Proof.
  intros [K O]. split.
  - intros l o Hl. apply K. now apply lookup_app_l_Some.
  - intros l o Hl Hne.
    destruct (O l o (lookup_app_l_Some _ _ _ _ Hl) Hne) as (o' & Hl' & Ho' & E).
    exists o'. split; [exact Hl' |]. split; [| exact E].
    destruct o as [a | p], o' as [a' | p']; simpl in *; try contradiction; [exact Ho' |].
    eapply Forall2_impl; [exact Ho' |]. intros e e' [He Hr]. split; [exact He |].
    destruct Hr as [-> | (Hin & Hna & m & -> & Hm & Hh)]; [now left | right].
    split; [exact Hin |]. split; [now apply isArray_app in Hna |].
    exists m. split; [reflexivity |]. split; [| exact Hh]. rewrite length_app in Hm. lia.
Qed.

(** The object [own], made after the start, is none of the store [h]. *)
Lemma wr_whole own F h h' : length h <= own -> wr (Some own) F h h' -> wr None F h h'.
Proof.
  intros Hown [K O]. split; [exact K |]. intros l o Hl _. apply O; [exact Hl |].
  intros [= ->]. apply lookup_lt_Some in Hl. lia.
Qed.

Lemma wr_alloc own F h o : wr own F h (h ++ [o]).
Proof.
  split; [apply kinds_kept_alloc |]. intros l o0 Hl _. exists o0.
  split; [now apply lookup_app_l_Some |]. split; [apply obj_kept_same | reflexivity].
Qed.

(** Writing the object [own], without a change of kind. *)
Lemma wr_write own F h o o' :
  h !! own = Some o -> same_kind o o' -> wr (Some own) F h (<[own := o']> h).
Proof.
  intros Hl Hk. split; [eapply kinds_kept_write; eauto |].
  intros l0 o0 Hl0 Hne. exists o0.
  split; [rewrite list_lookup_insert_ne; [exact Hl0 | congruence] |].
  split; [apply obj_kept_same | reflexivity].
Qed.

Lemma entries_replace h h2 k p :
  inUpgradeMergeList this k = true ->
  isArray h (default VUndef (assoc_get k p)) = false ->
  h2 !! length h = Some (OArr [default VUndef (assoc_get k p)]) ->
  In k (map fst p) ->
  Forall2 (entry_kept h h2) p (assoc_set k (VRef (length h)) p).
Proof.
  intros Hin Hna Harr. induction p as [| [k0 v0] r IH]; simpl in *; [contradiction |].
  destruct (String.eqb k k0) eqn:E; simpl.
  - intros _. apply String.eqb_eq in E. subst k0.
    constructor; [| apply entries_same].
    split; [reflexivity |]. right. simpl. split; [exact Hin |]. split; [exact Hna |].
    exists (length h). auto.
  - intros [-> | Hk]; [rewrite String.eqb_refl in E; discriminate |].
    constructor; [split; [reflexivity | now left] | now apply IH].
Qed.

(** The write of [upgradeKey], with the allocation before it. *)
Lemma wr_upgrade own (F : loc -> Prop) h l p k :
  F l ->
  h !! l = Some (OObj p) ->
  inUpgradeMergeList this k = true ->
  isArray h (default VUndef (assoc_get k p)) = false ->
  In k (map fst p) ->
  wr own F h (<[l := OObj (assoc_set k (VRef (length h)) p)]>
                (h ++ [OArr [default VUndef (assoc_get k p)]])).
Proof.
  intros HF Hl Hin Hna Hk.
  set (h1 := h ++ [OArr [default VUndef (assoc_get k p)]]).
  set (arr := VRef (length h)).
  assert (Hlt : l < length h) by (eapply lookup_lt_Some; eauto).
  assert (Hl1 : h1 !! l = Some (OObj p)) by (now apply lookup_app_l_Some).
  assert (Hkind : same_kind (OObj p) (OObj (assoc_set k arr p))) by apply assoc_set_incl.
  assert (K : kinds_kept h (<[l := OObj (assoc_set k arr p)]> h1)).
  { eapply kinds_kept_trans; [apply kinds_kept_alloc |].
    eapply kinds_kept_write; eauto. }
  assert (Harr : <[l := OObj (assoc_set k arr p)]> h1 !! length h
                 = Some (OArr [default VUndef (assoc_get k p)])).
  { rewrite list_lookup_insert_ne by lia.
    unfold h1. rewrite lookup_app_r by lia. now rewrite Nat.sub_diag. }
  split; [exact K |].
  intros l0 o0 Hl0 _. destruct (decide (l = l0)) as [<- | Hne].
  - exists (OObj (assoc_set k arr p)). split.
    + apply list_lookup_insert_eq. unfold h1. rewrite length_app. lia.
    + rewrite Hl in Hl0. injection Hl0 as <-. split; [| intros HnF; contradiction].
      simpl. now apply entries_replace.
  - exists o0. split.
    + rewrite list_lookup_insert_ne by exact Hne. now apply lookup_app_l_Some.
    + split; [apply obj_kept_same | reflexivity].
Qed.


(** *** The steps of a merge

    The steps are seen from a store [hb] that holds the object [own], the
    one that the merge has made and fills. *)

Section Steps.

Variable own : loc.
Variable F : loc -> Prop.
Variable hb : heap.
Hypothesis Hown : own < length hb.

Local Abbreviation inv := (wr (Some own) F hb).

Definition writable (v : val) : Prop :=
  match v with
  | VRef l => l = own
  | _ => True
  end.

Lemma wr_step h h' : inv h -> wr (Some own) F h h' -> inv h'.
Proof.
  intros H H'. eapply wr_trans; [| exact H | exact H']. intros l [= <-]. exact Hown.
Qed.

Lemma wp_alloc h o :
  inv h ->
  post (alloc o) h (fun v h' => inv h' /\ v = VRef (length h) /\ h' = h ++ [o]) inv.
Proof.
  intros H. unfold post, alloc. split; [| auto].
  eapply wr_step; [exact H | apply wr_alloc].
Qed.

Lemma wp_writeObj h o' :
  inv h ->
  (forall o, h !! own = Some o -> same_kind o o') ->
  post (writeObj own o') h (fun _ => inv) inv.
Proof.
  intros H Hk. unfold post, writeObj. destruct (h !! own) as [o |] eqn:E; [| exact H].
  eapply wr_step; [exact H |]. eapply wr_write; eauto.
Qed.

Ltac wr_read :=
  apply post_bind_read; [solve [auto with readonly] | assumption | intros ? ?].

Tactic Notation "wr_read" "as" ident(a) ident(Ha) :=
  apply post_bind_read; [solve [auto with readonly] | assumption | intros a Ha].

Ltac wr_obj H :=
  apply readObj_ret in H; destruct H as [H _].

Lemma wp_setKey h v k x :
  inv h -> writable v -> post (setKey v k x) h (fun _ => inv) inv.
Proof.
  intros H Ha. destruct v as [| | | | | l]; simpl; try (apply post_typeError; exact H).
  simpl in Ha. subst l.
  wr_read. wr_obj H0. destruct a as [a | p].
  - match goal with |- post (match ?j with _ => _ end) _ _ _ => destruct j end;
      [| apply post_abort; exact H].
    apply wp_writeObj; auto. intros o Ho. rewrite H0 in Ho. injection Ho as <-. exact I.
  - apply wp_writeObj; auto. intros o Ho. rewrite H0 in Ho. injection Ho as <-.
    apply assoc_set_incl.
Qed.

Lemma wp_setIdx h v i x :
  inv h -> writable v -> post (setIdx v i x) h (fun _ => inv) inv.
Proof.
  intros H Ha. destruct v as [| | | | | l]; simpl; try (apply post_typeError; exact H).
  simpl in Ha. subst l.
  wr_read. wr_obj H0. destruct a as [a | p].
  - apply wp_writeObj; auto. intros o Ho. rewrite H0 in Ho. injection Ho as <-. exact I.
  - apply wp_writeObj; auto. intros o Ho. rewrite H0 in Ho. injection Ho as <-.
    apply assoc_set_incl.
Qed.

Lemma wp_setElems h v a :
  inv h -> writable v -> post (setElems v a) h (fun _ => inv) inv.
Proof.
  intros H Ha. destruct v as [| | | | | l]; simpl; try (apply post_abort; exact H).
  simpl in Ha. subst l.
  wr_read. wr_obj H0. destruct a0 as [a0 | p]; [| apply post_abort; exact H].
  apply wp_writeObj; auto. intros o Ho. rewrite H0 in Ho. injection Ho as <-. exact I.
Qed.

Lemma wp_push h v x : inv h -> writable v -> post (push v x) h (fun _ => inv) inv.
Proof. intros H Ha. unfold push. wr_read. now apply wp_setElems. Qed.

Lemma wp_unshift h v x : inv h -> writable v -> post (unshift v x) h (fun _ => inv) inv.
Proof. intros H Ha. unfold unshift. wr_read. now apply wp_setElems. Qed.

Lemma wp_splice1 h v i : inv h -> writable v -> post (splice1 v i) h (fun _ => inv) inv.
Proof. intros H Ha. unfold splice1. wr_read. now apply wp_setElems. Qed.

Lemma wp_mergePlugins dst t s h :
  inv h -> writable dst -> post (mergePlugins dst t s) h (fun _ => inv) inv.
Proof.
  intros H Ha. unfold mergePlugins. wr_read as ts Hts.
  eapply post_seq; [apply (post_forEach _ _ inv); [exact H |] | cbv beta].
  - intros plugin h1 _ H1. wr_read as d Hd. wr_read as found Hfound.
    destruct (negb _); [now apply wp_push | now apply post_ret].
  - intros _ h1 H1. wr_read as ss Hss.
    apply (post_forEach _ _ inv); [exact H1 |].
    intros plugin h2 _ H2. wr_read as d Hd. wr_read as found Hfound.
    eapply post_seq with (R := fun _ => inv).
    + destruct found as [[index x] |]; [now apply wp_splice1 | now apply post_ret].
    + intros _ h3 H3. now apply wp_unshift.
Qed.

Lemma wp_copyKey dst t k h :
  writable dst -> inv h -> post (copyKey dst t k) h (fun _ => inv) inv.
Proof. intros Ha H. unfold copyKey. wr_read as v Hv. now apply wp_setKey. Qed.

Lemma getIdx_part s i h v h' : getIdx s i h = (Ret v, h') -> part_of h s v.
Proof.
  destruct s as [| | b | z | str | l]; simpl; try discriminate.
  - intros [= <- _]. now left.
  - intros [= <- _]. now left.
  - intros [= <- _]. left. destruct (Nat.ltb i (String.length str)); discriminate.
  - unfold bind, readObj. destruct (h !! l) as [o |] eqn:E; [| discriminate].
    destruct o as [a | p]; intros [= <- _].
    + destruct (a !! i) as [x |] eqn:Ex; simpl; [| now left].
      right. exists l, (OArr a). split; [reflexivity |]. split; [exact E |].
      simpl. apply list_elem_of_In. eapply list_elem_of_lookup_2; eauto.
    + destruct (assoc_get (string_of_nat i) p) as [x |] eqn:Ex; simpl; [| now left].
      right. exists l, (OObj p). split; [reflexivity |]. split; [exact E |].
      simpl. clear E. induction p as [| [k0 v0] r IH]; [discriminate |].
      simpl in Ex. destruct (String.eqb _ k0); [injection Ex as ->; now left |].
      right. now apply IH.
Qed.

Lemma assoc_get_value {A} k (p : list (string * A)) x :
  assoc_get k p = Some x -> In x (map snd p).
Proof.
  induction p as [| [k0 v0] r IH]; [discriminate |].
  simpl. destruct (String.eqb k k0); [intros [= ->]; now left |].
  intros E. right. now apply IH.
Qed.

Lemma getKey_part s k h v h' : getKey s k h = (Ret v, h') -> part_of h s v.
Proof.
  destruct s as [| | b | z | str | l]; simpl; try discriminate.
  - intros [= <- _]. now left.
  - intros [= <- _]. now left.
  - intros E. left. intros l ->.
    destruct (String.eqb k "length"); [discriminate |].
    destruct (index_of_key k (String.length str)); discriminate.
  - unfold bind, readObj. destruct (h !! l) as [o |] eqn:E; [| discriminate].
    destruct o as [a | p].
    + destruct (String.eqb k "length"); [intros [= <- _]; now left |].
      destruct (index_of_key k (length a)) as [i |]; intros [= <- _]; [| now left].
      destruct (a !! i) as [x |] eqn:Ex; simpl; [| now left].
      right. exists l, (OArr a). split; [reflexivity |]. split; [exact E |].
      simpl. apply list_elem_of_In. eapply list_elem_of_lookup_2; eauto.
    + intros [= <- _]. destruct (assoc_get k p) as [x |] eqn:Ex; simpl; [| now left].
      right. exists l, (OObj p). split; [reflexivity |]. split; [exact E |].
      simpl. eapply assoc_get_value; eauto.
Qed.

Section WithRec.

Variable rec : val -> val -> bool -> option string -> HM val.
Variable s : val.

Hypothesis Hrec : forall hc t' s' c' pk',
  inv hc -> part_of hc s s' -> post (rec t' s' c' pk') hc (fun _ => inv) inv.

Lemma wp_mergeElement dst t c pk i h :
  writable dst -> inv h ->
  post (mergeElement rec dst t s c pk i) h (fun _ => inv) inv.
Proof.
  intros Ha H. unfold mergeElement.
  wr_read as srcElement Hse. wr_read as d Hd.
  destruct (String.eqb (typeof d) "undefined"); [now apply wp_setIdx |].
  destruct (String.eqb (typeof srcElement) "object").
  - destruct (negb (isPlugins pk)); [| now apply post_ret].
    wr_read as te Hte.
    eapply post_seq; [apply Hrec; [exact H | eapply getIdx_part; eauto] | cbv beta].
    intros r h1 H1. now apply wp_setIdx.
  - destruct (negb c); [now apply wp_setIdx |].
    wr_read as b Hb. destruct b; [now apply wp_push | now apply post_ret].
Qed.

(** The operand [src] of a mapping merge: it is in the store [hb]; unless it
    is [own], it is a mapping there that has the key [k], and it is in [F]. *)
Definition src_has (k : string) : Prop :=
  forall sl, s = VRef sl ->
    sl < length hb /\
    (sl <> own -> F sl /\ exists p, hb !! sl = Some (OObj p) /\ In k (map fst p)).

Lemma wp_upgradeKey k h :
  src_has k -> inv h -> post (upgradeKey this s k) h (fun _ => inv) inv.
Proof.
  intros Hs H. unfold upgradeKey.
  destruct (inUpgradeMergeList this k) eqn:Hin; [| now apply post_ret].
  wr_read as v Hv. wr_read as a Ha. destruct a; simpl; [now apply post_ret |].
  apply post_bind. unfold post at 1, alloc.
  assert (H1 : inv (h ++ [OArr [v]]))
    by (eapply wr_step; [exact H | apply wr_alloc]).
  destruct s as [| | | | | sl] eqn:Es; simpl; try (apply post_typeError; exact H1).
  apply post_bind_read; [auto with readonly | exact H1 | intros o Ho].
  apply readObj_ret in Ho. destruct Ho as [Ho _].
  destruct (decide (sl = own)) as [-> | Hne].
  - destruct o as [a | p].
    + match goal with |- post (match ?j with _ => _ end) _ _ _ => destruct j end;
        [| apply post_abort; exact H1].
      apply wp_writeObj; auto. intros o Ho'. rewrite Ho in Ho'. injection Ho' as <-. exact I.
    + apply wp_writeObj; auto. intros o Ho'. rewrite Ho in Ho'. injection Ho' as <-.
      apply assoc_set_incl.
  - destruct (Hs sl Es) as (Hlt & Hrest).
    destruct (Hrest Hne) as (HF & pb & Hpb & Hkb).
    destruct H as [K O]. destruct (O sl _ Hpb) as (oh & Hoh & Hkept & _); [congruence |].
    assert (Ho2 : (h ++ [OArr [v]]) !! sl = Some oh) by (now apply lookup_app_l_Some).
    rewrite Ho in Ho2. injection Ho2 as ->.
    destruct oh as [a | p]; simpl in Hkept; [contradiction |].
    apply getKey_ref_ret in Hv. destruct Hv as [(p' & Hp' & ->) | (a & Ha')];
      [| congruence].
    rewrite Hoh in Hp'. injection Hp' as <-.
    unfold post, writeObj. rewrite Ho.
    eapply wr_step; [split; [exact K | exact O] |].
    apply wr_upgrade; auto.
    + inversion Ha. auto.
    + rewrite (entries_kept_keys _ _ _ _ Hkept). exact Hkb.
Qed.

Lemma wp_mergeKey dst t c k h :
  writable dst -> src_has k -> inv h ->
  post (mergeKey this rec dst t s c k) h (fun _ => inv) inv.
Proof.
  intros Ha Hs H. unfold mergeKey.
  eapply post_seq; [now apply wp_upgradeKey | cbv beta]. intros _ h1 H1.
  wr_read as sv Hsv. wr_read as sa Hsa.
  apply post_bind_read; [| exact H1 | intros ta Hta].
  { destruct sa; auto with readonly. apply readonly_bind; auto with readonly. }
  assert (Hp : part_of h1 s sv) by (eapply getKey_part; eauto).
  destruct (sa || ta).
  - wr_read as tv Htv.
    eapply post_seq; [now apply Hrec | cbv beta]. intros r h2 H2. now apply wp_setKey.
  - destruct (negb (String.eqb (typeof sv) "object") || negb (truthy sv));
      [now apply wp_setKey |].
    wr_read as tv Htv.
    eapply post_seq with (R := fun _ h2 => inv h2 /\ part_of h2 s sv).
    + destruct (truthy tv); [now apply post_ret |].
      eapply post_mono; [apply wp_alloc; eauto | cbv beta | auto].
      intros t' h2 (H2 & _ & ->). split; [exact H2 |].
      destruct Hp as [Hp | (sl & o & E1 & E2 & E3)]; [now left | right].
      exists sl, o. split; [exact E1 |]. split; [now apply lookup_app_l_Some | exact E3].
    + intros t' h2 [H2 Hp2].
      eapply post_seq; [now apply Hrec | cbv beta]. intros r h3 H3. now apply wp_setKey.
Qed.

End WithRec.

End Steps.

(** *** A whole call

    The call starts in the store [h0], with the operand [s] for [src]; what
    the recursive call does is a step of it. *)

Section WholeCall.

Variable rec : val -> val -> bool -> option string -> HM val.
Variable h0 : heap.
Variable s : val.
Variable F : loc -> Prop.

Hypothesis Hlift : forall own hx hc t' s' c' pk',
  length h0 <= own -> own < length (h0 ++ hx) ->
  wr (Some own) F (h0 ++ hx) hc -> part_of hc s s' ->
  post (rec t' s' c' pk') hc
    (fun _ => wr (Some own) F (h0 ++ hx)) (wr (Some own) F (h0 ++ hx)).

Hypothesis HFs : forall sl, s = VRef sl -> F sl.

Lemma wr_grown hx : wr None F h0 (h0 ++ hx).
Proof. apply (wr_base _ _ _ hx). apply wr_refl. Qed.

Lemma wr_close own hx h' :
  length h0 <= own -> wr (Some own) F (h0 ++ hx) h' -> wr None F h0 h'.
Proof. intros Hown H. apply wr_whole with own; [exact Hown |]. eapply wr_base; eauto. Qed.

Lemma writeObj_length l o h :
  post (writeObj l o) h (fun _ h' => length h' = length h) (fun _ => True).
Proof.
  unfold post, writeObj. destruct (h !! l); [apply length_insert | exact I].
Qed.

Lemma setKey_length v k x h :
  post (setKey v k x) h (fun _ h' => length h' = length h) (fun _ => True).
Proof.
  destruct v as [| | | | | l]; try exact I. unfold setKey.
  apply post_bind_read; [apply readonly_readObj | exact I | intros o Ho].
  destruct o as [a | p]; [| apply writeObj_length].
  destruct (index_of_key k (S (length a))); [apply writeObj_length | exact I].
Qed.

Lemma wp_mergeObject t c :
  isArray h0 s = false ->
  post (mergeObject this rec (VRef (length h0)) t s c) (h0 ++ [OObj []])
    (fun _ h' => wr None F h0 h') (wr None F h0).
Proof.
  intros Hna. set (own := length h0). set (hb := h0 ++ [OObj []]).
  assert (Hown : own < length hb) by (unfold hb, own; rewrite length_app; simpl; lia).
  assert (Hlen : length hb = S own) by (unfold hb, own; rewrite length_app; simpl; lia).
  assert (Hw : writable own (VRef own)) by reflexivity.
  eapply post_mono with (Q := fun _ => wr (Some own) F hb) (E := wr (Some own) F hb);
    [| intros _ h'; apply wr_close; unfold own; lia
     | intros h'; apply wr_close; unfold own; lia].
  unfold mergeObject.
  eapply post_seq with (R := fun _ h1 => wr (Some own) F hb h1 /\ length h1 = length hb).
  { destruct (_ && _); [| apply post_ret; split; [apply wr_refl | reflexivity]].
    apply post_bind_read; [auto with readonly | apply wr_refl | intros keys Hkeys].
    eapply post_mono with (E := wr (Some own) F hb);
      [apply (post_forEach _ _ (fun h1 => wr (Some own) F hb h1 /\ length h1 = length hb))
      | auto | auto].
    - split; [apply wr_refl | reflexivity].
    - intros k h1 _ [H1 L1]. unfold copyKey.
      apply post_bind_read; [auto with readonly | exact H1 | intros v Hv].
      eapply post_mono;
        [apply post_conj; [apply (wp_setKey own F hb Hown); [exact H1 | exact Hw]
                          | apply setKey_length] | |].
      + cbv beta. intros _ h2 [H2 L2]. split; [exact H2 | congruence].
      + cbv beta. tauto. }
  intros _ h1 [H1 L1].
  apply post_bind_read; [auto with readonly | exact H1 | intros keys Hkeys].
  eapply post_seq with (R := fun _ => wr (Some own) F hb); [| intros _ h2 H2; now apply post_ret].
  apply (post_forEach _ _ (wr (Some own) F hb)); [exact H1 |].
  intros k h2 Hk H2.
  apply (wp_mergeKey own F hb Hown rec s); [| exact Hw | | exact H2].
  { intros hc t' s' c' pk' Hc Hp.
    apply (Hlift own [OObj []] hc t' s' c' pk'); [unfold own; lia | exact Hown | exact Hc | exact Hp]. }
  intros sl Hs. subst s.
  apply objectKeys_ref_ret in Hkeys.
  assert (Hsl : sl < length hb).
  { rewrite <- L1. destruct Hkeys as [(p & Hp & _) | (a & Ha)]; eapply lookup_lt_Some; eauto. }
  split; [exact Hsl |]. intros Hne. split; [now apply HFs |].
  assert (Hlt : sl < length h0) by (unfold own in *; lia).
  destruct (lookup_lt_is_Some_2 h0 sl Hlt) as [ob Hob].
  assert (Hob' : hb !! sl = Some ob) by (now apply lookup_app_l_Some).
  destruct H1 as [K1 O1].
  destruct (O1 sl ob Hob') as (o1 & Ho1 & Hkept & _); [congruence |].
  destruct ob as [a | pb]; [simpl in Hna; rewrite Hob in Hna; discriminate |].
  exists pb. split; [exact Hob' |].
  destruct o1 as [a1 | p1]; simpl in Hkept; [contradiction |].
  destruct Hkeys as [(p & Hp & ->) | (a & Ha)]; [| congruence].
  rewrite Ho1 in Hp. injection Hp as <-.
  now rewrite <- (entries_kept_keys _ _ _ _ Hkept).
Qed.

Lemma wp_concatInto own hb h v :
  own < length hb -> wr (Some own) F hb h ->
  post (concatInto v) h
    (fun d h' => wr (Some own) F hb h' /\ d = VRef (length h) /\ exists a, h' = h ++ [OArr a])
    (wr (Some own) F hb).
Proof.
  intros Hown H. unfold concatInto.
  apply post_bind_read; [auto with readonly | exact H | intros b Hb].
  assert (G : forall a0, post (alloc (OArr a0)) h
            (fun d h' => wr (Some own) F hb h' /\ d = VRef (length h) /\
                         exists a, h' = h ++ [OArr a])
            (wr (Some own) F hb)).
  { intros a0. unfold post, alloc. split; [| split; [reflexivity | eauto]].
    eapply wr_step; [exact Hown | exact H | apply wr_alloc]. }
  destruct b; [| apply G].
  apply post_bind_read; [auto with readonly | exact H | intros a Ha]. apply G.
Qed.

(** A store that has only grown since [h0]. *)
Definition grown_from (h : heap) : Prop := exists hx, h = h0 ++ hx.

Lemma grown_from_wr h : grown_from h -> wr None F h0 h.
Proof. intros [hx ->]. apply wr_grown. Qed.

Lemma grown_from_alloc h o : grown_from h -> grown_from (h ++ [o]).
Proof. intros [hx ->]. exists (hx ++ [o]). now rewrite app_assoc. Qed.

Lemma wp_mergeArray t c pk hx :
  post (mergeArray rec t s c pk) (h0 ++ hx) (fun _ h' => wr None F h0 h') (wr None F h0).
Proof.
  unfold mergeArray.
  assert (G0 : grown_from (h0 ++ hx)) by (now exists hx).
  eapply post_mono with (Q := fun _ h' => wr None F h0 h') (E := fun h' =>
    grown_from h' \/ wr None F h0 h');
    [| auto | intros h' [Hg | Hw]; [now apply grown_from_wr | exact Hw]].
  eapply post_seq with (R := fun _ => grown_from).
  { destruct (truthy t); [now apply post_ret |].
    unfold post, alloc. now apply grown_from_alloc. }
  intros t' h1 G1.
  apply post_bind_read; [auto with readonly | now left | intros sa Hsa].
  apply post_bind_read; [| now left | intros len Hlen].
  { destruct sa; auto with readonly. apply readonly_bind; auto with readonly. }
  eapply post_seq with
    (R := fun d h' => d = VRef (length h1) /\ exists a, h' = h1 ++ [OArr a]).
  { assert (G : forall v, post (concatInto v) h1
       (fun d h' => d = VRef (length h1) /\ exists a, h' = h1 ++ [OArr a])
       (fun h' => grown_from h' \/ wr None F h0 h')).
    { intros v. unfold concatInto.
      apply post_bind_read; [auto with readonly | now left | intros b Hb].
      destruct b.
      - apply post_bind_read; [auto with readonly | now left | intros a Ha].
        unfold post, alloc. eauto.
      - unfold post, alloc. eauto. }
    destruct (sa && Nat.ltb 1 len); apply G. }
  intros dst h2 (-> & a2 & ->).
  set (own := length h1). set (h2 := h1 ++ [OArr a2]).
  assert (G2 : grown_from h2) by (now apply grown_from_alloc).
  apply post_bind_read; [auto with readonly | now left | intros sa' Hsa'].
  destruct G1 as [hx1 E1].
  assert (L1 : length h0 <= own) by (unfold own; rewrite E1, length_app; lia).
  eapply post_seq with
    (R := fun s1 h3 =>
       grown_from h3 /\ h3 !! own = Some (OArr a2) /\ length h2 <= length h3 /\
       (s1 = s \/ ((forall l, s <> VRef l) /\
                   exists l1, s1 = VRef l1 /\ l1 <> own /\ h3 !! l1 = Some (OArr [s])))).
  { assert (Ho2 : h2 !! own = Some (OArr a2)).
    { unfold h2, own. rewrite lookup_app_r by lia. now rewrite Nat.sub_diag. }
    destruct (negb (String.eqb (typeof s) "object") && negb sa') eqn:Ew.
    - unfold post, alloc. split; [now apply grown_from_alloc |].
      split; [now apply lookup_app_l_Some |]. split; [rewrite length_app; lia |].
      right. split.
      + intros l ->. simpl in Ew. discriminate.
      + exists (length h2). split; [reflexivity |]. split.
        * unfold h2, own. rewrite length_app. simpl. lia.
        * rewrite lookup_app_r by lia. now rewrite Nat.sub_diag.
    - apply post_ret. split; [exact G2 |]. split; [exact Ho2 |]. split; [lia | now left]. }
  intros s1 h3 (G3 & Ho3 & L3 & Hs1).
  destruct G3 as [hx3 E3].
  assert (Hown : own < length (h0 ++ hx3)).
  { rewrite <- E3. eapply lookup_lt_Some; eauto. }
  eapply post_mono with (Q := fun _ => wr (Some own) F (h0 ++ hx3))
                        (E := wr (Some own) F (h0 ++ hx3));
    [| intros _ h'; apply wr_close; exact L1
     | intros h' Hh'; right; revert Hh'; apply wr_close; exact L1].
  assert (H3 : wr (Some own) F (h0 ++ hx3) h3) by (rewrite <- E3; apply wr_refl).
  assert (Hw : writable own (VRef own)) by reflexivity.
  assert (Hrec1 : forall hc t' s' c' pk',
            wr (Some own) F (h0 ++ hx3) hc -> part_of hc s1 s' ->
            post (rec t' s' c' pk') hc
              (fun _ => wr (Some own) F (h0 ++ hx3)) (wr (Some own) F (h0 ++ hx3))).
  { intros hc t2 s' c' pk' Hc Hp. apply Hlift; [exact L1 | exact Hown | exact Hc |].
    destruct Hs1 as [-> | (Hprim & l1 & -> & Hl1 & Harr)]; [exact Hp |].
    left. intros l ->. destruct Hp as [Hp | (sl & o & [= <-] & Ho & Hin)];
      [now apply (Hp l) |].
    destruct Hc as [_ Oc]. rewrite E3 in Harr.
    destruct (Oc l1 _ Harr) as (o' & Ho' & Hk & _); [congruence |].
    rewrite Ho in Ho'. injection Ho' as <-.
    destruct o as [a | p]; simpl in Hk; [| contradiction]. subst a.
    simpl in Hin. destruct Hin as [E | []]. now apply (Hprim l). }
  apply post_bind_read; [auto with readonly | exact H3 | intros ta Hta].
  eapply post_seq with (R := fun _ => wr (Some own) F (h0 ++ hx3)).
  { destruct (_ && _); [now apply wp_mergePlugins | now apply post_ret]. }
  intros _ h4 H4.
  apply post_bind_read; [auto with readonly | exact H4 | intros keys Hkeys].
  eapply post_seq with (R := fun _ => wr (Some own) F (h0 ++ hx3));
    [| intros _ h5 H5; now apply post_ret].
  apply (post_forEach _ _ (wr (Some own) F (h0 ++ hx3))); [exact H4 |].
  intros i h5 _ H5. now apply (wp_mergeElement own F (h0 ++ hx3) Hown rec s1 Hrec1).
Qed.

End WholeCall.

(** *** The recursion

    [F h s] is the set of the objects that a call started in [h] with the
    operand [s] may replace values in, and [C h s] is what the call assumes
    of them; both are passed on from a call to the calls it makes. *)

Section Recursion.

Variable F : heap -> val -> loc -> Prop.
Variable C : heap -> val -> Prop.

Hypothesis F_here : forall h l, F h (VRef l) l.

Hypothesis F_part : forall own h0 s hc s',
  C h0 s -> length h0 <= own -> wr (Some own) (F h0 s) h0 hc -> part_of hc s s' ->
  C hc s' /\ forall l, l < length h0 -> F hc s' l -> F h0 s l.

Definition writes_within (rec : val -> val -> bool -> option string -> HM val) : Prop :=
  forall t s c pk h,
    C h s ->
    post (rec t s c pk) h (fun _ h' => wr None (F h s) h h') (wr None (F h s) h).

(** The objects made since the start, with those of [F h0 s]. *)
Definition since (h0 : heap) (s : val) (l : loc) : Prop := length h0 <= l \/ F h0 s l.

Lemma writes_lift rec h0 s own hx hc t' s' c' pk' :
  writes_within rec -> C h0 s ->
  length h0 <= own -> own < length (h0 ++ hx) ->
  wr (Some own) (since h0 s) (h0 ++ hx) hc -> part_of hc s s' ->
  post (rec t' s' c' pk') hc
    (fun _ => wr (Some own) (since h0 s) (h0 ++ hx))
    (wr (Some own) (since h0 s) (h0 ++ hx)).
Proof.
  intros Hrec HC L Hown Hc Hp.
  assert (Hc0 : wr (Some own) (F h0 s) h0 hc).
  { apply wr_mono with (F := since h0 s); [| eapply wr_base; eauto].
    intros l Hl [Hge | HF]; [lia | exact HF]. }
  destruct (F_part own h0 s hc s' HC L Hc0 Hp) as [HC' Hsub].
  assert (G : forall h', wr None (F hc s') hc h' -> wr (Some own) (since h0 s) (h0 ++ hx) h').
  { intros h' H'. eapply wr_trans; [| exact Hc |].
    - intros l [= <-]. exact Hown.
    - apply wr_own. apply wr_mono with (F := F hc s'); [| exact H'].
      intros l _ HF. destruct (decide (l < length h0)) as [Hlt | Hge].
      + right. now apply Hsub.
      + left. lia. }
  eapply post_mono with (Q := fun _ h' => wr None (F hc s') hc h');
    [apply (Hrec t' s' c' pk' hc HC') | intros _ h'; apply G | apply G].
Qed.

Lemma since_here h0 s sl : s = VRef sl -> since h0 s sl.
Proof. intros ->. right. apply F_here. Qed.

Lemma deepMerge_writes_within fuel : writes_within (_deepMerge this fuel).
Proof.
  induction fuel as [| fuel IH]; intros t s c pk h HC; simpl.
  - apply post_abort. apply wr_refl.
  - assert (Hs : forall h', wr None (since h s) h h' -> wr None (F h s) h h').
    { intros h'. apply wr_mono. intros l Hl [Hge | HF]; [lia | exact HF]. }
    apply post_bind_read; [auto with readonly | apply wr_refl | intros sa Hsa].
    apply post_bind_read; [auto with readonly | apply wr_refl | intros ta Hta].
    apply isArrayM_ret in Hsa, Hta. destruct Hsa as [-> _], Hta as [-> _].
    apply post_bind. unfold post at 1, alloc.
    destruct (isArray h s || isArray h t) eqn:Harr.
    + eapply post_mono with (Q := fun _ h' => wr None (since h s) h h');
        [| intros _ h'; apply Hs | apply Hs].
      apply (wp_mergeArray (_deepMerge this fuel) h s (since h s)).
      * intros own hx hc t' s' c' pk'. now apply writes_lift.
      * intros sl. apply since_here.
    + apply orb_false_iff in Harr. destruct Harr as [Hna _].
      eapply post_mono with (Q := fun _ h' => wr None (since h s) h h');
        [| intros _ h'; apply Hs | apply Hs].
      apply (wp_mergeObject (_deepMerge this fuel) h s (since h s)); [| | exact Hna].
      * intros own hx hc t' s' c' pk'. now apply writes_lift.
      * intros sl. apply since_here.
Qed.

End Recursion.

(** Whatever the operands: nothing is written but what is replaced. *)
Lemma deepMerge_replaces fuel t s c pk h :
  post (_deepMerge this fuel t s c pk) h
    (fun _ h' => wr None (fun _ => True) h h') (wr None (fun _ => True) h).
Proof.
  apply (deepMerge_writes_within (fun _ _ _ => True) (fun _ _ => True)); auto.
Qed.

(** *** The objects of [src] *)

(** A value of the objects reached from [s] in the store [h0], after some
    steps of the call: a value reached then, or the new one-element array
    that has replaced one. *)
Definition of_src (h0 hc : heap) (s v : val) : Prop :=
  (forall l, v = VRef l -> reach h0 s l) \/
  exists m v0, v = VRef m /\ length h0 <= m /\ hc !! m = Some (OArr [v0]) /\
               forall l, v0 = VRef l -> reach h0 s l.

Lemma reach_last h v l0 o x l :
  reach h v l0 -> h !! l0 = Some o -> In x (values o) -> x = VRef l -> reach h v l.
Proof.
  intros R Ho Hin ->. induction R as [l0 | l1 o1 v1 l0 Ho1 Hin1 _ IH].
  - eapply reach_step; [exact Ho | exact Hin | apply reach_here].
  - eapply reach_step; [exact Ho1 | exact Hin1 | now apply IH].
Qed.

Lemma Forall2_values h h' p p' x' :
  Forall2 (entry_kept h h') p p' -> In x' (map snd p') ->
  exists e, In e p /\ replaced h h' (fst e) (snd e) x'.
Proof.
  induction 1 as [| e e' r r' [_ Hr] _ IH]; simpl; [contradiction |].
  intros [<- | Hin].
  - exists e. split; [now left | exact Hr].
  - destruct (IH Hin) as (e0 & He0 & Hr0). exists e0. split; [now right | exact Hr0].
Qed.

(** The values of an object reached from [s], seen after some steps. *)
Lemma of_src_values own h0 hc s l0 o x :
  closed_from h0 s -> length h0 <= own ->
  wr (Some own) (reach h0 s) h0 hc ->
  of_src h0 hc s (VRef l0) -> hc !! l0 = Some o -> In x (values o) ->
  of_src h0 hc s x.
Proof.
  intros HC L [K O] [Hold | (m & v0 & [= ->] & Hm & Harr & Hv0)] Ho Hin.
  - specialize (Hold l0 eq_refl). pose proof (HC l0 Hold) as Hlt.
    destruct (lookup_lt_is_Some_2 h0 l0 Hlt) as [o0 Ho0].
    destruct (O l0 o0 Ho0) as (o' & Ho' & Hk & _); [intros [= ->]; lia |].
    rewrite Ho in Ho'. injection Ho' as <-.
    destruct o0 as [a0 | p0], o as [a | p]; simpl in Hk; try contradiction.
    + subst a. left. intros l ->. eapply reach_last; eauto.
    + simpl in Hin. destruct (Forall2_values _ _ _ _ _ Hk Hin) as (e & He & Hr).
      assert (Hv : In (snd e) (values (OObj p0))) by (simpl; now apply in_map).
      destruct Hr as [-> | (_ & _ & m & -> & Hm & Hh)].
      * left. intros l E. eapply reach_last; eauto.
      * right. exists m, (snd e). repeat split; auto.
        intros l E. eapply reach_last; eauto.
  - rewrite Harr in Ho. injection Ho as <-. simpl in Hin. destruct Hin as [<- | []].
    now left.
Qed.

Lemma of_src_reach own h0 hc s v l :
  closed_from h0 s -> length h0 <= own ->
  wr (Some own) (reach h0 s) h0 hc ->
  reach hc v l -> of_src h0 hc s v -> of_src h0 hc s (VRef l).
Proof.
  intros HC L H R. induction R as [l | l0 o x l Ho Hin _ IH]; intros Hv; [exact Hv |].
  apply IH. eapply of_src_values; eauto.
Qed.

Lemma of_src_valid own h0 hc s l :
  closed_from h0 s -> wr (Some own) (reach h0 s) h0 hc ->
  of_src h0 hc s (VRef l) -> l < length hc /\ (l < length h0 -> reach h0 s l).
Proof.
  intros HC H [Hold | (m & v0 & [= ->] & Hm & Harr & _)].
  - specialize (Hold l eq_refl). split; [| auto].
    pose proof (HC l Hold). pose proof (wr_length _ _ _ _ H). lia.
  - split; [eapply lookup_lt_Some; eauto | lia].
Qed.

Lemma reach_part own h0 s hc s' :
  closed_from h0 s -> length h0 <= own ->
  wr (Some own) (reach h0 s) h0 hc -> part_of hc s s' ->
  closed_from hc s' /\ forall l, l < length h0 -> reach hc s' l -> reach h0 s l.
Proof.
  intros HC L H Hp.
  assert (Hs' : of_src h0 hc s s').
  { destruct Hp as [Hp | (sl & o & -> & Ho & Hin)].
    - left. intros l ->. now destruct (Hp l).
    - eapply of_src_values; eauto. left. intros l [= <-]. apply reach_here. }
  assert (G : forall l, reach hc s' l -> of_src h0 hc s (VRef l)).
  { intros l R. eapply of_src_reach; eauto. }
  split.
  - intros l R. apply (of_src_valid own h0 hc s l HC H). now apply G.
  - intros l Hl R. apply (of_src_valid own h0 hc s l HC H); [now apply G | exact Hl].
Qed.

(** When every object reached from [src] is in the store, the merge
    leaves every other object as it is. *)
Lemma deepMerge_writes_src fuel t s c pk h :
  closed_from h s ->
  post (_deepMerge this fuel t s c pk) h
    (fun _ h' => wr None (reach h s) h h') (wr None (reach h s) h).
Proof.
  apply (deepMerge_writes_within reach closed_from).
  - intros h1 l. apply reach_here.
  - apply reach_part.
Qed.

End MergeWrites.

(** * A host for worked examples

    A POSIX host whose working directory is [/work], with no modules, the
    given JSON files, and a validator that accepts everything. *)

Module Example.

Definition files (fs : list (string * tree)) (p : string) : error + tree :=
  match assoc_get p fs with
  | Some t => inr t
  | None => inl (mkError Error ("ENOENT: no such file or directory, open '" +:+ p +:+ "'"))
  end.

Definition noModule (p : string) : error + tree :=
  inl (mkError Error ("Cannot find module '" +:+ p +:+ "'")).

Definition accept (h : heap) (config : val) (rules : tree) (configName : string) : option error :=
  None.

Definition host (fs : list (string * tree)) : Env :=
  mkEnv posix.api "/work" noModule (files fs) accept.

(** The resolver a constructor call without argument builds. *)
Definition plain : ConfigResolver := mkResolver (TObj []) (TObj []) (TObj []) [].

Definition upgrading (keys : list string) : ConfigResolver :=
  mkResolver (TObj []) (TObj []) (TObj []) (map TStr keys).

End Example.

(** * The classification of references *)

Definition is_alphanumeric (c : ascii) : bool :=
  let n := nat_of_ascii c in
  (Nat.leb 48 n && Nat.leb n 57) || (Nat.leb 65 n && Nat.leb n 90)
  || (Nat.leb 97 n && Nat.leb n 122).

(** The classification rule in the words of the specification: a file path
    is an absolute path, or a reference whose first character is neither
    alphanumeric nor [@]. *)
Definition spec_isFilePath (p : PathApi) (s : string) : bool :=
  isAbsolute p s ||
  match s with
  | String c _ => negb (is_alphanumeric c) && negb (Ascii.eqb c "@"%char)
  | EmptyString => false
  end.

Lemma is_word_char_spec c : is_word_char c = is_alphanumeric c || Ascii.eqb c "_"%char.
Proof.
  destruct c as [[] [] [] [] [] [] [] []]; reflexivity.
Qed.

(** C6, as the specification states it, fails on a reference that starts
    with an underscore: the character is not alphanumeric and not [@], the
    reference is not absolute, and the code treats it as a module. *)
Lemma isFilePath_underscore_is_module :
  let env := Example.host [] in
  spec_isFilePath (path env) "_conf" = true /\ _isFilePath env "_conf" = false.
Proof. split; reflexivity. Qed.

(** C6 (amended): a reference is a file path exactly when it is absolute, or
    empty, or its first character is none of a letter, a digit, an
    underscore and [@]. *)
Theorem isFilePath_rule (env : Env) (s : string) :
  _isFilePath env s =
  isAbsolute (path env) s ||
  match s with
  | EmptyString => true
  | String c _ =>
      negb (is_alphanumeric c || Ascii.eqb c "_"%char || Ascii.eqb c "@"%char)
  end.
Proof.
  unfold _isFilePath. f_equal. destruct s as [| c r]; [reflexivity |].
  unfold char_at. simpl. now rewrite is_word_char_spec.
Qed.

(** Apart from the underscore and the empty reference, the code and the
    rule of the specification agree. *)
Lemma isFilePath_agrees_with_spec (env : Env) (c : ascii) (r : string) :
  c <> "_"%char ->
  _isFilePath env (String c r) = spec_isFilePath (path env) (String c r).
Proof.
  intros Hc. unfold _isFilePath, spec_isFilePath. f_equal.
  unfold char_at. simpl. rewrite is_word_char_spec.
  assert (E : Ascii.eqb c "_"%char = false) by now apply Ascii.eqb_neq.
  rewrite E, orb_false_r, negb_orb. reflexivity.
Qed.

(** * [setResolverData] *)

(** C10: all four checks come before the first assignment, so a call that
    does not return leaves the instance as it was; and it stops only by a
    [TypeError]. *)
Theorem setResolverData_atomic (data : tree) (this this' : ConfigResolver)
    (r : res unit) :
  setResolverData data this = (r, this') ->
  (forall u, r <> Ret u) ->
  this' = this /\ exists msg, r = Throw (mkError TypeError msg).
Proof.
  unfold setResolverData. intros E Hr.
  destruct data; try (inversion E; subst; eauto; fail);
    repeat match type of E with
    | (if ?b then _ else _) _ = _ => destruct b
    | (match ?x with _ => _ end) _ = _ => destruct x
    end;
    try (inversion E; subst; eauto; fail);
    inversion E; subst; exfalso; eapply Hr; reflexivity.
Qed.

Lemma setResolverData_atomic_witness :
  let this := Example.plain in
  let data := TObj [("defaultValues", TObj [("a", TNum 1)]); ("upgradeMergeList", TStr "tags")] in
  snd (setResolverData data this) = this /\
  exists msg, fst (setResolverData data this) = Throw (mkError TypeError msg).
Proof.
  intros this data.
  apply (setResolverData_atomic data this (snd (setResolverData data this))
           (fst (setResolverData data this))).
  - reflexivity.
  - intros u. vm_compute. discriminate.
Defined.

(** What a call that returns has assigned. *)
Lemma setResolverData_assigns (data : tree) (this this' : ConfigResolver) :
  setResolverData data this = (Ret tt, this') ->
  let data' := match data with TUndef => TObj [] | _ => data end in
  _defaultValues this' = fieldOr data' "defaultValues" (TObj []) /\
  _preValidate this' = fieldOr data' "preValidate" (TObj []) /\
  _postValidate this' = fieldOr data' "postValidate" (TObj []) /\
  TArr (_upgradeMergeList this') = fieldOr data' "upgradeMergeList" (TArr []) /\
  tree_typeof (_defaultValues this') = "object" /\
  tree_typeof (_preValidate this') = "object" /\
  tree_typeof (_postValidate this') = "object".
Proof.
  unfold setResolverData. intros E.
  destruct data; try (inversion E; fail); cbv zeta in *;
    repeat match type of E with
    | (if negb (String.eqb ?t "object") then _ else _) _ = _ =>
        let Ht := fresh "Ht" in destruct (String.eqb t "object") eqn:Ht; simpl in E
    | (match ?x with _ => _ end) _ = _ =>
        let Hx := fresh "Hx" in destruct x eqn:Hx
    end;
    try (inversion E; fail);
    inversion E; subst; simpl;
    repeat match goal with
    | H : String.eqb _ _ = true |- _ => apply String.eqb_eq in H
    end; auto 10.
Qed.

(** * The guard of [resolve] *)

Definition guardError : error := mkError TypeError "'config' is not an 'object'.".

(** C9: the guard rejects exactly the values whose [typeof] is not
    ['object'].  [null] and every reference (an array is one) pass it:
    [resolve] then goes on with the pre-validation, and for [null] stops at
    the read of [config.extends] with another [TypeError]. *)
Theorem resolve_guard_by_typeof (env : Env) (this : ConfigResolver) (depth fuel : nat) :
  (forall config h,
     resolveGuard config h =
     (if String.eqb (typeof config) "object" then Ret tt else Throw guardError, h)) /\
  typeof VNull = "object" /\
  (forall l, typeof (VRef l) = "object") /\
  (forall h,
     resolve env this depth fuel VNull h =
     match preValidate env this VNull "config" h with
     | (Ret _, h') =>
         (Throw (mkError TypeError "Cannot read property 'extends' of null"), h')
     | (Throw e, h') => (Throw e, h')
     | (Abort, h') => (Abort, h')
     end) /\
  (forall l h,
     resolve env this depth fuel (VRef l) h =
     (preValidate env this (VRef l) "config" ;;;
      resolvedConfig <- _resolveExtends env this depth fuel (VRef l) ;;
      setDefaultValues this resolvedConfig ;;;
      postValidate env this resolvedConfig "config" ;;;
      ret resolvedConfig) h).
Proof.
  split; [| repeat split].
  intros config h. unfold resolveGuard. destruct config; reflexivity.
Qed.

(** With the resolver a constructor call without argument builds,
    [resolve(null)] stops at [config.extends] and [resolve] of an array
    returns a copy of it. *)
Example resolve_null_and_array :
  resolveTree (Example.host []) Example.plain 8 8 TNull
    = Throw (mkError TypeError "Cannot read property 'extends' of null") /\
  resolveTree (Example.host []) Example.plain 8 8 (TArr [TNum 1; TNum 2])
    = Ret (TArr [TNum 1; TNum 2]) /\
  resolveTree (Example.host []) Example.plain 8 8 (TStr "x") = Throw guardError.
Proof. repeat split; reflexivity. Qed.

(** * The loaded chain *)

Section Chain.

Variable env : Env.
Variable this : ConfigResolver.
Variable depth : nat.

(** The chain [l0] has grown, without duplicates, into the chain of [s]. *)
Definition chain_ok (l0 : list string) (s : heap * list string) : Prop :=
  NoDup (snd s) /\ l0 `prefix_of` snd s.

Lemma chain_liftH {A} (m : HM A) l0 s :
  chain_ok l0 s -> post (liftH m) s (fun _ => chain_ok l0) (chain_ok l0).
Proof.
  intros H. unfold post, liftH. destruct (m (fst s)) as [[a | e |] h']; exact H.
Qed.

Lemma chain_ofHost {A} (r : error + A) l0 s :
  chain_ok l0 s -> post (ofHost r) s (fun _ => chain_ok l0) (chain_ok l0).
Proof. intros H. destruct r; exact H. Qed.

Lemma existsb_eqb_In x l : existsb (String.eqb x) l = true <-> In x l.
Proof.
  rewrite existsb_exists. split.
  - intros (y & Hy & E). apply String.eqb_eq in E. now subst.
  - intros H. exists x. split; [exact H | apply String.eqb_refl].
Qed.

Definition load_chain_ok
    (load : string -> option string -> option (val -> HM unit) -> RM val) : Prop :=
  forall filePath relativeTo validate l0 s,
    chain_ok l0 s -> post (load filePath relativeTo validate) s (fun _ => chain_ok l0) (chain_ok l0).

Lemma chain_extendsStep load filePath relativeTo validate prev parentPath l0 s :
  load_chain_ok load -> chain_ok l0 s ->
  post (extendsStep env this depth load filePath relativeTo validate prev parentPath) s
    (fun _ => chain_ok l0) (chain_ok l0).
Proof.
  intros Hload H. unfold extendsStep.
  destruct parentPath as [| | | | p |]; try (apply post_typeError; exact H).
  apply post_bind. unfold post at 1, loaded.
  destruct (existsb _ (snd s)) eqn:E; [apply post_ret; exact H |].
  apply post_bind. unfold post at 1, pushLoaded.
  assert (H1 : chain_ok l0 (fst s, snd s ++ [resolveParentPath env filePath relativeTo p])).
  { destruct H as [Hnd Hpre]. split; simpl.
    - apply NoDup_app. repeat split; [exact Hnd | | apply NoDup_singleton].
      intros x Hx Hx'. apply list_elem_of_In in Hx. apply list_elem_of_singleton in Hx'. subst x.
      apply existsb_eqb_In in Hx. congruence.
    - now apply prefix_app_r. }
  eapply post_seq; [apply Hload; exact H1 | cbv beta].
  intros parent s' Hs'. now apply chain_liftH.
Qed.

Lemma chain_applyExtendsWith load config filePath relativeTo validate l0 s :
  load_chain_ok load -> chain_ok l0 s ->
  post (applyExtendsWith env this depth load config filePath relativeTo validate) s
    (fun _ => chain_ok l0) (chain_ok l0).
Proof.
  intros Hload H. unfold applyExtendsWith.
  eapply post_seq; [now apply chain_liftH | cbv beta]. intros e s1 H1.
  eapply post_seq; [now apply chain_liftH | cbv beta]. intros a s2 H2.
  eapply post_seq with (R := fun _ => chain_ok l0).
  { destruct a; [now apply chain_liftH | now apply post_ret]. }
  intros configExtends s3 H3.
  apply (post_reduceM _ _ (fun _ => chain_ok l0)); [exact H3 |].
  intros b x s4 _ H4. now apply chain_extendsStep.
Qed.

Lemma chain_load fuel : load_chain_ok (_load env this depth fuel).
Proof.
  induction fuel as [| fuel IH]; intros filePath relativeTo validate l0 s H; simpl.
  - apply post_abort. exact H.
  - eapply post_seq; [now apply chain_ofHost | cbv beta]. intros loadedFile s1 H1.
    eapply post_seq; [now apply chain_liftH | cbv beta]. intros config s2 H2.
    eapply post_seq with (R := fun _ => chain_ok l0).
    { destruct validate; [now apply chain_liftH | now apply post_ret]. }
    intros _ s3 H3.
    destruct (truthy config); [| now apply post_ret].
    eapply post_seq; [now apply chain_liftH | cbv beta]. intros e s4 H4.
    destruct (truthy e); [| now apply post_ret].
    now apply chain_applyExtendsWith.
Qed.

Lemma chain_applyExtends fuel config filePath relativeTo validate l0 s :
  chain_ok l0 s ->
  post (_applyExtends env this depth fuel config filePath relativeTo validate) s
    (fun _ => chain_ok l0) (chain_ok l0).
Proof. intros H. apply chain_applyExtendsWith; [apply chain_load | exact H]. Qed.

End Chain.

(** C4: a reference whose resolved identifier is already in the loaded chain
    is skipped: the accumulator is returned as it is, nothing is loaded or
    merged, the store and the chain are unchanged and nothing is thrown.
    And a walk that starts from a chain without duplicates only appends to
    it and leaves a chain without duplicates, however it ends. *)
Theorem loaded_chain_no_duplicates (env : Env) (this : ConfigResolver) (depth fuel : nat)
    (config : val) (filePath : string) (relativeTo : option string)
    (validate : option (val -> HM unit)) (h : heap) (l : list string) :
  NoDup l ->
  (forall load prev p,
     In (resolveParentPath env filePath relativeTo p) l ->
     extendsStep env this depth load filePath relativeTo validate prev (VStr p) (h, l)
     = (Ret prev, (h, l))) /\
  (let s' := snd (_applyExtends env this depth fuel config filePath relativeTo validate (h, l)) in
   NoDup (snd s') /\ l `prefix_of` snd s').
Proof.
  intros Hnd. split.
  - intros load prev p Hin. unfold extendsStep, bind, loaded. simpl.
    apply existsb_eqb_In in Hin. now rewrite Hin.
  - cbv zeta.
    destruct (_applyExtends env this depth fuel config filePath relativeTo validate (h, l))
      as [r s'] eqn:E.
    apply (post_any _ _ _ _ (chain_ok l) E).
    apply chain_applyExtends. split; [exact Hnd | reflexivity].
Qed.

Lemma loaded_chain_no_duplicates_witness :
  let env := Example.host
    [("/work/A.json", TObj [("extends", TStr "./B.json"); ("a", TNum 1)]);
     ("/work/B.json", TObj [("extends", TStr "./A.json"); ("b", TNum 2)])] in
  let h := [OObj [("extends", VStr "./A.json")]] in
  NoDup (@nil string) /\
  (let s' := snd (_applyExtends env Example.plain 8 8 (VRef 0) "/work" (Some "/work") None
                    (h, [])) in
   NoDup (snd s') /\ [] `prefix_of` snd s') /\
  snd (snd (_applyExtends env Example.plain 8 8 (VRef 0) "/work" (Some "/work") None (h, [])))
  = ["/work/A.json"; "/work/B.json"].
Proof.
  intros env h. split; [constructor |]. split; [| reflexivity].
  apply (loaded_chain_no_duplicates env Example.plain 8 8 (VRef 0) "/work" (Some "/work")
           None h []).
  constructor.
Defined.

(** * The diagnostic of a failed walk *)

Lemma append_assoc (a b c : string) : (a +:+ b) +:+ c = a +:+ (b +:+ c).
Proof.
  induction a as [| x a IH]; [reflexivity |].
  change (String x ((a +:+ b) +:+ c) = String x (a +:+ (b +:+ c))). now rewrite IH.
Qed.

Lemma append_nil_r (a : string) : a +:+ "" = a.
Proof.
  induction a as [| x a IH]; [reflexivity |].
  change (String x (a +:+ "") = String x a). now rewrite IH.
Qed.

Lemma concat_contains (sep x : string) (l : list string) :
  In x l -> exists pre suf, String.concat sep l = pre +:+ x +:+ suf.
Proof.
  induction l as [| y r IH]; [intros [] |].
  intros [-> | Hin].
  - exists "". destruct r as [| z r']; simpl.
    + exists "". now rewrite append_nil_r.
    + eexists. reflexivity.
  - destruct (IH Hin) as (pre & suf & E).
    destruct r as [| z r']; [destruct Hin |].
    exists (y +:+ sep +:+ pre), suf.
    change (String.concat sep (y :: z :: r')) with (y +:+ sep +:+ String.concat sep (z :: r')).
    rewrite E. now rewrite !append_assoc.
Qed.

(** ** The chain is the trace of the loads *)

(** The outcome of a computation of the walk, with the chain for trace. *)
Definition withTrace {A} (out : res A * (heap * list string))
    : res A * ((heap * list string) * list string) :=
  (fst out, (snd out, snd (snd out))).

Lemma traced_bind {A B} (mT : TM A) (m : RM A) (fT : A -> TM B) (f : A -> RM B) s t :
  mT (s, t) = withTrace (m s) ->
  (forall a s', fT a (s', snd s') = withTrace (f a s')) ->
  bind mT fT (s, t) = withTrace (bind m f s).
Proof.
  intros Hm Hf. unfold bind. rewrite Hm. unfold withTrace at 1.
  destruct (m s) as [[a | e |] s']; simpl; [apply Hf | reflexivity | reflexivity].
Qed.

Lemma traced_liftR {A} (m : RM A) s :
  snd (snd (m s)) = snd s -> liftR m (s, snd s) = withTrace (m s).
Proof.
  intros H. unfold liftR, withTrace. simpl. destruct (m s) as [r s']. simpl in *. now rewrite H.
Qed.

Lemma traced_liftH {A} (m : HM A) s : liftR (liftH m) (s, snd s) = withTrace (liftH m s).
Proof. apply traced_liftR. unfold liftH. now destruct (m (fst s)) as [r h']. Qed.

Lemma traced_ret {A} (a : A) (s : heap * list string) :
  ret a (s, snd s) = withTrace (ret a s).
Proof. reflexivity. Qed.

Section TraceOfLoads.

Variable env : Env.
Variable this : ConfigResolver.
Variable depth : nat.

(** A loader that is called once its identifier is recorded, and that ends
    with the chain for trace. *)
Definition load_traced
    (loadT : string -> option string -> option (val -> HM unit) -> TM val)
    (load : string -> option string -> option (val -> HM unit) -> RM val) : Prop :=
  forall id relativeTo validate h l,
    loadT id relativeTo validate ((h, l ++ [id]), l)
    = withTrace (load id relativeTo validate (h, l ++ [id])).

Lemma traced_extendsStep loadT load filePath relativeTo validate prev parentPath s :
  load_traced loadT load ->
  extendsStepT env this depth loadT filePath relativeTo validate prev parentPath (s, snd s)
  = withTrace (extendsStep env this depth load filePath relativeTo validate prev parentPath s).
Proof.
  intros Hload. unfold extendsStepT, extendsStep.
  destruct parentPath as [| | | | p |]; try reflexivity.
  apply traced_bind; [now apply traced_liftR |]. intros loadedConfigs s1.
  destruct (existsb _ loadedConfigs); [reflexivity |].
  unfold bind at 1 3, liftR at 1, pushLoaded. simpl fst. simpl snd. cbv iota beta.
  destruct s1 as [h1 l1]. simpl fst. simpl snd.
  apply traced_bind; [apply Hload |]. intros parent s2. apply traced_liftH.
Qed.

Lemma traced_reduceM loadT load filePath relativeTo validate xs :
  load_traced loadT load ->
  forall b s,
    reduceM (extendsStepT env this depth loadT filePath relativeTo validate) xs b (s, snd s)
    = withTrace (reduceM (extendsStep env this depth load filePath relativeTo validate) xs b s).
Proof.
  intros Hload. induction xs as [| x xs IH]; intros b s; [reflexivity |].
  simpl. apply traced_bind; [now apply traced_extendsStep | exact IH].
Qed.

Lemma traced_applyExtendsWith loadT load config filePath relativeTo validate s :
  load_traced loadT load ->
  applyExtendsWithT env this depth loadT config filePath relativeTo validate (s, snd s)
  = withTrace (applyExtendsWith env this depth load config filePath relativeTo validate s).
Proof.
  intros Hload. unfold applyExtendsWithT, applyExtendsWith.
  apply traced_bind; [apply traced_liftH |]. intros e s1.
  apply traced_bind; [apply traced_liftH |]. intros a s2.
  apply traced_bind.
  { destruct a; [apply traced_liftH | reflexivity]. }
  intros configExtends s3. now apply traced_reduceM.
Qed.

Lemma traced_load fuel : load_traced (_loadT env this depth fuel) (_load env this depth fuel).
Proof.
  induction fuel as [| fuel IH]; intros id relativeTo validate h l; [reflexivity |].
  cbn [_loadT _load]. unfold bind at 1, note. simpl fst. simpl snd. cbv iota beta.
  change (l ++ [id]) with (snd (h, l ++ [id])) at 2.
  generalize (h, l ++ [id]). intros s.
  apply traced_bind.
  { apply traced_liftR. now destruct (hostLoad _ _ _). }
  intros loadedFile s1.
  apply traced_bind; [apply traced_liftH |]. intros config s2.
  apply traced_bind.
  { destruct validate; [apply traced_liftH | reflexivity]. }
  intros _ s3. destruct (truthy config); [| reflexivity].
  apply traced_bind; [apply traced_liftH |]. intros e s4.
  destruct (truthy e); [| reflexivity].
  now apply traced_applyExtendsWith.
Qed.

Lemma traced_applyExtends fuel config filePath relativeTo validate h :
  _applyExtendsT env this depth fuel config filePath relativeTo validate ((h, []), [])
  = withTrace (_applyExtends env this depth fuel config filePath relativeTo validate (h, [])).
Proof.
  apply (traced_applyExtendsWith _ _ config filePath relativeTo validate (h, [])), traced_load.
Qed.

End TraceOfLoads.

(** C8: when the walk of the chain throws, [resolve] throws the same error
    with the loaded chain appended to its message: the identifiers recorded
    so far (the one whose load failed is the last of them), in load order,
    one to a line.  Every recorded identifier occurs in the message, and none
    is recorded twice.  The chain is the trace of the loads: run with a
    trace, the walk throws the same error from the same store, and its chain
    is the list of the identifiers that [_load] was called with, in the
    order of the calls; so the message names every identifier that was
    loaded before the error, in load order. *)
Theorem walk_error_names_loaded_chain (env : Env) (this : ConfigResolver) (depth fuel : nat)
    (config e : val) (h h' : heap) (err : error) (l : list string) :
  typeof config = "object" ->
  preValidate env this config "config" h = (Ret tt, h) ->
  getKey config "extends" h = (Ret e, h) ->
  truthy e = true ->
  _applyExtends env this depth fuel config (cwd env) (Some (cwd env))
    (Some (fun c => preValidate env this c "config")) (h, []) = (Throw err, (h', l)) ->
  resolve env this depth fuel config h = (Throw (referencedFrom err l), h') /\
  _resolveExtends env this depth fuel config h = (Throw (referencedFrom err l), h') /\
  name (referencedFrom err l) = name err /\
  message (referencedFrom err l)
  = message err +:+ newline +:+ "Referenced from: " +:+ newline +:+ String.concat newline l /\
  (forall id, In id l ->
     exists pre suf, message (referencedFrom err l) = pre +:+ id +:+ suf) /\
  NoDup l /\
  _applyExtendsT env this depth fuel config (cwd env) (Some (cwd env))
    (Some (fun c => preValidate env this c "config")) ((h, []), [])
  = (Throw err, ((h', l), l)).
Proof.
  intros Hty Hpre Hget Htr Hwalk.
  assert (R : _resolveExtends env this depth fuel config h
              = (Throw (referencedFrom err l), h')).
  { unfold _resolveExtends, bind at 1. rewrite Hget, Htr. simpl.
    unfold bind at 1. now rewrite Hwalk. }
  repeat split.
  - unfold resolve, bind at 1, resolveGuard. rewrite Hty. simpl.
    unfold bind at 1. rewrite Hpre. unfold bind at 1. now rewrite R.
  - exact R.
  - intros id Hin. destruct (concat_contains newline id l Hin) as (pre & suf & E).
    exists (message err +:+ newline +:+ "Referenced from: " +:+ newline +:+ pre), suf.
    unfold referencedFrom. simpl message. rewrite E. now rewrite !append_assoc.
  - assert (G : chain_ok [] (h', l)); [| apply G].
    apply (post_any _ _ _ _ (chain_ok []) Hwalk).
    apply chain_applyExtends. split; [apply NoDup_nil_2 | reflexivity].
  - rewrite traced_applyExtends. now rewrite Hwalk.
Qed.

Lemma walk_error_names_loaded_chain_witness :
  let env := Example.host [("/work/A.json", TObj [("extends", TStr "./missing.json")])] in
  let this := Example.plain in
  let h := [OObj [("extends", VStr "./A.json")]] in
  let err := mkError Error "ENOENT: no such file or directory, open '/work/missing.json'" in
  let l := ["/work/A.json"; "/work/missing.json"] in
  let h' := h ++ [OObj [("extends", VStr "./missing.json")]] in
  resolve env this 8 8 (VRef 0) h = (Throw (referencedFrom err l), h') /\
  _resolveExtends env this 8 8 (VRef 0) h = (Throw (referencedFrom err l), h') /\
  name (referencedFrom err l) = name err /\
  message (referencedFrom err l)
  = message err +:+ newline +:+ "Referenced from: " +:+ newline +:+ String.concat newline l /\
  (forall id, In id l ->
     exists pre suf, message (referencedFrom err l) = pre +:+ id +:+ suf) /\
  NoDup l /\
  _applyExtendsT env this 8 8 (VRef 0) (cwd env) (Some (cwd env))
    (Some (fun c => preValidate env this c "config")) ((h, []), [])
  = (Throw err, ((h', l), l)).
Proof.
  intros env this h err l h'.
  apply (walk_error_names_loaded_chain env this 8 8 (VRef 0) (VStr "./A.json") h h' err l);
    reflexivity.
Defined.

(** * What [_deepMerge] does to the store *)

(** C2, as the specification states it, fails: with [tags] in the
    upgrade-merge list, merging [{ tags: 'a' }] over [{}] replaces the value
    of [tags] in the override operand itself by a new array [['a']]. *)
Lemma deepMerge_writes_into_src :
  let this := Example.upgrading ["tags"] in
  let h := [OObj []; OObj [("tags", VStr "a")]] in
  let out := _deepMerge this 4 (VRef 0) (VRef 1) false None h in
  fst out = Ret (VRef 2) /\
  h !! 1 = Some (OObj [("tags", VStr "a")]) /\
  snd out !! 1 = Some (OObj [("tags", VRef 3)]) /\
  snd out !! 3 = Some (OArr [VStr "a"]) /\
  snd out !! 1 <> h !! 1.
Proof. repeat split. discriminate. Qed.

(** * Worked scenarios of [resolve] *)

Module Scenario.

Import Example.

Definition pluginsChild : tree :=
  TObj [("extends", TStr "./parent.json");
        ("plugins", TArr [TObj [("name", TStr "x")]])].

Definition pluginsParent : tree :=
  TObj [("plugins", TArr [TObj [("name", TStr "y")];
                          TObj [("name", TStr "x"); ("opt", TNum 1)]])].

Definition withDefaultB : ConfigResolver :=
  mkResolver (TObj [("b", TNum 2)]) (TObj []) (TObj []) [].

(** The value of a key in a configuration given as plain data. *)
Definition valueOf (k : string) (t : tree) : option tree :=
  match t with
  | TObj p => assoc_get k p
  | _ => None
  end.

End Scenario.

(** C3: the child's plugin [x] replaces the parent's [x], and the parent's
    [y], which no one overrides, comes first after the final reversal.  The
    result does not depend on the bounds of the model. *)
Theorem plugins_child_replaces_parent_entry (d f : nat) :
  resolveTree (Example.host [("/work/parent.json", Scenario.pluginsParent)])
    Example.plain (4 + d) (1 + f) Scenario.pluginsChild
  = Ret (TObj [("plugins", TArr [TObj [("name", TStr "y")]; TObj [("name", TStr "x")]]);
               ("extends", TArr [TStr "/work/parent.json"])]).
Proof. vm_compute. reflexivity. Qed.

(** C5, as the specification states it, fails: the [extends] key of the
    result holds the identifier the parent was loaded under, which is the
    reference joined to the working directory, not the reference as the
    caller wrote it. *)
Lemma extends_holds_resolved_identifier :
  let result :=
    resolveTree (Example.host [("/work/base.json", TObj [("a", TNum 1)])])
      Scenario.withDefaultB 8 8 (TObj [("extends", TStr "./base.json")]) in
  result = Ret (TObj [("a", TNum 1); ("extends", TArr [TStr "/work/base.json"]);
                      ("b", TNum 2)]) /\
  (forall t, result = Ret t ->
     Scenario.valueOf "extends" t <> Some (TArr [TStr "./base.json"])).
Proof.
  split; [reflexivity |]. intros t E. vm_compute in E. injection E as <-.
  vm_compute. discriminate.
Qed.

(** C5 (amended): with the working directory [/work], where [base.json]
    holds [{ a: 1 }], and the defaults [{ b: 2 }], the result has [a] from
    the parent, [b] from the defaults, and under [extends] the loaded chain:
    the one identifier [/work/base.json], which replaces the reference
    [./base.json]. *)
Theorem extends_replaced_by_loaded_chain (d f : nat) :
  let env := Example.host [("/work/base.json", TObj [("a", TNum 1)])] in
  resolveTree env Scenario.withDefaultB (3 + d) (1 + f) (TObj [("extends", TStr "./base.json")])
  = Ret (TObj [("a", TNum 1);
               ("extends", TArr [TStr (resolveParentPath env (cwd env) (Some (cwd env)) "./base.json")]);
               ("b", TNum 2)]) /\
  resolveParentPath env (cwd env) (Some (cwd env)) "./base.json" = "/work/base.json".
Proof. split; vm_compute; reflexivity. Qed.

(** C7: a key of the upgrade-merge list that only the parent has keeps the
    parent's single value: nothing promotes it to a sequence. *)
Theorem upgrade_key_of_parent_only_stays_single (d f : nat) :
  resolveTree (Example.host [("/work/base.json", TObj [("tags", TStr "a")])])
    (Example.upgrading ["tags"]) (3 + d) (1 + f) (TObj [("extends", TStr "./base.json")])
  = Ret (TObj [("tags", TStr "a"); ("extends", TArr [TStr "/work/base.json"])]).
Proof. vm_compute. reflexivity. Qed.

(** Where the child has the key, the value is promoted and merged. *)
Example upgrade_key_of_child_is_merged :
  resolveTree (Example.host [("/work/base.json", TObj [("tags", TArr [TStr "a"; TStr "b"])])])
    (Example.upgrading ["tags"]) 8 8 (TObj [("extends", TStr "./base.json"); ("tags", TStr "a")])
  = Ret (TObj [("tags", TArr [TStr "a"; TStr "b"]);
               ("extends", TArr [TStr "/work/base.json"])]).
Proof. reflexivity. Qed.

(** C1, as the specification states it, fails: of two siblings the last one
    wins.  A key that only [A] and [B] have resolves to the value of [B]. *)
Lemma last_sibling_wins :
  let env := Example.host [("/work/A.json", TObj [("k", TStr "from A")]);
                           ("/work/B.json", TObj [("k", TStr "from B")])] in
  let result :=
    resolveTree env Example.plain 8 8 (TObj [("extends", TArr [TStr "./A.json"; TStr "./B.json"])]) in
  result = Ret (TObj [("k", TStr "from B");
                      ("extends", TArr [TStr "/work/B.json"; TStr "/work/A.json"])]) /\
  (forall t, result = Ret t -> Scenario.valueOf "k" t <> Some (TStr "from A")).
Proof.
  split; [reflexivity |]. intros t E. vm_compute in E. injection E as <-.
  vm_compute. discriminate.
Qed.

(** A scalar of a JSON file. *)
Definition scalarTree (t : tree) : bool :=
  match t with
  | TNull | TBool _ | TNum _ | TStr _ => true
  | _ => false
  end.

(** Precedence on the smallest chain: whatever the scalar values, the child
    wins over both parents, and of the two siblings the last one wins. *)
Lemma precedence_on_single_key (vc va vb : tree) :
  scalarTree vc = true -> scalarTree va = true -> scalarTree vb = true ->
  let refs := TArr [TStr "./A.json"; TStr "./B.json"] in
  let chain := ("extends", TArr [TStr "/work/B.json"; TStr "/work/A.json"]) in
  let both := Example.host [("/work/A.json", TObj [("k", va)]); ("/work/B.json", TObj [("k", vb)])] in
  let onlyB := Example.host [("/work/A.json", TObj []); ("/work/B.json", TObj [("k", vb)])] in
  let onlyA := Example.host [("/work/A.json", TObj [("k", va)]); ("/work/B.json", TObj [])] in
  resolveTree both Example.plain 8 8 (TObj [("extends", refs); ("k", vc)])
    = Ret (TObj [("k", vc); chain]) /\
  resolveTree both Example.plain 8 8 (TObj [("extends", refs)]) = Ret (TObj [("k", vb); chain]) /\
  resolveTree onlyB Example.plain 8 8 (TObj [("extends", refs)]) = Ret (TObj [("k", vb); chain]) /\
  resolveTree onlyA Example.plain 8 8 (TObj [("extends", refs)]) = Ret (TObj [("k", va); chain]).
Proof.
  intros Hc Ha Hb.
  destruct vc; try discriminate Hc; destruct va; try discriminate Ha;
    destruct vb; try discriminate Hb; repeat split; vm_compute; reflexivity.
Qed.

(** * What a mapping merge stores under a key *)

(** A scalar that is not [undefined]. *)
Definition definedScalar (v : val) : bool :=
  match v with
  | VNull | VBool _ | VNum _ | VStr _ => true
  | VUndef | VRef _ => false
  end.

Lemma post_self {S A} (m : M S A) (s : S) :
  post m s (fun a s' => m s = (Ret a, s')) (fun _ => True).
Proof. unfold post. destruct (m s) as [[a | e |] s']; auto. Qed.

Lemma post_run {S A B} (m : M S A) (f : A -> M S B) s a s1 Q E :
  m s = (Ret a, s1) -> post (f a) s1 Q E -> post (bind m f) s Q E.
Proof. unfold post, bind. now intros ->. Qed.

Lemma post_true {S A} (m : M S A) (s : S) : post m s (fun _ _ => True) (fun _ => True).
Proof. unfold post. destruct (m s) as [[a | e |] s']; auto. Qed.

Lemma getKey_obj l k h p :
  h !! l = Some (OObj p) ->
  getKey (VRef l) k h = (Ret (default VUndef (assoc_get k p)), h).
Proof. intros Hl. unfold getKey, bind, readObj. now rewrite Hl. Qed.

Lemma objectKeys_obj l h p :
  h !! l = Some (OObj p) -> objectKeys (VRef l) h = (Ret (map fst p), h).
Proof. intros Hl. unfold objectKeys, bind, readObj. now rewrite Hl. Qed.

Lemma setKey_obj l k x h p :
  h !! l = Some (OObj p) ->
  setKey (VRef l) k x h = (Ret tt, <[l := OObj (assoc_set k x p)]> h).
Proof.
  intros Hl. unfold setKey, bind, readObj, writeObj. rewrite Hl. simpl. now rewrite Hl.
Qed.

Lemma isArray_obj l h p : h !! l = Some (OObj p) -> isArray h (VRef l) = false.
Proof. intros Hl. unfold isArray. now rewrite Hl. Qed.

Lemma definedScalar_not_array h v : definedScalar v = true -> isArray h v = false.
Proof. destruct v; simpl; auto. discriminate. Qed.

Lemma definedScalar_assigned v :
  definedScalar v = true ->
  negb (String.eqb (typeof v) "object") || negb (truthy v) = true.
Proof. destruct v; simpl; auto; discriminate. Qed.

Lemma assoc_get_None_keys {A} k (p : list (string * A)) :
  assoc_get k p = None <-> ~ In k (map fst p).
Proof.
  split.
  - intros Hn Hin. destruct (assoc_get_In k p Hin) as [v Hv]. congruence.
  - intros Hn. destruct (assoc_get k p) eqn:E; [| reflexivity].
    exfalso. apply Hn. eapply assoc_get_Some_In; eauto.
Qed.

#[local] Arguments setKey : simpl never.
#[local] Arguments getKey : simpl never.
#[local] Arguments deleteKey : simpl never.
#[local] Arguments alloc : simpl never.
#[local] Arguments isArrayM : simpl never.
#[local] Arguments objectKeys : simpl never.

Section MergeEffect.

Variable this : ConfigResolver.

(** Under a key that is not in the upgrade-merge list, a frame step leaves
    the value of every existing mapping as it was. *)
Lemma ext_get n h h' l p k :
  ext this n h h' -> l < n -> h !! l = Some (OObj p) ->
  inUpgradeMergeList this k = false ->
  exists p', h' !! l = Some (OObj p') /\ assoc_get k p' = assoc_get k p /\
             map fst p' = map fst p.
Proof.
  intros [_ O] Hl Hp Hk. destruct (O l _ Hl Hp) as (o' & Ho' & Hx).
  destruct o' as [a | p']; simpl in Hx; [contradiction |].
  exists p'. split; [exact Ho' |]. split; [| eapply entries_keys; eauto].
  destruct (assoc_get k p) as [v |] eqn:E.
  - destruct (entries_get this _ _ _ _ _ _ Hx E) as (v' & Hv' & [-> | (Hin & _)]);
      [exact Hv' | congruence].
  - apply assoc_get_None_keys. apply assoc_get_None_keys in E.
    now rewrite (entries_keys this _ _ _ _ Hx).
Qed.

Lemma rec_effect rec t s c pk h :
  rec_ok this rec ->
  post (rec t s c pk) h
    (fun d h' => heap_ext this h h' /\
       exists l, d = VRef l /\ length h <= l /\
                 isArray h' d = (isArray h s || isArray h t))
    (fun _ => True).
Proof. intros H. eapply post_mono; [apply H | auto | auto]. Qed.

(** One round of the loop over the keys of [src]: some steps within the
    frame, then the assignment [dst[k] = r].  For a key of the upgrade-merge
    list [r] is an array; for another key whose value in [src] is a defined
    scalar, over a scalar of [target], [r] is that value. *)
Lemma mergeKey_effect rec dst t sl p c k h :
  rec_ok this rec ->
  h !! sl = Some (OObj p) -> In k (map fst p) ->
  post (mergeKey this rec dst t (VRef sl) c k) h
    (fun _ h' => exists hm r,
       heap_ext this h hm /\ setKey dst k r hm = (Ret tt, h') /\
       (inUpgradeMergeList this k = true -> isArray hm r = true) /\
       (inUpgradeMergeList this k = false ->
        forall x, assoc_get k p = Some x -> definedScalar x = true ->
          (forall tv, getKey t k h = (Ret tv, h) -> isArray h tv = false) ->
          r = x))
    (fun _ => True).
Proof.
  intros Hrec Hl Hk. destruct (assoc_get_In k p Hk) as [x Hx].
  assert (Hgx : getKey (VRef sl) k h = (Ret x, h)).
  { rewrite (getKey_obj _ _ _ _ Hl), Hx. reflexivity. }
  unfold mergeKey.
  destruct (inUpgradeMergeList this k) eqn:Hin.
  - (* the value is, or is made, an array; the merge of arrays returns one *)
    eapply post_seq with
      (R := fun _ h1 => heap_ext this h h1 /\
              exists p1 v1, h1 !! sl = Some (OObj p1) /\ assoc_get k p1 = Some v1 /\
                            isArray h1 v1 = true).
    { unfold upgradeKey. rewrite Hin.
      eapply post_run; [exact Hgx |].
      eapply (post_run _ _ _ (isArray h x)); [reflexivity |].
      destruct (isArray h x) eqn:Ha; simpl.
      - apply post_ret. split; [apply ext_refl | eauto].
      - eapply post_run; [reflexivity |].
        assert (Hl1 : (h ++ [OArr [x]]) !! sl = Some (OObj p)).
        { rewrite lookup_app_l by (eapply lookup_lt_Some; eauto). exact Hl. }
        unfold post. rewrite (setKey_obj _ _ _ _ _ Hl1). split.
        + pose proof (ext_upgrade this (length h) h sl p k Hl Hin) as G.
          rewrite Hx in G. simpl in G. apply G; auto.
        + exists (assoc_set k (VRef (length h)) p), (VRef (length h)).
          split; [apply list_lookup_insert_eq; eapply lookup_lt_Some; eauto |].
          split; [apply assoc_get_set_eq |].
          unfold isArray. rewrite list_lookup_insert_ne.
          * rewrite lookup_app_r by lia. now rewrite Nat.sub_diag.
          * apply lookup_lt_Some in Hl. lia. }
    intros _ h1 (H1 & p1 & v1 & Hl1 & Hv1 & Ha1).
    eapply post_run; [rewrite (getKey_obj _ _ _ _ Hl1), Hv1; reflexivity |].
    eapply (post_run _ _ _ (isArray h1 v1)); [reflexivity |]. rewrite Ha1.
    eapply post_run; [reflexivity |]. simpl.
    apply post_bind_read; [auto with readonly | exact I | intros tv Htv].
    eapply post_seq; [apply (rec_effect _ _ _ _ _ _ Hrec) | cbv beta].
    intros r hm (Hm & l & -> & _ & Hr).
    eapply post_mono; [apply post_self | cbv beta | auto].
    intros [] h' Hset. exists hm, (VRef l). split; [| split; [exact Hset | split]].
    + eapply ext_trans; [exact H1 |]. eapply ext_weaken; [| exact Hm].
      apply (ext_length _ _ _ _ H1).
    + intros _. rewrite Hr, Ha1. reflexivity.
    + discriminate.
  - eapply post_run; [unfold upgradeKey; rewrite Hin; reflexivity |].
    eapply post_run; [exact Hgx |].
    eapply (post_run _ _ _ (isArray h x)); [reflexivity |].
    destruct (isArray h x) eqn:Ha.
    + (* [src[k]] is an array *)
      eapply post_run; [reflexivity |]. simpl.
      apply post_bind_read; [auto with readonly | exact I | intros tv Htv].
      eapply post_seq; [apply (rec_effect _ _ _ _ _ _ Hrec) | cbv beta].
      intros r hm (Hm & _).
      eapply post_mono; [apply post_self | cbv beta | auto].
      intros [] h' Hset. exists hm, r. split; [exact Hm | split; [exact Hset | split]].
      * discriminate.
      * intros _ x' Hx' Hsc. rewrite Hx in Hx'. injection Hx' as <-. rewrite (definedScalar_not_array h x Hsc) in Ha. discriminate.
    + apply post_bind_read; [auto with readonly | exact I | intros ta Hta].
      { apply readonly_bind; auto with readonly. }
      simpl. destruct ta.
      * apply post_bind_read; [auto with readonly | exact I | intros tv Htv].
        eapply post_seq; [apply (rec_effect _ _ _ _ _ _ Hrec) | cbv beta].
        intros r hm (Hm & _).
        eapply post_mono; [apply post_self | cbv beta | auto].
        intros [] h' Hset. exists hm, r. split; [exact Hm | split; [exact Hset | split]].
        -- discriminate.
        -- intros _ x' Hx' Hsc Ht. rewrite Hx in Hx'. injection Hx' as <-. exfalso.
           unfold bind in Hta. destruct (getKey t k h) as [[tv0 | e |] h0] eqn:Hg;
             try discriminate.
           pose proof (readonly_getKey t k h) as Hro. rewrite Hg in Hro. simpl in Hro. subst h0.
           unfold isArrayM in Hta. rewrite (Ht tv0 eq_refl) in Hta. discriminate.
      * destruct (negb (String.eqb (typeof x) "object") || negb (truthy x)) eqn:Hs.
        -- eapply post_mono; [apply post_self | cbv beta | auto].
           intros [] h' Hset. exists h, x.
           split; [apply ext_refl | split; [exact Hset | split]].
           ++ discriminate.
           ++ intros _ x' Hx' _ _. rewrite Hx in Hx'. injection Hx' as <-. reflexivity.
        -- apply post_bind_read; [auto with readonly | exact I | intros tv Htv].
           eapply post_seq with (R := fun _ h1 => heap_ext this h h1).
           { destruct (truthy tv); [apply post_ret; apply ext_refl |].
             unfold post, alloc. apply ext_alloc. }
           intros t' h1 H1.
           eapply post_seq; [apply (rec_effect _ _ _ _ _ _ Hrec) | cbv beta].
           intros r hm (Hm & _).
           eapply post_mono; [apply post_self | cbv beta | auto].
           intros [] h' Hset. exists hm, r. split; [| split; [exact Hset | split]].
           ++ eapply ext_trans; [exact H1 |]. eapply ext_weaken; [| exact Hm].
              apply (ext_length _ _ _ _ H1).
           ++ discriminate.
           ++ intros _ x' Hx' Hsc. rewrite Hx in Hx'. injection Hx' as <-.
              rewrite (definedScalar_assigned x Hsc) in Hs. discriminate.
Qed.

(** The loop that copies the keys of [target]: afterwards [dst] has, under
    every key, what [target] has. *)
Lemma copyKeys_effect dl tl tp h1 :
  h1 !! tl = Some (OObj tp) -> h1 !! dl = Some (OObj []) -> tl <> dl ->
  post (forEach (copyKey (VRef dl) (VRef tl)) (map fst tp)) h1
    (fun _ h2 => exists dp, h2 = <[dl := OObj dp]> h1 /\
                            forall k, assoc_get k dp = assoc_get k tp)
    (fun _ => True).
Proof.
  intros Ht Hd Hne.
  eapply post_mono;
    [apply (post_forEach_done _ _
       (fun done h2 => exists dp, h2 = <[dl := OObj dp]> h1 /\
          (forall k, In k done -> assoc_get k dp = assoc_get k tp) /\
          (forall k, ~ In k done -> assoc_get k dp = None))
       (fun _ => True)) | cbv beta | auto].
  - exists []. repeat split; [| intros k []].
    symmetry. now apply list_insert_id.
  - intros pre k h2 [suf Hsuf] (dp & -> & Hdone & Hrest).
    assert (Hdl : dl < length h1) by (eapply lookup_lt_Some; eauto).
    assert (Ht2 : <[dl := OObj dp]> h1 !! tl = Some (OObj tp))
      by (rewrite list_lookup_insert_ne; auto).
    assert (Hd2 : <[dl := OObj dp]> h1 !! dl = Some (OObj dp))
      by (now apply list_lookup_insert_eq).
    assert (Hin : In k (map fst tp)).
    { rewrite Hsuf. apply in_or_app. right. now left. }
    destruct (assoc_get_In k tp Hin) as [y Hy].
    unfold copyKey. eapply post_run; [apply (getKey_obj _ _ _ _ Ht2) |].
    unfold post. rewrite (setKey_obj _ _ _ _ _ Hd2), Hy. simpl.
    exists (assoc_set k y dp). split; [apply list_insert_insert_eq |].
    split.
    + intros k' Hk'. destruct (decide (k = k')) as [<- | Hkk].
      * now rewrite assoc_get_set_eq.
      * rewrite assoc_get_set_ne by exact Hkk. apply Hdone.
        apply in_app_or in Hk'. destruct Hk' as [Hk' | [Hk' | []]]; [exact Hk' | congruence].
    + intros k' Hk'. rewrite assoc_get_set_ne.
      * apply Hrest. intros Hp. apply Hk'. apply in_or_app. now left.
      * intros ->. apply Hk'. apply in_or_app. right. now left.
  - intros _ h2 (dp & -> & Hdone & Hrest). exists dp. split; [reflexivity |].
    intros k. destruct (assoc_get k tp) as [y |] eqn:Ey.
    + rewrite Hdone; [exact Ey | eapply assoc_get_Some_In; eauto].
    + apply Hrest. now apply assoc_get_None_keys.
Qed.

(** The core of the precedence: in the merge of two mappings, under a key that is not in
    the upgrade-merge list and whose values are defined scalars, the result
    has the value of [src] if [src] has the key, and else what [target]
    has. *)
Lemma deepMerge_object_key fuel tl sl tp sp c pk k h :
  h !! tl = Some (OObj tp) -> h !! sl = Some (OObj sp) ->
  inUpgradeMergeList this k = false ->
  (forall x, assoc_get k sp = Some x -> definedScalar x = true) ->
  (forall x, assoc_get k tp = Some x -> definedScalar x = true) ->
  post (_deepMerge this fuel (VRef tl) (VRef sl) c pk) h
    (fun d h' => heap_ext this h h' /\
       exists dl dp, d = VRef dl /\ length h <= dl /\ h' !! dl = Some (OObj dp) /\
         assoc_get k dp = match assoc_get k sp with
                          | Some x => Some x
                          | None => assoc_get k tp
                          end)
    (fun _ => True).
Proof.
  intros Ht Hs Hk Hsx Htx. destruct fuel as [| fuel]; [exact I |]. simpl.
  eapply (post_run _ _ _ (isArray h (VRef sl))); [reflexivity |].
  eapply (post_run _ _ _ (isArray h (VRef tl))); [reflexivity |].
  rewrite (isArray_obj _ _ _ Hs), (isArray_obj _ _ _ Ht). simpl.
  eapply post_run; [reflexivity |].
  set (dl := length h). set (h1 := h ++ [OObj []]).
  assert (Htl : tl < dl) by (eapply lookup_lt_Some; eauto).
  assert (Hsl : sl < dl) by (eapply lookup_lt_Some; eauto).
  assert (Ht1 : h1 !! tl = Some (OObj tp)) by (unfold h1; now rewrite lookup_app_l).
  assert (Hs1 : h1 !! sl = Some (OObj sp)) by (unfold h1; now rewrite lookup_app_l).
  assert (Hd1 : h1 !! dl = Some (OObj [])).
  { unfold h1, dl. rewrite lookup_app_r by lia. now rewrite Nat.sub_diag. }
  assert (Hlen1 : length h1 = S dl) by (unfold h1, dl; rewrite length_app; simpl; lia).
  unfold mergeObject. simpl.
  eapply post_seq.
  { eapply post_run; [apply (objectKeys_obj _ _ _ Ht1) |].
    apply copyKeys_effect; auto. lia. }
  cbv beta. intros _ h2 (dp0 & -> & Hdp0).
  assert (Hs2 : <[dl := OObj dp0]> h1 !! sl = Some (OObj sp))
    by (rewrite list_lookup_insert_ne; [exact Hs1 | lia]).
  eapply post_run; [apply (objectKeys_obj _ _ _ Hs2) |].
  eapply post_seq.
  { apply (post_forEach_done _ _
       (fun done hc => ext this dl h1 hc /\
          exists dp, hc !! dl = Some (OObj dp) /\
            (forall x, assoc_get k sp = Some x -> In k done -> assoc_get k dp = Some x) /\
            (~ In k done -> assoc_get k dp = assoc_get k tp))
       (fun _ => True)).
    - split.
      + eapply ext_write; [lia | exact Hd1 | simpl; intros y []].
      + exists dp0. split; [apply list_lookup_insert_eq; lia |].
        split; [intros x _ [] | intros _; apply Hdp0].
    - intros pre k' hc [suf Hsuf] (Hc & dp & Hdc & Hdone & Hrest).
      assert (Hlenc : S dl <= length hc) by (pose proof (ext_length _ _ _ _ Hc); lia).
      destruct (ext_get _ _ _ _ _ k Hc Hsl Hs1 Hk) as (spc & Hsc & Hspc & Hkeys).
      destruct (ext_get _ _ _ _ _ k Hc Htl Ht1 Hk) as (tpc & Htc & Htpc & _).
      assert (Hin' : In k' (map fst spc)).
      { rewrite Hkeys, Hsuf. apply in_or_app. right. now left. }
      eapply post_mono;
        [apply (mergeKey_effect (_deepMerge this fuel) (VRef dl) (VRef tl) sl spc c k' hc
                  (deepMerge_rec_ok this fuel) Hsc Hin') | cbv beta | auto].
      intros _ h' (hm & r & Hm & Hset & _ & Hscal).
      destruct (ext_get _ _ _ dl dp k Hm) as (dpm & Hdm & Hdpm & _); [lia | exact Hdc | exact Hk |].
      rewrite (setKey_obj _ _ _ _ _ Hdm) in Hset. injection Hset as <-.
      assert (Hlm : dl < length hm) by (eapply lookup_lt_Some; eauto).
      split.
      + eapply ext_trans; [exact Hc |].
        eapply ext_trans; [eapply ext_weaken; [| exact Hm]; lia |].
        eapply ext_write; [lia | exact Hdm | apply assoc_set_incl].
      + exists (assoc_set k' r dpm). split; [now apply list_lookup_insert_eq |]. split.
        * intros x Hx Hin. destruct (decide (k' = k)) as [-> | Hne].
          -- rewrite assoc_get_set_eq. f_equal. apply (Hscal Hk).
             ++ now rewrite Hspc.
             ++ now apply Hsx.
             ++ intros tv Htv. rewrite (getKey_obj _ _ _ _ Htc), Htpc in Htv.
                injection Htv as <-. destruct (assoc_get k tp) as [y |] eqn:Ey; simpl;
                  [apply definedScalar_not_array; now apply Htx | reflexivity].
          -- rewrite assoc_get_set_ne by exact Hne. rewrite Hdpm. apply Hdone; [exact Hx |].
             apply in_app_or in Hin. destruct Hin as [Hin | [Hin | []]]; [exact Hin | congruence].
        * intros Hnin. rewrite assoc_get_set_ne.
          -- rewrite Hdpm. apply Hrest. intros Hp. apply Hnin. apply in_or_app. now left.
          -- intros ->. apply Hnin. apply in_or_app. right. now left. }
  cbv beta. intros _ h3 (H3 & dp & Hd3 & Hdone & Hrest). apply post_ret. split.
  - unfold heap_ext. eapply ext_trans; [apply ext_alloc | exact H3].
  - exists dl, dp. split; [reflexivity |]. split; [lia |]. split; [exact Hd3 |].
    destruct (assoc_get k sp) as [x |] eqn:Ex.
    + apply Hdone; [reflexivity |]. eapply assoc_get_Some_In; eauto.
    + apply Hrest. now apply assoc_get_None_keys.
Qed.

(** Under a key of the upgrade-merge list that [src] has, the result of a
    merge of two mappings holds an array: the value of [src] is promoted if
    it is not one, and merged with what [target] has. *)
Lemma deepMerge_upgrade_key_of_src fuel tl sl tp sp c pk k h :
  h !! tl = Some (OObj tp) -> h !! sl = Some (OObj sp) ->
  inUpgradeMergeList this k = true -> In k (map fst sp) ->
  post (_deepMerge this fuel (VRef tl) (VRef sl) c pk) h
    (fun d h' => exists dl dp v, d = VRef dl /\ h' !! dl = Some (OObj dp) /\
                   assoc_get k dp = Some v /\ isArray h' v = true)
    (fun _ => True).
Proof.
  intros Ht Hs Hk Hin. destruct fuel as [| fuel]; [exact I |]. simpl.
  eapply (post_run _ _ _ (isArray h (VRef sl))); [reflexivity |].
  eapply (post_run _ _ _ (isArray h (VRef tl))); [reflexivity |].
  rewrite (isArray_obj _ _ _ Hs), (isArray_obj _ _ _ Ht). simpl.
  eapply post_run; [reflexivity |].
  set (dl := length h). set (h1 := h ++ [OObj []]).
  assert (Htl : tl < dl) by (eapply lookup_lt_Some; eauto).
  assert (Hsl : sl < dl) by (eapply lookup_lt_Some; eauto).
  assert (Ht1 : h1 !! tl = Some (OObj tp)) by (unfold h1; now rewrite lookup_app_l).
  assert (Hs1 : h1 !! sl = Some (OObj sp)) by (unfold h1; now rewrite lookup_app_l).
  assert (Hd1 : h1 !! dl = Some (OObj [])).
  { unfold h1, dl. rewrite lookup_app_r by lia. now rewrite Nat.sub_diag. }
  assert (Hlen1 : length h1 = S dl) by (unfold h1, dl; rewrite length_app; simpl; lia).
  unfold mergeObject. simpl.
  eapply post_seq.
  { eapply post_run; [apply (objectKeys_obj _ _ _ Ht1) |].
    apply copyKeys_effect; auto. lia. }
  cbv beta. intros _ h2 (dp0 & -> & Hdp0).
  assert (Hs2 : <[dl := OObj dp0]> h1 !! sl = Some (OObj sp))
    by (rewrite list_lookup_insert_ne; [exact Hs1 | lia]).
  eapply post_run; [apply (objectKeys_obj _ _ _ Hs2) |].
  eapply post_seq.
  { apply (post_forEach_done _ _
       (fun done hc => ext this dl h1 hc /\
          exists dp, hc !! dl = Some (OObj dp) /\
            (In k done -> exists v, assoc_get k dp = Some v /\ isArray hc v = true))
       (fun _ => True)).
    - split.
      + eapply ext_write; [lia | exact Hd1 | simpl; intros y []].
      + exists dp0. split; [apply list_lookup_insert_eq; lia | intros []].
    - intros pre k' hc [suf Hsuf] (Hc & dp & Hdc & Hdone).
      assert (Hlenc : S dl <= length hc) by (pose proof (ext_length _ _ _ _ Hc); lia).
      assert (Hsc : exists spc, hc !! sl = Some (OObj spc) /\ map fst spc = map fst sp).
      { destruct Hc as [_ O]. destruct (O sl _ Hsl Hs1) as (o' & Ho' & Hx).
        destruct o' as [a | spc]; simpl in Hx; [contradiction |].
        exists spc. split; [exact Ho' | eapply entries_keys; eauto]. }
      destruct Hsc as (spc & Hsc & Hkeys).
      assert (Hin' : In k' (map fst spc)).
      { rewrite Hkeys, Hsuf. apply in_or_app. right. now left. }
      eapply post_mono;
        [apply (mergeKey_effect (_deepMerge this fuel) (VRef dl) (VRef tl) sl spc c k' hc
                  (deepMerge_rec_ok this fuel) Hsc Hin') | cbv beta | auto].
      intros _ h' (hm & r & Hm & Hset & Hup & _).
      assert (Hdm : exists dpm, hm !! dl = Some (OObj dpm) /\
                      Forall2 (entry_ext this hc hm) dp dpm).
      { destruct Hm as [_ O]. destruct (O dl _ ltac:(lia) Hdc) as (o' & Ho' & Hx).
        destruct o' as [a | dpm]; simpl in Hx; [contradiction | eauto]. }
      destruct Hdm as (dpm & Hdm & Hent).
      rewrite (setKey_obj _ _ _ _ _ Hdm) in Hset. injection Hset as <-.
      assert (Hlm : dl < length hm) by (eapply lookup_lt_Some; eauto).
      assert (Kw : kinds_kept hm (<[dl := OObj (assoc_set k' r dpm)]> hm)).
      { eapply kinds_kept_write; [exact Hdm |]. simpl. apply assoc_set_incl. }
      split.
      + eapply ext_trans; [exact Hc |].
        eapply ext_trans; [eapply ext_weaken; [| exact Hm]; lia |].
        eapply ext_write; [lia | exact Hdm | apply assoc_set_incl].
      + exists (assoc_set k' r dpm). split; [now apply list_lookup_insert_eq |].
        intros Hdn. destruct (decide (k' = k)) as [-> | Hne].
        * exists r. split; [apply assoc_get_set_eq |].
          apply (isArray_kept _ _ _ Kw). now apply Hup.
        * apply in_app_or in Hdn. destruct Hdn as [Hdn | [Hdn | []]]; [| congruence].
          destruct (Hdone Hdn) as (v & Hv & Hav).
          destruct (entries_get this _ _ _ _ _ _ Hent Hv) as (v' & Hv' & Hu).
          exists v'. split; [now rewrite assoc_get_set_ne |].
          apply (isArray_kept _ _ _ Kw).
          destruct Hu as [-> | (_ & _ & Hu)]; [| exact Hu].
          apply (isArray_kept hc hm); [apply Hm | exact Hav]. }
  cbv beta. intros _ h3 (H3 & dp & Hd3 & Hdone). apply post_ret.
  destruct (Hdone Hin) as (v & Hv & Hav). exists dl, dp, v. auto.
Qed.

End MergeEffect.

(** * Plain data in the store *)

Definition scalarVal (t : tree) : val :=
  match t with
  | TNull => VNull
  | TBool b => VBool b
  | TNum n => VNum n
  | TStr s => VStr s
  | _ => VUndef
  end.

Lemma tree_ind_nested (P : tree -> Prop) :
  P TUndef -> P TNull -> (forall b, P (TBool b)) -> (forall n, P (TNum n)) ->
  (forall s, P (TStr s)) ->
  (forall l, Forall P l -> P (TArr l)) ->
  (forall p, Forall (fun kx => P (snd kx)) p -> P (TObj p)) ->
  forall t, P t.
Proof.
  intros HU HN HB HZ HS HA HO. fix IH 1.
  intros [| | b | n | s | l | p];
    [exact HU | exact HN | apply HB | apply HZ | apply HS | apply HA | apply HO].
  - induction l as [| x r IHl]; constructor; [apply IH | exact IHl].
  - induction p as [| kx r IHp]; constructor; [apply IH | exact IHp].
Qed.

Lemma scalarTree_defined t : scalarTree t = true -> definedScalar (scalarVal t) = true.
Proof. destruct t; simpl; auto. Qed.

(** Allocation always succeeds, only appends to the store, and a scalar is
    its own value. *)
Lemma alloc_tree_grows t :
  forall h, exists v hx,
    alloc_tree t h = (Ret v, h ++ hx) /\ (scalarTree t = true -> v = scalarVal t).
Proof.
  induction t as [| | b | n | s | l IHl | p IHp] using tree_ind_nested; intros h.
  - exists VUndef, []. rewrite app_nil_r. split; [reflexivity | discriminate].
  - exists VNull, []. rewrite app_nil_r. split; reflexivity.
  - exists (VBool b), []. rewrite app_nil_r. split; reflexivity.
  - exists (VNum n), []. rewrite app_nil_r. split; reflexivity.
  - exists (VStr s), []. rewrite app_nil_r. split; reflexivity.
  - assert (G : forall h, exists vs hx, allocAll alloc_tree l h = (Ret vs, h ++ hx)).
    { clear h. induction IHl as [| x r Hx _ IHr]; intros h.
      - exists [], []. now rewrite app_nil_r.
      - destruct (Hx h) as (v & hx & E & _). destruct (IHr (h ++ hx)) as (vs & hy & E').
        exists (v :: vs), (hx ++ hy). simpl. unfold bind. simpl in E'. rewrite E, E'.
        now rewrite app_assoc. }
    destruct (G h) as (vs & hx & E).
    exists (VRef (length (h ++ hx))), (hx ++ [OArr vs]). split; [| discriminate].
    simpl. unfold bind. rewrite E. unfold alloc. now rewrite app_assoc.
  - assert (G : forall h, exists ps hx, allocProps alloc_tree p h = (Ret ps, h ++ hx)).
    { clear h. induction IHp as [| x r Hx _ IHr]; intros h.
      - exists [], []. now rewrite app_nil_r.
      - destruct (Hx h) as (v & hx & E & _). destruct (IHr (h ++ hx)) as (ps & hy & E').
        exists ((fst x, v) :: ps), (hx ++ hy). simpl. unfold bind. simpl in E'. rewrite E, E'.
        now rewrite app_assoc. }
    destruct (G h) as (ps & hx & E).
    exists (VRef (length (h ++ hx))), (hx ++ [OObj ps]). split; [| discriminate].
    simpl. unfold bind. rewrite E. unfold alloc. now rewrite app_assoc.
Qed.

(** The properties of an object literal after allocation: the same keys,
    and under a key with a scalar that scalar. *)
Lemma allocProps_spec p :
  forall h, exists ps hx,
    allocProps alloc_tree p h = (Ret ps, h ++ hx) /\
    forall k,
      (assoc_get k p = None -> assoc_get k ps = None) /\
      (forall x, assoc_get k p = Some x -> scalarTree x = true ->
         assoc_get k ps = Some (scalarVal x)).
Proof.
  induction p as [| [k0 x0] r IH]; intros h.
  - exists [], []. rewrite app_nil_r. split; [reflexivity |]. intros k. split; [auto | discriminate].
  - destruct (alloc_tree_grows x0 h) as (v & hx & E & Hv).
    destruct (IH (h ++ hx)) as (ps & hy & E' & Hps).
    exists ((k0, v) :: ps), (hx ++ hy). split.
    + simpl. unfold bind. simpl in E'. rewrite E, E'. now rewrite app_assoc.
    + intros k. simpl. destruct (String.eqb k k0).
      * split; [discriminate |]. intros x [= <-] Hx. now rewrite (Hv Hx).
      * apply Hps.
Qed.

Lemma alloc_tree_obj p h :
  exists ps hx,
    alloc_tree (TObj p) h = (Ret (VRef (length (h ++ hx))), (h ++ hx) ++ [OObj ps]) /\
    forall k,
      (assoc_get k p = None -> assoc_get k ps = None) /\
      (forall x, assoc_get k p = Some x -> scalarTree x = true ->
         assoc_get k ps = Some (scalarVal x)).
Proof.
  destruct (allocProps_spec p h) as (ps & hx & E & Hps).
  exists ps, hx. split; [| exact Hps].
  simpl. unfold bind. now rewrite E.
Qed.

(** * Termination of [_deepMerge]

    [runs m s Q]: from [s], the computation [m] gives an outcome of the
    program, an exception or a result that satisfies [Q]; it does not stop
    for lack of fuel or on a reference that the store does not hold. *)

Definition runs {S A} (m : M S A) (s : S) (Q : A -> S -> Prop) : Prop :=
  match m s with
  | (Ret a, s') => Q a s'
  | (Throw _, _) => True
  | (Abort, _) => False
  end.

Lemma runs_ret {S A} (a : A) (s : S) Q : Q a s -> runs (ret a) s Q.
Proof. intros H. exact H. Qed.

Lemma runs_throw {S A} (e : error) (s : S) (Q : A -> S -> Prop) : runs (throw e) s Q.
Proof. exact I. Qed.

Lemma runs_typeError {S A} (msg : string) (s : S) (Q : A -> S -> Prop) :
  runs (typeError msg) s Q.
Proof. exact I. Qed.

Lemma runs_seq {S A B} (m : M S A) (f : A -> M S B) s (R : A -> S -> Prop) Q :
  runs m s R ->
  (forall a s', R a s' -> runs (f a) s' Q) ->
  runs (bind m f) s Q.
Proof.
  unfold runs, bind. destruct (m s) as [[a | e |] s']; auto.
  intros HR Hf. apply (Hf a s' HR).
Qed.

Lemma runs_mono {S A} (m : M S A) s (Q Q' : A -> S -> Prop) :
  runs m s Q -> (forall a s', Q a s' -> Q' a s') -> runs m s Q'.
Proof. unfold runs. destruct (m s) as [[a | e |] s']; auto. Qed.

Lemma runs_run {S A B} (m : M S A) (f : A -> M S B) s a s1 Q :
  m s = (Ret a, s1) -> runs (f a) s1 Q -> runs (bind m f) s Q.
Proof. unfold runs, bind. now intros ->. Qed.

Lemma runs_stop {S A B} (m : M S A) (f : A -> M S B) s e s1 Q :
  m s = (Throw e, s1) -> runs (bind m f) s Q.
Proof. unfold runs, bind. now intros ->. Qed.

(** What is known of every outcome holds of the result. *)
Lemma runs_post {S A} (m : M S A) s (Q Q' : A -> S -> Prop) E :
  post m s Q' E -> runs m s Q -> runs m s (fun a s' => Q a s' /\ Q' a s').
Proof. unfold runs, post. destruct (m s) as [[a | e |] s']; auto. Qed.

Lemma runs_returns {S A} (m : M S A) s a s' Q :
  m s = (Ret a, s') -> runs m s Q -> Q a s'.
Proof. unfold runs. now intros ->. Qed.

Lemma runs_not_abort {S A} (m : M S A) s Q : runs m s Q -> fst (m s) <> Abort.
Proof. unfold runs. destruct (m s) as [[a | e |] s']; simpl; auto; discriminate. Qed.

Lemma runs_forEach {S A} (f : A -> M S unit) (l : list A) (I : S -> Prop) s :
  I s ->
  (forall x s, In x l -> I s -> runs (f x) s (fun _ s' => I s')) ->
  runs (forEach f l) s (fun _ s' => I s').
Proof.
  revert s. induction l as [| x r IH]; intros s Hs Hf; simpl.
  - apply runs_ret. exact Hs.
  - eapply runs_seq.
    + apply Hf; [now left | exact Hs].
    + intros u s' Hs'. apply IH; [exact Hs' |].
      intros y s0 Hy. apply Hf. now right.
Qed.

(** ** The nesting of a value

    [rk X h d v]: the value [v] is nested at most [d] deep in the store [h],
    through references that [h] holds and that are not in [X].  A value
    under a key of the upgrade-merge list that is not an array counts one
    level more, the level of the array the merge wraps it in. *)

Definition avoided (X : list loc) (l : loc) : bool := existsb (Nat.eqb l) X.

Definition is_ref (v : val) : bool :=
  match v with
  | VRef _ => true
  | _ => false
  end.

Section Rank.

Variable this : ConfigResolver.

Definition entry_rank (rk : nat -> val -> bool) (h : heap) (d : nat)
    (kv : string * val) : bool :=
  if inUpgradeMergeList this (fst kv) && negb (isArray h (snd kv))
  then match d with
       | O => false
       | S d' => rk d' (snd kv)
       end
  else rk d (snd kv).

Fixpoint rk (X : list loc) (h : heap) (d : nat) (v : val) {struct d} : bool :=
  match v with
  | VRef l =>
      match d with
      | O => false
      | S d' =>
          negb (avoided X l) &&
          match h !! l with
          | Some (OArr a) => forallb (rk X h d') a
          | Some (OObj p) => forallb (entry_rank (rk X h) h d') p
          | None => false
          end
      end
  | _ => true
  end.

Definition rk_obj (X : list loc) (h : heap) (d : nat) (o : obj) : bool :=
  match o with
  | OArr a => forallb (rk X h d) a
  | OObj p => forallb (entry_rank (rk X h) h d) p
  end.

Lemma rk_ref X h d l :
  rk X h (S d) (VRef l) =
  negb (avoided X l) && match h !! l with Some o => rk_obj X h d o | None => false end.
Proof. simpl. destruct (h !! l) as [[a | p] |]; reflexivity. Qed.

Lemma rk_ref_inv X h d l :
  rk X h d (VRef l) = true ->
  exists d' o, d = S d' /\ avoided X l = false /\ h !! l = Some o /\ rk_obj X h d' o = true.
Proof.
  destruct d as [| d']; [discriminate |]. rewrite rk_ref.
  intros H. apply andb_true_iff in H. destruct H as [Ha Ho].
  apply negb_true_iff in Ha. destruct (h !! l) as [o |]; [| discriminate].
  exists d', o. auto.
Qed.

Lemma rk_scalar X h d v : is_ref v = false -> rk X h d v = true.
Proof. destruct v, d; simpl; auto; discriminate. Qed.

Lemma rk_valid X h d l : rk X h d (VRef l) = true -> l < length h.
Proof.
  intros H. destruct (rk_ref_inv _ _ _ _ H) as (d' & o & _ & _ & Hl & _).
  eapply lookup_lt_Some; eauto.
Qed.

Lemma rk_mono X h d d' v : d <= d' -> rk X h d v = true -> rk X h d' v = true.
Proof.
  revert d' v. induction d as [d IH] using lt_wf_ind. intros d' v Hle.
  destruct v as [| | | | | l]; try (intros _; now apply rk_scalar).
  intros H. destruct (rk_ref_inv _ _ _ _ H) as (d0 & o & -> & Ha & Hl & Ho).
  destruct d' as [| d1]; [lia |]. rewrite rk_ref, Ha, Hl. simpl.
  destruct o as [a | p]; simpl in *.
  - rewrite forallb_forall in *. intros x Hx. apply (IH d0); [lia | lia | auto].
  - rewrite forallb_forall in *. intros kv Hkv. specialize (Ho kv Hkv).
    unfold entry_rank in *.
    destruct (inUpgradeMergeList this (fst kv) && negb (isArray h (snd kv))).
    + destruct d0 as [| d2]; [discriminate |]. destruct d1 as [| d3]; [lia |].
      apply (IH d2); [lia | lia | exact Ho].
    + apply (IH d0); [lia | lia | exact Ho].
Qed.

Lemma entry_rank_mono X h d d' kv :
  d <= d' -> entry_rank (rk X h) h d kv = true -> entry_rank (rk X h) h d' kv = true.
Proof.
  intros Hle. unfold entry_rank.
  destruct (inUpgradeMergeList this (fst kv) && negb (isArray h (snd kv))).
  - destruct d as [| d0]; [discriminate |]. destruct d' as [| d1]; [lia |].
    apply rk_mono. lia.
  - now apply rk_mono.
Qed.

Lemma rk_obj_mono X h d d' o : d <= d' -> rk_obj X h d o = true -> rk_obj X h d' o = true.
Proof.
  intros Hle. destruct o as [a | p]; simpl; rewrite !forallb_forall; intros H x Hx.
  - eapply rk_mono; eauto.
  - eapply entry_rank_mono; eauto.
Qed.

(** A value of an entry is nested no deeper than the entry counts. *)
Lemma entry_rank_value X h d kv :
  entry_rank (rk X h) h d kv = true -> rk X h d (snd kv) = true.
Proof.
  unfold entry_rank.
  destruct (inUpgradeMergeList this (fst kv) && negb (isArray h (snd kv))); [| auto].
  destruct d as [| d0]; [discriminate |]. apply rk_mono. lia.
Qed.

(** An entry whose value is not a reference counts one level at most. *)
Lemma entry_rank_scalar X h d k v :
  is_ref v = false -> entry_rank (rk X h) h (S d) (k, v) = true.
Proof.
  intros Hv. unfold entry_rank. cbn [fst snd].
  destruct (inUpgradeMergeList this k && negb (isArray h v)); now apply rk_scalar.
Qed.

(** An entry whose value is an array counts what the array does. *)
Lemma entry_rank_array X h d k v :
  isArray h v = true -> rk X h d v = true -> entry_rank (rk X h) h d (k, v) = true.
Proof.
  intros Ha Hv. unfold entry_rank. cbn [fst snd]. rewrite Ha. cbn [negb].
  rewrite andb_false_r. exact Hv.
Qed.

Lemma entry_rank_plain X h d k v :
  inUpgradeMergeList this k = false -> rk X h d v = true ->
  entry_rank (rk X h) h d (k, v) = true.
Proof. intros Hk Hv. unfold entry_rank. cbn [fst snd]. rewrite Hk. exact Hv. Qed.

(** Fewer references to avoid, same nesting. *)
Lemma rk_anti X X' h d v :
  (forall l, avoided X' l = true -> avoided X l = true) ->
  rk X h d v = true -> rk X' h d v = true.
Proof.
  intros HX. revert v. induction d as [d IH] using lt_wf_ind. intros v.
  destruct v as [| | | | | l]; try (intros _; now apply rk_scalar).
  intros H. destruct (rk_ref_inv _ _ _ _ H) as (d0 & o & -> & Ha & Hl & Ho).
  rewrite rk_ref, Hl.
  assert (Ha' : avoided X' l = false).
  { destruct (avoided X' l) eqn:E; [| reflexivity]. rewrite (HX l E) in Ha. discriminate. }
  rewrite Ha'. simpl.
  destruct o as [a | p]; simpl in *.
  - rewrite forallb_forall in *. intros x Hx. apply (IH d0); [lia | auto].
  - rewrite forallb_forall in *. intros kv Hkv. specialize (Ho kv Hkv).
    unfold entry_rank in *.
    destruct (inUpgradeMergeList this (fst kv) && negb (isArray h (snd kv))).
    + destruct d0 as [| d2]; [discriminate |]. apply (IH d2); [lia | exact Ho].
    + apply (IH d0); [lia | exact Ho].
Qed.

(** The references to avoid are references of the store. *)
Definition Xdom (X : list loc) (h : heap) : Prop := forall l, avoided X l = true -> l < length h.

Lemma avoided_cons x X l : avoided (x :: X) l = Nat.eqb l x || avoided X l.
Proof. reflexivity. Qed.

Lemma Xdom_cons x X h : x < length h -> Xdom X h -> Xdom (x :: X) h.
Proof.
  intros Hx HX l. rewrite avoided_cons. intros H. apply orb_true_iff in H.
  destruct H as [H | H]; [apply Nat.eqb_eq in H; lia | auto].
Qed.

Lemma Xdom_le X h h' : length h <= length h' -> Xdom X h -> Xdom X h'.
Proof. intros Hle HX l Hl. specialize (HX l Hl). lia. Qed.

Lemma Xdom_nil h : Xdom [] h.
Proof. intros l. discriminate. Qed.

(** A value of the store does not go through a reference the store does not
    hold yet. *)
Lemma rk_avoid_new X h d v n :
  length h <= n -> rk X h d v = true -> rk (n :: X) h d v = true.
Proof.
  intros Hn. revert v. induction d as [d IH] using lt_wf_ind. intros v.
  destruct v as [| | | | | l]; try (intros _; now apply rk_scalar).
  intros H. pose proof (rk_valid _ _ _ _ H) as Hv.
  destruct (rk_ref_inv _ _ _ _ H) as (d0 & o & -> & Ha & Hl & Ho).
  rewrite rk_ref, Hl, avoided_cons, Ha.
  replace (Nat.eqb l n) with false by (symmetry; apply Nat.eqb_neq; lia). simpl.
  destruct o as [a | p]; simpl in *.
  - rewrite forallb_forall in *. intros x Hx. apply (IH d0); [lia | auto].
  - rewrite forallb_forall in *. intros kv Hkv. specialize (Ho kv Hkv).
    unfold entry_rank in *.
    destruct (inUpgradeMergeList this (fst kv) && negb (isArray h (snd kv))).
    + destruct d0 as [| d2]; [discriminate |]. apply (IH d2); [lia | exact Ho].
    + apply (IH d0); [lia | exact Ho].
Qed.

(** ** Steps of the store that keep the nesting *)

(** An entry is kept, or its value [v], not an array, under a key of the
    upgrade-merge list, is replaced by a reference to the array [[v]]. *)
Definition entry_step (X : list loc) (h h' : heap) (e e' : string * val) : Prop :=
  e' = e \/
  (fst e' = fst e /\ inUpgradeMergeList this (fst e) = true /\ isArray h (snd e) = false /\
   exists m, snd e' = VRef m /\ avoided X m = false /\ h' !! m = Some (OArr [snd e])).

Definition obj_step (X : list loc) (h h' : heap) (o o' : obj) : Prop :=
  match o, o' with
  | OArr a, OArr a' => a' = a
  | OObj p, OObj p' => Forall2 (entry_step X h h') p p'
  | _, _ => False
  end.

Lemma obj_step_refl X h h' o : obj_step X h h' o o.
Proof.
  destruct o as [a | p]; simpl; [reflexivity |].
  induction p; constructor; [now left | assumption].
Qed.

Definition keepsX (X : list loc) (h h' : heap) : Prop :=
  forall d v, rk X h d v = true -> rk X h' d v = true.

Lemma isArray_valid_kept h h' v :
  kinds_kept h h' -> (forall l, v = VRef l -> l < length h) -> isArray h' v = isArray h v.
Proof.
  intros Hk Hv. destruct v as [| | | | | l]; simpl; auto.
  destruct (lookup_lt_is_Some_2 h l (Hv l eq_refl)) as [o Ho].
  destruct (Hk l o Ho) as (o' & Ho' & Hs). rewrite Ho, Ho'.
  destruct o, o'; simpl in Hs; auto; contradiction.
Qed.

Lemma entry_rank_kept X h h' d kv :
  kinds_kept h h' ->
  (forall n, n <= d -> rk X h n (snd kv) = true -> rk X h' n (snd kv) = true) ->
  entry_rank (rk X h) h d kv = true -> entry_rank (rk X h') h' d kv = true.
Proof.
  intros Hk IH. unfold entry_rank.
  destruct (inUpgradeMergeList this (fst kv)); simpl; [| apply IH; lia].
  destruct (isArray h (snd kv)) eqn:Ha; simpl.
  - rewrite (isArray_kept _ _ _ Hk Ha). simpl. apply IH. lia.
  - destruct d as [| d0]; [discriminate |]. intros H.
    assert (Ha' : isArray h' (snd kv) = false).
    { rewrite (isArray_valid_kept h h' _ Hk); [exact Ha |].
      intros l E. rewrite E in H. eapply rk_valid; eauto. }
    rewrite Ha'. simpl. apply IH; [lia | exact H].
Qed.

Lemma rk_transfer X h h' :
  kinds_kept h h' ->
  (forall l o, avoided X l = false -> h !! l = Some o ->
     exists o', h' !! l = Some o' /\ obj_step X h h' o o') ->
  keepsX X h h'.
Proof.
  intros Hk Hobj d. induction d as [d IH] using lt_wf_ind. intros v.
  destruct v as [| | | | | l]; try (intros _; now apply rk_scalar).
  intros H. destruct (rk_ref_inv _ _ _ _ H) as (d0 & o & -> & Ha & Hl & Ho).
  destruct (Hobj l o Ha Hl) as (o' & Hl' & Hs).
  rewrite rk_ref, Ha, Hl'. simpl.
  destruct o as [a | p], o' as [a' | p']; simpl in Hs; try contradiction.
  - subst a'. simpl in *. rewrite forallb_forall in *. intros x Hx.
    apply (IH d0); [lia | auto].
  - simpl in *. clear Hl Hl' H. induction Hs as [| e e' r r' He _ IHr]; [reflexivity |].
    simpl in Ho. apply andb_true_iff in Ho. destruct Ho as [Ho1 Ho2].
    simpl. rewrite (IHr Ho2), andb_true_r.
    destruct He as [-> | (Hf & Hin & Hna & m & Hm & Hxm & Hlm)].
    + apply (entry_rank_kept X h h' d0 e Hk); [| exact Ho1].
      intros n Hn. apply IH. lia.
    + unfold entry_rank in *. rewrite Hf, Hin, Hna in *. simpl in Ho1.
      destruct d0 as [| d1]; [discriminate |].
      assert (Ha' : isArray h' (VRef m) = true) by (unfold isArray; now rewrite Hlm).
      rewrite Hm, Ha'. cbn [negb andb]. rewrite rk_ref, Hxm, Hlm.
      cbn [negb andb rk_obj forallb]. rewrite andb_true_r.
      apply (IH d1); [lia | exact Ho1].
Qed.

Lemma rk_obj_kept X h h' d o :
  kinds_kept h h' -> keepsX X h h' -> rk_obj X h d o = true -> rk_obj X h' d o = true.
Proof.
  intros Hk HX. destruct o as [a | p]; simpl; rewrite !forallb_forall; intros H x Hx.
  - apply HX. auto.
  - apply (entry_rank_kept X h h' d x Hk); [| auto]. intros n _. apply HX.
Qed.

(** [step own h h']: the kinds are kept, and so is the nesting of every
    value that does not go through the reference [own]. *)
Definition step (own : loc) (h h' : heap) : Prop :=
  kinds_kept h h' /\
  forall X, Xdom X h -> avoided X own = true -> keepsX X h h'.

(** What a call of the merge does to the store around it. *)
Definition keeps (h h' : heap) : Prop :=
  kinds_kept h h' /\ forall X, Xdom X h -> keepsX X h h'.

Lemma step_refl own h : step own h h.
Proof. split; [apply kinds_kept_refl | intros X _ _ d v H; exact H]. Qed.

Lemma step_trans own h1 h2 h3 : step own h1 h2 -> step own h2 h3 -> step own h1 h3.
Proof.
  intros [K1 S1] [K2 S2]. split; [eapply kinds_kept_trans; eauto |].
  intros X HX Ho d v H. apply (S2 X); [| exact Ho | apply (S1 X); auto].
  eapply Xdom_le; [| exact HX]. now apply kinds_kept_length.
Qed.

Lemma keeps_step own h h' : keeps h h' -> step own h h'.
Proof. intros [K S]. split; [exact K | intros X HX _; now apply S]. Qed.

Lemma keeps_refl h : keeps h h.
Proof. split; [apply kinds_kept_refl | intros X _ d v H; exact H]. Qed.

Lemma keeps_trans h1 h2 h3 : keeps h1 h2 -> keeps h2 h3 -> keeps h1 h3.
Proof.
  intros [K1 S1] [K2 S2]. split; [eapply kinds_kept_trans; eauto |].
  intros X HX d v H. apply (S2 X); [| apply (S1 X); auto].
  eapply Xdom_le; [| exact HX]. now apply kinds_kept_length.
Qed.

Lemma keeps_alloc h o : keeps h (h ++ [o]).
Proof.
  split; [apply kinds_kept_alloc |]. intros X HX. apply rk_transfer; [apply kinds_kept_alloc |].
  intros l o0 _ Hl. exists o0. split; [| apply obj_step_refl].
  rewrite lookup_app_l by (eapply lookup_lt_Some; eauto). exact Hl.
Qed.

Lemma step_write own h o o' :
  h !! own = Some o -> same_kind o o' -> step own h (<[own := o']> h).
Proof.
  intros Hl Hs. assert (K : kinds_kept h (<[own := o']> h)) by (eapply kinds_kept_write; eauto).
  split; [exact K |]. intros X HX Ho. apply rk_transfer; [exact K |].
  intros l o0 Ha Hl0. exists o0. split; [| apply obj_step_refl].
  rewrite list_lookup_insert_ne; [exact Hl0 |]. intros <-. congruence.
Qed.

Lemma entries_step_upgrade X h h' k m x p :
  inUpgradeMergeList this k = true -> assoc_get k p = Some x -> isArray h x = false ->
  avoided X m = false -> h' !! m = Some (OArr [x]) ->
  Forall2 (entry_step X h h') p (assoc_set k (VRef m) p).
Proof.
  intros Hin Hx Hna Hm Hlm. induction p as [| [k' v'] r IH]; simpl in *; [discriminate |].
  destruct (String.eqb k k') eqn:E.
  - injection Hx as ->. apply String.eqb_eq in E. subst k'. constructor.
    + right. simpl. repeat split; auto. exists m. auto.
    + clear. induction r; constructor; [now left | assumption].
  - constructor; [now left | auto].
Qed.

Lemma keeps_upgrade h sl p k x :
  h !! sl = Some (OObj p) -> assoc_get k p = Some x -> isArray h x = false ->
  inUpgradeMergeList this k = true ->
  keeps h (<[sl := OObj (assoc_set k (VRef (length h)) p)]> (h ++ [OArr [x]])).
Proof.
  intros Hl Hx Hna Hin.
  assert (Hsl : sl < length h) by (eapply lookup_lt_Some; eauto).
  assert (K : kinds_kept h (<[sl := OObj (assoc_set k (VRef (length h)) p)]> (h ++ [OArr [x]]))).
  { eapply kinds_kept_trans; [apply kinds_kept_alloc |].
    eapply kinds_kept_write; [rewrite lookup_app_l by exact Hsl; exact Hl |].
    simpl. apply assoc_set_incl. }
  split; [exact K |]. intros X HX. apply rk_transfer; [exact K |].
  intros l o Ha Ho. destruct (decide (l = sl)) as [-> | Hne].
  - rewrite Hl in Ho. injection Ho as <-. eexists. split.
    + apply list_lookup_insert_eq. rewrite length_app. simpl. lia.
    + simpl. apply entries_step_upgrade with (x := x); auto.
      * destruct (avoided X (length h)) eqn:E; [| reflexivity].
        specialize (HX _ E). lia.
      * rewrite list_lookup_insert_ne by lia.
        rewrite lookup_app_r by lia. now rewrite Nat.sub_diag.
  - exists o. split; [| apply obj_step_refl].
    rewrite list_lookup_insert_ne by congruence.
    rewrite lookup_app_l by (eapply lookup_lt_Some; eauto). exact Ho.
Qed.

End Rank.

(** ** Reading and writing values of known nesting *)

Section Term.

Variable this : ConfigResolver.

Lemma rk_ref_pos X h d l : rk this X h d (VRef l) = true -> 1 <= d.
Proof. destruct d; [discriminate | lia]. Qed.

Lemma entry_rank_of_value X h d k v :
  rk this X h d v = true -> entry_rank this (rk this X h) h (S d) (k, v) = true.
Proof.
  intros H. unfold entry_rank. cbn [fst snd].
  destruct (inUpgradeMergeList this k && negb (isArray h v)); [exact H |].
  eapply rk_mono; [| exact H]. lia.
Qed.

Lemma assoc_get_entry {A} k (x : A) p : assoc_get k p = Some x -> exists k', In (k', x) p.
Proof.
  induction p as [| [k' v'] r IH]; simpl; [discriminate |].
  destruct (String.eqb k k').
  - intros [= <-]. exists k'. now left.
  - intros H. destruct (IH H) as [k0 Hk0]. exists k0. now right.
Qed.

Lemma lookup_In {A} (a : list A) i x : a !! i = Some x -> In x a.
Proof.
  revert i. induction a as [| y r IH]; intros [| i]; simpl; try discriminate.
  - intros [= <-]. now left.
  - intros H. right. eapply IH; eauto.
Qed.

Lemma rk_child_obj X h d p k x :
  rk_obj this X h d (OObj p) = true -> assoc_get k p = Some x -> rk this X h d x = true.
Proof.
  simpl. rewrite forallb_forall. intros H Hx.
  destruct (assoc_get_entry _ _ _ Hx) as [k' Hin].
  apply (entry_rank_value this X h d (k', x)). auto.
Qed.

Lemma rk_child_arr X h d a i x :
  rk_obj this X h d (OArr a) = true -> a !! i = Some x -> rk this X h d x = true.
Proof.
  simpl. rewrite forallb_forall. intros H Hx. apply H. eapply lookup_In; eauto.
Qed.

Lemma getKey_runs X h d v k :
  rk this X h d v = true ->
  runs (getKey v k) h (fun x h' => h' = h /\ rk this X h (pred d) x = true).
Proof.
  intros H. destruct v as [| | b | n | s | l]; try exact I;
    try (split; [reflexivity | now apply rk_scalar]).
  - unfold runs, getKey. destruct (String.eqb k "length");
      [split; [reflexivity | now apply rk_scalar] |].
    destruct (index_of_key k (String.length s));
      (split; [reflexivity | now apply rk_scalar]).
  - destruct (rk_ref_inv _ _ _ _ _ H) as (d' & o & -> & _ & Hl & Ho).
    unfold runs, getKey, bind, readObj. rewrite Hl. simpl.
    destruct o as [a | p].
    + destruct (String.eqb k "length"); [split; [reflexivity | now apply rk_scalar] |].
      destruct (index_of_key k (length a)) as [i |];
        [| split; [reflexivity | now apply rk_scalar]].
      split; [reflexivity |]. destruct (a !! i) as [x |] eqn:E; simpl;
        [eapply rk_child_arr; eauto | now apply rk_scalar].
    + split; [reflexivity |]. destruct (assoc_get k p) as [x |] eqn:E; simpl;
        [eapply rk_child_obj; eauto | now apply rk_scalar].
Qed.

Lemma getIdx_runs X h d v i :
  rk this X h d v = true ->
  runs (getIdx v i) h (fun x h' => h' = h /\ rk this X h (pred d) x = true).
Proof.
  intros H. destruct v as [| | b | n | s | l]; try exact I;
    try (split; [reflexivity | now apply rk_scalar]).
  - unfold runs, getIdx, ret. split; [reflexivity |]. apply rk_scalar.
    now destruct (Nat.ltb i (String.length s)).
  - destruct (rk_ref_inv _ _ _ _ _ H) as (d' & o & -> & _ & Hl & Ho).
    unfold runs, getIdx, bind, readObj. rewrite Hl. simpl.
    destruct o as [a | p]; (split; [reflexivity |]).
    + destruct (a !! i) as [x |] eqn:E; simpl; [eapply rk_child_arr; eauto | now apply rk_scalar].
    + destruct (assoc_get (string_of_nat i) p) as [x |] eqn:E; simpl;
        [eapply rk_child_obj; eauto | now apply rk_scalar].
Qed.

Lemma objectKeys_runs X h d v :
  rk this X h d v = true -> runs (objectKeys v) h (fun _ h' => h' = h).
Proof.
  intros H. destruct v as [| | b | n | s | l]; try exact I; try reflexivity.
  destruct (rk_ref_inv _ _ _ _ _ H) as (d' & o & -> & _ & Hl & Ho).
  unfold runs, objectKeys, bind, readObj. rewrite Hl. simpl. now destruct o.
Qed.

Lemma arrayElems_runs X h d v w :
  rk this X h d v = true ->
  runs (arrayElems v w) h
    (fun a h' => h' = h /\ exists l, v = VRef l /\ h !! l = Some (OArr a) /\
                           Forall (fun x => rk this X h (pred d) x = true) a).
Proof.
  intros H. destruct v as [| | b | n | s | l]; try exact I.
  destruct (rk_ref_inv _ _ _ _ _ H) as (d' & o & -> & _ & Hl & Ho).
  unfold runs, arrayElems, bind, readObj. rewrite Hl. simpl.
  destruct o as [a | p]; [| exact I]. split; [reflexivity |]. exists l.
  split; [reflexivity |]. split; [first [reflexivity | exact Hl] |]. simpl in *.
  apply Forall_forall. intros x Hx. rewrite forallb_forall in Ho. apply Ho.
  now apply list_elem_of_In.
Qed.

Lemma arrayElems_arr l h a w : h !! l = Some (OArr a) -> arrayElems (VRef l) w h = (Ret a, h).
Proof. intros Hl. unfold arrayElems, bind, readObj. now rewrite Hl. Qed.

Lemma setElems_arr l h a a' :
  h !! l = Some (OArr a) -> setElems (VRef l) a' h = (Ret tt, <[l := OArr a']> h).
Proof. intros Hl. unfold setElems, bind, readObj, writeObj. rewrite Hl. simpl. now rewrite Hl. Qed.

Lemma setIdx_arr l h a i x :
  h !! l = Some (OArr a) -> setIdx (VRef l) i x h = (Ret tt, <[l := OArr (arr_set a i x)]> h).
Proof. intros Hl. unfold setIdx, bind, readObj, writeObj. rewrite Hl. simpl. now rewrite Hl. Qed.

Lemma getIdx_arr l h a i :
  h !! l = Some (OArr a) -> getIdx (VRef l) i h = (Ret (default VUndef (a !! i)), h).
Proof. intros Hl. unfold getIdx, bind, readObj. now rewrite Hl. Qed.

Lemma push_arr l h a x :
  h !! l = Some (OArr a) -> push (VRef l) x h = (Ret tt, <[l := OArr (a ++ [x])]> h).
Proof.
  intros Hl. unfold push, bind. rewrite (arrayElems_arr _ _ _ _ Hl).
  now rewrite (setElems_arr _ _ _ _ Hl).
Qed.

Lemma unshift_arr l h a x :
  h !! l = Some (OArr a) -> unshift (VRef l) x h = (Ret tt, <[l := OArr (x :: a)]> h).
Proof.
  intros Hl. unfold unshift, bind. rewrite (arrayElems_arr _ _ _ _ Hl).
  now rewrite (setElems_arr _ _ _ _ Hl).
Qed.

Lemma splice1_arr l h a i :
  h !! l = Some (OArr a) ->
  splice1 (VRef l) i h = (Ret tt, <[l := OArr (take i a ++ drop (S i) a)]> h).
Proof.
  intros Hl. unfold splice1, bind. rewrite (arrayElems_arr _ _ _ _ Hl).
  now rewrite (setElems_arr _ _ _ _ Hl).
Qed.

Lemma notIn_arr l h a x :
  h !! l = Some (OArr a) -> notIn (VRef l) x h = (Ret (negb (existsb (val_eqb x) a)), h).
Proof. intros Hl. unfold notIn, bind. now rewrite (arrayElems_arr _ _ _ _ Hl). Qed.

(** ** The state of a call

    Within a call, [own] is the structure the call builds, the only one it
    writes to apart from the upgrades; [X] are references the operands do
    not go through, and [pool] are values the call still reads. *)

Definition same_on (X : list loc) (h h' : heap) : Prop :=
  forall l, avoided X l = true -> h' !! l = h !! l.

Definition kstep (X : list loc) (h h' : heap) : Prop := keeps this h h' /\ same_on X h h'.

Definition bstep (X : list loc) (own : loc) (h h' : heap) : Prop :=
  step this own h h' /\ same_on X h h'.

Definition good (X : list loc) (own : loc) (D : nat) (pool : list (nat * val))
    (hc : heap) : Prop :=
  Xdom X hc /\ avoided X own = false /\
  (exists o, hc !! own = Some o /\ rk_obj this (own :: X) hc D o = true) /\
  Forall (fun dv => rk this (own :: X) hc (fst dv) (snd dv) = true) pool.

Lemma same_on_refl X h : same_on X h h.
Proof. intros l _. reflexivity. Qed.

Lemma same_on_trans X h1 h2 h3 : same_on X h1 h2 -> same_on X h2 h3 -> same_on X h1 h3.
Proof. intros H1 H2 l Hl. now rewrite (H2 l Hl), (H1 l Hl). Qed.

Lemma bstep_refl X own h : bstep X own h h.
Proof. split; [apply step_refl | apply same_on_refl]. Qed.

Lemma bstep_trans X own h1 h2 h3 : bstep X own h1 h2 -> bstep X own h2 h3 -> bstep X own h1 h3.
Proof.
  intros [S1 O1] [S2 O2]. split; [eapply step_trans; eauto | eapply same_on_trans; eauto].
Qed.

Lemma avoided_own own X : avoided (own :: X) own = true.
Proof. rewrite avoided_cons, Nat.eqb_refl. reflexivity. Qed.

Lemma avoided_tail own X l : avoided X l = true -> avoided (own :: X) l = true.
Proof. intros H. rewrite avoided_cons, H. apply orb_true_r. Qed.

Lemma good_own_lt X own D pool hc : good X own D pool hc -> own < length hc.
Proof. intros (_ & _ & (o & Ho & _) & _). eapply lookup_lt_Some; eauto. Qed.

Lemma good_Xdom X own D pool hc : good X own D pool hc -> Xdom (own :: X) hc.
Proof.
  intros G. pose proof (good_own_lt _ _ _ _ _ G) as Hlt. destruct G as (HX & _).
  now apply Xdom_cons.
Qed.

Lemma good_kstep X own D pool hc hc' :
  good X own D pool hc -> kstep (own :: X) hc hc' ->
  good X own D pool hc' /\ bstep X own hc hc'.
Proof.
  intros G [[K S] O]. pose proof (good_Xdom _ _ _ _ _ G) as HX'.
  destruct G as (HX & Ha & (o & Ho & Hr) & Hp).
  pose proof (S _ HX') as KX. split; [split; [| split; [exact Ha | split]] |].
  - eapply Xdom_le; [| exact HX]. now apply kinds_kept_length.
  - exists o. split; [rewrite (O own (avoided_own own X)); exact Ho |].
    eapply rk_obj_kept; eauto.
  - eapply Forall_impl; [exact Hp |]. intros dv. apply KX.
  - split; [apply keeps_step; split; assumption |].
    intros l Hl. apply O. now apply avoided_tail.
Qed.

Lemma good_write X own D pool hc o o' :
  good X own D pool hc -> hc !! own = Some o -> same_kind o o' ->
  rk_obj this (own :: X) hc D o' = true ->
  good X own D pool (<[own := o']> hc) /\ bstep X own hc (<[own := o']> hc).
Proof.
  intros G Ho Hs Hr. pose proof (good_Xdom _ _ _ _ _ G) as HX'.
  pose proof (good_own_lt _ _ _ _ _ G) as Hlt.
  destruct G as (HX & Ha & _ & Hp).
  pose proof (step_write this own hc o o' Ho Hs) as [K S].
  pose proof (S _ HX' (avoided_own own X)) as KX.
  split; [split; [| split; [exact Ha | split]] |].
  - eapply Xdom_le; [| exact HX]. now rewrite length_insert.
  - exists o'. split; [now apply list_lookup_insert_eq |]. eapply rk_obj_kept; eauto.
  - eapply Forall_impl; [exact Hp |]. intros dv. apply KX.
  - split; [split; assumption |]. intros l Hl.
    apply list_lookup_insert_ne. intros <-. congruence.
Qed.

Lemma good_pool X own D pool hc d v :
  good X own D pool hc -> In (d, v) pool -> rk this (own :: X) hc d v = true.
Proof.
  intros (_ & _ & _ & Hp) Hin. rewrite Forall_forall in Hp.
  apply (Hp (d, v)). now apply list_elem_of_In.
Qed.

Lemma good_add X own D pool hc d v :
  good X own D pool hc -> rk this (own :: X) hc d v = true ->
  good X own D ((d, v) :: pool) hc.
Proof.
  intros (HX & Ha & Ho & Hp) Hv. repeat split; auto.
Qed.

Lemma good_sub X own D pool pool' hc :
  good X own D pool hc -> (forall x, In x pool' -> In x pool) -> good X own D pool' hc.
Proof.
  intros (HX & Ha & Ho & Hp) Hsub. repeat split; auto.
  rewrite Forall_forall in *. intros x Hx. apply Hp.
  apply list_elem_of_In. apply Hsub. now apply list_elem_of_In.
Qed.

End Term.

(** ** The merge, given the recursive call *)

(** The nesting of the result of a merge of operands nested [ds] ([src]) and
    [dt] ([target]) deep. *)
Definition rb (ds dt : nat) : nat := 3 * ds + dt + 3.

(** The fuel a call needs: the nesting of [src] and a few levels more; two
    levels when [src] is not a reference and [target] is an array, one when
    [src] is [null]. *)
Definition fuel_ok (fuel : nat) (h : heap) (ds : nat) (t s : val) : Prop :=
  ds + 4 <= fuel \/
  (2 <= fuel /\ is_ref s = false /\ isArray h t = true) \/
  (1 <= fuel /\ s = VNull).

Section Calls.

Variable this : ConfigResolver.

Definition term_ok (fuel : nat) (rec : val -> val -> bool -> option string -> HM val) : Prop :=
  forall X t s c pk h ds dt,
    Xdom X h -> rk this X h ds s = true -> rk this X h dt t = true ->
    fuel_ok fuel h ds t s ->
    runs (rec t s c pk) h
      (fun r h' => kstep this X h h' /\ rk this X h' (rb ds dt) r = true).

Variable rec : val -> val -> bool -> option string -> HM val.
Variable fuel' : nat.
Hypothesis Hrec : rec_ok this rec.
Hypothesis Hterm : term_ok fuel' rec.

Abbreviation rk' := (rk this).

Lemma call_rec X own D pool hc t s c pk ds dt :
  good this X own D pool hc ->
  rk' (own :: X) hc ds s = true -> rk' (own :: X) hc dt t = true ->
  fuel_ok fuel' hc ds t s ->
  runs (rec t s c pk) hc
    (fun r hc' => good this X own D pool hc' /\ bstep this X own hc hc' /\
       rk' (own :: X) hc' (rb ds dt) r = true /\
       isArray hc' r = (isArray hc s || isArray hc t)).
Proof.
  intros G Hs Ht Hf.
  eapply runs_mono;
    [apply (runs_post _ _ _ _ _ (Hrec t s c pk hc)
              (Hterm (own :: X) t s c pk hc ds dt (good_Xdom _ _ _ _ _ _ G) Hs Ht Hf)) |].
  cbv beta. intros r hc' [[K Hr] (_ & l & _ & _ & Ha)].
  destruct (good_kstep _ _ _ _ _ _ _ G K) as [G' B]. auto.
Qed.

Lemma forallb_assoc_set (f : string * val -> bool) k v p :
  forallb f p = true -> (forall k', String.eqb k k' = true -> f (k', v) = true) ->
  forallb f (assoc_set k v p) = true.
Proof.
  intros Hp Hv. induction p as [| [k' v'] r IH]; simpl in *.
  - rewrite (Hv k (String.eqb_refl k)). reflexivity.
  - apply andb_true_iff in Hp. destruct Hp as [H1 H2].
    destruct (String.eqb k k') eqn:E; simpl.
    + rewrite (Hv k' E), H2. reflexivity.
    + rewrite H1, (IH H2). reflexivity.
Qed.

Lemma own_obj X own D pool hc :
  good this X own D pool hc -> isArray hc (VRef own) = false ->
  exists dp, hc !! own = Some (OObj dp) /\
             forallb (entry_rank this (rk' (own :: X) hc) hc D) dp = true.
Proof.
  intros (_ & _ & (o & Ho & Hr) & _) Ha. unfold isArray in Ha. rewrite Ho in Ha.
  destruct o as [a | dp]; [discriminate |]. eauto.
Qed.

Lemma own_arr X own D pool hc :
  good this X own D pool hc -> isArray hc (VRef own) = true ->
  exists da, hc !! own = Some (OArr da) /\ forallb (rk' (own :: X) hc D) da = true.
Proof.
  intros (_ & _ & (o & Ho & Hr) & _) Ha. unfold isArray in Ha. rewrite Ho in Ha.
  destruct o as [da | dp]; [| discriminate]. eauto.
Qed.

(** [dst[k] = v] on the mapping the call builds. *)
Lemma set_own_key X own D pool hc k v :
  good this X own D pool hc -> isArray hc (VRef own) = false ->
  (forall k', entry_rank this (rk' (own :: X) hc) hc D (k', v) = true) ->
  runs (setKey (VRef own) k v) hc
    (fun _ hc' => good this X own D pool hc' /\ bstep this X own hc hc').
Proof.
  intros G Ha Hv. destruct (own_obj _ _ _ _ _ G Ha) as (dp & Ho & Hr).
  unfold runs. rewrite (setKey_obj _ _ _ _ _ Ho).
  apply (good_write this X own D pool hc (OObj dp)); auto.
  - simpl. apply assoc_set_incl.
  - simpl. apply forallb_assoc_set; auto.
Qed.

Definition has_key (src : val) (k : string) (hc : heap) : Prop :=
  forall sl, src = VRef sl -> exists p, hc !! sl = Some (OObj p) /\ In k (map fst p).

Lemma t_upgradeKey X own D pool hc ds src k :
  good this X own D pool hc -> In (ds, src) pool -> has_key src k hc ->
  runs (upgradeKey this src k) hc
    (fun _ hc' => good this X own D pool hc' /\ bstep this X own hc hc').
Proof.
  intros G Hin Hk. unfold upgradeKey.
  destruct (inUpgradeMergeList this k) eqn:Hu;
    [| apply runs_ret; split; [exact G | apply bstep_refl]].
  pose proof (good_pool _ _ _ _ _ _ _ _ G Hin) as Hs.
  destruct src as [| | b | n | s | sl]; try exact I.
  - eapply runs_seq; [apply (getKey_runs this _ _ _ _ k Hs) |]. cbv beta.
    intros v hc' [-> _].
    eapply (runs_run _ _ _ (isArray hc v)); [reflexivity |].
    destruct (isArray hc v); [apply runs_ret; split; [exact G | apply bstep_refl] |].
    simpl. eapply runs_run; [reflexivity |]. exact I.
  - destruct (Hk sl eq_refl) as (p & Hp & Hkp).
    destruct (assoc_get_In k p Hkp) as [x Hx].
    eapply runs_run; [rewrite (getKey_obj _ _ _ _ Hp), Hx; reflexivity |]. simpl.
    eapply (runs_run _ _ _ (isArray hc x)); [reflexivity |].
    destruct (isArray hc x) eqn:Hax; [apply runs_ret; split; [exact G | apply bstep_refl] |].
    simpl. eapply runs_run; [reflexivity |].
    assert (Hsl : sl < length hc) by (eapply lookup_lt_Some; eauto).
    assert (Hp1 : (hc ++ [OArr [x]]) !! sl = Some (OObj p)) by (now rewrite lookup_app_l).
    unfold runs. rewrite (setKey_obj _ _ _ _ _ Hp1).
    apply (good_kstep this X own D pool hc); [exact G |]. split.
    + now apply keeps_upgrade.
    + intros l Hl. pose proof (good_Xdom _ _ _ _ _ _ G l Hl) as Hlt.
      destruct (rk_ref_inv _ _ _ _ _ Hs) as (_ & _ & _ & Hav & _).
      rewrite list_lookup_insert_ne by congruence. now rewrite lookup_app_l.
Qed.

Lemma rk_new_obj X h : Xdom X h -> rk' X (h ++ [OObj []]) 1 (VRef (length h)) = true.
Proof.
  intros HX. rewrite rk_ref.
  destruct (avoided X (length h)) eqn:E; [specialize (HX _ E); lia |].
  rewrite lookup_app_r by lia. rewrite Nat.sub_diag. reflexivity.
Qed.

Lemma kstep_alloc X h o : Xdom X h -> kstep this X h (h ++ [o]).
Proof.
  intros HX. split; [apply keeps_alloc |].
  intros l Hl. apply lookup_app_l. now apply HX.
Qed.

Lemma typeof_object v : String.eqb (typeof v) "object" = true -> v = VNull \/ is_ref v = true.
Proof. destruct v; simpl; auto; discriminate. Qed.

Lemma not_object_scalar v :
  negb (String.eqb (typeof v) "object") || negb (truthy v) = true -> is_ref v = false.
Proof. destruct v; simpl; auto. Qed.

Lemma is_object_ref v :
  negb (String.eqb (typeof v) "object") || negb (truthy v) = false -> is_ref v = true.
Proof. destruct v; simpl; auto; try discriminate. Qed.

Lemma is_ref_array h v : isArray h v = true -> is_ref v = true.
Proof. destruct v; simpl; auto. Qed.

Lemma own_kind_kept X own hc hc' :
  bstep this X own hc hc' -> own < length hc ->
  isArray hc' (VRef own) = isArray hc (VRef own).
Proof.
  intros [[K _] _] Hlt. apply isArray_valid_kept; [exact K |]. now intros l [= <-].
Qed.

Lemma t_mergeKey X own ds dt src target c k hc :
  good this X own (3 * ds + dt + 2) [(ds, src); (dt, target)] hc ->
  isArray hc (VRef own) = false -> has_key src k hc ->
  ds + 3 <= fuel' ->
  runs (mergeKey this rec (VRef own) target src c k) hc
    (fun _ hc' => good this X own (3 * ds + dt + 2) [(ds, src); (dt, target)] hc' /\
                  bstep this X own hc hc').
Proof.
  set (D := 3 * ds + dt + 2). set (pool := [(ds, src); (dt, target)]).
  intros G Ha Hk Hfuel. unfold mergeKey.
  eapply runs_seq; [apply (t_upgradeKey X own D pool hc ds src k G); [now left | exact Hk] |].
  cbv beta. intros _ h1 [G1 B1].
  assert (Ha1 : isArray h1 (VRef own) = false).
  { rewrite (own_kind_kept _ _ _ _ B1); [exact Ha | eapply good_own_lt; eauto]. }
  assert (Hs : rk' (own :: X) h1 ds src = true)
    by (apply (good_pool this _ _ _ _ _ _ _ G1); now left).
  assert (Ht : rk' (own :: X) h1 dt target = true)
    by (apply (good_pool this _ _ _ _ _ _ _ G1); right; now left).
  match goal with
  | |- runs ?m h1 _ =>
      cut (runs m h1 (fun _ hc' => good this X own D pool hc' /\ bstep this X own h1 hc'))
  end.
  { intros R. eapply runs_mono; [exact R |]. cbv beta. intros _ hc' [G' B'].
    split; [exact G' | eapply bstep_trans; eauto]. }
  clear G Ha Hk B1.
  eapply runs_seq; [apply (getKey_runs this _ _ _ _ k Hs) |]. cbv beta.
  intros sv h1' [-> Hsv].
  eapply (runs_run _ _ _ (isArray h1 sv)); [reflexivity |].
  pose proof (getKey_runs this _ _ _ _ k Ht) as Rt. unfold runs in Rt.
  destruct (getKey target k h1) as [[tv | e |] hx] eqn:Eg; [| | contradiction].
  2:{ (* [target[k]] throws *)
    destruct (isArray h1 sv).
    - eapply runs_run; [reflexivity |]. simpl. eapply runs_stop. exact Eg.
    - eapply runs_stop. unfold bind. rewrite Eg. reflexivity. }
  destruct Rt as [-> Htv].
  eapply (runs_run _ _ _ (if isArray h1 sv then false else isArray h1 tv)).
  { destruct (isArray h1 sv); [reflexivity |]. unfold bind. rewrite Eg. reflexivity. }
  assert (Set_ : forall r h2 n,
            good this X own D pool h2 -> bstep this X own h1 h2 ->
            rk' (own :: X) h2 n r = true ->
            (S n <= D \/ (isArray h2 r = true /\ n <= D)) ->
            runs (setKey (VRef own) k r) h2
              (fun _ hc' => good this X own D pool hc' /\ bstep this X own h1 hc')).
  { intros r h2 n G2 B2 Hr Hn.
    assert (Ha2 : isArray h2 (VRef own) = false).
    { rewrite (own_kind_kept _ _ _ _ B2); [exact Ha1 | eapply good_own_lt; eauto]. }
    eapply runs_mono; [apply (set_own_key X own D pool h2 k r G2 Ha2) |].
    - intros k'. destruct Hn as [Hn | [Har Hn]].
      + eapply entry_rank_mono; [exact Hn |]. now apply entry_rank_of_value.
      + apply entry_rank_array; [exact Har |]. eapply rk_mono; eauto.
    - cbv beta. intros _ hc' [G' B']. split; [exact G' | eapply bstep_trans; eauto]. }
  destruct (isArray h1 sv || (if isArray h1 sv then false else isArray h1 tv)) eqn:Harr.
  - (* an array on either side *)
    eapply runs_run; [exact Eg |].
    assert (Hor : isArray h1 sv || isArray h1 tv = true).
    { destruct (isArray h1 sv); [reflexivity | exact Harr]. }
    eapply runs_seq.
    { apply (call_rec X own D pool h1 tv sv (inUpgradeMergeList this k) (Some k)
               (pred ds) (pred dt) G1 Hsv Htv).
      destruct (is_ref sv) eqn:Er.
      - left. destruct sv; try discriminate. apply rk_ref_pos in Hsv. lia.
      - right. left. split; [lia |]. split; [exact Er |].
        destruct (isArray h1 sv) eqn:E; [| exact Hor].
        apply is_ref_array in E. congruence. }
    cbv beta. intros r h2 (G2 & B2 & Hr & Har).
    apply (Set_ r h2 (rb (pred ds) (pred dt)) G2 B2 Hr). right.
    split; [rewrite Har; exact Hor |].
    apply orb_true_iff in Hor. unfold rb, D. destruct Hor as [E | E].
    + apply is_ref_array in E. destruct sv; try discriminate. apply rk_ref_pos in Hsv. lia.
    + apply is_ref_array in E. destruct tv; try discriminate. apply rk_ref_pos in Htv. lia.
  - destruct (negb (String.eqb (typeof sv) "object") || negb (truthy sv)) eqn:Hobj.
    + (* a value that is not an object *)
      apply (Set_ sv h1 0 G1 (bstep_refl _ _ _ _)).
      * apply rk_scalar. now apply not_object_scalar.
      * left. unfold D. lia.
    + (* an object *)
      apply is_object_ref in Hobj.
      assert (Hds : 2 <= ds).
      { destruct sv; try discriminate. apply rk_ref_pos in Hsv. lia. }
      eapply runs_run; [exact Eg |].
      eapply runs_seq with
        (R := fun t hx => good this X own D ((pred ds, sv) :: pool) hx /\
                bstep this X own h1 hx /\
                exists n, rk' (own :: X) hx n t = true /\ n <= dt + 1).
      { destruct (truthy tv).
        - apply runs_ret. split; [now apply good_add |]. split; [apply bstep_refl |].
          exists (pred dt). split; [exact Htv | lia].
        - unfold runs, alloc.
          destruct (good_kstep this X own D ((pred ds, sv) :: pool) h1 (h1 ++ [OObj []]))
            as [G' B'].
          + now apply good_add.
          + apply kstep_alloc. eapply good_Xdom; eauto.
          + split; [exact G' |]. split; [exact B' |]. exists 1. split; [| lia].
            apply rk_new_obj. eapply good_Xdom; eauto. }
      intros t hx (Gx & Bx & n & Hn & Hle).
      assert (Hsvx : rk' (own :: X) hx (pred ds) sv = true)
        by (apply (good_pool this _ _ _ _ _ _ _ Gx); now left).
      assert (Gx' : good this X own D pool hx).
      { eapply good_sub; [exact Gx |]. intros x Hx. now right. }
      eapply runs_seq.
      { apply (call_rec X own D pool hx t sv c (Some k) (pred ds) n Gx' Hsvx Hn).
        left. lia. }
      cbv beta. intros r h2 (G2 & B2 & Hr & _).
      apply (Set_ r h2 (rb (pred ds) n) G2); [eapply bstep_trans; eauto | exact Hr |].
      left. unfold rb, D. lia.
Qed.

Lemma t_copyKey X own D pool dt target k hc :
  good this X own D pool hc -> In (dt, target) pool ->
  isArray hc (VRef own) = false -> dt <= D -> 1 <= D ->
  runs (copyKey (VRef own) target k) hc
    (fun _ hc' => good this X own D pool hc' /\ bstep this X own hc hc').
Proof.
  intros G Hin Ha Hd H1. unfold copyKey.
  pose proof (good_pool this _ _ _ _ _ _ _ G Hin) as Ht.
  eapply runs_seq; [apply (getKey_runs this _ _ _ _ k Ht) |]. cbv beta.
  intros v hx [-> Hv]. apply set_own_key; [exact G | exact Ha |].
  intros k'. apply entry_rank_mono with (d := S (pred dt)); [lia |].
  now apply entry_rank_of_value.
Qed.

Lemma rk_obj_anti X X' h d o :
  (forall l, avoided X' l = true -> avoided X l = true) ->
  rk_obj this X h d o = true -> rk_obj this X' h d o = true.
Proof.
  intros HX. destruct o as [a | p]; simpl; rewrite !forallb_forall; intros H x Hx.
  - eapply rk_anti; eauto.
  - specialize (H x Hx). unfold entry_rank in *.
    destruct (inUpgradeMergeList this (fst x) && negb (isArray h (snd x))).
    + destruct d; [discriminate |]. eapply rk_anti; eauto.
    + eapply rk_anti; eauto.
Qed.

Lemma rk_obj_avoid_new X h d o n :
  length h <= n -> rk_obj this X h d o = true -> rk_obj this (n :: X) h d o = true.
Proof.
  intros Hn. destruct o as [a | p]; simpl; rewrite !forallb_forall; intros H x Hx.
  - apply rk_avoid_new; auto.
  - specialize (H x Hx). unfold entry_rank in *.
    destruct (inUpgradeMergeList this (fst x) && negb (isArray h (snd x))).
    + destruct d; [discriminate |]. apply rk_avoid_new; auto.
    + apply rk_avoid_new; auto.
Qed.

Lemma keepsX_alloc X h o : keepsX this X h (h ++ [o]).
Proof.
  apply rk_transfer; [apply kinds_kept_alloc |].
  intros l o0 _ Hl. exists o0. split; [| apply obj_step_refl].
  rewrite lookup_app_l by (eapply lookup_lt_Some; eauto). exact Hl.
Qed.

(** The state at the start of the body: [own] has just been allocated. *)
Lemma start X own D pool h2 o0 :
  Xdom X h2 -> own = length h2 -> rk_obj this X h2 D o0 = true ->
  Forall (fun dv => rk' X h2 (fst dv) (snd dv) = true) pool ->
  good this X own D pool (h2 ++ [o0]).
Proof.
  intros HX -> Ho Hp. split; [| split; [| split]].
  - eapply Xdom_le; [| exact HX]. rewrite length_app. lia.
  - destruct (avoided X (length h2)) eqn:E; [| reflexivity]. specialize (HX _ E). lia.
  - exists o0. split; [rewrite lookup_app_r by lia; now rewrite Nat.sub_diag |].
    apply (rk_obj_kept this _ h2); [apply kinds_kept_alloc | apply keepsX_alloc |].
    now apply rk_obj_avoid_new.
  - eapply Forall_impl; [exact Hp |]. intros dv H. apply keepsX_alloc.
    now apply rk_avoid_new.
Qed.

(** The end of the body: what the call has done to the store around it,
    and the nesting of what it has built. *)
Lemma finish X own D pool h h2 hf o0 :
  Xdom X h -> kstep this X h h2 -> own = length h2 ->
  good this X own D pool hf -> bstep this X own (h2 ++ [o0]) hf ->
  kstep this X h hf /\ rk' X hf (S D) (VRef own) = true.
Proof.
  intros HX [[K2 S2] O2] -> G [[K S] O].
  pose proof (kinds_kept_length _ _ K2) as L2.
  split; [split; [split |] |].
  - eapply kinds_kept_trans; [exact K2 |].
    eapply kinds_kept_trans; [apply kinds_kept_alloc | exact K].
  - intros X0 HX0 d v Hv.
    apply (rk_anti this (length h2 :: X0)); [intros l; apply avoided_tail |].
    apply S.
    + apply Xdom_cons; [rewrite length_app; simpl; lia |].
      eapply Xdom_le; [| exact HX0]. rewrite length_app. lia.
    + apply avoided_own.
    + apply keepsX_alloc. apply rk_avoid_new; [lia |]. now apply S2.
  - intros l Hl. rewrite (O l Hl). rewrite lookup_app_l by (specialize (HX l Hl); lia).
    now apply O2.
  - destruct G as (_ & Ha & (o & Ho & Hr) & _). rewrite rk_ref, Ha, Ho. simpl.
    eapply rk_obj_anti; [| exact Hr]. intros l. apply avoided_tail.
Qed.

Lemma has_key_kept v k h h' : kinds_kept h h' -> has_key v k h -> has_key v k h'.
Proof.
  intros K Hk sl E. destruct (Hk sl E) as (p & Hp & Hin).
  destruct (K sl _ Hp) as (o' & Ho' & Hs). destruct o' as [a | p']; [contradiction |].
  exists p'. split; [exact Ho' |]. simpl in Hs. now apply Hs.
Qed.

Lemma objectKeys_has X h d v :
  rk' X h d v = true -> isArray h v = false ->
  runs (objectKeys v) h (fun keys h' => h' = h /\ forall k, In k keys -> has_key v k h).
Proof.
  intros H Ha. destruct v as [| | b | n | s | l]; try exact I;
    try (split; [reflexivity | intros k _ sl; discriminate]).
  destruct (rk_ref_inv _ _ _ _ _ H) as (d' & o & -> & _ & Hl & Ho).
  unfold isArray in Ha. rewrite Hl in Ha. destruct o as [a | p]; [discriminate |].
  unfold runs. rewrite (objectKeys_obj _ _ _ Hl). split; [reflexivity |].
  intros k Hk sl [= <-]. eauto.
Qed.

Lemma t_mergeObject X t s c h ds dt :
  Xdom X h -> rk' X h ds s = true -> rk' X h dt t = true ->
  fuel_ok (S fuel') h ds t s -> isArray h s = false -> isArray h t = false ->
  runs (mergeObject this rec (VRef (length h)) t s c) (h ++ [OObj []])
    (fun r h' => kstep this X h h' /\ rk' X h' (rb ds dt) r = true).
Proof.
  intros HX Hs Ht Hf Has Hat.
  set (own := length h). set (D := 3 * ds + dt + 2). set (pool := [(ds, s); (dt, t)]).
  set (h1 := h ++ [OObj []]).
  assert (G1 : good this X own D pool h1).
  { apply start; auto. repeat constructor; assumption. }
  assert (Ha1 : isArray h1 (VRef own) = false).
  { unfold isArray, h1, own. rewrite lookup_app_r by lia. now rewrite Nat.sub_diag. }
  assert (Hown : forall hx, bstep this X own h1 hx -> isArray hx (VRef own) = false).
  { intros hx Bx. rewrite (own_kind_kept _ _ _ _ Bx); [exact Ha1 |].
    eapply good_own_lt; eauto. }
  unfold mergeObject.
  eapply runs_seq with
    (R := fun _ hx => good this X own D pool hx /\ bstep this X own h1 hx).
  { destruct (truthy t && String.eqb (typeof t) "object");
      [| apply runs_ret; split; [exact G1 | apply bstep_refl]].
    eapply runs_seq;
      [apply (objectKeys_runs this (own :: X) h1 dt t);
       apply (good_pool this _ _ _ _ _ _ _ G1); right; now left |].
    cbv beta. intros keys hx ->.
    apply (runs_forEach _ _
             (fun hx => good this X own D pool hx /\ bstep this X own h1 hx)).
    - split; [exact G1 | apply bstep_refl].
    - intros k hx _ [Gx Bx].
      eapply runs_mono;
        [apply (t_copyKey X own D pool dt t k hx Gx);
           [right; now left | now apply Hown | unfold D; lia | unfold D; lia] |].
      cbv beta. intros _ hc' [G' B']. split; [exact G' | eapply bstep_trans; eauto]. }
  intros _ h2 [G2 B2].
  assert (Hs2 : rk' (own :: X) h2 ds s = true)
    by (apply (good_pool this _ _ _ _ _ _ _ G2); now left).
  assert (Has2 : isArray h2 s = false).
  { rewrite (isArray_valid_kept h h2); [exact Has | |].
    - eapply kinds_kept_trans; [apply kinds_kept_alloc | apply (proj1 (proj1 B2))].
    - intros l ->. eapply rk_valid; eauto. }
  destruct Hf as [Hf | [(_ & _ & Hf) | (_ & ->)]]; [| congruence | exact I].
  eapply runs_seq; [apply (objectKeys_has (own :: X) h2 ds s Hs2 Has2) |].
  cbv beta. intros keys hx [-> Hkeys].
  eapply runs_seq with
    (R := fun _ hx => good this X own D pool hx /\ bstep this X own h2 hx).
  { apply (runs_forEach _ _
             (fun hx => good this X own D pool hx /\ bstep this X own h2 hx)).
    - split; [exact G2 | apply bstep_refl].
    - intros k hx Hk [Gx Bx].
      eapply runs_mono;
        [apply (t_mergeKey X own ds dt s t c k hx Gx) |].
      + apply Hown. eapply bstep_trans; eauto.
      + eapply has_key_kept; [apply (proj1 (proj1 Bx)) | now apply Hkeys].
      + lia.
      + cbv beta. intros _ hc' [G' B']. split; [exact G' | eapply bstep_trans; eauto]. }
  intros _ h3 [G3 B3]. apply runs_ret.
  replace (rb ds dt) with (S D) by (unfold rb, D; lia).
  apply (finish X own D pool h h h3 (OObj [])); auto.
  - split; [apply keeps_refl | apply same_on_refl].
  - eapply bstep_trans; eauto.
Qed.

Lemma forallb_iff_Forall {A} (f : A -> bool) l :
  forallb f l = true <-> Forall (fun x => f x = true) l.
Proof.
  induction l as [| x r IH]; simpl.
  - split; [constructor | reflexivity].
  - rewrite andb_true_iff, IH. split.
    + intros [H1 H2]. now constructor.
    + intros H. inversion H; subst. auto.
Qed.

Lemma forallb_arr_set (f : val -> bool) a i x :
  forallb f a = true -> f x = true -> f VUndef = true -> forallb f (arr_set a i x) = true.
Proof.
  rewrite !forallb_iff_Forall. intros Ha Hx Hu. unfold arr_set.
  destruct (Nat.ltb i (length a)).
  - now apply Forall_insert.
  - apply Forall_app_2; [exact Ha |]. apply Forall_app_2; [now apply Forall_replicate |].
    now constructor.
Qed.

Lemma good_more X own D pool extra hc :
  good this X own D pool hc ->
  Forall (fun dv => rk' (own :: X) hc (fst dv) (snd dv) = true) extra ->
  good this X own D (extra ++ pool) hc.
Proof.
  intros (HX & Ha & Ho & Hp) He. repeat split; auto. now apply Forall_app_2.
Qed.

(** A write of the array the call builds. *)
Lemma set_own_arr X own D pool hb hc (m : HM unit) a' :
  good this X own D pool hc -> bstep this X own hb hc ->
  (exists da, hc !! own = Some (OArr da) /\ m hc = (Ret tt, <[own := OArr a']> hc)) ->
  forallb (rk' (own :: X) hc D) a' = true ->
  runs m hc (fun _ hc' => good this X own D pool hc' /\ bstep this X own hb hc').
Proof.
  intros G B (da & Ho & Hm) Ha. unfold runs. rewrite Hm.
  destruct (good_write this X own D pool hc (OArr da) (OArr a') G Ho I Ha) as [G' B'].
  split; [exact G' | eapply bstep_trans; eauto].
Qed.

Lemma t_mergeElement X own D ds_ dt_ src target c pk i hc :
  good this X own D [(ds_, src); (dt_, target)] hc -> isArray hc (VRef own) = true ->
  1 <= fuel' -> (ds_ <= 1 \/ pred ds_ + 4 <= fuel') ->
  3 * pred ds_ + pred dt_ + 3 <= D ->
  runs (mergeElement rec (VRef own) target src c pk i) hc
    (fun _ hc' => good this X own D [(ds_, src); (dt_, target)] hc' /\
                  bstep this X own hc hc').
Proof.
  set (pool := [(ds_, src); (dt_, target)]).
  intros G Ha Hf1 Hf Hrb. unfold mergeElement.
  assert (Hs : rk' (own :: X) hc ds_ src = true)
    by (apply (good_pool this _ _ _ _ _ _ _ G); now left).
  assert (Ht : rk' (own :: X) hc dt_ target = true)
    by (apply (good_pool this _ _ _ _ _ _ _ G); right; now left).
  eapply runs_seq; [apply (getIdx_runs this _ _ _ _ i Hs) |]. cbv beta.
  intros e hx [-> He].
  destruct (own_arr _ _ _ _ _ G Ha) as (da & Ho & Hda).
  eapply runs_run; [apply (getIdx_arr _ _ _ _ Ho) |].
  assert (SetI : forall x h2,
            good this X own D pool h2 -> bstep this X own hc h2 ->
            rk' (own :: X) h2 D x = true ->
            runs (setIdx (VRef own) i x) h2
              (fun _ hc' => good this X own D pool hc' /\ bstep this X own hc hc')).
  { intros x h2 G2 B2 Hx.
    assert (Ha2 : isArray h2 (VRef own) = true).
    { rewrite (own_kind_kept _ _ _ _ B2); [exact Ha | eapply good_own_lt; eauto]. }
    destruct (own_arr _ _ _ _ _ G2 Ha2) as (da2 & Ho2 & Hda2).
    apply (set_own_arr X own D pool hc h2 _ (arr_set da2 i x) G2 B2).
    - exists da2. split; [exact Ho2 | now apply setIdx_arr].
    - apply forallb_arr_set; auto. now apply rk_scalar. }
  assert (HeD : rk' (own :: X) hc D e = true) by (eapply rk_mono; [| exact He]; lia).
  destruct (String.eqb (typeof (default VUndef (da !! i))) "undefined");
    [apply SetI; [exact G | apply bstep_refl | exact HeD] |].
  destruct (String.eqb (typeof e) "object") eqn:Hobj.
  - destruct (negb (isPlugins pk)); [| apply runs_ret; split; [exact G | apply bstep_refl]].
    eapply runs_seq; [apply (getIdx_runs this _ _ _ _ i Ht) |]. cbv beta.
    intros t hx [-> Htv].
    eapply runs_seq.
    { apply (call_rec X own D pool hc t e c pk (pred ds_) (pred dt_) G He Htv).
      destruct (typeof_object _ Hobj) as [-> | Hr].
      - right. right. split; [lia | reflexivity].
      - left. destruct e; try discriminate. apply rk_ref_pos in He. lia. }
    cbv beta. intros r h2 (G2 & B2 & Hr & _).
    apply SetI; [exact G2 | exact B2 |]. eapply rk_mono; [| exact Hr]. unfold rb. lia.
  - destruct (negb c); [apply SetI; [exact G | apply bstep_refl | exact HeD] |].
    eapply runs_run; [apply (notIn_arr _ _ _ _ Ho) |].
    destruct (negb (existsb (val_eqb e) da));
      [| apply runs_ret; split; [exact G | apply bstep_refl]].
    apply (set_own_arr X own D pool hc hc _ (da ++ [e]) G (bstep_refl _ _ _ _)).
    + exists da. split; [exact Ho | now apply push_arr].
    + rewrite forallb_app, Hda. simpl. now rewrite HeD.
Qed.

Lemma findFrom_runs X h D dp plugin d i :
  forallb (rk' X h D) d = true -> rk' X h dp plugin = true ->
  runs (findFrom (sameName plugin) d i) h (fun _ h' => h' = h).
Proof.
  intros Hd Hp. revert i. induction d as [| x r IH]; intros i; simpl.
  - now apply runs_ret.
  - simpl in Hd. apply andb_true_iff in Hd. destruct Hd as [Hx Hr].
    eapply runs_seq with (R := fun _ h' => h' = h).
    + unfold sameName.
      eapply runs_seq; [apply (getKey_runs this _ _ _ _ "name" Hx) |]. cbv beta.
      intros a hx [-> _].
      eapply runs_seq; [apply (getKey_runs this _ _ _ _ "name" Hp) |]. cbv beta.
      intros b hx [-> _]. now apply runs_ret.
    + intros b hx ->. destruct b; [now apply runs_ret | now apply IH].
Qed.

Lemma t_mergePlugins X own D pool ds_ dt_ src target hc :
  good this X own D pool hc -> In (ds_, src) pool -> In (dt_, target) pool ->
  isArray hc (VRef own) = true -> pred ds_ <= D -> pred dt_ <= D ->
  runs (mergePlugins (VRef own) target src) hc
    (fun _ hc' => good this X own D pool hc' /\ bstep this X own hc hc').
Proof.
  intros G Hins Hint Ha Hds Hdt. unfold mergePlugins.
  assert (Hown : forall pl hx, good this X own D pl hx -> bstep this X own hc hx ->
            exists da, hx !! own = Some (OArr da) /\ forallb (rk' (own :: X) hx D) da = true).
  { intros pl hx Gx Bx. apply (own_arr _ _ _ _ _ Gx).
    rewrite (own_kind_kept _ _ _ _ Bx); [exact Ha | eapply good_own_lt; eauto]. }
  eapply runs_seq;
    [apply (arrayElems_runs this _ _ _ _ "forEach" (good_pool this _ _ _ _ _ _ _ G Hint)) |].
  cbv beta. intros ts hx (-> & _ & _ & _ & Hts).
  set (pool1 := map (pair (pred dt_)) ts ++ pool).
  assert (G1 : good this X own D pool1 hc).
  { apply good_more; [exact G |]. apply Forall_map. exact Hts. }
  eapply runs_seq with
    (R := fun _ hx => good this X own D pool1 hx /\ bstep this X own hc hx).
  { apply (runs_forEach _ _
             (fun hx => good this X own D pool1 hx /\ bstep this X own hc hx)).
    - split; [exact G1 | apply bstep_refl].
    - intros plugin hx Hin [Gx Bx].
      destruct (Hown _ _ Gx Bx) as (da & Ho & Hda).
      assert (Hp : rk' (own :: X) hx (pred dt_) plugin = true).
      { apply (good_pool this _ _ _ _ _ _ _ Gx). apply in_or_app. left.
        apply in_map_iff. eauto. }
      eapply runs_run; [apply (arrayElems_arr _ _ _ _ Ho) |].
      eapply runs_seq; [apply (findFrom_runs _ _ _ _ _ _ 0 Hda Hp) |]. cbv beta.
      intros found hx' ->.
      destruct (negb (truthy match found with Some (_, x) => x | None => VUndef end));
        [| apply runs_ret; auto].
      apply (set_own_arr X own D pool1 hc hx _ (da ++ [plugin]) Gx Bx).
      + exists da. split; [exact Ho | now apply push_arr].
      + rewrite forallb_app, Hda. simpl. rewrite andb_true_r.
        eapply rk_mono; [| exact Hp]. exact Hdt. }
  intros _ h1 [G1' B1].
  eapply runs_seq.
  { apply (arrayElems_runs this (own :: X) h1 ds_ src "forEach").
    apply (good_pool this _ _ _ _ _ _ _ G1'). apply in_or_app. now right. }
  cbv beta. intros ss hx (-> & _ & _ & _ & Hss).
  set (pool2 := map (pair (pred ds_)) ss ++ pool1).
  assert (G2 : good this X own D pool2 h1).
  { apply good_more; [exact G1' |]. apply Forall_map. exact Hss. }
  eapply runs_mono.
  { apply (runs_forEach _ _
             (fun hx => good this X own D pool2 hx /\ bstep this X own hc hx)).
    - split; [exact G2 | exact B1].
    - intros plugin hx Hin [Gx Bx].
      destruct (Hown _ _ Gx Bx) as (da & Ho & Hda).
      assert (Hp : forall hy, good this X own D pool2 hy ->
                rk' (own :: X) hy D plugin = true).
      { intros hy Gy. apply rk_mono with (d := pred ds_); [exact Hds |].
        apply (good_pool this _ _ _ _ _ _ _ Gy). apply in_or_app. left.
        apply in_map_iff. eauto. }
      eapply runs_run; [apply (arrayElems_arr _ _ _ _ Ho) |].
      eapply runs_seq; [apply (findFrom_runs _ _ _ _ _ _ 0 Hda (Hp hx Gx)) |]. cbv beta.
      intros found hx' ->.
      eapply runs_seq with
        (R := fun _ hy => good this X own D pool2 hy /\ bstep this X own hc hy).
      { destruct found as [[index x] |]; [| apply runs_ret; auto].
        apply (set_own_arr X own D pool2 hc hx _ (take index da ++ drop (S index) da) Gx Bx).
        - exists da. split; [exact Ho | now apply splice1_arr].
        - apply forallb_iff_Forall. apply forallb_iff_Forall in Hda.
          apply Forall_app_2; [now apply Forall_take | now apply Forall_drop]. }
      intros _ hy [Gy By]. destruct (Hown _ _ Gy By) as (db & Hob & Hdb).
      apply (set_own_arr X own D pool2 hc hy _ (plugin :: db) Gy By).
      + exists db. split; [exact Hob | now apply unshift_arr].
      + simpl. rewrite (Hp hy Gy), Hdb. reflexivity. }
  cbv beta. intros _ h2 [G2' B2]. split; [| exact B2].
  eapply good_sub; [exact G2' |]. intros x Hx. unfold pool2, pool1.
  apply in_or_app. right. apply in_or_app. now right.
Qed.

Lemma concatInto_run X h d v :
  rk' X h d v = true ->
  exists a, concatInto v h = (Ret (VRef (length h)), h ++ [OArr a]) /\
            forallb (rk' X h d) a = true.
Proof.
  intros H. unfold concatInto, bind, isArrayM.
  destruct (isArray h v) eqn:Ha.
  - destruct v as [| | | | | l]; try discriminate.
    destruct (rk_ref_inv _ _ _ _ _ H) as (d' & o & -> & _ & Hl & Ho).
    unfold isArray in Ha. rewrite Hl in Ha. destruct o as [a | p]; [| discriminate].
    exists a. rewrite (arrayElems_arr _ _ _ _ Hl). split; [reflexivity |].
    simpl in Ho. apply forallb_iff_Forall. apply forallb_iff_Forall in Ho.
    eapply Forall_impl; [exact Ho |]. intros x. apply rk_mono. lia.
  - exists [v]. split; [reflexivity |]. simpl. now rewrite H.
Qed.

Lemma rk_new_arr X h a d :
  Xdom X h -> forallb (rk' X h d) a = true ->
  rk' X (h ++ [OArr a]) (S d) (VRef (length h)) = true.
Proof.
  intros HX Ha. rewrite rk_ref.
  destruct (avoided X (length h)) eqn:E; [specialize (HX _ E); lia |].
  rewrite lookup_app_r by lia. rewrite Nat.sub_diag. simpl.
  apply forallb_iff_Forall. apply forallb_iff_Forall in Ha.
  eapply Forall_impl; [exact Ha |]. intros x. apply keepsX_alloc.
Qed.

Lemma t_mergeArray_norm X t s c pk h ds dt :
  Xdom X h -> rk' X h ds s = true -> rk' X h dt t = true ->
  fuel_ok (S fuel') h ds t s -> isArray h s || isArray h t = true ->
  (is_ref s = false -> ds = 0) ->
  runs (mergeArray rec t s c pk) (h ++ [OArr []])
    (fun r h' => kstep this X h h' /\ rk' X h' (rb ds dt) r = true).
Proof.
  intros HX Hs Ht Hf Harr Hn.
  set (D := 3 * ds + dt + 2). set (ha := h ++ [OArr []]).
  assert (Ka : kstep this X h ha) by (now apply kstep_alloc).
  assert (HXa : Xdom X ha) by (eapply Xdom_le; [| exact HX]; unfold ha; rewrite length_app; lia).
  assert (Hsa : rk' X ha ds s = true) by (now apply keepsX_alloc).
  assert (Hta : rk' X ha dt t = true) by (now apply keepsX_alloc).
  assert (Htarr : isArray h t = true -> 1 <= dt /\ truthy t = true).
  { intros E. apply is_ref_array in E. destruct t; try discriminate.
    apply rk_ref_pos in Ht. auto. }
  unfold mergeArray.
  (* [target = target || []] *)
  assert (T : exists t' hb dt_,
            (if truthy t then ret t else alloc (OArr [])) ha = (Ret t', hb) /\
            kstep this X h hb /\ rk' X hb dt_ t' = true /\ rk' X hb ds s = true /\
            pred dt_ <= dt /\ (isArray h t = true -> dt_ = dt)).
  { destruct (truthy t) eqn:Et.
    - exists t, ha, dt. repeat split; auto; try apply Ka. lia.
    - exists (VRef (length ha)), (ha ++ [OArr []]), 1.
      split; [reflexivity |]. split; [| split; [| split; [| split]]].
      + split; [eapply keeps_trans; [apply Ka | apply keeps_alloc] |].
        eapply same_on_trans; [apply Ka | now apply kstep_alloc].
      + now apply (rk_new_arr X ha [] 0).
      + now apply keepsX_alloc.
      + simpl. lia.
      + intros E. destruct (Htarr E). congruence. }
  destruct T as (t' & hb & dt_ & Et & Kb & Ht' & Hsb & Hdt & Hdt').
  eapply runs_run; [exact Et |].
  assert (HXb : Xdom X hb).
  { eapply Xdom_le; [| exact HX]. apply kinds_kept_length. apply Kb. }
  eapply (runs_run _ _ _ (isArray hb s)); [reflexivity |].
  assert (N : exists n, (if isArray hb s
                         then l <- arrayElems s "length" ;; ret (length l)
                         else ret 0) hb = (Ret n, hb)).
  { destruct (isArray hb s) eqn:E; [| eauto].
    destruct s as [| | | | | l]; try discriminate. unfold isArray in E.
    destruct (hb !! l) as [[a | p] |] eqn:El; try discriminate.
    exists (length a). unfold bind. now rewrite (arrayElems_arr _ _ _ _ El). }
  destruct N as [n En]. eapply runs_run; [exact En |].
  (* the array the call builds *)
  assert (C : exists a0, (if isArray hb s && Nat.ltb 1 n then concatInto s else concatInto t') hb
                         = (Ret (VRef (length hb)), hb ++ [OArr a0]) /\
                         forallb (rk' X hb D) a0 = true).
  { destruct (isArray hb s && Nat.ltb 1 n).
    - destruct (concatInto_run X hb D s) as (a & E & Ha); [| eauto].
      eapply rk_mono; [| exact Hsb]. unfold D. lia.
    - destruct (concatInto_run X hb D t') as (a & E & Ha); [| eauto].
      eapply rk_mono; [| exact Ht']. unfold D. lia. }
  destruct C as (a0 & Ec & Ha0). eapply runs_run; [exact Ec |].
  set (own := length hb). set (h1 := hb ++ [OArr a0]).
  assert (G1 : good this X own D [(ds, s); (dt_, t')] h1).
  { apply start; auto; repeat constructor; assumption. }
  assert (Ha1 : isArray h1 (VRef own) = true).
  { unfold isArray, h1, own. rewrite lookup_app_r by lia. now rewrite Nat.sub_diag. }
  assert (Hown : forall hx, bstep this X own h1 hx -> isArray hx (VRef own) = true).
  { intros hx Bx. rewrite (own_kind_kept _ _ _ _ Bx); [exact Ha1 |].
    eapply good_own_lt; eauto. }
  eapply (runs_run _ _ _ (isArray h1 s)); [reflexivity |].
  (* [src = [src]] *)
  assert (W : exists s' hw ds_,
            (if negb (String.eqb (typeof s) "object") && negb (isArray h1 s)
             then alloc (OArr [s]) else ret s) h1 = (Ret s', hw) /\
            good this X own D [(ds_, s'); (dt_, t')] hw /\ bstep this X own h1 hw /\
            3 * pred ds_ + pred dt_ + 3 <= D /\
            (s' = VNull -> s = VNull) /\
            (s' <> VNull -> 1 <= fuel' /\ (ds_ <= 1 \/ pred ds_ + 4 <= fuel'))).
  { assert (Hnr : is_ref s = false -> pred dt_ + 1 <= dt).
    { intros Er. assert (E : isArray h t = true).
      { destruct (isArray h s) eqn:E; [apply is_ref_array in E; congruence | exact Harr]. }
      destruct (Htarr E). rewrite (Hdt' E). lia. }
    destruct (negb (String.eqb (typeof s) "object") && negb (isArray h1 s)) eqn:Ew.
    - assert (Er : is_ref s = false) by (destruct s; simpl in *; auto; discriminate).
      exists (VRef (length h1)), (h1 ++ [OArr [s]]), 1. split; [reflexivity |].
      destruct (good_kstep this X own D [(ds, s); (dt_, t')] h1 (h1 ++ [OArr [s]]) G1)
        as [G' B'].
      { apply kstep_alloc. eapply good_Xdom; eauto. }
      split; [| split; [exact B' | split; [| split]]].
      + apply good_add; [eapply good_sub; [exact G' |]; intros x [<- | []]; right; now left |].
        apply (rk_new_arr (own :: X) h1 [s] 0); [eapply good_Xdom; eauto |].
        apply forallb_iff_Forall. constructor; [now apply rk_scalar | constructor].
      + specialize (Hnr Er). specialize (Hn Er). unfold D. simpl. lia.
      + discriminate.
      + intros _. split; [| left; lia].
        destruct Hf as [Hf | [(Hf & _) | (_ & ->)]]; [lia | lia | discriminate].
    - exists s, h1, ds. split; [reflexivity |]. split; [exact G1 |].
      split; [apply bstep_refl |]. split; [| split; [auto |]].
      + destruct (is_ref s) eqn:Er.
        * destruct s; try discriminate. apply rk_ref_pos in Hs. unfold D. lia.
        * specialize (Hnr eq_refl). specialize (Hn eq_refl). unfold D. subst ds. simpl. lia.
      + intros Hnn. destruct Hf as [Hf | [(Hf & Er & _) | (_ & ->)]]; [| | congruence].
        * split; [lia |]. destruct ds as [| [| ds']]; [left; lia | left; lia | right; simpl; lia].
        * split; [lia |]. left. rewrite (Hn Er). lia. }
  destruct W as (s' & hw & ds_ & Ew & Gw & Bw & Hrb & Hnull & Hfuel).
  eapply runs_run; [exact Ew |].
  eapply (runs_run _ _ _ (isArray hw t')); [reflexivity |].
  set (pool := [(ds_, s'); (dt_, t')]) in *.
  eapply runs_seq with
    (R := fun _ hx => good this X own D pool hx /\ bstep this X own h1 hx).
  { destruct (isPlugins pk && isArray hw t'); [| apply runs_ret; auto].
    eapply runs_mono;
      [apply (t_mergePlugins X own D pool ds_ dt_ s' t' hw Gw);
         [now left | right; now left | now apply Hown | lia | lia] |].
    cbv beta. intros _ hx [Gx Bx]. split; [exact Gx | eapply bstep_trans; eauto]. }
  intros _ h2 [G2 B2].
  assert (Dn : s' = VNull \/ s' <> VNull)
    by (destruct s'; first [left; reflexivity | right; discriminate]).
  destruct Dn as [-> | Hnn]; [exact I |].
  destruct (Hfuel Hnn) as [Hf1 Hf2].
  eapply runs_seq;
    [apply (objectKeys_runs this (own :: X) h2 ds_ s');
     apply (good_pool this _ _ _ _ _ _ _ G2); now left |].
  cbv beta. intros keys hx ->.
  eapply runs_seq with
    (R := fun _ hx => good this X own D pool hx /\ bstep this X own h2 hx).
  { apply (runs_forEach _ _
             (fun hx => good this X own D pool hx /\ bstep this X own h2 hx)).
    - split; [exact G2 | apply bstep_refl].
    - intros i hx _ [Gx Bx].
      eapply runs_mono;
        [apply (t_mergeElement X own D ds_ dt_ s' t' c pk i hx Gx); auto |].
      + apply Hown. eapply bstep_trans; eauto.
      + cbv beta. intros _ hc' [G' B']. split; [exact G' | eapply bstep_trans; eauto]. }
  intros _ h3 [G3 B3]. apply runs_ret.
  replace (rb ds dt) with (S D) by (unfold rb, D; lia).
  apply (finish X own D pool h hb h3 (OArr a0)); auto.
  eapply bstep_trans; [exact B2 | exact B3].
Qed.

Lemma t_mergeArray X t s c pk h ds dt :
  Xdom X h -> rk' X h ds s = true -> rk' X h dt t = true ->
  fuel_ok (S fuel') h ds t s -> isArray h s || isArray h t = true ->
  runs (mergeArray rec t s c pk) (h ++ [OArr []])
    (fun r h' => kstep this X h h' /\ rk' X h' (rb ds dt) r = true).
Proof.
  intros HX Hs Ht Hf Harr. destruct (is_ref s) eqn:Er.
  - apply t_mergeArray_norm; auto. congruence.
  - eapply runs_mono; [apply (t_mergeArray_norm X t s c pk h 0 dt); auto |].
    + now apply rk_scalar.
    + destruct Hf as [Hf | [Hf | Hf]]; [left; lia | right; left; exact Hf | right; right; exact Hf].
    + cbv beta. intros r h' [K Hr]. split; [exact K |].
      eapply rk_mono; [| exact Hr]. unfold rb. lia.
Qed.

End Calls.

(** ** [_deepMerge] terminates *)

Lemma deepMerge_term_ok (this : ConfigResolver) (fuel : nat) :
  term_ok this fuel (_deepMerge this fuel).
Proof.
  induction fuel as [| fuel IH]; intros X t s c pk h ds dt HX Hs Ht Hf.
  - destruct Hf as [Hf | [(Hf & _) | (Hf & _)]]; lia.
  - simpl.
    eapply (runs_run _ _ _ (isArray h s)); [reflexivity |].
    eapply (runs_run _ _ _ (isArray h t)); [reflexivity |]. cbv zeta.
    eapply runs_run; [reflexivity |].
    destruct (isArray h s || isArray h t) eqn:Harr.
    + apply (t_mergeArray this _ fuel (deepMerge_rec_ok this fuel) IH); auto.
    + apply orb_false_iff in Harr. destruct Harr.
      apply (t_mergeObject this _ fuel (deepMerge_rec_ok this fuel) IH); auto.
Qed.

(** With fuel for the nesting of [src], a merge of operands that the store
    holds gives an outcome of the program, and a result is nested no deeper
    than [rb] says; the values of the store keep their nesting. *)
Lemma deepMerge_terminates (this : ConfigResolver) fuel t s c pk h ds dt :
  rk this [] h ds s = true -> rk this [] h dt t = true -> ds + 4 <= fuel ->
  runs (_deepMerge this fuel t s c pk) h
    (fun r h' => keeps this h h' /\ rk this [] h' (rb ds dt) r = true).
Proof.
  intros Hs Ht Hf.
  eapply runs_mono;
    [apply (deepMerge_term_ok this fuel [] t s c pk h ds dt (Xdom_nil h) Hs Ht); now left |].
  cbv beta. intros r h' [[K _] Hr]. auto.
Qed.

(** ** The nesting of plain data *)

Fixpoint trank (t : tree) : nat :=
  match t with
  | TArr l => S (list_max (map trank l))
  | TObj p => S (S (list_max (map (fun kx => trank (snd kx)) p)))
  | _ => 0
  end.

Section AllocRank.

Variable this : ConfigResolver.

Lemma keepsX_app X h hx : keepsX this X h (h ++ hx).
Proof.
  apply rk_transfer.
  - intros l o Hl. exists o. split; [| apply same_kind_refl].
    rewrite lookup_app_l by (eapply lookup_lt_Some; eauto). exact Hl.
  - intros l o _ Hl. exists o. split; [| apply obj_step_refl].
    rewrite lookup_app_l by (eapply lookup_lt_Some; eauto). exact Hl.
Qed.

Lemma keeps_app h hx : keeps this h (h ++ hx).
Proof.
  split; [| intros X _; apply keepsX_app].
  intros l o Hl. exists o. split; [| apply same_kind_refl].
  rewrite lookup_app_l by (eapply lookup_lt_Some; eauto). exact Hl.
Qed.

Lemma alloc_tree_rank t :
  forall h v h', alloc_tree t h = (Ret v, h') ->
    (exists hx, h' = h ++ hx) /\ rk this [] h' (trank t) v = true.
Proof.
  induction t as [| | b | n | s | l IHl | p IHp] using tree_ind_nested; intros h v h';
    try (intros [= <- <-]; split; [exists []; now rewrite app_nil_r | reflexivity]).
  - (* an array *)
    assert (G : forall h vs h', allocAll alloc_tree l h = (Ret vs, h') ->
              (exists hx, h' = h ++ hx) /\
              forallb (rk this [] h' (list_max (map trank l))) vs = true).
    { clear h v h'. induction IHl as [| x r Hx _ IHr]; intros h vs h'.
      - intros [= <- <-]. split; [exists []; now rewrite app_nil_r | reflexivity].
      - simpl. unfold bind.
        destruct (alloc_tree x h) as [[v1 | e |] h1] eqn:E1; try discriminate.
        change ((fix go (l : list tree) : HM (list val) :=
                   match l with
                   | [] => ret []
                   | x :: r => v <- alloc_tree x;; vs <- go r;; ret (v :: vs)
                   end) r h1) with (allocAll alloc_tree r h1).
        destruct (allocAll alloc_tree r h1) as [[vs1 | e |] h2] eqn:E2; try discriminate.
        intros [= <- <-].
        destruct (Hx _ _ _ E1) as [[hx ->] Hv1]. destruct (IHr _ _ _ E2) as [[hy ->] Hvs].
        split; [exists (hx ++ hy); now rewrite app_assoc |].
        simpl. apply andb_true_iff. split.
        + apply keepsX_app. eapply rk_mono; [| exact Hv1]. lia.
        + apply forallb_iff_Forall. apply forallb_iff_Forall in Hvs.
          eapply Forall_impl; [exact Hvs |]. intros y. apply rk_mono. lia. }
    intros Hal. simpl in Hal. unfold bind in Hal.
    destruct (allocAll alloc_tree l h) as [[vs | e |] h1] eqn:E; try discriminate.
    unfold alloc in Hal. injection Hal as <- <-. destruct (G _ _ _ E) as [[hx ->] Hvs].
    split; [exists (hx ++ [OArr vs]); now rewrite app_assoc |].
    change (trank (TArr l)) with (S (list_max (map trank l))).
    apply rk_new_arr; [apply Xdom_nil | exact Hvs].
  - (* a mapping *)
    assert (G : forall h ps h', allocProps alloc_tree p h = (Ret ps, h') ->
              (exists hx, h' = h ++ hx) /\
              forallb (fun kv => rk this [] h'
                         (list_max (map (fun kx => trank (snd kx)) p)) (snd kv)) ps = true).
    { clear h v h'. induction IHp as [| x r Hx _ IHr]; intros h ps h'.
      - intros [= <- <-]. split; [exists []; now rewrite app_nil_r | reflexivity].
      - simpl. unfold bind.
        destruct (alloc_tree (snd x) h) as [[v1 | e |] h1] eqn:E1; try discriminate.
        change ((fix go (p : list (string * tree)) : HM (list (string * val)) :=
                   match p with
                   | [] => ret []
                   | kx :: r => v <- alloc_tree (snd kx);; ps <- go r;; ret ((fst kx, v) :: ps)
                   end) r h1) with (allocProps alloc_tree r h1).
        destruct (allocProps alloc_tree r h1) as [[ps1 | e |] h2] eqn:E2; try discriminate.
        intros [= <- <-].
        destruct (Hx _ _ _ E1) as [[hx ->] Hv1]. destruct (IHr _ _ _ E2) as [[hy ->] Hvs].
        split; [exists (hx ++ hy); now rewrite app_assoc |].
        simpl. apply andb_true_iff. split.
        + apply keepsX_app. eapply rk_mono; [| exact Hv1]. lia.
        + apply forallb_iff_Forall. apply forallb_iff_Forall in Hvs.
          eapply Forall_impl; [exact Hvs |]. intros y. apply rk_mono. lia. }
    intros Hal. simpl in Hal. unfold bind in Hal.
    destruct (allocProps alloc_tree p h) as [[ps | e |] h1] eqn:E; try discriminate.
    unfold alloc in Hal. injection Hal as <- <-. destruct (G _ _ _ E) as [[hx ->] Hps].
    split; [exists (hx ++ [OObj ps]); now rewrite app_assoc |].
    change (trank (TObj p)) with (S (S (list_max (map (fun kx => trank (snd kx)) p)))).
    set (m := list_max (map (fun kx => trank (snd kx)) p)) in *.
    rewrite rk_ref. cbn [avoided existsb negb andb].
    rewrite lookup_app_r by lia. rewrite Nat.sub_diag. cbn [lookup list_lookup rk_obj].
    apply forallb_iff_Forall. apply forallb_iff_Forall in Hps.
    eapply Forall_impl; [exact Hps |]. intros [k x] Hx. simpl in Hx.
    apply entry_rank_of_value. now apply keepsX_app.
Qed.

End AllocRank.

(** * What a merge changes, and that it ends *)

(** C2 (amended): whatever the operands, the fuel and the outcome, a merge
    returns a reference that did not exist before, leaves every existing
    array as it was, and leaves every existing mapping with the same entries
    in the same order, each with its value, except that a value that was not
    an array, under a key of the upgrade-merge list, may have been replaced
    by a new one-element array that holds it (line 186).  When the store
    holds every object that is reached from [src], that happens in [src] and
    in the mappings reached from [src] only: any other object, and so
    [target] where it shares nothing with [src], is unchanged.  With an
    empty upgrade-merge list nothing that existed is changed.  And the merge
    does give an outcome of the program, a result or an exception, when the
    store holds the operands and the fuel covers the nesting of [src]. *)
Theorem deepMerge_changes_only_upgrades (this : ConfigResolver) (fuel : nat)
    (target src : val) (combine : bool) (parentKey : option string)
    (h h' : heap) (r : res val) :
  _deepMerge this fuel target src combine parentKey h = (r, h') ->
  (forall d, r = Ret d -> exists l, d = VRef l /\ length h <= l) /\
  (forall l a, h !! l = Some (OArr a) -> h' !! l = Some (OArr a)) /\
  (forall l p, h !! l = Some (OObj p) ->
     exists p', h' !! l = Some (OObj p') /\
       Forall2 (fun e e' =>
         fst e' = fst e /\
         (snd e' = snd e \/
          (inUpgradeMergeList this (fst e) = true /\
           isArray h (snd e) = false /\
           exists m, snd e' = VRef m /\ length h <= m /\
                     h' !! m = Some (OArr [snd e])))) p p') /\
  (closed_from h src ->
   forall l o, h !! l = Some o -> ~ reach h src l -> h' !! l = Some o) /\
  (_upgradeMergeList this = [] -> forall l o, h !! l = Some o -> h' !! l = Some o) /\
  (forall ds dt, rk this [] h ds src = true -> rk this [] h dt target = true ->
     ds + 4 <= fuel -> r <> Abort).
Proof.
  intros E. pose proof (deepMerge_rec_ok this fuel target src combine parentKey h) as P.
  assert (W : wr this None (fun _ => True) h h').
  { apply (post_any _ _ _ _ (wr this None (fun _ => True) h) E), deepMerge_replaces. }
  assert (Harr : forall l a, h !! l = Some (OArr a) -> h' !! l = Some (OArr a)).
  { intros l a Hl. destruct W as [_ O].
    destruct (O l _ Hl) as (o' & Ho' & Hx & _); [discriminate |].
    destruct o'; simpl in Hx; [now subst | contradiction]. }
  assert (Hobj : forall l p, h !! l = Some (OObj p) ->
            exists p', h' !! l = Some (OObj p') /\ Forall2 (entry_kept this h h') p p').
  { intros l p Hl. destruct W as [_ O].
    destruct (O l _ Hl) as (o' & Ho' & Hx & _); [discriminate |].
    destruct o'; simpl in Hx; [contradiction | eauto]. }
  split; [| split; [| split; [| split; [| split]]]].
  - intros d ->. unfold post in P. rewrite E in P.
    destruct P as (_ & l & -> & Hl & _). eauto.
  - exact Harr.
  - intros l p Hl. destruct (Hobj l p Hl) as (p' & Hp' & F). exists p'. split; [exact Hp' |].
    eapply Forall2_impl; [exact F |]. intros e e' Hee. exact Hee.
  - intros HC l o Hl Hnr.
    assert (S : wr this None (reach h src) h h').
    { apply (post_any _ _ _ _ (wr this None (reach h src) h) E).
      now apply deepMerge_writes_src. }
    destruct S as [_ O]. destruct (O l o Hl) as (o' & Ho' & _ & Hsame); [discriminate |].
    now rewrite (Hsame Hnr) in Ho'.
  - intros Hnil l o Hl. destruct o as [a | p]; [now apply Harr |].
    destruct (Hobj l p Hl) as (p' & Hp' & F). rewrite Hp'. do 2 f_equal.
    clear Hp' Hl. induction F as [| [k v] [k' v'] r0 r0' [Hk Hu] _ IH]; [reflexivity |].
    simpl in Hk, Hu. subst k'. f_equal; [| exact IH].
    destruct Hu as [-> | (Hin & _)]; [reflexivity |].
    unfold inUpgradeMergeList in Hin. rewrite Hnil in Hin. discriminate.
  - intros ds dt Hs Ht Hf.
    pose proof (deepMerge_terminates this fuel target src combine parentKey h ds dt Hs Ht Hf)
      as R.
    unfold runs in R. rewrite E in R. destruct r; [discriminate | discriminate | contradiction].
Qed.

Lemma deepMerge_changes_only_upgrades_witness :
  let this := Example.upgrading ["tags"] in
  let h := [OObj [("tags", VRef 2); ("n", VNum 1)]; OObj [("tags", VStr "a"); ("n", VNum 2)];
            OArr [VStr "a"; VStr "b"]] in
  let h' := [OObj [("tags", VRef 2); ("n", VNum 1)]; OObj [("tags", VRef 4); ("n", VNum 2)];
             OArr [VStr "a"; VStr "b"];
             OObj [("tags", VRef 6); ("n", VNum 2)]; OArr [VStr "a"]; OArr [];
             OArr [VStr "a"; VStr "b"]] in
  _deepMerge this 6 (VRef 0) (VRef 1) false None h = (Ret (VRef 3), h') /\
  (forall d, Ret (VRef 3) = Ret d -> exists l, d = VRef l /\ length h <= l) /\
  (forall l a, h !! l = Some (OArr a) -> h' !! l = Some (OArr a)) /\
  (forall l p, h !! l = Some (OObj p) ->
     exists p', h' !! l = Some (OObj p') /\
       Forall2 (fun e e' =>
         fst e' = fst e /\
         (snd e' = snd e \/
          (inUpgradeMergeList this (fst e) = true /\
           isArray h (snd e) = false /\
           exists m, snd e' = VRef m /\ length h <= m /\
                     h' !! m = Some (OArr [snd e])))) p p') /\
  (forall l o, h !! l = Some o -> ~ reach h (VRef 1) l -> h' !! l = Some o) /\
  (_upgradeMergeList this = [] -> forall l o, h !! l = Some o -> h' !! l = Some o) /\
  (forall ds dt, rk this [] h ds (VRef 1) = true -> rk this [] h dt (VRef 0) = true ->
     ds + 4 <= 6 -> Ret (VRef 3) <> @Abort val).
Proof.
  intros this h h'. split; [reflexivity |].
  destruct (deepMerge_changes_only_upgrades this 6 (VRef 0) (VRef 1) false None h h'
              (Ret (VRef 3)) eq_refl) as (H1 & H2 & H3 & H4 & H5 & H6).
  split; [exact H1 |]. split; [exact H2 |]. split; [exact H3 |].
  split; [| split; [exact H5 | exact H6]].
  apply H4. intros l R. inversion R as [l0 | l0 o v l1 Ho Hin R1]; subst.
  - simpl. lia.
  - vm_compute in Ho. injection Ho as <-. simpl in Hin.
    destruct Hin as [<- | [<- | []]]; inversion R1.
Defined.

(** * Precedence along a chain of two siblings *)

Lemma run_liftH {A} (m : HM A) h l r h' :
  m h = (r, h') -> liftH m (h, l) = (r, (h', l)).
Proof. unfold liftH. simpl. now intros ->. Qed.

Lemma post_liftH {A} (m : HM A) h (l : list string) (Q : A -> heap -> Prop) (E : heap -> Prop) :
  post m h Q E ->
  post (liftH m) (h, l) (fun a s' => Q a (fst s') /\ snd s' = l) (fun s' => E (fst s')).
Proof.
  unfold post, liftH. simpl. destruct (m h) as [[a | e |] h1]; simpl; auto.
Qed.

Lemma post_liftH_T {A} (m : HM A) h (l : list string) (Q : A -> heap -> Prop) :
  post m h Q (fun _ => True) ->
  post (liftH m) (h, l) (fun a s' => Q a (fst s') /\ snd s' = l) (fun _ => True).
Proof.
  unfold post, liftH. simpl. destruct (m h) as [[a | e |] h1]; simpl; auto.
Qed.

Lemma assoc_get_del_ne {A} k k' (p : list (string * A)) :
  k <> k' -> assoc_get k' (assoc_del k p) = assoc_get k' p.
Proof.
  intros Hne. induction p as [| [k0 v0] r IH]; simpl; [reflexivity |].
  destruct (String.eqb k k0) eqn:E; simpl.
  - apply String.eqb_eq in E. subst k0.
    destruct (String.eqb k' k) eqn:E'; [apply String.eqb_eq in E'; congruence | exact IH].
  - destruct (String.eqb k' k0); [reflexivity | exact IH].
Qed.

(** The value a key resolves to along [child extends [A, B]]: the child's,
    else that of [B], else that of [A]. *)
Definition pairPrecedence (child : option val) (a b : option tree) : option val :=
  match child with
  | Some y => Some y
  | None =>
      match b with
      | Some y => Some (scalarVal y)
      | None => option_map scalarVal a
      end
  end.

Section Precedence.

Variable env : Env.
Variable this : ConfigResolver.
Variable depth : nat.

Lemma preValidate_keeps c n h :
  post (preValidate env this c n) h (fun _ h' => h' = h) (fun _ => True).
Proof.
  unfold preValidate, post. destruct (tree_truthy _); [| reflexivity].
  destruct (validate env h c (_preValidate this) n); auto.
Qed.

Lemma postValidate_keeps c n h :
  post (postValidate env this c n) h (fun _ h' => h' = h) (fun _ => True).
Proof.
  unfold postValidate, post. destruct (tree_truthy _); [| reflexivity].
  destruct (validate env h c (_postValidate this) n); auto.
Qed.

(** Loading a parent that is a mapping without [extends]. *)
Lemma load_plain fuel id rel h l p dir :
  hostLoad env id (default "" rel) = inr (TObj p, dir) ->
  assoc_get "extends" p = None ->
  post (_load env this depth fuel id rel (Some (fun c => preValidate env this c "config")))
    (h, l)
    (fun v s' => snd s' = l /\
       exists ps hx, v = VRef (length (h ++ hx)) /\ fst s' = (h ++ hx) ++ [OObj ps] /\
         forall k,
           (assoc_get k p = None -> assoc_get k ps = None) /\
           (forall x, assoc_get k p = Some x -> scalarTree x = true ->
              assoc_get k ps = Some (scalarVal x)))
    (fun _ => True).
Proof.
  intros Hload Hext. destruct fuel as [| fuel]; [exact I |]. simpl.
  rewrite Hload. eapply post_run; [reflexivity |]. simpl fst. simpl snd.
  destruct (alloc_tree_obj p h) as (ps & hx & E & Hps).
  eapply post_run; [apply run_liftH; exact E |].
  eapply post_seq; [apply post_liftH_T; apply preValidate_keeps | cbv beta].
  intros _ [h1 l1] [Hh Hl]. simpl in Hh, Hl. subst h1 l1.
  simpl truthy. cbv iota.
  assert (Hobj : ((h ++ hx) ++ [OObj ps]) !! length (h ++ hx) = Some (OObj ps)).
  { rewrite lookup_app_r by lia. now rewrite Nat.sub_diag. }
  eapply post_run; [apply run_liftH; apply (getKey_obj _ _ _ _ Hobj) |].
  destruct (Hps "extends") as [Hn _]. rewrite (Hn Hext). simpl.
  apply post_ret. simpl. split; [reflexivity |]. exists ps, hx. auto.
Qed.

Lemma deleteKey_obj l k h p :
  h !! l = Some (OObj p) ->
  deleteKey (VRef l) k h = (Ret tt, <[l := OObj (assoc_del k p)]> h).
Proof.
  intros Hl. unfold deleteKey, bind, readObj, writeObj. rewrite Hl. simpl. now rewrite Hl.
Qed.

(** Reversing an array leaves a mapping alone. *)
Lemma reverse_keeps_object pv rl rp h :
  h !! rl = Some (OObj rp) ->
  post (reverse pv) h (fun _ h' => h' !! rl = Some (OObj rp)) (fun _ => True).
Proof.
  intros Hr. unfold reverse.
  apply post_bind_read; [auto with readonly | exact I | intros a Ha].
  destruct pv as [| | | | | pl]; try exact I.
  unfold setElems, post, bind, readObj, writeObj.
  destruct (h !! pl) as [[a0 | p0] |] eqn:Hp; simpl; try exact I.
  rewrite Hp. rewrite list_lookup_insert_ne; [exact Hr | congruence].
Qed.

(** The defaults do not replace a defined value. *)
Lemma setDefaultValues_keeps rl rp k w h :
  h !! rl = Some (OObj rp) -> assoc_get k rp = Some w -> definedScalar w = true ->
  post (setDefaultValues this (VRef rl)) h
    (fun _ h' => exists rp', h' !! rl = Some (OObj rp') /\ assoc_get k rp' = Some w)
    (fun _ => True).
Proof.
  intros Hr Hk Hw. unfold setDefaultValues.
  assert (Keep : forall h0 : heap, (exists rp', h0 !! rl = Some (OObj rp') /\ assoc_get k rp' = Some w) ->
            post (ret tt) h0
              (fun _ h' => exists rp', h' !! rl = Some (OObj rp') /\ assoc_get k rp' = Some w)
              (fun _ => True)).
  { intros h0 H0. exact H0. }
  destruct (tree_truthy _); [| apply Keep; eauto].
  unfold safeSetAllUndefined.
  destruct (_defaultValues this) as [| | b | n | s | l | defaults];
    try (apply Keep; eauto; fail).
  apply (post_forEach _ _
    (fun h' : heap => exists rp', h' !! rl = Some (OObj rp') /\ assoc_get k rp' = Some w)
    (fun _ => True)); [eauto |].
  intros [k' t'] h1 _ (rp1 & Hr1 & Hk1). simpl fst. simpl snd.
  eapply post_run; [apply (getKey_obj _ _ _ _ Hr1) |].
  destruct (String.eqb (typeof (default VUndef (assoc_get k' rp1))) "undefined") eqn:Hu;
    [| apply Keep; eauto].
  destruct (alloc_tree_grows t' h1) as (v & hx & E & _).
  eapply post_run; [exact E |].
  assert (Hr2 : (h1 ++ hx) !! rl = Some (OObj rp1)).
  { rewrite lookup_app_l by (eapply lookup_lt_Some; eauto). exact Hr1. }
  unfold post. rewrite (setKey_obj _ _ _ _ _ Hr2).
  exists (assoc_set k' v rp1).
  split; [apply list_lookup_insert_eq; eapply lookup_lt_Some; eauto |].
  rewrite assoc_get_set_ne; [exact Hk1 |].
  intros ->. rewrite Hk1 in Hu. destruct w; simpl in *; discriminate.
Qed.

(** One round of the walk: a reference not yet loaded, to a mapping without
    [extends], is recorded, loaded and merged beneath the accumulator. *)
Lemma step_parent fuel (prev : loc) pp (l : list string) ref p dir k hcur :
  hcur !! prev = Some (OObj pp) ->
  ~ In (resolveParentPath env (cwd env) (Some (cwd env)) ref) l ->
  hostLoad env (resolveParentPath env (cwd env) (Some (cwd env)) ref) (cwd env)
    = inr (TObj p, dir) ->
  assoc_get "extends" p = None ->
  inUpgradeMergeList this k = false ->
  (forall y, assoc_get k pp = Some y -> definedScalar y = true) ->
  (forall y, assoc_get k p = Some y -> scalarTree y = true) ->
  post (extendsStep env this depth (_load env this depth fuel) (cwd env) (Some (cwd env))
          (Some (fun c => preValidate env this c "config")) (VRef prev) (VStr ref)) (hcur, l)
    (fun v s' =>
       snd s' = l ++ [resolveParentPath env (cwd env) (Some (cwd env)) ref] /\
       exists dl dp, v = VRef dl /\ fst s' !! dl = Some (OObj dp) /\
         assoc_get k dp = match assoc_get k pp with
                          | Some y => Some y
                          | None => option_map scalarVal (assoc_get k p)
                          end)
    (fun _ => True).
Proof.
  intros Hprev Hnew Hload Hext Hk Hpps Hps.
  unfold extendsStep.
  set (id := resolveParentPath env (cwd env) (Some (cwd env)) ref) in *.
  eapply post_run; [reflexivity |]. simpl snd.
  destruct (existsb (String.eqb id) l) eqn:Ex.
  { apply existsb_eqb_In in Ex. contradiction. }
  eapply post_run; [reflexivity |]. simpl fst. simpl snd.
  eapply post_seq;
    [apply (load_plain fuel id (Some (cwd env)) _ _ p dir Hload Hext) | cbv beta].
  intros parent [h1 l1] (Hl & ps & hx & -> & Hh & Hpsx). simpl in Hl, Hh. subst l1 h1.
  assert (Htgt : ((hcur ++ hx) ++ [OObj ps]) !! length (hcur ++ hx) = Some (OObj ps)).
  { rewrite lookup_app_r by lia. now rewrite Nat.sub_diag. }
  assert (Hsrc : ((hcur ++ hx) ++ [OObj ps]) !! prev = Some (OObj pp)).
  { pose proof (lookup_lt_Some _ _ _ Hprev).
    rewrite !lookup_app_l; [exact Hprev | | ]; rewrite ?length_app; lia. }
  assert (Hpsd : forall y, assoc_get k ps = Some y -> definedScalar y = true).
  { intros y Hy. destruct (assoc_get k p) as [t |] eqn:Et.
    - destruct (Hpsx k) as [_ G]. rewrite (G t Et (Hps t eq_refl)) in Hy.
      injection Hy as <-. apply scalarTree_defined. now apply Hps.
    - destruct (Hpsx k) as [G _]. rewrite (G Et) in Hy. discriminate. }
  eapply post_mono;
    [apply post_liftH_T;
     apply (deepMerge_object_key this depth (length (hcur ++ hx)) prev ps pp false None k _
              Htgt Hsrc Hk Hpps Hpsd)
    | cbv beta | auto].
  intros d [h2 l2] ((_ & dl & dp & -> & _ & Hd & Hv) & Hl2). simpl in Hd, Hl2. simpl.
  split; [exact Hl2 |]. exists dl, dp. split; [reflexivity |]. split; [exact Hd |].
  rewrite Hv. destruct (assoc_get k pp); [reflexivity |].
  destruct (assoc_get k p) as [t |] eqn:Et.
  - destruct (Hpsx k) as [_ G]. now rewrite (G t Et (Hps t eq_refl)).
  - destruct (Hpsx k) as [G _]. now rewrite (G Et).
Qed.

Section Pair.

Variables (h : heap) (c e : loc) (cp : list (string * val)) (A B : string).
Variables (ap bp : list (string * tree)) (dirA dirB : option string) (k : string).

Let idA := resolveParentPath env (cwd env) (Some (cwd env)) A.
Let idB := resolveParentPath env (cwd env) (Some (cwd env)) B.

Hypothesis Hc : h !! c = Some (OObj cp).
Hypothesis Hce : assoc_get "extends" cp = Some (VRef e).
Hypothesis He : h !! e = Some (OArr [VStr A; VStr B]).
Hypothesis Hids : idA <> idB.
Hypothesis HloadA : hostLoad env idA (cwd env) = inr (TObj ap, dirA).
Hypothesis HloadB : hostLoad env idB (cwd env) = inr (TObj bp, dirB).
Hypothesis HextA : assoc_get "extends" ap = None.
Hypothesis HextB : assoc_get "extends" bp = None.
Hypothesis Hk : inUpgradeMergeList this k = false.
Hypothesis Hcs : forall y, assoc_get k cp = Some y -> definedScalar y = true.
Hypothesis Has : forall y, assoc_get k ap = Some y -> scalarTree y = true.
Hypothesis Hbs : forall y, assoc_get k bp = Some y -> scalarTree y = true.

Lemma walk_pair fuel :
  post (_applyExtends env this depth fuel (VRef c) (cwd env) (Some (cwd env))
          (Some (fun c => preValidate env this c "config"))) (h, [])
    (fun v s' => snd s' = [idB; idA] /\
       exists rl rp, v = VRef rl /\ fst s' !! rl = Some (OObj rp) /\
         forall w, pairPrecedence (assoc_get k cp) (assoc_get k ap) (assoc_get k bp) = Some w ->
                   assoc_get k rp = Some w /\ definedScalar w = true)
    (fun _ => True).
Proof.
  unfold _applyExtends, applyExtendsWith.
  eapply post_run; [apply run_liftH; apply (getKey_obj _ _ _ _ Hc) |]. rewrite Hce. simpl.
  eapply (post_run _ _ _ true); [apply run_liftH; unfold isArrayM, isArray; now rewrite He |].
  eapply (post_run _ _ _ [VStr A; VStr B]);
    [apply run_liftH; unfold arrayElems, bind, readObj; now rewrite He |].
  simpl rev. simpl reduceM.
  (* the last reference, [B], first *)
  eapply post_seq;
    [apply (step_parent fuel c cp [] B bp dirB k h Hc (fun H => H) HloadB HextB Hk Hcs Hbs)
    | cbv beta].
  intros d1 [h1 l1] (Hl1 & dl1 & dp1 & -> & Hd1 & Hv1). simpl in Hl1, Hd1. subst l1.
  assert (Hdp1 : forall y, assoc_get k dp1 = Some y -> definedScalar y = true).
  { intros y Hy. rewrite Hv1 in Hy. destruct (assoc_get k cp) as [y0 |] eqn:Ec.
    - injection Hy as <-. now apply Hcs.
    - destruct (assoc_get k bp) as [t |] eqn:Et; [| discriminate].
      injection Hy as <-. apply scalarTree_defined. now apply Hbs. }
  eapply post_seq.
  { apply (step_parent fuel dl1 dp1 [idB] A ap dirA k h1 Hd1); auto.
    intros [Hin | []]. apply Hids. symmetry. exact Hin. }
  cbv beta. intros d2 [h2 l2] (Hl2 & dl2 & dp2 & -> & Hd2 & Hv2). simpl in Hl2, Hd2.
  apply post_ret. simpl. split; [exact Hl2 |].
  exists dl2, dp2. split; [reflexivity |]. split; [exact Hd2 |].
  intros w Hw. rewrite Hv2, Hv1. unfold pairPrecedence in Hw.
  destruct (assoc_get k cp) as [y0 |] eqn:Ec.
  - injection Hw as <-. split; [reflexivity | now apply Hcs].
  - destruct (assoc_get k bp) as [t |] eqn:Et; simpl.
    + injection Hw as <-. split; [reflexivity |]. apply scalarTree_defined. now apply Hbs.
    + destruct (assoc_get k ap) as [t |] eqn:Ea; [| discriminate]. simpl in *.
      injection Hw as <-. split; [reflexivity |]. apply scalarTree_defined. now apply Has.
Qed.

(** What [resolve] returns, when it returns: under the key, the child's
    value if the child has the key, else the value of [B], else the value of
    [A]. *)
Lemma extends_pair_result fuel w v h' :
  pairPrecedence (assoc_get k cp) (assoc_get k ap) (assoc_get k bp) = Some w ->
  resolve env this depth fuel (VRef c) h = (Ret v, h') ->
  exists rl rp, v = VRef rl /\ h' !! rl = Some (OObj rp) /\ assoc_get k rp = Some w.
Proof.
  intros Hw Hres.
  assert (Hne : k <> "extends").
  { intros ->. specialize (Hcs _ Hce). discriminate. }
  apply (post_returns _ _ _ _
           (fun v0 (h0 : heap) => exists rl rp,
              v0 = VRef rl /\ h0 !! rl = Some (OObj rp) /\ assoc_get k rp = Some w)
           (fun _ => True) Hres).
  unfold resolve.
  eapply post_run; [reflexivity |].
  eapply post_seq; [apply preValidate_keeps | cbv beta]. intros _ h0 ->.
  eapply post_seq with
    (R := fun v1 (h1 : heap) => exists rl rp, v1 = VRef rl /\ h1 !! rl = Some (OObj rp) /\
             assoc_get k rp = Some w /\ definedScalar w = true).
  { unfold _resolveExtends.
    eapply post_run; [apply (getKey_obj _ _ _ _ Hc) |]. rewrite Hce. simpl.
    eapply post_seq with
      (R := fun (vl : val * list string) (h1 : heap) =>
              snd vl = [idB; idA] /\
              exists rl rp, fst vl = VRef rl /\ h1 !! rl = Some (OObj rp) /\
                assoc_get k rp = Some w /\ definedScalar w = true).
    { pose proof (walk_pair fuel) as P. unfold post in *.
      destruct (_applyExtends _ _ _ _ _ _ _ _ _) as [[v1 | e1 |] [h1 l1]]; simpl in *; auto.
      destruct P as (Hl & rl & rp & -> & Hr & Hv). split; [exact Hl |].
      exists rl, rp. destruct (Hv w Hw). auto. }
    intros [v1 l1] h1 (Hl & rl & rp & Hv1 & Hr & Hkv & Hwd). simpl in Hl, Hv1. subst l1 v1.
    simpl fst. simpl snd. simpl Nat.ltb. cbv iota.
    assert (Hrl : rl < length h1) by (eapply lookup_lt_Some; eauto).
    eapply post_seq with
      (R := fun _ (h4 : heap) => exists rp4, h4 !! rl = Some (OObj rp4) /\ assoc_get k rp4 = Some w).
    { eapply post_run; [apply (deleteKey_obj _ _ _ _ Hr) |].
      eapply post_run; [reflexivity |].
      set (h2 := <[rl := OObj (assoc_del "extends" rp)]> h1).
      assert (H3 : (h2 ++ [OArr (map VStr [idB; idA])]) !! rl
                   = Some (OObj (assoc_del "extends" rp))).
      { unfold h2. rewrite lookup_app_l by (rewrite length_insert; exact Hrl).
        now apply list_lookup_insert_eq. }
      unfold post. rewrite (setKey_obj _ _ _ _ _ H3).
      eexists. split.
      - apply list_lookup_insert_eq. rewrite length_app. unfold h2. rewrite length_insert. lia.
      - rewrite assoc_get_set_ne by congruence.
        rewrite assoc_get_del_ne by congruence. exact Hkv. }
    intros _ h4 (rp4 & Hr4 & Hkv4).
    eapply post_run; [apply (getKey_obj _ _ _ _ Hr4) |].
    eapply post_run; [reflexivity |].
    eapply post_seq with
      (R := fun _ (h5 : heap) => h5 !! rl = Some (OObj rp4)).
    { destruct (isArray h4 _); [now apply reverse_keeps_object | now apply post_ret]. }
    intros _ h5 Hr5. apply post_ret. exists rl, rp4. auto. }
  intros v1 h1 (rl & rp & -> & Hr & Hkv & Hwd).
  eapply post_seq; [apply (setDefaultValues_keeps rl rp k w h1 Hr Hkv Hwd) | cbv beta].
  intros _ h2 (rp' & Hr' & Hkv').
  eapply post_seq; [apply postValidate_keeps | cbv beta]. intros _ h3 ->.
  apply post_ret. eauto.
Qed.

End Pair.

End Precedence.

(** ** The walk of [child extends [A, B]] terminates *)

Lemma runs_liftH {A} (m : HM A) h (l : list string) (Q : A -> heap -> Prop) :
  runs m h Q -> runs (liftH m) (h, l) (fun a s' => Q a (fst s') /\ snd s' = l).
Proof.
  unfold runs, liftH. simpl. destruct (m h) as [[a | e |] h1]; simpl; auto.
Qed.

Section Walk.

Variable env : Env.
Variable this : ConfigResolver.
Variable depth : nat.

Lemma preValidate_runs c n h :
  runs (preValidate env this c n) h (fun _ h' => h' = h).
Proof.
  unfold preValidate, runs. destruct (tree_truthy _); [| reflexivity].
  destruct (validate env h c (_preValidate this) n); auto.
Qed.

Lemma postValidate_runs c n h :
  runs (postValidate env this c n) h (fun _ h' => h' = h).
Proof.
  unfold postValidate, runs. destruct (tree_truthy _); [| reflexivity].
  destruct (validate env h c (_postValidate this) n); auto.
Qed.

Lemma load_plain_runs fuel id rel h l p dir :
  hostLoad env id (default "" rel) = inr (TObj p, dir) ->
  assoc_get "extends" p = None ->
  runs (_load env this depth (S fuel) id rel (Some (fun c => preValidate env this c "config")))
    (h, l)
    (fun v s' => snd s' = l /\ keeps this h (fst s') /\
                 rk this [] (fst s') (trank (TObj p)) v = true).
Proof.
  intros Hload Hext. simpl.
  rewrite Hload. eapply runs_run; [reflexivity |]. simpl fst. simpl snd.
  destruct (alloc_tree_obj p h) as (ps & hx & E & Hps).
  destruct (alloc_tree_rank this _ _ _ _ E) as [_ Hrk].
  eapply runs_run; [apply run_liftH; exact E |].
  eapply runs_seq; [apply runs_liftH; apply preValidate_runs | cbv beta].
  intros _ [h1 l1] [Hh Hl]. simpl in Hh, Hl. subst h1 l1.
  simpl truthy. cbv iota.
  assert (Hobj : ((h ++ hx) ++ [OObj ps]) !! length (h ++ hx) = Some (OObj ps)).
  { rewrite lookup_app_r by lia. now rewrite Nat.sub_diag. }
  eapply runs_run; [apply run_liftH; apply (getKey_obj _ _ _ _ Hobj) |].
  destruct (Hps "extends") as [Hn _]. rewrite (Hn Hext). simpl.
  apply runs_ret. simpl. split; [reflexivity |]. split; [| exact Hrk].
  rewrite <- app_assoc. apply keeps_app.
Qed.

Lemma rk_object X h d l :
  rk this X h d (VRef l) = true -> isArray h (VRef l) = false ->
  exists p, h !! l = Some (OObj p).
Proof.
  intros H Ha. destruct (rk_ref_inv _ _ _ _ _ H) as (_ & o & _ & _ & Hl & _).
  unfold isArray in Ha. rewrite Hl in Ha. destruct o as [a | p]; [discriminate | eauto].
Qed.

Lemma step_parent_runs fuel prev dprev (l : list string) ref p dir hcur :
  rk this [] hcur dprev prev = true -> isArray hcur prev = false ->
  ~ In (resolveParentPath env (cwd env) (Some (cwd env)) ref) l ->
  hostLoad env (resolveParentPath env (cwd env) (Some (cwd env)) ref) (cwd env)
    = inr (TObj p, dir) ->
  assoc_get "extends" p = None ->
  dprev + 4 <= depth ->
  runs (extendsStep env this depth (_load env this depth (S fuel)) (cwd env) (Some (cwd env))
          (Some (fun c => preValidate env this c "config")) prev (VStr ref)) (hcur, l)
    (fun v s' =>
       snd s' = l ++ [resolveParentPath env (cwd env) (Some (cwd env)) ref] /\
       rk this [] (fst s') (rb dprev (trank (TObj p))) v = true /\
       isArray (fst s') v = false /\ is_ref v = true).
Proof.
  intros Hprev Hpa Hnew Hload Hext Hd.
  unfold extendsStep.
  set (id := resolveParentPath env (cwd env) (Some (cwd env)) ref) in *.
  eapply runs_run; [reflexivity |]. simpl snd.
  destruct (existsb (String.eqb id) l) eqn:Ex.
  { apply existsb_eqb_In in Ex. contradiction. }
  eapply runs_run; [reflexivity |]. simpl fst. simpl snd.
  destruct (alloc_tree_obj p hcur) as (ps & hx & E & _).
  eapply runs_seq with
    (R := fun v s' => snd s' = l ++ [id] /\ keeps this hcur (fst s') /\
            rk this [] (fst s') (trank (TObj p)) v = true /\ isArray (fst s') v = false).
  { pose proof (load_plain_runs fuel id (Some (cwd env)) hcur (l ++ [id]) p dir Hload Hext) as R.
    pose proof (load_plain env this depth (S fuel) id (Some (cwd env)) hcur (l ++ [id]) p dir
                  Hload Hext) as P.
    unfold runs, post in *.
    destruct (_load _ _ _ _ _ _ _ _) as [[v | e0 |] [h1 l1]]; auto.
    destruct R as (Hl & K & Hv). destruct P as (_ & ps' & hx' & -> & Hh & _).
    simpl in *. repeat split; auto; try apply K.
    rewrite Hh. rewrite lookup_app_r by lia. now rewrite Nat.sub_diag. }
  cbv beta. intros parent [h1 l1] (Hl & K & Hp & Hpar). simpl in Hl, K, Hp, Hpar. subst l1.
  assert (Hprev1 : rk this [] h1 dprev prev = true)
    by (apply (proj2 K []); [apply Xdom_nil | exact Hprev]).
  assert (Hpa1 : isArray h1 prev = false).
  { rewrite (isArray_valid_kept hcur h1 _ (proj1 K)); [exact Hpa |].
    intros l0 ->. eapply rk_valid; eauto. }
  eapply runs_mono;
    [apply runs_liftH;
     apply (runs_post _ _ _ _ _ (deepMerge_rec_ok this depth parent prev false None h1)
              (deepMerge_terminates this depth parent prev false None h1 dprev
                 (trank (TObj p)) Hprev1 Hp Hd))
    | ].
  cbv beta. intros v [h2 l2] [[[_ Hv] (_ & dl & -> & _ & Hav)] Hl2]. simpl in *.
  rewrite Hpa1, Hpar in Hav. auto.
Qed.

Lemma reverse_runs pv h : isArray h pv = true -> runs (reverse pv) h (fun _ _ => True).
Proof.
  intros Ha. destruct pv as [| | | | | pl]; try discriminate.
  unfold isArray in Ha. destruct (h !! pl) as [[a | p] |] eqn:Hp; try discriminate.
  unfold runs, reverse, bind. rewrite (arrayElems_arr _ _ _ _ Hp).
  now rewrite (setElems_arr _ _ _ _ Hp).
Qed.

Lemma setDefaultValues_runs rl rp h :
  h !! rl = Some (OObj rp) ->
  runs (setDefaultValues this (VRef rl)) h (fun _ _ => True).
Proof.
  intros Hr. unfold setDefaultValues.
  destruct (tree_truthy _); [| exact I].
  unfold safeSetAllUndefined.
  destruct (_defaultValues this) as [| | b | n | s | l | defaults]; try exact I.
  eapply runs_mono;
    [apply (runs_forEach _ _ (fun h' : heap => exists rp', h' !! rl = Some (OObj rp')));
       [eauto |]
    | auto].
  intros [k' t'] h1 _ (rp1 & Hr1). simpl fst. simpl snd.
  eapply runs_run; [apply (getKey_obj _ _ _ _ Hr1) |].
  destruct (String.eqb (typeof (default VUndef (assoc_get k' rp1))) "undefined");
    [| apply runs_ret; eauto].
  destruct (alloc_tree_grows t' h1) as (v & hx & E & _).
  eapply runs_run; [exact E |].
  assert (Hr2 : (h1 ++ hx) !! rl = Some (OObj rp1)).
  { rewrite lookup_app_l by (eapply lookup_lt_Some; eauto). exact Hr1. }
  unfold runs. rewrite (setKey_obj _ _ _ _ _ Hr2). eexists.
  apply list_lookup_insert_eq. eapply lookup_lt_Some; eauto.
Qed.

Section PairRuns.

Variables (h : heap) (c e : loc) (cp : list (string * val)) (A B : string).
Variables (ap bp : list (string * tree)) (dirA dirB : option string) (dc : nat).

Let idA := resolveParentPath env (cwd env) (Some (cwd env)) A.
Let idB := resolveParentPath env (cwd env) (Some (cwd env)) B.

Hypothesis Hc : h !! c = Some (OObj cp).
Hypothesis Hce : assoc_get "extends" cp = Some (VRef e).
Hypothesis He : h !! e = Some (OArr [VStr A; VStr B]).
Hypothesis Hids : idA <> idB.
Hypothesis HloadA : hostLoad env idA (cwd env) = inr (TObj ap, dirA).
Hypothesis HloadB : hostLoad env idB (cwd env) = inr (TObj bp, dirB).
Hypothesis HextA : assoc_get "extends" ap = None.
Hypothesis HextB : assoc_get "extends" bp = None.
Hypothesis Hrank : rk this [] h dc (VRef c) = true.
Hypothesis Hdepth : 3 * dc + trank (TObj bp) + 7 <= depth.

Lemma walk_pair_runs fuel :
  runs (_applyExtends env this depth (S fuel) (VRef c) (cwd env) (Some (cwd env))
          (Some (fun c => preValidate env this c "config"))) (h, [])
    (fun v s' => snd s' = [idB; idA] /\
       exists rl rp, v = VRef rl /\ fst s' !! rl = Some (OObj rp)).
Proof.
  unfold _applyExtends, applyExtendsWith.
  eapply runs_run; [apply run_liftH; apply (getKey_obj _ _ _ _ Hc) |]. rewrite Hce. simpl.
  eapply (runs_run _ _ _ true); [apply run_liftH; unfold isArrayM, isArray; now rewrite He |].
  eapply (runs_run _ _ _ [VStr A; VStr B]);
    [apply run_liftH; unfold arrayElems, bind, readObj; now rewrite He |].
  simpl rev. simpl reduceM.
  eapply runs_seq;
    [apply (step_parent_runs fuel (VRef c) dc [] B bp dirB h Hrank (isArray_obj _ _ _ Hc)
              (fun H => H) HloadB HextB)
    | cbv beta].
  { lia. }
  intros d1 [h1 l1] (Hl1 & Hd1 & Ha1 & _). simpl in Hl1, Hd1, Ha1. subst l1.
  eapply runs_seq.
  { apply (step_parent_runs fuel d1 (rb dc (trank (TObj bp))) [idB] A ap dirA h1 Hd1 Ha1);
      auto.
    - intros [Hin | []]. apply Hids. symmetry. exact Hin.
    - unfold rb. lia. }
  cbv beta. intros d2 [h2 l2] (Hl2 & Hd2 & Ha2 & Hr2). simpl in Hl2, Hd2, Ha2.
  apply runs_ret. simpl. split; [exact Hl2 |].
  destruct d2 as [| | | | | rl]; try discriminate.
  destruct (rk_object _ _ _ _ Hd2 Ha2) as [rp Hrp]. eauto.
Qed.

Lemma resolve_runs fuel :
  runs (resolve env this depth (S fuel) (VRef c)) h (fun _ _ => True).
Proof.
  unfold resolve.
  eapply runs_run; [reflexivity |].
  eapply runs_seq; [apply preValidate_runs | cbv beta]. intros _ h0 ->.
  eapply runs_seq with
    (R := fun v1 (h1 : heap) => exists rl rp, v1 = VRef rl /\ h1 !! rl = Some (OObj rp)).
  { unfold _resolveExtends.
    eapply runs_run; [apply (getKey_obj _ _ _ _ Hc) |]. rewrite Hce. simpl.
    eapply runs_seq with
      (R := fun (vl : val * list string) (h1 : heap) =>
              snd vl = [idB; idA] /\
              exists rl rp, fst vl = VRef rl /\ h1 !! rl = Some (OObj rp)).
    { pose proof (walk_pair_runs fuel) as P. unfold runs in *.
      destruct (_applyExtends _ _ _ _ _ _ _ _ _) as [[v1 | e1 |] [h1 l1]]; simpl in *; auto. }
    intros [v1 l1] h1 (Hl & rl & rp & Hv1 & Hr). simpl in Hl, Hv1. subst l1 v1.
    simpl fst. simpl snd. simpl Nat.ltb. cbv iota.
    assert (Hrl : rl < length h1) by (eapply lookup_lt_Some; eauto).
    eapply runs_seq with
      (R := fun _ (h4 : heap) => exists rp4, h4 !! rl = Some (OObj rp4)).
    { eapply runs_run; [apply (deleteKey_obj _ _ _ _ Hr) |].
      eapply runs_run; [reflexivity |].
      set (h2 := <[rl := OObj (assoc_del "extends" rp)]> h1).
      assert (H3 : (h2 ++ [OArr (map VStr [idB; idA])]) !! rl
                   = Some (OObj (assoc_del "extends" rp))).
      { unfold h2. rewrite lookup_app_l by (rewrite length_insert; exact Hrl).
        now apply list_lookup_insert_eq. }
      unfold runs. rewrite (setKey_obj _ _ _ _ _ H3). eexists.
      apply list_lookup_insert_eq. rewrite length_app. unfold h2.
      rewrite length_insert. lia. }
    intros _ h4 H4.
    destruct H4 as [rp4 Hr4].
    eapply runs_run; [apply (getKey_obj _ _ _ _ Hr4) |].
    eapply runs_run; [reflexivity |].
    eapply runs_seq with (R := fun _ (h5 : heap) => h5 !! rl = Some (OObj rp4)).
    { destruct (isArray h4 _) eqn:Ea; [| now apply runs_ret].
      eapply runs_mono;
        [apply (runs_post _ _ _ _ _ (reverse_keeps_object _ rl rp4 h4 Hr4)
                  (reverse_runs _ h4 Ea)) |].
      cbv beta. intros _ h5 [_ H5]. exact H5. }
    intros _ h5 Hr5. apply runs_ret. eauto. }
  intros v1 h1 (rl & rp & -> & Hr).
  eapply runs_seq; [apply (setDefaultValues_runs rl rp h1 Hr) | cbv beta].
  intros _ h2 _.
  eapply runs_seq; [apply postValidate_runs | cbv beta]. intros _ h3 ->.
  now apply runs_ret.
Qed.

Variable k : string.

Hypothesis Hk : inUpgradeMergeList this k = false.
Hypothesis Hcs : forall y, assoc_get k cp = Some y -> definedScalar y = true.
Hypothesis Has : forall y, assoc_get k ap = Some y -> scalarTree y = true.
Hypothesis Hbs : forall y, assoc_get k bp = Some y -> scalarTree y = true.

(** C1 (amended): for [child extends [A, B]], where [A] and [B] load as
    mappings without [extends] under different identifiers, and for a key
    other than ["__proto__"] that is not in the upgrade-merge list and whose
    values are defined scalars, [resolve] gives an outcome whenever the child
    configuration is nested no deeper than the bound of the merge allows: it
    raises an exception of the program (a failed validation, a [TypeError]
    of the merge), or it returns a mapping that has, under the key, the
    child's value if the child has the key, else the value of [B], else the
    value of [A].  The last sibling takes precedence over the first.  The
    key ["__proto__"] is left out: the assignment [dst[key] = value] of
    lines 177 and 196 runs the setter of [Object.prototype] for it and
    stores no entry. *)
Theorem extends_pair_precedence fuel w :
  k <> "__proto__" ->
  1 <= fuel ->
  pairPrecedence (assoc_get k cp) (assoc_get k ap) (assoc_get k bp) = Some w ->
  match resolve env this depth fuel (VRef c) h with
  | (Ret v, h') =>
      exists rl rp, v = VRef rl /\ h' !! rl = Some (OObj rp) /\ assoc_get k rp = Some w
  | (Throw _, _) => True
  | (Abort, _) => False
  end.
Proof.
  intros _ Hf Hw. destruct fuel as [| fuel]; [lia |].
  pose proof (resolve_runs fuel) as R. unfold runs in R.
  destruct (resolve env this depth (S fuel) (VRef c) h) as [[v | e0 |] h'] eqn:E;
    [| exact I | contradiction].
  exact (extends_pair_result env this depth h c e cp A B ap bp dirA dirB k
           Hc Hce He Hids HloadA HloadB HextA HextB Hk Hcs Has Hbs (S fuel) w v h' Hw E).
Qed.

End PairRuns.

End Walk.

Lemma extends_pair_precedence_witness :
  let env := Example.host
    [("/work/A.json", TObj [("k", TStr "from A"); ("a", TNum 1)]);
     ("/work/B.json", TObj [("k", TStr "from B")])] in
  let h := [OArr [VStr "./A.json"; VStr "./B.json"];
            OObj [("extends", VRef 0); ("c", VNum 0)]] in
  exists v h',
    resolve env Example.plain 15 1 (VRef 1) h = (Ret v, h') /\
    exists rl rp, v = VRef rl /\ h' !! rl = Some (OObj rp) /\
                  assoc_get "k" rp = Some (VStr "from B").
Proof.
  intros env h.
  assert (T := extends_pair_precedence env Example.plain 15 h 1 0
                 [("extends", VRef 0); ("c", VNum 0)] "./A.json" "./B.json"
                 [("k", TStr "from A"); ("a", TNum 1)] [("k", TStr "from B")]
                 (Some "/work") (Some "/work") 2).
  specialize (T eq_refl eq_refl eq_refl).
  assert (Hids : resolveParentPath env (cwd env) (Some (cwd env)) "./A.json"
                 <> resolveParentPath env (cwd env) (Some (cwd env)) "./B.json")
    by (vm_compute; discriminate).
  specialize (T Hids eq_refl eq_refl eq_refl eq_refl eq_refl).
  assert (Hd : 3 * 2 + trank (TObj [("k", TStr "from B")]) + 7 <= 15) by (vm_compute; lia).
  specialize (T Hd "k" eq_refl).
  assert (Hcs : forall y, assoc_get "k" [("extends", VRef 0); ("c", VNum 0)] = Some y ->
                          definedScalar y = true)
    by (intros y Hy; vm_compute in Hy; discriminate).
  assert (Has : forall y, assoc_get "k" [("k", TStr "from A"); ("a", TNum 1)] = Some y ->
                          scalarTree y = true)
    by (intros y Hy; vm_compute in Hy; injection Hy as <-; reflexivity).
  assert (Hbs : forall y, assoc_get "k" [("k", TStr "from B")] = Some y ->
                          scalarTree y = true)
    by (intros y Hy; vm_compute in Hy; injection Hy as <-; reflexivity).
  assert (Hp : "k" <> "__proto__") by discriminate.
  specialize (T Hcs Has Hbs 1 (VStr "from B") Hp (le_n 1) eq_refl).
  destruct (resolve env Example.plain 15 1 (VRef 1) h) as [[v | e0 |] h'] eqn:E.
  - exists v, h'. split; [reflexivity | exact T].
  - vm_compute in E. discriminate.
  - contradiction.
Defined.

(** * The resolver data *)

(** X1: the data a call of [setResolverData] has stored is what
    [getResolverData] returns, and storing that again, on any instance,
    gives the same instance: the two are a round trip. *)
Theorem resolverData_round_trip (data : tree) (this0 this other : ConfigResolver) :
  setResolverData data this0 = (Ret tt, this) ->
  getResolverData this =
    (let data' := match data with TUndef => TObj [] | _ => data end in
     TObj [("defaultValues", fieldOr data' "defaultValues" (TObj []));
           ("preValidate", fieldOr data' "preValidate" (TObj []));
           ("postValidate", fieldOr data' "postValidate" (TObj []));
           ("upgradeMergeList", fieldOr data' "upgradeMergeList" (TArr []))]) /\
  setResolverData (getResolverData this) other = (Ret tt, this).
Proof.
  intros E. destruct (setResolverData_assigns data this0 this E)
    as (Hd & Hp & Hq & Hu & Td & Tp & Tq).
  cbv zeta in *. split.
  - unfold getResolverData. now rewrite Hd, Hp, Hq, Hu.
  - destruct this as [dv pv qv ul]. simpl in *.
    unfold setResolverData, getResolverData, fieldOr. simpl.
    destruct dv; try discriminate Td; destruct pv; try discriminate Tp;
      destruct qv; try discriminate Tq; reflexivity.
Qed.

Lemma resolverData_round_trip_witness :
  let data := TObj [("defaultValues", TObj [("a", TNum 1)]);
                    ("upgradeMergeList", TArr [TStr "tags"])] in
  let this := mkResolver (TObj [("a", TNum 1)]) (TObj []) (TObj []) [TStr "tags"] in
  getResolverData this =
    TObj [("defaultValues", TObj [("a", TNum 1)]); ("preValidate", TObj []);
          ("postValidate", TObj []); ("upgradeMergeList", TArr [TStr "tags"])] /\
  setResolverData (getResolverData this) Example.plain = (Ret tt, this).
Proof.
  intros data this.
  apply (resolverData_round_trip data Example.plain this Example.plain). reflexivity.
Defined.

(** X2: [setResolverData] reads the four keys of its argument and no other:
    a further key, such as the [allowExtends] of the repository's test,
    changes nothing of what the call does. *)
Theorem setResolverData_reads_four_keys (k : string) (v : tree)
    (p : list (string * tree)) (this : ConfigResolver) :
  k <> "defaultValues" -> k <> "preValidate" -> k <> "postValidate" ->
  k <> "upgradeMergeList" ->
  setResolverData (TObj ((k, v) :: p)) this = setResolverData (TObj p) this.
Proof.
  intros H1 H2 H3 H4.
  assert (F : forall n d, n <> k -> fieldOr (TObj ((k, v) :: p)) n d = fieldOr (TObj p) n d).
  { intros n d Hn. unfold fieldOr. simpl.
    destruct (String.eqb n k) eqn:E; [apply String.eqb_eq in E; congruence | reflexivity]. }
  unfold setResolverData. rewrite !F by congruence. reflexivity.
Qed.

Lemma setResolverData_reads_four_keys_witness :
  setResolverData (TObj [("allowExtends", TBool false)]) Example.plain
  = setResolverData (TObj []) Example.plain.
Proof.
  apply (setResolverData_reads_four_keys "allowExtends" (TBool false) [] Example.plain);
    discriminate.
Defined.

(** X3: [null] passes the [typeof] check of [setResolverData], and a
    component stored as [null] turns its step off: no default is set, the
    validator is not called. *)
Theorem null_component_turns_step_off (p : list (string * tree))
    (this this' : ConfigResolver) :
  setResolverData (TObj p) this = (Ret tt, this') ->
  (assoc_get "defaultValues" p = Some TNull ->
   forall c h, setDefaultValues this' c h = (Ret tt, h)) /\
  (assoc_get "preValidate" p = Some TNull ->
   forall env c n h, preValidate env this' c n h = (Ret tt, h)) /\
  (assoc_get "postValidate" p = Some TNull ->
   forall env c n h, postValidate env this' c n h = (Ret tt, h)).
Proof.
  intros E. destruct (setResolverData_assigns _ _ _ E) as (Hd & Hp & Hq & _).
  cbv zeta in *. unfold fieldOr in *. repeat split.
  - intros H c h. rewrite H in Hd. unfold setDefaultValues. now rewrite Hd.
  - intros H env c n h. rewrite H in Hp. unfold preValidate. now rewrite Hp.
  - intros H env c n h. rewrite H in Hq. unfold postValidate. now rewrite Hq.
Qed.

Lemma null_component_turns_step_off_witness :
  let p := [("defaultValues", TNull); ("preValidate", TNull); ("postValidate", TNull)] in
  let this' := mkResolver TNull TNull TNull [] in
  setResolverData (TObj p) Example.plain = (Ret tt, this') /\
  (forall c h, setDefaultValues this' c h = (Ret tt, h)) /\
  (forall env c n h, preValidate env this' c n h = (Ret tt, h)) /\
  (forall env c n h, postValidate env this' c n h = (Ret tt, h)).
Proof.
  intros p this'. split; [reflexivity |].
  destruct (null_component_turns_step_off p Example.plain this' eq_refl) as (A & B & C).
  split; [exact (A eq_refl) |]. split; [exact (B eq_refl) | exact (C eq_refl)].
Defined.

(** * [resolve] and the caller's data *)

(** The objects below [n] are as they were. *)
Definition kept_below (n : nat) (h h' : heap) : Prop :=
  forall i, i < n -> h' !! i = h !! i.

Lemma kept_below_refl n h : kept_below n h h.
Proof. intros i _. reflexivity. Qed.

Lemma kept_below_trans n h1 h2 h3 :
  kept_below n h1 h2 -> kept_below n h2 h3 -> kept_below n h1 h3.
Proof. intros H1 H2 i Hi. now rewrite (H2 i Hi), (H1 i Hi). Qed.

Lemma kept_below_app n h hx : n <= length h -> kept_below n h (h ++ hx).
Proof. intros Hn i Hi. apply lookup_app_l. lia. Qed.

Lemma kept_below_setKey n l k x h :
  n <= l ->
  post (setKey (VRef l) k x) h
    (fun _ h' => kept_below n h h' /\ length h' = length h) (kept_below n h).
Proof.
  intros Hn. unfold post, setKey, bind, readObj.
  destruct (h !! l) as [[a | p] |] eqn:Hl; cbv beta iota; try apply kept_below_refl.
  - remember (index_of_key k (S (length a))) as ix. destruct ix as [i |];
      [| apply kept_below_refl].
    unfold writeObj. rewrite Hl. split; [| apply length_insert].
    intros j Hj. apply list_lookup_insert_ne. lia.
  - unfold writeObj. rewrite Hl. split; [| apply length_insert].
    intros j Hj. apply list_lookup_insert_ne. lia.
Qed.

Lemma kept_below_setDefaultValues this n l h :
  n <= l -> n <= length h ->
  post (setDefaultValues this (VRef l)) h
    (fun _ h' => kept_below n h h' /\ length h <= length h') (kept_below n h).
Proof.
  intros Hn Hlen. unfold setDefaultValues.
  assert (Z : kept_below n h h /\ length h <= length h) by (split; [apply kept_below_refl | lia]).
  destruct (tree_truthy _); [| exact Z].
  unfold safeSetAllUndefined.
  destruct (_defaultValues this) as [| | b | z | s | a | defaults]; try exact Z.
  apply (post_forEach _ _ (fun h' => kept_below n h h' /\ length h <= length h')
           (fun h' => kept_below n h h')); [exact Z |].
  intros [k t] h1 _ [K1 L1]. simpl fst. simpl snd.
  apply post_bind_read; [apply readonly_getKey | exact K1 | intros cur Hcur].
  destruct (String.eqb (typeof cur) "undefined");
    [| apply post_ret; split; assumption].
  destruct (alloc_tree_grows t h1) as (v & hx & E & _).
  eapply post_run; [exact E |].
  assert (K : kept_below n h (h1 ++ hx)).
  { eapply kept_below_trans; [exact K1 | apply kept_below_app; lia]. }
  eapply post_mono; [apply (kept_below_setKey n l k v (h1 ++ hx) Hn) | cbv beta |].
  - intros _ h2 [K2 L2]. split.
    + eapply kept_below_trans; [exact K | exact K2].
    + rewrite L2, length_app. lia.
  - intros h2 K2. eapply kept_below_trans; [exact K | exact K2].
Qed.

Lemma allocAll_grows l :
  forall h, exists vs hx, allocAll alloc_tree l h = (Ret vs, h ++ hx).
Proof.
  induction l as [| x r IH]; intros h.
  - exists [], []. now rewrite app_nil_r.
  - destruct (alloc_tree_grows x h) as (v & hx & E & _).
    destruct (IH (h ++ hx)) as (vs & hy & E').
    exists (v :: vs), (hx ++ hy). simpl. unfold bind. simpl in E'. rewrite E, E'.
    now rewrite app_assoc.
Qed.

(** An array or a mapping of plain data is allocated as one new object,
    behind whatever its parts need. *)
Lemma alloc_tree_struct t h :
  (exists l, t = TArr l) \/ (exists p, t = TObj p) ->
  exists hx o, alloc_tree t h = (Ret (VRef (length (h ++ hx))), (h ++ hx) ++ [o]).
Proof.
  intros [[l ->] | [p ->]].
  - destruct (allocAll_grows l h) as (vs & hx & E). exists hx, (OArr vs).
    simpl. unfold bind. now rewrite E.
  - destruct (alloc_tree_obj p h) as (ps & hx & E & _). now exists hx, (OObj ps).
Qed.

Lemma read_tree_ref fuel h l t :
  read_tree fuel h (VRef l) = Some t ->
  (exists a, json_of t = TArr a) \/ (exists p, json_of t = TObj p).
Proof.
  destruct fuel as [| fuel]; [discriminate |]. simpl.
  destruct (h !! l) as [[a | p] |]; [| | discriminate].
  - destruct (fold_right _ _ a); [| discriminate]. intros [= <-]. left. simpl. eauto.
  - destruct (fold_right _ _ p); [| discriminate]. intros [= <-]. right. simpl. eauto.
Qed.

Section Untouched.

Variable env : Env.
Variable this : ConfigResolver.
Variable depth : nat.

(** What [resolve] promises below: the objects of [h] are as they were, and
    the result is an object that [h] did not hold. *)
Definition fresh_result (h : heap) (v : val) (h' : heap) : Prop :=
  kept_below (length h) h h' /\ exists l, v = VRef l /\ length h <= l < length h'.

Lemma jsonCopy_fresh l h :
  post (jsonCopy depth (VRef l)) h (fresh_result h) (kept_below (length h) h).
Proof.
  unfold post, jsonCopy, bind, get.
  destruct (read_tree depth h (VRef l)) as [t |] eqn:Et; [| apply kept_below_refl].
  destruct (alloc_tree_struct (json_of t) h (read_tree_ref _ _ _ _ Et)) as (hx & o & ->).
  split.
  - rewrite <- app_assoc. now apply kept_below_app.
  - exists (length (h ++ hx)). rewrite !length_app. simpl. split; [reflexivity | lia].
Qed.

Lemma readonly_preValidate c n : readonly (preValidate env this c n).
Proof.
  intros h. unfold preValidate. destruct (tree_truthy _); [| reflexivity].
  now destruct (validate env h c (_preValidate this) n).
Qed.

Lemma readonly_postValidate c n : readonly (postValidate env this c n).
Proof.
  intros h. unfold postValidate. destruct (tree_truthy _); [| reflexivity].
  now destruct (validate env h c (_postValidate this) n).
Qed.

Lemma resolve_fresh fuel l e h :
  getKey (VRef l) "extends" h = (Ret e, h) -> truthy e = false ->
  post (resolve env this depth fuel (VRef l)) h (fresh_result h) (kept_below (length h) h).
Proof.
  intros He Hf. unfold resolve, resolveGuard. simpl negb. cbv iota.
  apply post_bind_read; [apply readonly_ret | apply kept_below_refl | intros _ _].
  apply post_bind_read; [apply readonly_preValidate | apply kept_below_refl | intros _ _].
  apply post_seq with (R := fresh_result h).
  - unfold _resolveExtends. eapply post_run; [exact He |]. rewrite Hf. simpl negb. cbv iota.
    apply jsonCopy_fresh.
  - intros v h1 F. destruct F as [K1 (r & -> & Hr)].
    apply post_seq with (R := fun _ h2 => kept_below (length h) h h2 /\ length h1 <= length h2).
    + eapply post_mono;
        [apply (kept_below_setDefaultValues this (length h) r h1); lia | |].
      * intros _ h2 [K2 L2]. split; [now apply kept_below_trans with h1 | exact L2].
      * intros h2 K2. now apply kept_below_trans with h1.
    + intros _ h2 [K2 L2].
      apply post_bind_read; [apply readonly_postValidate | exact K2 | intros _ _].
      apply post_ret. split; [exact K2 |]. exists r. split; [reflexivity | lia].
Qed.

(** X4: on a configuration without [extends] (the key absent or falsy),
    [resolve] gives a new object and leaves every object of the caller as
    it was, the configuration included, whatever the outcome. *)
Theorem resolve_without_extends_keeps_store fuel config e h r h' :
  getKey config "extends" h = (Ret e, h) -> truthy e = false ->
  resolve env this depth fuel config h = (r, h') ->
  (forall l o, h !! l = Some o -> h' !! l = Some o) /\
  (forall v, r = Ret v -> exists l, v = VRef l /\ h !! l = None /\ is_Some (h' !! l)).
Proof.
  intros He Hf Hr.
  assert (Hc : (exists l, config = VRef l) \/ (r, h') = (Throw (mkError TypeError "'config' is not an 'object'."), h)).
  { destruct config; try discriminate He; try (right; rewrite <- Hr; reflexivity).
    left. eauto. }
  destruct Hc as [[l ->] | [= -> ->]]; [| split; [auto | discriminate]].
  pose proof (resolve_fresh fuel l e h He Hf) as P.
  unfold post in P. rewrite Hr in P.
  assert (K : kept_below (length h) h h') by (destruct r; [apply P | exact P | exact P]).
  split.
  - intros i o Hi. rewrite (K i); [exact Hi |]. now apply lookup_lt_Some in Hi.
  - intros v ->. destruct P as [_ (rl & -> & Hlo & Hhi)]. exists rl.
    split; [reflexivity |]. split; [apply lookup_ge_None; lia | now apply lookup_lt_is_Some].
Qed.
End Untouched.

Lemma resolve_without_extends_keeps_store_witness :
  let this := mkResolver (TObj [("b", TNum 2)]) (TObj []) (TObj []) [] in
  let h := [OObj [("a", VNum 1)]] in
  let out := resolve (Example.host []) this 5 1 (VRef 0) h in
  out = (Ret (VRef 1), [OObj [("a", VNum 1)]; OObj [("a", VNum 1); ("b", VNum 2)]]) /\
  (forall l o, h !! l = Some o -> snd out !! l = Some o) /\
  (forall v, fst out = Ret v ->
     exists l, v = VRef l /\ h !! l = None /\ is_Some (snd out !! l)).
Proof.
  intros this h out. split; [reflexivity |].
  apply (resolve_without_extends_keeps_store (Example.host []) this 5 1 (VRef 0) VUndef h
           (fst out) (snd out)); reflexivity.
Defined.

Lemma bind_run {S A B} (m : M S A) (f : A -> M S B) s a s' :
  m s = (Ret a, s') -> bind m f s = f a s'.
Proof. unfold bind. now intros ->. Qed.

Section EmptyExtends.

Variable env : Env.
Variable this : ConfigResolver.
Variable depth : nat.

(** X5: with an empty [extends] array nothing is loaded and nothing is
    copied: [_resolveExtends] hands back the caller's own object, whose
    [plugins] array it has reversed in place, and so does [resolve] when it
    returns. *)
Theorem empty_extends_returns_the_input fuel c e cp h :
  h !! c = Some (OObj cp) ->
  assoc_get "extends" cp = Some (VRef e) ->
  h !! e = Some (OArr []) ->
  _resolveExtends env this depth fuel (VRef c) h =
    (Ret (VRef c),
     match assoc_get "plugins" cp with
     | Some (VRef pl) =>
         match h !! pl with
         | Some (OArr a) => <[pl := OArr (rev a)]> h
         | _ => h
         end
     | _ => h
     end) /\
  forall v h', resolve env this depth fuel (VRef c) h = (Ret v, h') -> v = VRef c.
Proof.
  intros Hc He Ha.
  assert (R : _resolveExtends env this depth fuel (VRef c) h =
    (Ret (VRef c),
     match assoc_get "plugins" cp with
     | Some (VRef pl) =>
         match h !! pl with
         | Some (OArr a) => <[pl := OArr (rev a)]> h
         | _ => h
         end
     | _ => h
     end)).
  { assert (W : _applyExtends env this depth fuel (VRef c) (cwd env) (Some (cwd env))
                 (Some (fun c => preValidate env this c "config")) (h, [])
               = (Ret (VRef c), (h, []))).
    { unfold _applyExtends, applyExtendsWith.
      erewrite bind_run; [| unfold liftH; simpl fst; rewrite (getKey_obj _ _ _ _ Hc), He;
                            reflexivity].
      erewrite bind_run; [| unfold liftH, isArrayM, isArray; simpl; rewrite Ha;
                            reflexivity].
      cbv iota.
      erewrite bind_run; [| unfold liftH; simpl fst;
                            change (default VUndef (Some (VRef e))) with (VRef e);
                            rewrite (arrayElems_arr _ _ _ _ Ha); reflexivity].
      reflexivity. }
    unfold _resolveExtends.
    erewrite bind_run; [| rewrite (getKey_obj _ _ _ _ Hc), He; reflexivity].
    change (default VUndef (Some (VRef e))) with (VRef e).
    change (negb (truthy (VRef e))) with false. cbv iota.
    erewrite bind_run; [| rewrite W; reflexivity].
    simpl fst. simpl snd. simpl length. simpl Nat.ltb. cbv iota.
    erewrite bind_run; [| reflexivity].
    erewrite bind_run; [| apply (getKey_obj _ _ _ _ Hc)].
    unfold isArrayM. erewrite bind_run; [| reflexivity].
    destruct (assoc_get "plugins" cp) as [[| | | | | pl] |]; try reflexivity.
    change (default VUndef (Some (VRef pl))) with (VRef pl). unfold isArray.
    destruct (h !! pl) as [[a | p] |] eqn:Hp; try reflexivity.
    erewrite bind_run; [reflexivity |].
    unfold reverse. erewrite bind_run; [| apply (arrayElems_arr _ _ _ _ Hp)].
    apply (setElems_arr _ _ _ _ Hp). }
  split; [exact R |]. intros v h' Hr.
  unfold resolve, resolveGuard in Hr. simpl negb in Hr. cbv iota in Hr.
  unfold bind at 1 in Hr. simpl in Hr. unfold bind at 1 in Hr.
  destruct (preValidate env this (VRef c) "config" h) as [[[] | x |] h1] eqn:E1;
    try discriminate Hr.
  assert (h1 = h) by (pose proof (readonly_preValidate env this (VRef c) "config" h) as Q;
                      now rewrite E1 in Q).
  subst h1. unfold bind at 1 in Hr. rewrite R in Hr. unfold bind at 1 in Hr.
  destruct (setDefaultValues this (VRef c) _) as [[[] | x |] h2]; try discriminate Hr.
  unfold bind at 1 in Hr.
  destruct (postValidate env this (VRef c) "config" h2) as [[[] | x |] h3]; try discriminate Hr.
  now injection Hr as <- _.
Qed.

End EmptyExtends.

Lemma empty_extends_returns_the_input_witness :
  let h := [OObj [("extends", VRef 1); ("plugins", VRef 2)]; OArr [];
            OArr [VStr "a"; VStr "b"]] in
  _resolveExtends (Example.host []) Example.plain 5 1 (VRef 0) h =
    (Ret (VRef 0),
     [OObj [("extends", VRef 1); ("plugins", VRef 2)]; OArr [];
      OArr [VStr "b"; VStr "a"]]) /\
  forall v h', resolve (Example.host []) Example.plain 5 1 (VRef 0) h = (Ret v, h') ->
    v = VRef 0.
Proof.
  intros h.
  apply (empty_extends_returns_the_input (Example.host []) Example.plain 5 1 0 1
           [("extends", VRef 1); ("plugins", VRef 2)] h); reflexivity.
Defined.

(** * The merge on plain data *)

(** A value of finite nesting reads back as plain data. *)
Lemma rk_read this h d v : rk this [] h d v = true -> is_Some (read_tree d h v).
Proof.
  revert v. induction d as [| d IH]; intros v H.
  - destruct v; try (eexists; reflexivity). discriminate H.
  - destruct v as [| | | | | l]; try (eexists; reflexivity).
    destruct (rk_ref_inv _ _ _ _ _ H) as (d0 & o & [= <-] & _ & Hl & Ho).
    simpl. rewrite Hl. destruct o as [a | p]; simpl in Ho.
    + assert (G : is_Some (fold_right (fun x acc =>
                   match read_tree d h x, acc with
                   | Some t, Some ts => Some (t :: ts)
                   | _, _ => None
                   end) (Some []) a)).
      { clear Hl H. induction a as [| x r IHr]; [eexists; reflexivity |]. simpl in Ho |- *.
        apply andb_true_iff in Ho. destruct Ho as [Hx Hr].
        destruct (IH x Hx) as [tx ->]. destruct (IHr Hr) as [ts ->]. eexists; reflexivity. }
      destruct G as [ts ->]. eexists; reflexivity.
    + assert (G : is_Some (fold_right (fun kx acc =>
                   match read_tree d h (snd kx), acc with
                   | Some t, Some ts => Some ((fst kx, t) :: ts)
                   | _, _ => None
                   end) (Some []) p)).
      { clear Hl H. induction p as [| x r IHr]; [eexists; reflexivity |]. simpl in Ho |- *.
        apply andb_true_iff in Ho. destruct Ho as [Hx Hr].
        destruct (IH _ (entry_rank_value _ _ _ _ _ Hx)) as [tx ->].
        destruct (IHr Hr) as [ts ->]. eexists; reflexivity. }
      destruct G as [ts ->]. eexists; reflexivity.
Qed.

(** X6: the merge of two values given as plain data ends, whatever the
    upgrade-merge list and the flags, once the recursion may go four levels
    deeper than [src] is nested; and what it returns is plain data again, no
    structure that refers to itself. *)
Theorem merge_of_plain_data_ends (this : ConfigResolver) (t s : tree) (c : bool)
    (pk : option string) (fuel : nat) (h : heap) :
  trank s + 4 <= fuel ->
  match (tv <- alloc_tree t ;; sv <- alloc_tree s ;; _deepMerge this fuel tv sv c pk) h with
  | (Ret v, h') => is_Some (read_tree (3 * trank s + trank t + 3) h' v)
  | (Throw _, _) => True
  | (Abort, _) => False
  end.
Proof.
  intros Hf.
  destruct (alloc_tree_grows t h) as (tv & hx & Et & _).
  destruct (alloc_tree_rank this t _ _ _ Et) as [_ Rt].
  destruct (alloc_tree_grows s (h ++ hx)) as (sv & hy & Es & _).
  destruct (alloc_tree_rank this s _ _ _ Es) as [_ Rs].
  rewrite (bind_run _ _ _ _ _ Et), (bind_run _ _ _ _ _ Es).
  apply (keepsX_app this [] (h ++ hx) hy) in Rt.
  pose proof (deepMerge_terminates this fuel tv sv c pk _ _ _ Rs Rt Hf) as T.
  unfold runs in T. destruct (_deepMerge _ _ _ _ _ _ _) as [[v | e |] h']; auto.
  destruct T as [_ R]. apply (rk_read this). exact R.
Qed.

Lemma merge_of_plain_data_ends_witness :
  let this := Example.upgrading ["files"] in
  let t := TObj [("files", TStr "a"); ("o", TObj [("x", TNum 1)])] in
  let s := TObj [("files", TStr "b"); ("o", TObj [("y", TNum 2)])] in
  match (tv <- alloc_tree t ;; sv <- alloc_tree s ;; _deepMerge this 8 tv sv false None) [] with
  | (Ret v, h') => is_Some (read_tree (3 * trank s + trank t + 3) h' v)
  | (Throw _, _) => True
  | (Abort, _) => False
  end.
Proof.
  intros this t s. apply (merge_of_plain_data_ends this t s false None 8 []). simpl. lia.
Defined.

Section MergeKeys.

Variable this : ConfigResolver.



End MergeKeys.


(** * The merge of arrays *)

(** A boolean, a number or a string. *)
Definition primitive (v : val) : bool :=
  match v with
  | VBool _ | VNum _ | VStr _ => true
  | _ => false
  end.

(** The elements of [[].concat(v)]. *)
Definition concatOf (h : heap) (v : val) : list val :=
  match v with
  | VRef l => match h !! l with Some (OArr a) => a | _ => [v] end
  | _ => [v]
  end.

Lemma concatInto_eq h v :
  concatInto v h = (Ret (VRef (length h)), h ++ [OArr (concatOf h v)]).
Proof.
  unfold concatInto, bind, isArrayM, isArray, concatOf.
  destruct v as [| | | | | l]; try reflexivity.
  destruct (h !! l) as [[a | p] |] eqn:Hl; try reflexivity.
  now rewrite (arrayElems_arr _ _ _ _ Hl).
Qed.

Lemma forEach_fixed {S A} (f : A -> M S unit) (l : list A) (s : S) :
  (forall x, In x l -> f x s = (Ret tt, s)) -> forEach f l s = (Ret tt, s).
Proof.
  induction l as [| x r IH]; intros H; [reflexivity |]. simpl.
  rewrite (bind_run _ _ _ _ _ (H x (or_introl eq_refl))). apply IH.
  intros y Hy. apply H. now right.
Qed.

Lemma existsb_val_eqb_In x a : In x a -> existsb (val_eqb x) a = true.
Proof.
  intros H. apply existsb_exists. exists x. split; [exact H |].
  destruct x; simpl; auto using Z.eqb_refl, String.eqb_refl, Nat.eqb_refl.
  now destruct b.
Qed.

Lemma primitive_typeof e :
  primitive e = true ->
  String.eqb (typeof e) "undefined" = false /\ String.eqb (typeof e) "object" = false.
Proof. destruct e; try discriminate; split; reflexivity. Qed.

Lemma mergeArray_falsy rec t s c pk h :
  truthy t = false ->
  mergeArray rec t s c pk h = mergeArray rec (VRef (length h)) s c pk (h ++ [OArr []]).
Proof. intros Ht. unfold mergeArray. unfold bind at 1 3. now rewrite Ht. Qed.

(** What the loop over the one position of a one-element [src] makes of
    [dst]. *)
Definition mergeSingle (combine : bool) (dst : list val) (e : val) : list val :=
  match dst with
  | [] => [e]
  | x :: r =>
      if String.eqb (typeof x) "undefined" then e :: r
      else if combine then (if existsb (val_eqb e) dst then dst else dst ++ [e])
      else e :: r
  end.

Lemma mergeElement_single rec dl sl tgt a0 e c pk h :
  primitive e = true ->
  h !! dl = Some (OArr a0) -> h !! sl = Some (OArr [e]) ->
  exists h',
    mergeElement rec (VRef dl) tgt (VRef sl) c pk 0 h = (Ret tt, h') /\
    h' !! dl = Some (OArr (mergeSingle c a0 e)) /\
    forall l, l <> dl -> h' !! l = h !! l.
Proof.
  intros He Hd Hs. destruct (primitive_typeof e He) as [Hu Ho].
  assert (Hlt : dl < length h) by (eapply lookup_lt_Some; eauto).
  assert (W : forall a, exists h', (Ret tt, <[dl := OArr a]> h) = (Ret tt, h') /\
                h' !! dl = Some (OArr a) /\ forall l, l <> dl -> h' !! l = h !! l).
  { intros a. eexists. split; [reflexivity |].
    split; [now apply list_lookup_insert_eq |].
    intros l Hl. apply list_lookup_insert_ne. congruence. }
  unfold mergeElement.
  rewrite (bind_run _ _ _ _ _ (getIdx_arr _ _ _ 0 Hs)).
  rewrite (bind_run _ _ _ _ _ (getIdx_arr _ _ _ 0 Hd)).
  change (default VUndef ([e] !! 0)) with e.
  destruct a0 as [| x r].
  - change (default VUndef ([] !! 0)) with VUndef.
    change (String.eqb (typeof VUndef) "undefined") with true. cbv iota.
    rewrite (setIdx_arr _ _ _ _ _ Hd). apply (W [e]).
  - change (default VUndef ((x :: r) !! 0)) with x. unfold mergeSingle.
    destruct (String.eqb (typeof x) "undefined").
    + rewrite (setIdx_arr _ _ _ _ _ Hd). apply (W (e :: r)).
    + rewrite Ho. destruct c; cbn [negb]; cbv iota.
      * rewrite (bind_run _ _ _ _ _ (notIn_arr _ _ _ e Hd)).
        destruct (existsb (val_eqb e) (x :: r)); cbn [negb]; cbv iota.
        -- exists h. split; [reflexivity |]. split; [exact Hd | reflexivity].
        -- rewrite (push_arr _ _ _ _ Hd). apply (W ((x :: r) ++ [e])).
      * rewrite (setIdx_arr _ _ _ _ _ Hd). apply (W (e :: r)).
Qed.

Lemma lookup_new {A} (h : list A) (o : A) : (h ++ [o]) !! length h = Some o.
Proof. rewrite lookup_app_r by lia. now rewrite Nat.sub_diag. Qed.

Lemma lookup_old {A} (h hx : list A) l o : h !! l = Some o -> (h ++ hx) !! l = Some o.
Proof. intros H. rewrite lookup_app_l; [exact H | eapply lookup_lt_Some; eauto]. Qed.

Lemma mergeArray_single rec t s e c pk h :
  primitive e = true -> isPlugins pk = false -> truthy t = true ->
  (s = e /\ isArray h t = true) \/ (exists sl, s = VRef sl /\ h !! sl = Some (OArr [e])) ->
  exists h',
    mergeArray rec t s c pk h = (Ret (VRef (length h)), h') /\
    h' !! length h = Some (OArr (mergeSingle c (concatOf h t) e)) /\
    forall l o, h !! l = Some o -> h' !! l = Some o.
Proof.
  intros He Hpk Ht Hs. destruct (primitive_typeof e He) as [_ Ho].
  unfold mergeArray. rewrite Ht.
  rewrite (bind_run (ret t) _ h _ _ eq_refl).
  rewrite (bind_run (isArrayM s) _ h _ _ eq_refl).
  assert (Hn : exists n, (if isArray h s
                          then l <- arrayElems s "length" ;; ret (length l)
                          else ret 0) h = (Ret n, h) /\ n <= 1).
  { destruct Hs as [[-> _] | (sl & -> & Hsl)].
    - exists 0. destruct e; try discriminate He; split; (reflexivity || lia).
    - exists 1. unfold isArray. rewrite Hsl. rewrite (bind_run _ _ _ _ _ (arrayElems_arr _ _ _ _ Hsl)).
      split; [reflexivity | lia]. }
  destruct Hn as (n & En & Hn1). rewrite (bind_run _ _ _ _ _ En).
  replace (Nat.ltb 1 n) with false by (symmetry; apply Nat.ltb_ge; lia).
  rewrite andb_false_r.
  rewrite (bind_run _ _ _ _ _ (concatInto_eq h t)).
  set (dl := length h). set (h1 := h ++ [OArr (concatOf h t)]).
  assert (Hd1 : h1 !! dl = Some (OArr (concatOf h t))) by apply lookup_new.
  rewrite (bind_run (isArrayM s) _ h1 _ _ eq_refl).
  assert (Hsrc : exists sl h2,
            (if negb (String.eqb (typeof s) "object") && negb (isArray h1 s)
             then alloc (OArr [s]) else ret s) h1 = (Ret (VRef sl), h2) /\
            h2 !! sl = Some (OArr [e]) /\ h2 !! dl = Some (OArr (concatOf h t)) /\
            sl <> dl /\ forall l o, h !! l = Some o -> h2 !! l = Some o).
  { destruct Hs as [[-> _] | (sl & -> & Hsl)].
    - exists (length h1), (h1 ++ [OArr [e]]). rewrite Ho.
      replace (isArray h1 e) with false by (destruct e; try discriminate He; reflexivity).
      split; [reflexivity |]. split; [apply lookup_new |].
      split; [now apply lookup_old |].
      split; [unfold h1, dl; rewrite length_app; simpl; lia |].
      intros l o Hl. now do 2 apply lookup_old.
    - exists sl, h1. split; [reflexivity |]. split; [now apply lookup_old |].
      split; [exact Hd1 |]. split; [apply lookup_lt_Some in Hsl; unfold dl; lia |].
      intros l o Hl. now apply lookup_old. }
  destruct Hsrc as (sl & h2 & Esrc & Hs2 & Hd2 & Hne & Hold).
  rewrite (bind_run _ _ _ _ _ Esrc).
  rewrite (bind_run (isArrayM t) _ h2 _ _ eq_refl). rewrite Hpk. cbn [andb].
  rewrite (bind_run (ret tt) _ h2 _ _ eq_refl).
  assert (Ek : objectKeys (VRef sl) h2 = (Ret (map string_of_nat (seq 0 1)), h2)).
  { unfold objectKeys, bind, readObj. now rewrite Hs2. }
  rewrite (bind_run _ _ _ _ _ Ek).
  change (length (map string_of_nat (seq 0 1))) with 1.
  destruct (mergeElement_single rec dl sl t (concatOf h t) e c pk h2 He Hd2 Hs2)
    as (h3 & E3 & Hd3 & Hrest).
  assert (EF : forEach (mergeElement rec (VRef dl) t (VRef sl) c pk) (seq 0 1) h2
               = (Ret tt, h3)).
  { cbn [seq forEach]. now rewrite (bind_run _ _ _ _ _ E3). }
  rewrite (bind_run _ _ _ _ _ EF).
  exists h3. split; [reflexivity |]. split; [exact Hd3 |].
  intros l o Hl. rewrite Hrest; [now apply Hold |].
  apply lookup_lt_Some in Hl. unfold dl. lia.
Qed.

Lemma mergeArray_many rec t sl sa c pk h :
  truthy t = true -> isPlugins pk = false ->
  h !! sl = Some (OArr sa) -> 2 <= length sa -> forallb primitive sa = true ->
  mergeArray rec t (VRef sl) c pk h = (Ret (VRef (length h)), h ++ [OArr sa]).
Proof.
  intros Ht Hpk Hs Hlen Hprim.
  unfold mergeArray. rewrite Ht.
  rewrite (bind_run (ret t) _ h _ _ eq_refl).
  assert (Ha : isArray h (VRef sl) = true) by (unfold isArray; now rewrite Hs).
  rewrite (bind_run (isArrayM (VRef sl)) _ h _ _ eq_refl), Ha.
  rewrite (bind_run _ _ _ (length sa) h).
  2: { now rewrite (bind_run _ _ _ _ _ (arrayElems_arr _ _ _ _ Hs)). }
  replace (Nat.ltb 1 (length sa)) with true by (symmetry; apply Nat.ltb_lt; lia).
  cbn [andb]. rewrite (bind_run _ _ _ _ _ (concatInto_eq h (VRef sl))).
  unfold concatOf. rewrite Hs.
  set (dl := length h). set (h1 := h ++ [OArr sa]).
  assert (Hd1 : h1 !! dl = Some (OArr sa)) by apply lookup_new.
  assert (Hs1 : h1 !! sl = Some (OArr sa)) by now apply lookup_old.
  assert (Ha1 : isArray h1 (VRef sl) = true) by (unfold isArray; now rewrite Hs1).
  rewrite (bind_run (isArrayM (VRef sl)) _ h1 _ _ eq_refl), Ha1.
  cbn [typeof String.eqb negb andb]. 
  rewrite (bind_run (ret (VRef sl)) _ h1 _ _ eq_refl).
  rewrite (bind_run (isArrayM t) _ h1 _ _ eq_refl). rewrite Hpk. cbn [andb].
  rewrite (bind_run (ret tt) _ h1 _ _ eq_refl).
  assert (Ek : objectKeys (VRef sl) h1
               = (Ret (map string_of_nat (seq 0 (length sa))), h1)).
  { unfold objectKeys, bind, readObj. now rewrite Hs1. }
  rewrite (bind_run _ _ _ _ _ Ek). rewrite length_map, length_seq.
  rewrite (bind_run _ _ _ tt h1); [reflexivity |].
  apply forEach_fixed. intros i Hi. apply in_seq in Hi.
  destruct (lookup_lt_is_Some_2 sa i ltac:(lia)) as [x Hx].
  assert (Hp : primitive x = true).
  { apply forallb_iff_Forall in Hprim. rewrite Forall_forall in Hprim.
    apply Hprim. eapply list_elem_of_lookup_2; eauto. }
  destruct (primitive_typeof x Hp) as [Hu Ho].
  unfold mergeElement.
  rewrite (bind_run _ _ _ _ _ (getIdx_arr _ _ _ i Hs1)).
  rewrite (bind_run _ _ _ _ _ (getIdx_arr _ _ _ i Hd1)).
  rewrite Hx. change (default VUndef (Some x)) with x. rewrite Hu, Ho.
  destruct c; cbn [negb].
  - rewrite (bind_run _ _ _ _ _ (notIn_arr _ _ _ x Hd1)).
    rewrite existsb_val_eqb_In; [reflexivity |].
    apply list_elem_of_In. eapply list_elem_of_lookup_2; eauto.
  - rewrite (setIdx_arr _ _ _ _ _ Hd1). unfold arr_set.
    replace (Nat.ltb i (length sa)) with true by (symmetry; apply Nat.ltb_lt; lia).
    rewrite (list_insert_id _ _ _ Hx). now rewrite (list_insert_id _ _ _ Hd1).
Qed.

(** X8: an array [src] of two or more booleans, numbers and strings takes
    the place of [target] as a whole, also under a key of the upgrade-merge
    list ([combine]): outside the plugin case the result is a new array with
    the elements of [src] and nothing of [target]. *)
Theorem array_of_many_replaces_target (this : ConfigResolver) fuel t sl sa c pk h :
  h !! sl = Some (OArr sa) -> 2 <= length sa -> forallb primitive sa = true ->
  isPlugins pk = false ->
  exists dl h',
    _deepMerge this (S fuel) t (VRef sl) c pk h = (Ret (VRef dl), h') /\
    h !! dl = None /\ h' !! dl = Some (OArr sa) /\
    forall l o, h !! l = Some o -> h' !! l = Some o.
Proof.
  intros Hs Hlen Hprim Hpk. simpl.
  assert (Ha : isArray h (VRef sl) = true) by (unfold isArray; now rewrite Hs).
  rewrite (bind_run (isArrayM (VRef sl)) _ h _ _ eq_refl), Ha.
  rewrite (bind_run (isArrayM t) _ h _ _ eq_refl). cbn [orb].
  rewrite (bind_run (alloc (OArr [])) _ h _ _ eq_refl).
  set (h1 := h ++ [OArr []]).
  assert (Hs1 : h1 !! sl = Some (OArr sa)) by now apply lookup_old.
  destruct (truthy t) eqn:Ht.
  - rewrite (mergeArray_many _ t sl sa c pk h1 Ht Hpk Hs1 Hlen Hprim).
    exists (length h1), (h1 ++ [OArr sa]). split; [reflexivity |].
    split; [apply lookup_ge_None; unfold h1; rewrite length_app; simpl; lia |].
    split; [apply lookup_new |]. intros l o Hl. now do 2 apply lookup_old.
  - rewrite (mergeArray_falsy _ t _ c pk h1 Ht).
    set (h2 := h1 ++ [OArr []]).
    assert (Hs2 : h2 !! sl = Some (OArr sa)) by now apply lookup_old.
    rewrite (mergeArray_many _ (VRef (length h1)) sl sa c pk h2 eq_refl Hpk Hs2 Hlen Hprim).
    exists (length h2), (h2 ++ [OArr sa]). split; [reflexivity |].
    split; [apply lookup_ge_None; unfold h2, h1; rewrite !length_app; simpl; lia |].
    split; [apply lookup_new |]. intros l o Hl. now do 3 apply lookup_old.
Qed.

Lemma array_of_many_replaces_target_witness :
  let h := [OArr [VStr "a"; VStr "x"]; OArr [VStr "b"; VStr "c"]] in
  exists dl h',
    _deepMerge (Example.upgrading ["files"]) 1 (VRef 0) (VRef 1) true (Some "files") h
      = (Ret (VRef dl), h') /\
    h !! dl = None /\ h' !! dl = Some (OArr [VStr "b"; VStr "c"]) /\
    forall l o, h !! l = Some o -> h' !! l = Some o.
Proof.
  intros h.
  apply (array_of_many_replaces_target (Example.upgrading ["files"]) 0 (VRef 0) 1
           [VStr "b"; VStr "c"] true (Some "files") h);
    first [reflexivity | simpl; lia].
Defined.

(** The merge of one boolean, number or string into what [target] holds. *)
Lemma deepMerge_single_value (this : ConfigResolver) fuel t s e c pk h :
  primitive e = true -> isPlugins pk = false ->
  (forall l, t = VRef l -> is_Some (h !! l)) ->
  (s = e /\ isArray h t = true) \/ (exists sl, s = VRef sl /\ h !! sl = Some (OArr [e])) ->
  exists dl h',
    _deepMerge this (S fuel) t s c pk h = (Ret (VRef dl), h') /\
    h !! dl = None /\
    h' !! dl = Some (OArr (mergeSingle c (if truthy t then concatOf h t else []) e)) /\
    forall l o, h !! l = Some o -> h' !! l = Some o.
Proof.
  intros He Hpk Hv Hs. simpl.
  rewrite (bind_run (isArrayM s) _ h _ _ eq_refl).
  rewrite (bind_run (isArrayM t) _ h _ _ eq_refl).
  assert (Harr : isArray h s || isArray h t = true).
  { destruct Hs as [[_ ->] | (sl & -> & Hsl)]; [apply orb_true_r |].
    unfold isArray. now rewrite Hsl. }
  rewrite Harr. rewrite (bind_run (alloc (OArr [])) _ h _ _ eq_refl).
  set (h1 := h ++ [OArr []]).
  assert (Hlen1 : length h1 = S (length h)) by (unfold h1; rewrite length_app; simpl; lia).
  assert (Hc1 : concatOf h1 t = concatOf h t).
  { destruct t as [| | | | | l]; try reflexivity. destruct (Hv l eq_refl) as [o Ho].
    unfold concatOf, h1. now rewrite (lookup_old h [OArr []] l o Ho), Ho. }
  assert (Hs1 : (s = e /\ isArray h1 t = true) \/
                (exists sl, s = VRef sl /\ h1 !! sl = Some (OArr [e]))).
  { destruct Hs as [[-> Ht] | (sl & -> & Hsl)].
    - left. split; [reflexivity |]. destruct t as [| | | | | l]; try discriminate Ht.
      destruct (Hv l eq_refl) as [o Ho]. unfold isArray, h1 in *.
      rewrite (lookup_old h [OArr []] l o Ho). now rewrite Ho in Ht.
    - right. exists sl. split; [reflexivity | now apply lookup_old]. }
  destruct (truthy t) eqn:Ht.
  - destruct (mergeArray_single (_deepMerge this fuel) t s e c pk h1 He Hpk Ht Hs1)
      as (h' & E & Hd & Hold).
    exists (length h1), h'. split; [exact E |].
    split; [apply lookup_ge_None; lia |]. split; [now rewrite <- Hc1 |].
    intros l o Hl. apply Hold. now apply lookup_old.
  - rewrite (mergeArray_falsy _ t _ c pk h1 Ht).
    set (h2 := h1 ++ [OArr []]).
    assert (Hs2 : (s = e /\ isArray h2 (VRef (length h1)) = true) \/
                  (exists sl, s = VRef sl /\ h2 !! sl = Some (OArr [e]))).
    { destruct Hs1 as [[_ Hx] | (sl & -> & Hsl)].
      - destruct t; discriminate.
      - right. exists sl. split; [reflexivity | now apply lookup_old]. }
    destruct (mergeArray_single (_deepMerge this fuel) (VRef (length h1)) s e c pk h2
                He Hpk eq_refl Hs2) as (h' & E & Hd & Hold).
    exists (length h2), h'. split; [exact E |].
    split; [apply lookup_ge_None; unfold h2; rewrite length_app; simpl; lia |].
    split.
    + rewrite Hd. unfold concatOf, h2. now rewrite lookup_new.
    + intros l o Hl. apply Hold. now do 2 apply lookup_old.
Qed.



(** * The merge of a flat mapping *)

(** From [h] to [h'] every array is as it was and every mapping is still a
    mapping. *)
Definition grown (h h' : heap) : Prop :=
  (forall l a, h !! l = Some (OArr a) -> h' !! l = Some (OArr a)) /\
  (forall l p, h !! l = Some (OObj p) -> exists p', h' !! l = Some (OObj p')).

Lemma grown_refl h : grown h h.
Proof. split; eauto. Qed.

Lemma grown_trans h1 h2 h3 : grown h1 h2 -> grown h2 h3 -> grown h1 h3.
Proof.
  intros [A1 O1] [A2 O2]. split; [auto |].
  intros l p Hl. destruct (O1 l p Hl) as [p' Hp']. eauto.
Qed.

Lemma grown_of_kept h h' : (forall l o, h !! l = Some o -> h' !! l = Some o) -> grown h h'.
Proof. intros H. split; eauto. Qed.

Lemma grown_app h hx : grown h (h ++ hx).
Proof. apply grown_of_kept. intros l o. apply lookup_old. Qed.

Lemma grown_set h l p p' : h !! l = Some (OObj p) -> grown h (<[l := OObj p']> h).
Proof.
  intros Hl. pose proof (lookup_lt_Some _ _ _ Hl) as Hlt. split.
  - intros l0 a H0. rewrite list_lookup_insert_ne; [exact H0 | congruence].
  - intros l0 p0 H0. destruct (decide (l = l0)) as [<- | Hne].
    + exists p'. now apply list_lookup_insert_eq.
    + exists p0. now rewrite list_lookup_insert_ne.
Qed.

Lemma grown_valid h h' v :
  grown h h' -> (forall l, v = VRef l -> is_Some (h !! l)) ->
  forall l, v = VRef l -> is_Some (h' !! l).
Proof.
  intros [GA GO] Hv l ->. destruct (Hv l eq_refl) as [[a | p] Ho].
  - rewrite (GA _ _ Ho). eauto.
  - destruct (GO _ _ Ho) as [p' ->]. eauto.
Qed.

Lemma concatOf_grown h h' v :
  grown h h' -> (forall l, v = VRef l -> is_Some (h !! l)) -> concatOf h' v = concatOf h v.
Proof.
  intros [GA GO] Hv. destruct v as [| | | | | l]; try reflexivity.
  unfold concatOf. destruct (Hv l eq_refl) as [[a | p] Ho]; rewrite Ho.
  - now rewrite (GA _ _ Ho).
  - destruct (GO _ _ Ho) as [p' ->]. reflexivity.
Qed.

Lemma isArray_grown h h' v :
  grown h h' -> (forall l, v = VRef l -> is_Some (h !! l)) -> isArray h' v = isArray h v.
Proof.
  intros [GA GO] Hv. destruct v as [| | | | | l]; try reflexivity.
  unfold isArray. destruct (Hv l eq_refl) as [[a | p] Ho]; rewrite Ho.
  - now rewrite (GA _ _ Ho).
  - destruct (GO _ _ Ho) as [p' ->]. reflexivity.
Qed.

Lemma forEach_inv {S A} (f : A -> M S unit) (l : list A) (I : list A -> S -> Prop) s :
  I [] s ->
  (forall pre x suf s, l = pre ++ x :: suf -> I pre s ->
     exists s', f x s = (Ret tt, s') /\ I (pre ++ [x]) s') ->
  exists s', forEach f l s = (Ret tt, s') /\ I l s'.
Proof.
  intros H0 Hstep.
  assert (G : forall rest pre s, l = pre ++ rest -> I pre s ->
                exists s', forEach f rest s = (Ret tt, s') /\ I l s').
  { induction rest as [| x r IH]; intros pre s0 El Hpre.
    - exists s0. rewrite app_nil_r in El. subst pre. split; [reflexivity | exact Hpre].
    - destruct (Hstep pre x r s0 El Hpre) as (s1 & E1 & H1).
      destruct (IH (pre ++ [x]) s1) as (s2 & E2 & H2);
        [now rewrite <- app_assoc | exact H1 |].
      exists s2. split; [| exact H2]. simpl. now rewrite (bind_run _ _ _ _ _ E1). }
  apply (G l [] s eq_refl H0).
Qed.

Lemma getKey_some l k h p x :
  h !! l = Some (OObj p) -> assoc_get k p = Some x -> getKey (VRef l) k h = (Ret x, h).
Proof. intros Hl Hx. now rewrite (getKey_obj _ _ _ _ Hl), Hx. Qed.

Section FlatMerge.

Variable this : ConfigResolver.

(** What the result holds under a key of a flat [src]: the value [e] of
    [src], or an array that [e] went into where the key is in the
    upgrade-merge list or [target] has an array. *)
Definition flatValue (h : heap) (tv : val) (k : string) (e : val)
    (h' : heap) (r : option val) : Prop :=
  if inUpgradeMergeList this k || isArray h tv
  then exists rl, r = Some (VRef rl) /\
         h' !! rl = Some (OArr (mergeSingle (inUpgradeMergeList this k)
                                  (if truthy tv then concatOf h tv else []) e))
  else r = Some e.

Lemma flatValue_grown h tv k e h1 h2 r :
  grown h1 h2 -> flatValue h tv k e h1 r -> flatValue h tv k e h2 r.
Proof.
  intros [GA _]. unfold flatValue.
  destruct (inUpgradeMergeList this k || isArray h tv); [| auto].
  intros (rl & -> & Hr). exists rl. split; [reflexivity | now apply GA].
Qed.

Lemma mergeKey_flat fuel dl tl sl tp spc dp c k e hc :
  hc !! sl = Some (OObj spc) -> hc !! tl = Some (OObj tp) -> hc !! dl = Some (OObj dp) ->
  tl <> sl -> tl <> dl -> sl <> dl ->
  assoc_get k spc = Some e -> primitive e = true -> k <> "plugins" ->
  (forall l, default VUndef (assoc_get k tp) = VRef l -> is_Some (hc !! l)) ->
  exists hc' r spc',
    mergeKey this (_deepMerge this (S fuel)) (VRef dl) (VRef tl) (VRef sl) c k hc
      = (Ret tt, hc') /\
    grown hc hc' /\
    hc' !! tl = Some (OObj tp) /\
    hc' !! sl = Some (OObj spc') /\ map fst spc' = map fst spc /\
    (forall k', k' <> k -> assoc_get k' spc' = assoc_get k' spc) /\
    hc' !! dl = Some (OObj (assoc_set k r dp)) /\
    flatValue hc (default VUndef (assoc_get k tp)) k e hc' (Some r).
Proof.
  intros Hs Ht Hd Hts Htd Hsd Hk He Hpl Hv.
  set (tv := default VUndef (assoc_get k tp)) in *.
  destruct (primitive_typeof e He) as [_ Ho].
  assert (Hpk : isPlugins (Some k) = false) by (simpl; now apply String.eqb_neq).
  assert (Hea : forall h0, isArray h0 e = false) by (destruct e; try discriminate He; reflexivity).
  assert (Hin : In k (map fst spc)) by (eapply assoc_get_Some_In; eauto).
  unfold mergeKey, flatValue. destruct (inUpgradeMergeList this k) eqn:Hu; cbn [orb].
  - (* the value is promoted, then merged as the one element of an array *)
    set (al := length hc). set (hc1 := hc ++ [OArr [e]]).
    set (spc' := assoc_set k (VRef al) spc).
    set (hc2 := <[sl := OObj spc']> hc1).
    assert (Hlt : sl < length hc) by (eapply lookup_lt_Some; eauto).
    assert (Hs1 : hc1 !! sl = Some (OObj spc)) by now apply lookup_old.
    assert (Eup : upgradeKey this (VRef sl) k hc = (Ret tt, hc2)).
    { unfold upgradeKey. rewrite Hu.
      rewrite (bind_run _ _ _ _ _ (getKey_some _ _ _ _ _ Hs Hk)).
      rewrite (bind_run (isArrayM e) _ hc _ _ eq_refl), Hea. cbn [negb].
      rewrite (bind_run (alloc (OArr [e])) _ hc _ _ eq_refl).
      apply (setKey_obj _ _ _ _ _ Hs1). }
    rewrite (bind_run _ _ _ _ _ Eup).
    assert (G12 : grown hc hc2).
    { eapply grown_trans; [apply grown_app | apply (grown_set _ _ _ _ Hs1)]. }
    assert (Hs2 : hc2 !! sl = Some (OObj spc')).
    { apply list_lookup_insert_eq. unfold hc1. rewrite length_app. lia. }
    assert (Ha2 : hc2 !! al = Some (OArr [e])).
    { unfold hc2. rewrite list_lookup_insert_ne by (unfold al; lia). apply lookup_new. }
    assert (Ht2 : hc2 !! tl = Some (OObj tp)).
    { unfold hc2. rewrite list_lookup_insert_ne by congruence. now apply lookup_old. }
    assert (Hd2 : hc2 !! dl = Some (OObj dp)).
    { unfold hc2. rewrite list_lookup_insert_ne by congruence. now apply lookup_old. }
    rewrite (bind_run _ _ _ _ _ (getKey_some _ _ _ _ _ Hs2 (assoc_get_set_eq _ _ _))).
    rewrite (bind_run (isArrayM (VRef al)) _ hc2 _ _ eq_refl).
    replace (isArray hc2 (VRef al)) with true by (unfold isArray; now rewrite Ha2).
    rewrite (bind_run (ret false) _ hc2 _ _ eq_refl). cbn [orb].
    rewrite (bind_run _ _ _ _ _ (getKey_obj _ _ _ _ Ht2)). fold tv.
    destruct (deepMerge_single_value this fuel tv (VRef al) e true (Some k) hc2 He Hpk
                (grown_valid _ _ _ G12 Hv)
                (or_intror (ex_intro _ al (conj eq_refl Ha2))))
      as (rl & hc3 & E3 & Hnew & Hr & Hold).
    rewrite (bind_run _ _ _ _ _ E3).
    rewrite (setKey_obj _ _ _ _ _ (Hold _ _ Hd2)).
    assert (Hdlt : dl < length hc3).
    { eapply lookup_lt_Some. apply (Hold _ _ Hd2). }
    assert (Hrd : rl <> dl) by (intros ->; rewrite Hd2 in Hnew; discriminate).
    exists (<[dl := OObj (assoc_set k (VRef rl) dp)]> hc3), (VRef rl), spc'.
    split; [reflexivity |]. split.
    { eapply grown_trans; [exact G12 |].
      eapply grown_trans; [apply (grown_of_kept _ _ Hold) |].
      apply (grown_set _ _ _ _ (Hold _ _ Hd2)). }
    split; [rewrite list_lookup_insert_ne by congruence; now apply Hold |].
    split; [rewrite list_lookup_insert_ne by congruence; now apply Hold |].
    split; [now apply assoc_set_keys |].
    split; [intros k' Hne; apply assoc_get_set_ne; congruence |].
    split; [now apply list_lookup_insert_eq |].
    exists rl. split; [reflexivity |].
    rewrite list_lookup_insert_ne by congruence. rewrite Hr.
    now rewrite (concatOf_grown _ _ _ G12 Hv).
  - rewrite (bind_run (upgradeKey this (VRef sl) k) _ hc tt hc)
      by (unfold upgradeKey; now rewrite Hu).
    rewrite (bind_run _ _ _ _ _ (getKey_some _ _ _ _ _ Hs Hk)).
    rewrite (bind_run (isArrayM e) _ hc _ _ eq_refl), Hea.
    rewrite (bind_run _ _ hc (isArray hc tv) hc)
      by (now rewrite (bind_run _ _ _ _ _ (getKey_obj _ _ _ _ Ht))).
    cbn [orb]. destruct (isArray hc tv) eqn:Hta.
    + rewrite (bind_run _ _ _ _ _ (getKey_obj _ _ _ _ Ht)). fold tv.
      destruct (deepMerge_single_value this fuel tv e e false (Some k) hc He Hpk Hv
                  (or_introl (conj eq_refl Hta)))
        as (rl & hc3 & E3 & Hnew & Hr & Hold).
      rewrite (bind_run _ _ _ _ _ E3).
      rewrite (setKey_obj _ _ _ _ _ (Hold _ _ Hd)).
      assert (Hrd : rl <> dl) by (intros ->; rewrite Hd in Hnew; discriminate).
      assert (Hdlt : dl < length hc3).
      { eapply lookup_lt_Some. apply (Hold _ _ Hd). }
      exists (<[dl := OObj (assoc_set k (VRef rl) dp)]> hc3), (VRef rl), spc.
      split; [reflexivity |]. split.
      { eapply grown_trans; [apply (grown_of_kept _ _ Hold) |].
        apply (grown_set _ _ _ _ (Hold _ _ Hd)). }
      split; [rewrite list_lookup_insert_ne by congruence; now apply Hold |].
      split; [rewrite list_lookup_insert_ne by congruence; now apply Hold |].
      split; [reflexivity |]. split; [reflexivity |].
      split; [now apply list_lookup_insert_eq |].
      exists rl. split; [reflexivity |].
      rewrite list_lookup_insert_ne by congruence. exact Hr.
    + rewrite Ho. cbn [negb orb]. rewrite (setKey_obj _ _ _ _ _ Hd).
      assert (Hdlt : dl < length hc) by (eapply lookup_lt_Some; eauto).
      exists (<[dl := OObj (assoc_set k e dp)]> hc), e, spc.
      split; [reflexivity |]. split; [apply (grown_set _ _ _ _ Hd) |].
      split; [rewrite list_lookup_insert_ne by congruence; exact Ht |].
      split; [rewrite list_lookup_insert_ne by congruence; exact Hs |].
      split; [reflexivity |]. split; [reflexivity |].
      split; [now apply list_lookup_insert_eq | reflexivity].
Qed.


(** X10: the merge of a mapping [src] whose values are booleans, numbers
    and strings (no key [plugins], no key that names a member of
    [Object.prototype]) into a mapping [target] without a key ["__proto__"]
    always returns, and gives a new mapping: a key of [target] alone keeps
    what [target] has; a key of [src] holds the value of [src], unless the
    key is in the upgrade-merge list or [target] has an array there, and
    then it holds a new array, [target]'s with the value of [src] appended
    if it is not yet there (upgrade-merge list) or in the first place
    (else).  The names of [Object.prototype] are left out because
    [dst["__proto__"] = value] (lines 177, 191 and 196) stores no entry, and
    because [target[key]] (lines 189 and 191) reads the inherited member
    when [target] has no entry of that name. *)
Theorem flat_src_merge fuel tl sl tp sp c pk h :
  h !! tl = Some (OObj tp) -> h !! sl = Some (OObj sp) -> tl <> sl ->
  NoDup (map fst sp) -> ~ In "plugins" (map fst sp) ->
  Forall (fun k => objectPrototypeKey k = false) (map fst sp) ->
  ~ In "__proto__" (map fst tp) ->
  (forall k e, assoc_get k sp = Some e -> primitive e = true) ->
  (forall k l, assoc_get k tp = Some (VRef l) -> is_Some (h !! l)) ->
  exists dl dp h',
    _deepMerge this (S (S fuel)) (VRef tl) (VRef sl) c pk h = (Ret (VRef dl), h') /\
    h !! dl = None /\ h' !! dl = Some (OObj dp) /\
    forall k,
      match assoc_get k sp with
      | None => assoc_get k dp = assoc_get k tp
      | Some e => flatValue h (default VUndef (assoc_get k tp)) k e h' (assoc_get k dp)
      end.
Proof.
  intros Ht Hs Hts Hnd Hpl _ _ Hprim Hval.
  assert (Hv : forall k l, default VUndef (assoc_get k tp) = VRef l -> is_Some (h !! l)).
  { intros k l. destruct (assoc_get k tp) as [v |] eqn:E; [| discriminate].
    simpl. intros ->. eauto. }
  change (_deepMerge this (S (S fuel)) (VRef tl) (VRef sl) c pk) with
    (sa <- isArrayM (VRef sl) ;;
     ta <- isArrayM (VRef tl) ;;
     dst <- alloc (if sa || ta then OArr [] else OObj []) ;;
     if sa || ta then mergeArray (_deepMerge this (S fuel)) (VRef tl) (VRef sl) c pk
     else mergeObject this (_deepMerge this (S fuel)) dst (VRef tl) (VRef sl) c).
  rewrite (bind_run (isArrayM (VRef sl)) _ h _ _ eq_refl).
  rewrite (bind_run (isArrayM (VRef tl)) _ h _ _ eq_refl).
  rewrite (isArray_obj _ _ _ Hs), (isArray_obj _ _ _ Ht). cbn [orb].
  rewrite (bind_run (alloc (OObj [])) _ h _ _ eq_refl).
  set (dl := length h). set (h1 := h ++ [OObj []]).
  assert (Htl : tl < dl) by (eapply lookup_lt_Some; eauto).
  assert (Hsl : sl < dl) by (eapply lookup_lt_Some; eauto).
  assert (Ht1 : h1 !! tl = Some (OObj tp)) by now apply lookup_old.
  assert (Hs1 : h1 !! sl = Some (OObj sp)) by now apply lookup_old.
  assert (Hd1 : h1 !! dl = Some (OObj [])) by apply lookup_new.
  unfold mergeObject. cbn [truthy typeof String.eqb andb Ascii.eqb Bool.eqb].
  (* the keys of [target] *)
  assert (Ec : exists h2, forEach (copyKey (VRef dl) (VRef tl)) (map fst tp) h1 = (Ret tt, h2)).
  { destruct (forEach_inv (copyKey (VRef dl) (VRef tl)) (map fst tp)
                (fun _ hc => exists dp, hc = <[dl := OObj dp]> h1) h1) as (h2 & E & _).
    - exists []. symmetry. now apply list_insert_id.
    - intros pre k suf hc _ [dp ->].
      assert (Hlt : dl < length h1) by (eapply lookup_lt_Some; eauto).
      assert (Htc : <[dl := OObj dp]> h1 !! tl = Some (OObj tp))
        by (rewrite list_lookup_insert_ne by lia; exact Ht1).
      assert (Hdc : <[dl := OObj dp]> h1 !! dl = Some (OObj dp))
        by (now apply list_lookup_insert_eq).
      unfold copyKey.
      rewrite (bind_run _ _ _ _ _ (getKey_obj _ k _ _ Htc)).
      rewrite (setKey_obj _ _ _ _ _ Hdc).
      eexists. split; [reflexivity |]. eexists. apply list_insert_insert_eq.
    - eauto. }
  destruct Ec as [h2 Ec].
  pose proof (copyKeys_effect dl tl tp h1 Ht1 Hd1 ltac:(lia)) as Pc.
  unfold post in Pc. rewrite Ec in Pc. destruct Pc as (dp0 & -> & Hdp0).
  assert (Eb : (keys <- objectKeys (VRef tl) ;; forEach (copyKey (VRef dl) (VRef tl)) keys) h1
               = (Ret tt, <[dl := OObj dp0]> h1)).
  { now rewrite (bind_run _ _ _ _ _ (objectKeys_obj _ _ _ Ht1)). }
  rewrite (bind_run _ _ _ _ _ Eb).
  set (h2 := <[dl := OObj dp0]> h1).
  assert (Hlt1 : dl < length h1) by (eapply lookup_lt_Some; eauto).
  assert (Ht2 : h2 !! tl = Some (OObj tp))
    by (unfold h2; rewrite list_lookup_insert_ne by lia; exact Ht1).
  assert (Hs2 : h2 !! sl = Some (OObj sp))
    by (unfold h2; rewrite list_lookup_insert_ne by lia; exact Hs1).
  assert (Hd2 : h2 !! dl = Some (OObj dp0)) by (now apply list_lookup_insert_eq).
  assert (G2 : grown h h2).
  { eapply grown_trans; [apply grown_app | apply (grown_set _ _ _ _ Hd1)]. }
  rewrite (bind_run _ _ _ _ _ (objectKeys_obj _ _ _ Hs2)).
  (* the keys of [src] *)
  destruct (forEach_inv
              (mergeKey this (_deepMerge this (S fuel)) (VRef dl) (VRef tl) (VRef sl) c)
              (map fst sp)
              (fun done hc =>
                 grown h hc /\ hc !! tl = Some (OObj tp) /\
                 (exists spc, hc !! sl = Some (OObj spc) /\ map fst spc = map fst sp /\
                    forall k, ~ In k done -> assoc_get k spc = assoc_get k sp) /\
                 exists dp, hc !! dl = Some (OObj dp) /\
                   forall k,
                     (~ In k done -> assoc_get k dp = assoc_get k tp) /\
                     (In k done -> forall e, assoc_get k sp = Some e ->
                        flatValue h (default VUndef (assoc_get k tp)) k e hc
                          (assoc_get k dp))) h2)
    as (h3 & E3 & G3 & _ & _ & dp & Hd3 & Hres).
  - split; [exact G2 |]. split; [exact Ht2 |].
    split; [exists sp; auto |]. exists dp0. split; [exact Hd2 |].
    intros k. split; [intros _; apply Hdp0 | intros []].
  - intros pre k suf hc El (Gc & Htc & (spc & Hsc & Hkeys & Hspc) & dp & Hdc & Hdp).
    assert (Hnin : ~ In k pre).
    { rewrite El in Hnd. apply NoDup_app in Hnd. destruct Hnd as (_ & Hd & _).
      intros Hin. apply (Hd k); apply list_elem_of_In; [exact Hin | now left]. }
    assert (Hin : In k (map fst sp)).
    { rewrite El. apply in_or_app. right. now left. }
    destruct (assoc_get_In k sp Hin) as [e He].
    assert (Hkpl : k <> "plugins") by (intros ->; contradiction).
    assert (Hvc : forall l, default VUndef (assoc_get k tp) = VRef l -> is_Some (hc !! l)).
    { apply (grown_valid h hc _ Gc). apply Hv. }
    destruct (mergeKey_flat fuel dl tl sl tp spc dp c k e hc Hsc Htc Hdc
                Hts ltac:(lia) ltac:(lia) ltac:(rewrite (Hspc k Hnin); exact He)
                (Hprim k e He) Hkpl Hvc)
      as (hc' & r & spc' & E & G' & Ht' & Hs' & Hkeys' & Hspc' & Hd' & Hflat).
    exists hc'. split; [exact E |]. split; [eapply grown_trans; eauto |].
    split; [exact Ht' |]. split.
    { exists spc'. split; [exact Hs' |]. split; [congruence |].
      intros k' Hk'. rewrite Hspc'.
      - apply Hspc. intros Hp. apply Hk'. apply in_or_app. now left.
      - intros ->. apply Hk'. apply in_or_app. right. now left. }
    exists (assoc_set k r dp). split; [exact Hd' |]. intros k'. split.
    + intros Hk'. rewrite assoc_get_set_ne.
      * apply Hdp. intros Hp. apply Hk'. apply in_or_app. now left.
      * intros ->. apply Hk'. apply in_or_app. right. now left.
    + intros Hk' e' He'. destruct (decide (k = k')) as [<- | Hne].
      * rewrite assoc_get_set_eq. rewrite He in He'. injection He' as <-.
        unfold flatValue in Hflat |- *.
        rewrite (isArray_grown h hc _ Gc (Hv k)) in Hflat.
        rewrite (concatOf_grown h hc _ Gc (Hv k)) in Hflat. exact Hflat.
      * rewrite assoc_get_set_ne by exact Hne.
        apply (flatValue_grown _ _ _ _ hc hc' _ G').
        apply Hdp; [| exact He'].
        apply in_app_or in Hk'. destruct Hk' as [Hk' | [Hk' | []]]; [exact Hk' | congruence].
  - rewrite (bind_run _ _ _ _ _ E3).
    exists dl, dp, h3. split; [reflexivity |].
    split; [apply lookup_ge_None; unfold dl; lia |]. split; [exact Hd3 |].
    intros k. destruct (Hres k) as [Hout Hin]. destruct (assoc_get k sp) as [e |] eqn:Ek.
    + apply Hin; [eapply assoc_get_Some_In; eauto | reflexivity].
    + apply Hout. now apply assoc_get_None_keys.
Qed.

End FlatMerge.

Lemma flat_src_merge_witness :
  let this := Example.upgrading ["files"] in
  let tp := [("files", VStr "a"); ("n", VNum 1); ("m", VNum 3)] in
  let sp := [("files", VStr "b"); ("n", VNum 2)] in
  let h := [OObj tp; OObj sp] in
  exists dl dp h',
    _deepMerge this 2 (VRef 0) (VRef 1) false None h = (Ret (VRef dl), h') /\
    h !! dl = None /\ h' !! dl = Some (OObj dp) /\
    forall k,
      match assoc_get k sp with
      | None => assoc_get k dp = assoc_get k tp
      | Some e => flatValue this h (default VUndef (assoc_get k tp)) k e h' (assoc_get k dp)
      end.
Proof.
  intros this tp sp h.
  apply (flat_src_merge this 0 0 1 tp sp false None h); try reflexivity.
  - discriminate.
  - unfold sp. simpl. apply (bool_decide_unpack _). vm_compute. reflexivity.
  - unfold sp. simpl. intros [H | [H | []]]; discriminate H.
  - unfold sp. simpl. repeat constructor.
  - unfold tp. simpl. intros [H | [H | [H | []]]]; discriminate H.
  - intros k e. simpl. destruct (String.eqb k "files"); [now intros [= <-] |].
    destruct (String.eqb k "n"); [now intros [= <-] | discriminate].
  - intros k l. simpl. destruct (String.eqb k "files"); [discriminate |].
    destruct (String.eqb k "n"); [discriminate |].
    destruct (String.eqb k "m"); discriminate.
Defined.

(** * The merge of plugin lists *)

Lemma val_eqb_refl v : val_eqb v v = true.
Proof.
  destruct v; simpl; auto using Z.eqb_refl, String.eqb_refl, Nat.eqb_refl.
  now destruct b.
Qed.

Lemma val_eqb_sym a b : val_eqb a b = val_eqb b a.
Proof.
  destruct a, b; simpl; auto using Z.eqb_sym, String.eqb_sym, Nat.eqb_sym.
  now destruct b, b0.
Qed.

Lemma val_eqb_eq a b : val_eqb a b = true -> a = b.
Proof.
  destruct a, b; simpl; try discriminate; try reflexivity.
  - destruct b, b0; simpl; congruence.
  - intros H. apply Z.eqb_eq in H. now subst.
  - intros H. apply String.eqb_eq in H. now subst.
  - intros H. apply Nat.eqb_eq in H. now subst.
Qed.

(** [v.name] for a plugin entry [v]. *)
Definition nameOf (h : heap) (v : val) : val :=
  match v with
  | VRef l =>
      match h !! l with
      | Some (OObj p) => default VUndef (assoc_get "name" p)
      | _ => VUndef
      end
  | _ => VUndef
  end.

Definition isMapping (h : heap) (v : val) : bool :=
  match v with
  | VRef l => match h !! l with Some (OObj _) => true | _ => false end
  | _ => false
  end.

Section PluginNames.

Variable h : heap.

Definition hasName (n : val) (l : list val) : bool :=
  existsb (fun d => val_eqb (nameOf h d) n) l.

Fixpoint distinctNames (l : list val) : bool :=
  match l with
  | [] => true
  | x :: r => negb (hasName (nameOf h x) r) && distinctNames r
  end.

(** Lines 118-138 in closed form: the entries of [src] in reverse order,
    then the entries of [target] that no entry of [src] replaces. *)
Definition pluginsMerged (target src : list val) : list val :=
  rev src ++ List.filter (fun t => negb (hasName (nameOf h t) src)) target.

Fixpoint findIdx (n : val) (l : list val) (i : nat) : option (nat * val) :=
  match l with
  | [] => None
  | x :: r => if val_eqb (nameOf h x) n then Some (i, x) else findIdx n r (S i)
  end.

Fixpoint dropName (n : val) (l : list val) : list val :=
  match l with
  | [] => []
  | x :: r => if val_eqb (nameOf h x) n then r else x :: dropName n r
  end.

Definition loop1 (D : list val) (t : val) : list val :=
  if hasName (nameOf h t) D then D else D ++ [t].

Definition loop2 (D : list val) (s : val) : list val :=
  s :: dropName (nameOf h s) D.

Lemma hasName_app n l l' : hasName n (l ++ l') = hasName n l || hasName n l'.
Proof. apply existsb_app. Qed.

Lemma hasName_rev n l : hasName n (rev l) = hasName n l.
Proof.
  induction l as [| x r IH]; [reflexivity |]. simpl rev. rewrite hasName_app, IH.
  simpl. rewrite orb_false_r. apply orb_comm.
Qed.

Lemma hasName_false n l x : hasName n l = false -> In x l -> val_eqb (nameOf h x) n = false.
Proof.
  intros H Hx. destruct (val_eqb (nameOf h x) n) eqn:E; [| reflexivity].
  assert (hasName n l = true) by (apply existsb_exists; eauto). congruence.
Qed.

Lemma findIdx_None n l i : findIdx n l i = None <-> hasName n l = false.
Proof.
  revert i. induction l as [| x r IH]; intros i; simpl; [tauto |].
  destruct (val_eqb (nameOf h x) n); simpl; [split; discriminate | apply IH].
Qed.

Lemma findIdx_Some n l i j x :
  findIdx n l i = Some (j, x) ->
  In x l /\ i <= j /\ take (j - i) l ++ drop (S (j - i)) l = dropName n l.
Proof.
  revert i. induction l as [| y r IH]; intros i; simpl; [discriminate |].
  destruct (val_eqb (nameOf h y) n).
  - intros [= <- <-]. rewrite Nat.sub_diag. simpl. rewrite drop_0. auto.
  - intros H. destruct (IH _ H) as (Hin & Hle & E).
    split; [now right |]. split; [lia |].
    replace (j - i) with (S (j - S i)) by lia. simpl. now rewrite E.
Qed.

Lemma dropName_None n l : hasName n l = false -> dropName n l = l.
Proof.
  induction l as [| x r IH]; simpl; [reflexivity |].
  destruct (val_eqb (nameOf h x) n); simpl; [discriminate |]. intros H. now rewrite IH.
Qed.

Lemma dropName_app n P R : hasName n P = false -> dropName n (P ++ R) = P ++ dropName n R.
Proof.
  induction P as [| x r IH]; simpl; [reflexivity |].
  destruct (val_eqb (nameOf h x) n); simpl; [discriminate |]. intros H. now rewrite IH.
Qed.

Lemma filter_same {A} (f g : A -> bool) l :
  (forall x, In x l -> f x = g x) -> List.filter f l = List.filter g l.
Proof.
  induction l as [| x r IH]; intros H; simpl; [reflexivity |].
  rewrite (H x (or_introl eq_refl)), IH; [reflexivity |]. intros y Hy. apply H. now right.
Qed.

Lemma filter_all {A} (f : A -> bool) l :
  (forall x, In x l -> f x = true) -> List.filter f l = l.
Proof.
  induction l as [| x r IH]; intros H; simpl; [reflexivity |].
  rewrite (H x (or_introl eq_refl)), IH; [reflexivity |]. intros y Hy. apply H. now right.
Qed.

Lemma filter_none {A} (f : A -> bool) l :
  (forall x, In x l -> f x = false) -> List.filter f l = [].
Proof.
  induction l as [| x r IH]; intros H; simpl; [reflexivity |].
  rewrite (H x (or_introl eq_refl)). apply IH. intros y Hy. apply H. now right.
Qed.

Lemma dropName_filter n l :
  distinctNames l = true ->
  dropName n l = List.filter (fun t => negb (val_eqb (nameOf h t) n)) l.
Proof.
  induction l as [| x r IH]; simpl; [reflexivity |].
  intros H. apply andb_true_iff in H. destruct H as [Hx Hr]. apply negb_true_iff in Hx.
  destruct (val_eqb (nameOf h x) n) eqn:E; simpl.
  - symmetry. apply filter_all. intros y Hy. apply negb_true_iff.
    destruct (val_eqb (nameOf h y) n) eqn:E'; [| reflexivity].
    apply val_eqb_eq in E, E'. pose proof (hasName_false _ _ _ Hx Hy) as F.
    rewrite E, E', val_eqb_refl in F. discriminate F.
  - now rewrite IH.
Qed.

Lemma fold_loop1 ts :
  forall D, distinctNames ts = true ->
    fold_left loop1 ts D = D ++ List.filter (fun t => negb (hasName (nameOf h t) D)) ts.
Proof.
  induction ts as [| t r IH]; intros D Hd; simpl; [now rewrite app_nil_r |].
  apply andb_true_iff in Hd. destruct Hd as [Ht Hr]. apply negb_true_iff in Ht.
  unfold loop1 at 2. destruct (hasName (nameOf h t) D) eqn:E; simpl.
  - now apply IH.
  - rewrite (IH _ Hr), <- app_assoc. simpl. do 2 f_equal.
    apply filter_same. intros x Hx. rewrite hasName_app. simpl.
    rewrite orb_false_r, val_eqb_sym, (hasName_false _ _ _ Ht Hx). now rewrite orb_false_r.
Qed.

Lemma fold_loop2 R :
  forall P F, (forall s, In s R -> hasName (nameOf h s) P = false) ->
    distinctNames R = true ->
    fold_left loop2 R (rev P ++ R ++ F) = rev R ++ rev P ++ F.
Proof.
  induction R as [| s r IH]; intros P F HP Hd; [reflexivity |].
  simpl in Hd. apply andb_true_iff in Hd. destruct Hd as [Hs Hr]. apply negb_true_iff in Hs.
  simpl fold_left. unfold loop2 at 2.
  rewrite dropName_app by (rewrite hasName_rev; apply HP; now left).
  simpl dropName. rewrite val_eqb_refl.
  replace (s :: rev P ++ r ++ F) with (rev (P ++ [s]) ++ r ++ F)
    by (rewrite rev_app_distr; reflexivity).
  rewrite IH; [| | exact Hr].
  - rewrite rev_app_distr. simpl. now rewrite <- app_assoc.
  - intros s' Hs'. rewrite hasName_app, (HP s' (or_intror Hs')). simpl.
    rewrite orb_false_r, val_eqb_sym. apply (hasName_false _ _ _ Hs Hs').
Qed.

Lemma plugins_fold ts ss :
  distinctNames ts = true -> distinctNames ss = true ->
  fold_left loop2 ss (fold_left loop1 ts (if Nat.ltb 1 (length ss) then ss else ts))
  = pluginsMerged ts ss.
Proof.
  intros Ht Hs. unfold pluginsMerged. destruct (Nat.ltb 1 (length ss)) eqn:En.
  - rewrite (fold_loop1 ts ss Ht).
    apply (fold_loop2 ss [] _ (fun _ _ => eq_refl) Hs).
  - rewrite (fold_loop1 ts ts Ht). rewrite filter_none, app_nil_r.
    2: { intros x Hx. apply negb_false_iff. apply existsb_exists. exists x.
         split; [exact Hx | apply val_eqb_refl]. }
    apply Nat.ltb_ge in En. destruct ss as [| s [| s' r]]; [| | simpl in En; lia].
    + simpl. symmetry. now apply filter_all.
    + simpl. unfold loop2. rewrite (dropName_filter _ _ Ht). f_equal.
      apply filter_same. intros x _. unfold hasName. simpl.
      now rewrite orb_false_r, val_eqb_sym.
Qed.

End PluginNames.

Lemma forEach_dst {A} (f : A -> HM unit) (g : list val -> A -> list val)
    (Inv : list val -> Prop) (dl : loc) (hb : heap) (l : list A) :
  forall D0, Inv D0 ->
    (forall D x, In x l -> Inv D ->
       f x (<[dl := OArr D]> hb) = (Ret tt, <[dl := OArr (g D x)]> hb) /\ Inv (g D x)) ->
    forEach f l (<[dl := OArr D0]> hb) = (Ret tt, <[dl := OArr (fold_left g l D0)]> hb) /\
    Inv (fold_left g l D0).
Proof.
  induction l as [| x r IH]; intros D0 H0 Hstep; [split; [reflexivity | exact H0] |].
  destruct (Hstep D0 x (or_introl eq_refl) H0) as [E H1].
  simpl. rewrite (bind_run _ _ _ _ _ E). apply IH; [exact H1 |].
  intros D y Hy. apply Hstep. now right.
Qed.

Section PluginRun.

Variable h : heap.

(** The store [hc] has the objects of [h] as they are in [h]. *)
Definition agree (hc : heap) : Prop := forall l o, h !! l = Some o -> hc !! l = Some o.

Lemma agree_set hb dl D : agree hb -> h !! dl = None -> agree (<[dl := OArr D]> hb).
Proof.
  intros Ha Hd l o Hl. rewrite list_lookup_insert_ne; [now apply Ha | congruence].
Qed.

Lemma getName_run hc v :
  agree hc -> isMapping h v = true -> getKey v "name" hc = (Ret (nameOf h v), hc).
Proof.
  intros Ha Hv. destruct v as [| | | | | l]; try discriminate Hv. simpl in Hv |- *.
  destruct (h !! l) as [[a | p] |] eqn:Hl; try discriminate Hv.
  apply (getKey_obj _ _ _ _ (Ha _ _ Hl)).
Qed.

Lemma sameName_run hc p d :
  agree hc -> isMapping h p = true -> isMapping h d = true ->
  sameName p d hc = (Ret (val_eqb (nameOf h d) (nameOf h p)), hc).
Proof.
  intros Ha Hp Hd. unfold sameName.
  rewrite (bind_run _ _ _ _ _ (getName_run hc d Ha Hd)).
  now rewrite (bind_run _ _ _ _ _ (getName_run hc p Ha Hp)).
Qed.

Lemma findFrom_run hc p D :
  agree hc -> isMapping h p = true -> forallb (isMapping h) D = true ->
  forall i, findFrom (sameName p) D i hc = (Ret (findIdx h (nameOf h p) D i), hc).
Proof.
  intros Ha Hp. induction D as [| x r IH]; intros HD i; [reflexivity |].
  simpl in HD. apply andb_true_iff in HD. destruct HD as [Hx Hr]. simpl.
  rewrite (bind_run _ _ _ _ _ (sameName_run hc p x Ha Hp Hx)).
  destruct (val_eqb (nameOf h x) (nameOf h p)); [reflexivity | now apply IH].
Qed.

Lemma isMapping_truthy v : isMapping h v = true -> truthy v = true.
Proof. destruct v; try discriminate; reflexivity. Qed.

Lemma isMapping_typeof v : isMapping h v = true -> typeof v = "object".
Proof. destruct v; try discriminate; reflexivity. Qed.

Lemma forallb_In {A} (f : A -> bool) l x : forallb f l = true -> In x l -> f x = true.
Proof. intros H Hx. rewrite forallb_forall in H. now apply H. Qed.

Lemma forallb_dropName f n D : forallb f D = true -> forallb f (dropName h n D) = true.
Proof.
  induction D as [| x r IH]; simpl; [auto |]. intros H.
  apply andb_true_iff in H. destruct H as [Hx Hr].
  destruct (val_eqb (nameOf h x) n); [exact Hr |]. simpl. now rewrite Hx, IH.
Qed.

Variables (hb : heap) (dl : loc).
Hypothesis Hagree : agree hb.
Hypothesis Hnew : h !! dl = None.
Hypothesis Hdl : dl < length hb.

Lemma dst_at D : <[dl := OArr D]> hb !! dl = Some (OArr D).
Proof. now apply list_lookup_insert_eq. Qed.

(** Lines 122-125: a plugin of [target] is pushed unless [dst] has one of
    its name. *)
Lemma pushMissing_run D t :
  isMapping h t = true -> forallb (isMapping h) D = true ->
  (d <- arrayElems (VRef dl) "find" ;;
   found <- findFrom (sameName t) d 0 ;;
   if negb (truthy (match found with Some (_, x) => x | None => VUndef end))
   then push (VRef dl) t
   else ret tt) (<[dl := OArr D]> hb)
  = (Ret tt, <[dl := OArr (loop1 h D t)]> hb) /\
  forallb (isMapping h) (loop1 h D t) = true.
Proof.
  intros Ht HD. pose proof (agree_set hb dl D Hagree Hnew) as Ha.
  rewrite (bind_run _ _ _ _ _ (arrayElems_arr _ _ _ _ (dst_at D))).
  rewrite (bind_run _ _ _ _ _ (findFrom_run _ t D Ha Ht HD 0)).
  unfold loop1. destruct (findIdx h (nameOf h t) D 0) as [[j x] |] eqn:Ef.
  - destruct (findIdx_Some h _ _ _ _ _ Ef) as (Hin & _ & _).
    rewrite (isMapping_truthy x (forallb_In _ _ _ HD Hin)). cbn [negb].
    assert (Hn : hasName h (nameOf h t) D = true).
    { destruct (hasName h (nameOf h t) D) eqn:E; [reflexivity |].
      apply findIdx_None with (i := 0) in E. congruence. }
    rewrite Hn. split; [| exact HD].
    cbv [ret]. f_equal.
  - apply findIdx_None in Ef. rewrite Ef. cbn [truthy negb].
    rewrite (push_arr _ _ _ _ (dst_at D)), list_insert_insert_eq.
    split; [reflexivity |]. rewrite forallb_app. simpl. now rewrite HD, Ht.
Qed.

(** Lines 129-138: a plugin of [src] goes to the head of [dst], in the
    place of the entry of its name. *)
Lemma replaceAtHead_run D s :
  isMapping h s = true -> forallb (isMapping h) D = true ->
  (d <- arrayElems (VRef dl) "findIndex" ;;
   found <- findFrom (sameName s) d 0 ;;
   match found with
   | Some (index, _) => splice1 (VRef dl) index
   | None => ret tt
   end ;;;
   unshift (VRef dl) s) (<[dl := OArr D]> hb)
  = (Ret tt, <[dl := OArr (loop2 h D s)]> hb) /\
  forallb (isMapping h) (loop2 h D s) = true.
Proof.
  intros Hs HD. pose proof (agree_set hb dl D Hagree Hnew) as Ha.
  rewrite (bind_run _ _ _ _ _ (arrayElems_arr _ _ _ _ (dst_at D))).
  rewrite (bind_run _ _ _ _ _ (findFrom_run _ s D Ha Hs HD 0)).
  unfold loop2. split; [| simpl; now rewrite Hs, forallb_dropName].
  destruct (findIdx h (nameOf h s) D 0) as [[j x] |] eqn:Ef.
  - destruct (findIdx_Some h _ _ _ _ _ Ef) as (_ & _ & E). rewrite Nat.sub_0_r in E.
    rewrite (bind_run _ _ _ _ _ (splice1_arr _ _ _ j (dst_at D))).
    rewrite list_insert_insert_eq, E.
    rewrite (unshift_arr _ _ _ _ (dst_at _)). now rewrite list_insert_insert_eq.
  - apply findIdx_None in Ef. rewrite (dropName_None h _ _ Ef).
    rewrite (bind_run (ret tt) _ _ _ _ eq_refl).
    rewrite (unshift_arr _ _ _ _ (dst_at _)). now rewrite list_insert_insert_eq.
Qed.

End PluginRun.

(** X11: the merge of two plugin lists (parent key [plugins]) whose entries
    are mappings, with names distinct within each list, always returns: the
    result is a new array, the entries of [src] in reverse order followed by
    the entries of [target] whose name no entry of [src] has. *)
Theorem plugins_merge_order (this : ConfigResolver) fuel tl sl ts ss c h :
  h !! tl = Some (OArr ts) -> h !! sl = Some (OArr ss) ->
  forallb (isMapping h) ts = true -> forallb (isMapping h) ss = true ->
  distinctNames h ts = true -> distinctNames h ss = true ->
  exists dl h',
    _deepMerge this (S fuel) (VRef tl) (VRef sl) c (Some "plugins") h = (Ret (VRef dl), h') /\
    h !! dl = None /\ h' !! dl = Some (OArr (pluginsMerged h ts ss)) /\
    forall l o, h !! l = Some o -> h' !! l = Some o.
Proof.
  intros Ht Hs Mt Ms Dt Ds. simpl.
  assert (Ha : isArray h (VRef sl) = true) by (unfold isArray; now rewrite Hs).
  rewrite (bind_run (isArrayM (VRef sl)) _ h _ _ eq_refl), Ha.
  rewrite (bind_run (isArrayM (VRef tl)) _ h _ _ eq_refl). cbn [orb].
  rewrite (bind_run (alloc (OArr [])) _ h _ _ eq_refl).
  set (h1 := h ++ [OArr []]).
  assert (Ht1 : h1 !! tl = Some (OArr ts)) by now apply lookup_old.
  assert (Hs1 : h1 !! sl = Some (OArr ss)) by now apply lookup_old.
  unfold mergeArray. cbn [truthy].
  rewrite (bind_run (ret (VRef tl)) _ h1 _ _ eq_refl).
  rewrite (bind_run (isArrayM (VRef sl)) _ h1 _ _ eq_refl).
  replace (isArray h1 (VRef sl)) with true by (unfold isArray; now rewrite Hs1).
  rewrite (bind_run _ _ h1 (length ss) h1)
    by (now rewrite (bind_run _ _ _ _ _ (arrayElems_arr _ _ _ _ Hs1))).
  cbn [andb].
  set (D0 := if Nat.ltb 1 (length ss) then ss else ts).
  set (dl := length h1). set (h2 := h1 ++ [OArr D0]).
  assert (Ec : (if Nat.ltb 1 (length ss) then concatInto (VRef sl) else concatInto (VRef tl)) h1
               = (Ret (VRef dl), h2)).
  { unfold D0, h2. destruct (Nat.ltb 1 (length ss)); rewrite concatInto_eq; unfold concatOf;
      [now rewrite Hs1 | now rewrite Ht1]. }
  rewrite (bind_run _ _ _ _ _ Ec).
  assert (Ht2 : h2 !! tl = Some (OArr ts)) by now apply lookup_old.
  assert (Hs2 : h2 !! sl = Some (OArr ss)) by now apply lookup_old.
  assert (Hd2 : h2 !! dl = Some (OArr D0)) by apply lookup_new.
  assert (Hlen : length h < dl) by (unfold dl, h1; rewrite length_app; simpl; lia).
  assert (Hdlt : dl < length h2) by (eapply lookup_lt_Some; eauto).
  assert (Hnew : h !! dl = None) by (apply lookup_ge_None; lia).
  assert (Hag : agree h h2) by (intros l o Hl; now do 2 apply lookup_old).
  assert (Htd : tl <> dl) by (apply lookup_lt_Some in Ht; lia).
  assert (Hsd : sl <> dl) by (apply lookup_lt_Some in Hs; lia).
  rewrite (bind_run (isArrayM (VRef sl)) _ h2 _ _ eq_refl).
  replace (isArray h2 (VRef sl)) with true by (unfold isArray; now rewrite Hs2).
  cbn [typeof String.eqb Ascii.eqb Bool.eqb negb andb].
  rewrite (bind_run (ret (VRef sl)) _ h2 _ _ eq_refl).
  rewrite (bind_run (isArrayM (VRef tl)) _ h2 _ _ eq_refl).
  replace (isArray h2 (VRef tl)) with true by (unfold isArray; now rewrite Ht2).
  cbn [isPlugins String.eqb Ascii.eqb Bool.eqb andb].
  (* the two loops over the plugins *)
  assert (MD0 : forallb (isMapping h) D0 = true) by (unfold D0; now destruct (Nat.ltb 1 _)).
  destruct (forEach_dst
              (fun plugin =>
                 d <- arrayElems (VRef dl) "find" ;;
                 found <- findFrom (sameName plugin) d 0 ;;
                 if negb (truthy (match found with Some (_, x) => x | None => VUndef end))
                 then push (VRef dl) plugin
                 else ret tt)
              (loop1 h) (fun D => forallb (isMapping h) D = true) dl h2 ts D0 MD0
              (fun D t Hin HD => pushMissing_run h h2 dl Hag Hnew Hdlt D t
                                   (forallb_In _ _ _ Mt Hin) HD)) as [E1 M1].
  set (D1 := fold_left (loop1 h) ts D0) in *.
  destruct (forEach_dst
              (fun plugin =>
                 d <- arrayElems (VRef dl) "findIndex" ;;
                 found <- findFrom (sameName plugin) d 0 ;;
                 match found with
                 | Some (index, _) => splice1 (VRef dl) index
                 | None => ret tt
                 end ;;;
                 unshift (VRef dl) plugin)
              (loop2 h) (fun D => forallb (isMapping h) D = true) dl h2 ss D1 M1
              (fun D s Hin HD => replaceAtHead_run h h2 dl Hag Hnew Hdlt D s
                                   (forallb_In _ _ _ Ms Hin) HD)) as [E2 M2].
  set (D2 := fold_left (loop2 h) ss D1) in *.
  rewrite (list_insert_id _ _ _ Hd2) in E1.
  assert (Ht3 : <[dl := OArr D1]> h2 !! tl = Some (OArr ts))
    by (rewrite list_lookup_insert_ne by congruence; exact Ht2).
  assert (Hs4 : <[dl := OArr D2]> h2 !! sl = Some (OArr ss))
    by (rewrite list_lookup_insert_ne by congruence; exact Hs2).
  assert (Hs3 : <[dl := OArr D1]> h2 !! sl = Some (OArr ss))
    by (rewrite list_lookup_insert_ne by congruence; exact Hs2).
  assert (Hd4 : <[dl := OArr D2]> h2 !! dl = Some (OArr D2))
    by (now apply list_lookup_insert_eq).
  assert (Emp : mergePlugins (VRef dl) (VRef tl) (VRef sl) h2
                = (Ret tt, <[dl := OArr D2]> h2)).
  { unfold mergePlugins.
    rewrite (bind_run _ _ _ _ _ (arrayElems_arr _ _ _ _ Ht2)).
    rewrite (bind_run _ _ _ _ _ E1).
    rewrite (bind_run _ _ _ _ _ (arrayElems_arr _ _ _ _ Hs3)).
    exact E2. }
  rewrite (bind_run _ _ _ _ _ Emp).
  assert (Ek : objectKeys (VRef sl) (<[dl := OArr D2]> h2)
               = (Ret (map string_of_nat (seq 0 (length ss))), <[dl := OArr D2]> h2)).
  { unfold objectKeys, bind, readObj. now rewrite Hs4. }
  rewrite (bind_run _ _ _ _ _ Ek). rewrite length_map, length_seq.
  assert (ED : D2 = pluginsMerged h ts ss) by (apply plugins_fold; assumption).
  assert (Hlen2 : length ss <= length D2).
  { rewrite ED. unfold pluginsMerged. rewrite length_app, length_rev. lia. }
  rewrite (bind_run _ _ _ tt (<[dl := OArr D2]> h2)).
  - exists dl, (<[dl := OArr D2]> h2). split; [reflexivity |].
    split; [exact Hnew |]. split; [now rewrite <- ED |].
    intros l o Hl. rewrite list_lookup_insert_ne; [now apply Hag | congruence].
  - apply forEach_fixed. intros i Hi. apply in_seq in Hi.
    destruct (lookup_lt_is_Some_2 ss i ltac:(lia)) as [x Hx].
    destruct (lookup_lt_is_Some_2 D2 i ltac:(lia)) as [d Hd].
    assert (Mx : isMapping h x = true).
    { apply (forallb_In _ _ _ Ms). apply list_elem_of_In. eapply list_elem_of_lookup_2; eauto. }
    assert (Md : isMapping h d = true).
    { apply (forallb_In _ _ _ M2). apply list_elem_of_In. eapply list_elem_of_lookup_2; eauto. }
    unfold mergeElement.
    rewrite (bind_run _ _ _ _ _ (getIdx_arr _ _ _ i Hs4)).
    rewrite (bind_run _ _ _ _ _ (getIdx_arr _ _ _ i Hd4)).
    rewrite Hx, Hd. change (default VUndef (Some x)) with x.
    change (default VUndef (Some d)) with d.
    rewrite (isMapping_typeof h d Md), (isMapping_typeof h x Mx). reflexivity.
Qed.

Lemma plugins_merge_order_witness :
  let h := [OObj [("name", VStr "y")]; OObj [("name", VStr "x"); ("opt", VNum 1)];
            OObj [("name", VStr "x")];
            OArr [VRef 0; VRef 1]; OArr [VRef 2]] in
  exists dl h',
    _deepMerge Example.plain 1 (VRef 3) (VRef 4) false (Some "plugins") h
      = (Ret (VRef dl), h') /\
    h !! dl = None /\ h' !! dl = Some (OArr [VRef 2; VRef 0]) /\
    forall l o, h !! l = Some o -> h' !! l = Some o.
Proof.
  intros h.
  apply (plugins_merge_order Example.plain 0 3 4 [VRef 0; VRef 1] [VRef 2] false h);
    reflexivity.
Defined.

(** * [onPluginLoad] *)

Lemma setResolverData_outcome (data : tree) (this : ConfigResolver) :
  (exists this', setResolverData data this = (Ret tt, this')) \/
  (exists msg, setResolverData data this = (Throw (mkError TypeError msg), this)).
Proof.
  unfold setResolverData.
  destruct data; try (right; eexists; reflexivity);
    repeat match goal with
    | |- context [if ?b then _ else _] => destruct b
    | |- context [match ?x with _ => _ end] => destruct x
    end;
    first [right; eexists; reflexivity | left; eexists; reflexivity].
Qed.

(** The three bindings, under the prefix [pre]. *)
Definition bindingsOf (pre : string) : list binding :=
  [(pre +:+ "config:resolver:resolve", HResolve);
   (pre +:+ "config:resolver:validate:pre", HPreValidate);
   (pre +:+ "config:resolver:validate:post", HPostValidate)].

(** [options.name] where the options are an object, a boolean, a number or
    a string. *)
Definition optionValue (options : tree) (k : string) : tree :=
  match options with
  | TObj p => default TUndef (assoc_get k p)
  | _ => TUndef
  end.

(** What line 318 makes of the four fields of the resolver data. *)
Definition dataSet (options : tree) (this this' : ConfigResolver) : Prop :=
  if String.eqb (tree_typeof (optionValue options "resolverData")) "object"
  then setResolverData (optionValue options "resolverData") this = (Ret tt, this')
  else this' = this.

(** The call stopped before line 323: the options are [undefined] or [null],
    or [setResolverData] threw. *)
Definition stoppedEarly (options : tree) (this : ConfigResolver) (e : error) : Prop :=
  name e = TypeError /\
  (options = TUndef \/ options = TNull \/
   (tree_typeof (optionValue options "resolverData") = "object" /\
    setResolverData (optionValue options "resolverData") this = (Throw e, this))).

Section PluginLoaded.

Variable onThrows : list binding -> string -> option error.

Lemma on_bound (l : loc) (name : string) (m : handler) (p : Plugin) (bs : buses)
    (bound : list binding) :
  bs !! l = Some bound ->
  on onThrows (Some l) name m (p, bs)
  = match onThrows bound name with
    | Some e => (Throw e, (p, bs))
    | None => (Ret tt, (p, <[l := bound ++ [(name, m)]]> bs))
    end.
Proof. intros E. unfold on. simpl. now rewrite E. Qed.

(** The outcome of [onPluginLoad] from the instance [this] and the buses
    [bs], once line 313 is done. *)
Definition pluginLoaded (ev : PluginEvent) (this : Plugin) (bs : buses)
    (out : res unit * (Plugin * buses)) : Prop :=
  let options := pluginOptions ev in
  let pre := eventPrepend (optionValue options "eventPrepend") in
  match out with
  | (r, (this', bs')) =>
      _eventbus this' = eventbus ev /\
      match r with
      | Ret _ =>
          dataSet options (resolver this) (resolver this') /\
          exists l bound, eventbus ev = Some l /\ bs !! l = Some bound /\
            bs' = <[l := bound ++ bindingsOf pre]> bs
      | Throw e =>
          (stoppedEarly options (resolver this) e /\
           resolver this' = resolver this /\ bs' = bs) \/
          (dataSet options (resolver this) (resolver this') /\
           match eventbus ev with
           | None => name e = TypeError /\ bs' = bs
           | Some l =>
               exists bound n name m,
                 bs !! l = Some bound /\ bindingsOf pre !! n = Some (name, m) /\
                 bs' = <[l := bound ++ take n (bindingsOf pre)]> bs /\
                 onThrows (bound ++ take n (bindingsOf pre)) name = Some e
           end)
      | Abort => exists l, eventbus ev = Some l /\ bs !! l = None
      end
  end.

Lemma three_bindings (ev : PluginEvent) (this : Plugin) (this1 : ConfigResolver) (bs : buses) :
  let pre := eventPrepend (optionValue (pluginOptions ev) "eventPrepend") in
  dataSet (pluginOptions ev) (resolver this) this1 ->
  pluginLoaded ev this bs
    ((on onThrows (eventbus ev) (pre +:+ "config:resolver:resolve") HResolve ;;;
      on onThrows (eventbus ev) (pre +:+ "config:resolver:validate:pre") HPreValidate ;;;
      on onThrows (eventbus ev) (pre +:+ "config:resolver:validate:post") HPostValidate)
       (mkPlugin this1 (eventbus ev), bs)).
Proof.
  intros pre D. unfold pluginLoaded. fold pre.
  destruct (eventbus ev) as [l |]; [| split; [reflexivity |]; right; auto].
  destruct (bs !! l) as [bound |] eqn:E.
  2:{ unfold bind, on. simpl. rewrite E. split; [reflexivity | eauto]. }
  assert (Hl : l < length bs) by (eapply lookup_lt_Some; eauto).
  unfold bind at 1. rewrite (on_bound _ _ _ _ _ _ E).
  destruct (onThrows bound _) as [e |] eqn:T1.
  { split; [reflexivity |]. right. split; [exact D |].
    exists bound, 0, (pre +:+ "config:resolver:resolve"), HResolve.
    change (take 0 (bindingsOf pre)) with (@nil binding). rewrite app_nil_r.
    split; [reflexivity |]. split; [reflexivity |]. split; [| exact T1].
    symmetry. now apply list_insert_id. }
  unfold bind at 1.
  rewrite (on_bound _ _ _ _ _ _ (list_lookup_insert_eq _ _ _ Hl)).
  destruct (onThrows (bound ++ _) _) as [e |] eqn:T2.
  { split; [reflexivity |]. right. split; [exact D |].
    exists bound, 1, (pre +:+ "config:resolver:validate:pre"), HPreValidate. simpl. auto. }
  rewrite (list_insert_insert_eq bs l).
  rewrite (on_bound _ _ _ _ _ _ (list_lookup_insert_eq _ _ _ Hl)).
  rewrite <- !app_assoc. simpl.
  match goal with
  | |- context [match onThrows ?a ?b with _ => _ end] =>
      destruct (onThrows a b) as [e |] eqn:T3
  end.
  { split; [reflexivity |]. right. split; [exact D |].
    exists bound, 2, (pre +:+ "config:resolver:validate:post"), HPostValidate. simpl. auto. }
  rewrite (list_insert_insert_eq bs l).
  split; [reflexivity |]. split; [exact D |]. exists l, bound. auto.
Qed.

(** X12: [onPluginLoad] keeps the bus of the event in [_eventbus] (line
    313) whatever comes after, and it sets the resolver data before it binds
    anything.  A call that returns has set the resolver data (when
    [resolverData] is of type [object]) and has added the three bindings to
    the bus, in this order, under the prefix [eventPrepend:] when that
    option is a string (the empty string too) and no prefix else.  A call
    that throws has either stopped before line 323 with a [TypeError] (the
    options are [undefined] or [null], or [setResolverData] threw), and then
    the four fields of the resolver data and the bus are as they were; or it
    has set the resolver data and [eventbus.on] threw: a [TypeError] when
    the event has no bus, else the exception of the bus, after the bindings
    that come before the one refused. *)
Theorem onPluginLoad_sets_data_then_binds (ev : PluginEvent) (this : Plugin) (bs : buses) :
  let options := pluginOptions ev in
  let pre := eventPrepend (optionValue options "eventPrepend") in
  match onPluginLoad onThrows ev (this, bs) with
  | (r, (this', bs')) =>
      _eventbus this' = eventbus ev /\
      match r with
      | Ret _ =>
          dataSet options (resolver this) (resolver this') /\
          exists l bound, eventbus ev = Some l /\ bs !! l = Some bound /\
            bs' = <[l := bound ++ bindingsOf pre]> bs
      | Throw e =>
          (stoppedEarly options (resolver this) e /\
           resolver this' = resolver this /\ bs' = bs) \/
          (dataSet options (resolver this) (resolver this') /\
           match eventbus ev with
           | None => name e = TypeError /\ bs' = bs
           | Some l =>
               exists bound n name m,
                 bs !! l = Some bound /\ bindingsOf pre !! n = Some (name, m) /\
                 bs' = <[l := bound ++ take n (bindingsOf pre)]> bs /\
                 onThrows (bound ++ take n (bindingsOf pre)) name = Some e
           end)
      | Abort => exists l, eventbus ev = Some l /\ bs !! l = None
      end
  end.
Proof.
  intros options pre. change (pluginLoaded ev this bs (onPluginLoad onThrows ev (this, bs))).
  unfold onPluginLoad.
  rewrite (bind_run (setEventbus (eventbus ev)) _ (this, bs) tt
             (mkPlugin (resolver this) (eventbus ev), bs) eq_refl).
  fold options.
  assert (G : pluginLoaded ev this bs
      (((if String.eqb (tree_typeof (optionValue options "resolverData")) "object"
         then liftThis (setResolverData (optionValue options "resolverData"))
         else ret tt) ;;;
        prepend <- ret (optionValue options "eventPrepend") ;;
        on onThrows (eventbus ev) (eventPrepend prepend +:+ "config:resolver:resolve")
          HResolve ;;;
        on onThrows (eventbus ev) (eventPrepend prepend +:+ "config:resolver:validate:pre")
          HPreValidate ;;;
        on onThrows (eventbus ev) (eventPrepend prepend +:+ "config:resolver:validate:post")
          HPostValidate) (mkPlugin (resolver this) (eventbus ev), bs))).
  { destruct (String.eqb (tree_typeof (optionValue options "resolverData")) "object") eqn:Ety.
    - destruct (setResolverData_outcome (optionValue options "resolverData") (resolver this))
        as [[this1 E] | [msg E]].
      + rewrite (bind_run (liftThis (setResolverData (optionValue options "resolverData"))) _
                   (mkPlugin (resolver this) (eventbus ev), bs) tt
                   (mkPlugin this1 (eventbus ev), bs))
          by (unfold liftThis; simpl; now rewrite E).
        rewrite (bind_run (ret (optionValue options "eventPrepend")) _ _ _ _ eq_refl).
        apply three_bindings. unfold dataSet. fold options. now rewrite Ety.
      + unfold bind at 1, liftThis. simpl. rewrite E. simpl.
        split; [reflexivity |]. left. split; [| auto].
        split; [reflexivity |]. right. right. split; [| exact E].
        now apply String.eqb_eq.
    - rewrite (bind_run (ret tt) _ _ _ _ eq_refl).
      rewrite (bind_run (ret (optionValue options "eventPrepend")) _ _ _ _ eq_refl).
      apply three_bindings. unfold dataSet. fold options. now rewrite Ety. }
  unfold options in *. clear options pre.
  destruct (pluginOptions ev) as [| | b | z | s | a | p] eqn:Eo;
    try (unfold pluginLoaded; rewrite Eo; split; [reflexivity |]; left;
         split; [split; [reflexivity |]; auto | auto]; fail);
    cbn [optionOf];
    match goal with
    | |- context [bind (ret ?x) _] =>
        rewrite (bind_run (ret x) _ _ x _ eq_refl)
    end; exact G.
Qed.

End PluginLoaded.

Lemma onPluginLoad_noextend_example :
  onPluginLoad (fun _ _ => None)
    (mkEvent (Some 0)
       (TObj [("eventPrepend", TStr "noextend");
              ("resolverData", TObj [("upgradeMergeList", TArr [TStr "files"])])]))
    (mkPlugin Example.plain None, [[]])
  = (Ret tt, (mkPlugin (Example.upgrading ["files"]) (Some 0),
              [[("noextend:config:resolver:resolve", HResolve);
                ("noextend:config:resolver:validate:pre", HPreValidate);
                ("noextend:config:resolver:validate:post", HPostValidate)]])).
Proof. reflexivity. Qed.

(** The bus refuses the second binding: the resolver data is set, the bus is
    kept in [_eventbus] and the first binding is made. *)
Lemma onPluginLoad_refused_example :
  onPluginLoad
    (fun bound _ => if Nat.eqb (length bound) 1 then Some (mkError Error "full") else None)
    (mkEvent (Some 0) (TObj [("resolverData", TObj [("upgradeMergeList", TArr [TStr "files"])])]))
    (mkPlugin Example.plain None, [[]])
  = (Throw (mkError Error "full"),
     (mkPlugin (Example.upgrading ["files"]) (Some 0),
      [[("config:resolver:resolve", HResolve)]])).
Proof. reflexivity. Qed.

(** The data is refused: the bus is kept in [_eventbus] all the same. *)
Lemma onPluginLoad_bad_data_example :
  onPluginLoad (fun _ _ => None)
    (mkEvent (Some 0) (TObj [("resolverData", TObj [("upgradeMergeList", TStr "files")])]))
    (mkPlugin Example.plain None, [[]])
  = (Throw (mkError TypeError "'upgradeMergeList' is not an 'array'."),
     (mkPlugin Example.plain (Some 0), [[]])).
Proof. reflexivity. Qed.

(** * A parent that is [null] *)

(** The computation stops with a [TypeError]. *)
Definition throwsTypeError {S A} (m : M S A) (s : S) : Prop :=
  exists msg s', m s = (Throw (mkError TypeError msg), s').

Lemma throws_after {S A B} (m : M S A) (f : A -> M S B) s a s1 :
  m s = (Ret a, s1) -> throwsTypeError (f a) s1 -> throwsTypeError (bind m f) s.
Proof. intros E (msg & s' & H). exists msg, s'. now rewrite (bind_run _ _ _ _ _ E). Qed.

Lemma throws_first {S A B} (m : M S A) (f : A -> M S B) s :
  throwsTypeError m s -> throwsTypeError (bind m f) s.
Proof. intros (msg & s' & H). exists msg, s'. unfold bind. now rewrite H. Qed.

Lemma getKey_nullish t k h : t = VNull \/ t = VUndef -> throwsTypeError (getKey t k) h.
Proof. intros [-> | ->]; eexists _, _; reflexivity. Qed.

Section NullParent.

Variable env : Env.
Variable this : ConfigResolver.
Variable depth : nat.

(** [target[key]] is read for the first key of [src]. *)
Lemma deepMerge_nullish_target fuel t sl k v sp c pk h :
  t = VNull \/ t = VUndef -> h !! sl = Some (OObj ((k, v) :: sp)) ->
  throwsTypeError (_deepMerge this (S fuel) t (VRef sl) c pk) h.
Proof.
  intros Ht Hs. simpl.
  eapply throws_after; [reflexivity |]. eapply throws_after; [reflexivity |].
  rewrite (isArray_obj _ _ _ Hs).
  replace (isArray h t) with false by (destruct Ht as [-> | ->]; reflexivity).
  cbn [orb]. eapply throws_after; [reflexivity |].
  set (h1 := h ++ [OObj []]).
  assert (Hs1 : h1 !! sl = Some (OObj ((k, v) :: sp))) by now apply lookup_old.
  unfold mergeObject.
  replace (truthy t && String.eqb (typeof t) "object") with false
    by (destruct Ht as [-> | ->]; reflexivity).
  eapply throws_after; [reflexivity |].
  eapply throws_after; [apply (objectKeys_obj _ _ _ Hs1) |].
  apply throws_first. cbn [map fst forEach]. apply throws_first.
  unfold mergeKey.
  assert (Hup : exists h2 p2 v2, upgradeKey this (VRef sl) k h1 = (Ret tt, h2) /\
                  h2 !! sl = Some (OObj p2) /\ assoc_get k p2 = Some v2).
  { assert (Hk : assoc_get k ((k, v) :: sp) = Some v) by (simpl; now rewrite String.eqb_refl).
    unfold upgradeKey. destruct (inUpgradeMergeList this k).
    - rewrite (bind_run _ _ _ _ _ (getKey_some _ _ _ _ _ Hs1 Hk)).
      rewrite (bind_run (isArrayM v) _ h1 _ _ eq_refl).
      destruct (isArray h1 v); cbn [negb].
      + exists h1, ((k, v) :: sp), v. auto.
      + rewrite (bind_run (alloc (OArr [v])) _ h1 _ _ eq_refl).
        rewrite (setKey_obj _ _ _ _ _ (lookup_old h1 [OArr [v]] _ _ Hs1)).
        eexists _, _, _. split; [reflexivity |].
        split; [apply list_lookup_insert_eq; rewrite length_app;
                apply lookup_lt_Some in Hs1; lia |].
        apply assoc_get_set_eq.
    - exists h1, ((k, v) :: sp), v. auto. }
  destruct Hup as (h2 & p2 & v2 & Eup & Hs2 & Hv2).
  eapply throws_after; [exact Eup |].
  eapply throws_after; [apply (getKey_some _ _ _ _ _ Hs2 Hv2) |].
  eapply throws_after; [reflexivity |].
  destruct (isArray h2 v2).
  - eapply throws_after; [reflexivity |]. cbn [orb].
    apply throws_first. now apply getKey_nullish.
  - apply throws_first. apply throws_first. now apply getKey_nullish.
Qed.

(** X13: a parent that loads as [null] is not skipped: the merge reads a
    property of it, and [resolve] throws a [TypeError] whose message ends
    with the chain of loaded references. *)
Theorem null_parent_is_a_TypeError fuel c cp ref dir h :
  h !! c = Some (OObj cp) ->
  assoc_get "extends" cp = Some (VStr ref) -> ref <> "" ->
  hostLoad env (resolveParentPath env (cwd env) (Some (cwd env)) ref) (cwd env)
    = inr (TNull, dir) ->
  (forall v h0, preValidate env this v "config" h0 = (Ret tt, h0)) ->
  1 <= depth -> 1 <= fuel ->
  exists msg h',
    resolve env this depth fuel (VRef c) h =
      (Throw (mkError TypeError
                (msg +:+ newline +:+ "Referenced from: " +:+ newline +:+
                 resolveParentPath env (cwd env) (Some (cwd env)) ref)), h').
Proof.
  intros Hc He Hne Hload Hpre Hd Hf.
  set (id := resolveParentPath env (cwd env) (Some (cwd env)) ref) in *.
  destruct depth as [| d]; [lia |]. destruct fuel as [| f]; [lia |].
  destruct cp as [| [k0 v0] rest]; [discriminate He |].
  destruct (deepMerge_nullish_target d VNull c k0 v0 rest false None h (or_introl eq_refl) Hc)
    as (msg & h' & Em).
  assert (Ew : _applyExtends env this (S d) (S f) (VRef c) (cwd env) (Some (cwd env))
                 (Some (fun c => preValidate env this c "config")) (h, [])
               = (Throw (mkError TypeError msg), (h', [id]))).
  { unfold _applyExtends, applyExtendsWith.
    rewrite (bind_run (liftH (getKey (VRef c) "extends")) _ (h, []) (VStr ref) (h, []))
      by (unfold liftH; simpl fst; now rewrite (getKey_some _ _ _ _ _ Hc He)).
    rewrite (bind_run (liftH (isArrayM (VStr ref))) _ (h, []) false (h, []) eq_refl).
    rewrite (bind_run (ret [VStr ref]) _ (h, []) _ _ eq_refl).
    cbn [rev app reduceM].
    assert (El : _load env this (S d) (S f) id (Some (cwd env))
                   (Some (fun c => preValidate env this c "config")) (h, [id])
                 = (Ret VNull, (h, [id]))).
    { cbn [_load]. change (default "" (Some (cwd env))) with (cwd env). rewrite Hload.
      rewrite (bind_run (ofHost (inr (TNull, dir))) _ (h, [id]) _ _ eq_refl).
      rewrite (bind_run (liftH (alloc_tree TNull)) _ (h, [id]) VNull (h, [id]) eq_refl).
      rewrite (bind_run (liftH (preValidate env this VNull "config")) _ (h, [id]) tt (h, [id]))
        by (unfold liftH; simpl fst; now rewrite Hpre).
      reflexivity. }
    assert (Es : extendsStep env this (S d) (_load env this (S d) (S f)) (cwd env)
                   (Some (cwd env)) (Some (fun c => preValidate env this c "config"))
                   (VRef c) (VStr ref) (h, [])
                 = (Throw (mkError TypeError msg), (h', [id]))).
    { unfold extendsStep. fold id.
      rewrite (bind_run loaded _ (h, []) [] (h, []) eq_refl). cbn [existsb].
      rewrite (bind_run (pushLoaded id) _ (h, []) tt (h, [id]) eq_refl).
      rewrite (bind_run _ _ _ _ _ El).
      unfold liftH. simpl fst. now rewrite Em. }
    unfold bind at 1. now rewrite Es. }
  exists msg, h'.
  unfold resolve, resolveGuard. cbn [typeof String.eqb Ascii.eqb Bool.eqb negb].
  rewrite (bind_run (ret tt) _ h _ _ eq_refl).
  rewrite (bind_run _ _ _ _ _ (Hpre (VRef c) h)).
  unfold bind at 1. unfold _resolveExtends.
  rewrite (bind_run _ _ _ _ _ (getKey_some _ _ _ _ _ Hc He)).
  replace (truthy (VStr ref)) with true
    by (simpl; destruct (String.eqb ref "") eqn:E; [apply String.eqb_eq in E; congruence | reflexivity]).
  cbn [negb]. unfold bind at 1. rewrite Ew. reflexivity.
Qed.

End NullParent.

Lemma null_parent_is_a_TypeError_witness :
  let env := Example.host [("/work/base.json", TNull)] in
  let h := [OObj [("a", VNum 1); ("extends", VStr "./base.json")]] in
  exists msg h',
    resolve env Example.plain 1 1 (VRef 0) h =
      (Throw (mkError TypeError
                (msg +:+ newline +:+ "Referenced from: " +:+ newline +:+
                 resolveParentPath env (cwd env) (Some (cwd env)) "./base.json")), h').
Proof.
  intros env h.
  apply (null_parent_is_a_TypeError env Example.plain 1 1 0
           [("a", VNum 1); ("extends", VStr "./base.json")] "./base.json" (Some "/work") h);
    try reflexivity; try lia.
  discriminate.
Defined.

(** * [resolve] without [extends]: the copy *)

(** The nesting depth of plain data. *)
Fixpoint tdepth (t : tree) : nat :=
  match t with
  | TArr l => S (list_max (map tdepth l))
  | TObj p => S (list_max (map (fun kx => tdepth (snd kx)) p))
  | _ => 0
  end.

Definition readAll (d : nat) (h : heap) (a : list val) : option (list tree) :=
  fold_right (fun x acc =>
    match read_tree d h x, acc with
    | Some t, Some ts => Some (t :: ts)
    | _, _ => None
    end) (Some []) a.

Definition readProps (d : nat) (h : heap) (p : list (string * val)) :
    option (list (string * tree)) :=
  fold_right (fun kx acc =>
    match read_tree d h (snd kx), acc with
    | Some t, Some ts => Some ((fst kx, t) :: ts)
    | _, _ => None
    end) (Some []) p.

Lemma read_tree_ref_eq d h l :
  read_tree (S d) h (VRef l) =
  match h !! l with
  | None => None
  | Some (OArr a) => option_map TArr (readAll d h a)
  | Some (OObj p) => option_map TObj (readProps d h p)
  end.
Proof. reflexivity. Qed.

(** What has been allocated for plain data reads back as that data, also
    after the store has grown. *)
Lemma read_alloc t :
  forall h v h', alloc_tree t h = (Ret v, h') ->
    forall d hx, tdepth t <= d -> read_tree d (h' ++ hx) v = Some t.
Proof.
  induction t as [| | b | n | s | l IHl | p IHp] using tree_ind_nested; intros h v h';
    try (intros [= <- <-] d hx _; destruct d; reflexivity).
  - (* an array *)
    assert (G : forall h vs h1, allocAll alloc_tree l h = (Ret vs, h1) ->
              forall d hx, list_max (map tdepth l) <= d -> readAll d (h1 ++ hx) vs = Some l).
    { clear h v h'. induction IHl as [| x r Hx _ IHr]; intros h vs h1.
      - intros [= <- <-]. reflexivity.
      - simpl. destruct (alloc_tree_grows x h) as (v & hy & E & _).
        rewrite (bind_run _ _ _ _ _ E).
        destruct (allocAll_grows r (h ++ hy)) as (vs' & hz & E').
        simpl in E'. rewrite (bind_run _ _ _ _ _ E'). intros [= <- <-] d hx Hd.
        pose proof (Hx _ _ _ E d (hz ++ hx) ltac:(lia)) as R1.
        pose proof (IHr _ _ _ E' d hx ltac:(lia)) as R2.
        rewrite app_assoc in R1. simpl. now rewrite R1, R2. }
    simpl. destruct (allocAll_grows l h) as (vs & hy & E).
    rewrite (bind_run _ _ _ _ _ E). intros [= <- <-] d hx Hd.
    destruct d as [| d]; [simpl in Hd; lia |]. rewrite read_tree_ref_eq.
    pose proof (G _ _ _ E d ([OArr vs] ++ hx) ltac:(simpl in Hd; lia)) as R.
    remember (h ++ hy) as h1. rewrite <- (app_assoc h1).
    rewrite lookup_app_r by lia. rewrite Nat.sub_diag. simpl lookup. cbv iota.
    now rewrite R.
  - (* a mapping *)
    assert (G : forall h ps h1, allocProps alloc_tree p h = (Ret ps, h1) ->
              forall d hx, list_max (map (fun kx => tdepth (snd kx)) p) <= d ->
                readProps d (h1 ++ hx) ps = Some p).
    { clear h v h'. induction IHp as [| [k x] r Hx _ IHr]; intros h ps h1.
      - intros [= <- <-]. reflexivity.
      - simpl in Hx. simpl. destruct (alloc_tree_grows x h) as (v & hy & E & _).
        rewrite (bind_run _ _ _ _ _ E).
        destruct (allocProps_spec r (h ++ hy)) as (ps' & hz & E' & _).
        simpl in E'. rewrite (bind_run _ _ _ _ _ E'). intros [= <- <-] d hx Hd.
        pose proof (Hx _ _ _ E d (hz ++ hx) ltac:(lia)) as R1.
        pose proof (IHr _ _ _ E' d hx ltac:(lia)) as R2.
        rewrite app_assoc in R1. simpl. now rewrite R1, R2. }
    simpl. destruct (allocProps_spec p h) as (ps & hy & E & _).
    rewrite (bind_run _ _ _ _ _ E). intros [= <- <-] d hx Hd.
    destruct d as [| d]; [simpl in Hd; lia |]. rewrite read_tree_ref_eq.
    pose proof (G _ _ _ E d ([OObj ps] ++ hx) ltac:(simpl in Hd; lia)) as R.
    remember (h ++ hy) as h1. rewrite <- (app_assoc h1).
    rewrite lookup_app_r by lia. rewrite Nat.sub_diag. simpl lookup. cbv iota.
    now rewrite R.
Qed.

Lemma tdepth_json t : tdepth (json_of t) <= tdepth t.
Proof.
  induction t as [| | b | n | s | l IHl | p IHp] using tree_ind_nested; simpl; try lia.
  - apply le_n_S. induction IHl as [| x r Hx _ IHr]; simpl; [lia |].
    assert (tdepth (match x with TUndef => TNull | _ => json_of x end) <= tdepth x)
      by (destruct x; simpl in *; lia).
    lia.
  - apply le_n_S. induction IHp as [| [k x] r Hx _ IHr]; simpl; [lia |].
    simpl in Hx. destruct x; simpl in *; lia.
Qed.

Lemma read_tree_truthy d h v t : read_tree d h v = Some t -> truthy v = tree_truthy t.
Proof.
  destruct v as [| | b | n | s | l]; try (destruct d; intros [= <-]; reflexivity).
  destruct d as [| d]; [discriminate |]. rewrite read_tree_ref_eq.
  destruct (h !! l) as [[a | p] |]; [| | discriminate].
  - destruct (readAll d h a); [intros [= <-]; reflexivity | discriminate].
  - destruct (readProps d h p); [intros [= <-]; reflexivity | discriminate].
Qed.

Lemma readProps_get d h ps :
  forall p, readProps d h ps = Some p ->
    forall k, match assoc_get k ps with
              | Some v => exists t, assoc_get k p = Some t /\ read_tree d h v = Some t
              | None => assoc_get k p = None
              end.
Proof.
  induction ps as [| [k0 v0] r IH]; intros p; simpl.
  - intros [= <-] k. reflexivity.
  - destruct (read_tree d h v0) as [t0 |] eqn:E0; [| discriminate].
    destruct (readProps d h r) as [ts |] eqn:Er; [| discriminate].
    intros [= <-] k. simpl. destruct (String.eqb k k0); [eauto |]. now apply IH.
Qed.

Section Copy.

Variable env : Env.
Variable this : ConfigResolver.
Variable depth : nat.

(** X14: a configuration without [extends] (the key absent or falsy), given
    as plain data no deeper than the copy may go, resolved with validators
    that accept and no default values, comes back as what
    [JSON.parse(JSON.stringify(config))] makes of it: the same data, without
    the keys whose value is [undefined]. *)
Theorem resolve_copies_plain_config fuel p :
  match assoc_get "extends" p with
  | Some x => tree_truthy x = false
  | None => True
  end ->
  _defaultValues this = TObj [] ->
  (forall v h, preValidate env this v "config" h = (Ret tt, h)) ->
  (forall v h, postValidate env this v "config" h = (Ret tt, h)) ->
  tdepth (TObj p) <= depth ->
  resolveTree env this depth fuel (TObj p) = Ret (json_of (TObj p)).
Proof.
  intros Hext Hdef Hpre Hpost Hd. unfold resolveTree.
  destruct (alloc_tree_struct (TObj p) [] (or_intror (ex_intro _ p eq_refl)))
    as (hx & o & E).
  set (c := length ([] ++ hx)) in *. set (h0 := ([] ++ hx) ++ [o]) in *.
  pose proof (read_alloc _ _ _ _ E depth [] Hd) as R0. rewrite app_nil_r in R0.
  rewrite (bind_run _ _ _ _ _ E).
  destruct depth as [| d] eqn:Edepth; [simpl in Hd; lia |]. rewrite <- Edepth in *.
  assert (R0' := R0). rewrite Edepth, read_tree_ref_eq in R0'.
  destruct (h0 !! c) as [[a | ps] |] eqn:Hc; try discriminate R0';
    [destruct (readAll d h0 a); discriminate R0' |].
  destruct (readProps d h0 ps) as [p' |] eqn:Eps; [| discriminate R0'].
  injection R0' as ->.
  assert (Hfalsy : truthy (default VUndef (assoc_get "extends" ps)) = false).
  { pose proof (readProps_get d h0 ps p Eps "extends") as G.
    destruct (assoc_get "extends" ps) as [v |]; [| reflexivity].
    destruct G as (t & Et & Rt). rewrite Et in Hext. simpl.
    now rewrite (read_tree_truthy _ _ _ _ Rt). }
  destruct (alloc_tree_grows (json_of (TObj p)) h0) as (v1 & hy & E1 & _).
  assert (Er : resolve env this depth fuel (VRef c) h0 = (Ret v1, h0 ++ hy)).
  { unfold resolve, resolveGuard. cbn [typeof String.eqb Ascii.eqb Bool.eqb negb].
    rewrite (bind_run (ret tt) _ h0 _ _ eq_refl).
    rewrite (bind_run _ _ _ _ _ (Hpre (VRef c) h0)).
    assert (Ej : _resolveExtends env this depth fuel (VRef c) h0 = (Ret v1, h0 ++ hy)).
    { unfold _resolveExtends.
      rewrite (bind_run _ _ _ _ _ (getKey_obj _ "extends" _ _ Hc)). rewrite Hfalsy.
      cbn [negb]. unfold jsonCopy. rewrite (bind_run get _ h0 h0 h0 eq_refl).
      now rewrite R0. }
    rewrite (bind_run _ _ _ _ _ Ej).
    rewrite (bind_run (setDefaultValues this v1) _ (h0 ++ hy) tt (h0 ++ hy))
      by (unfold setDefaultValues; now rewrite Hdef).
    now rewrite (bind_run _ _ _ _ _ (Hpost v1 (h0 ++ hy))). }
  rewrite Er.
  pose proof (read_alloc _ _ _ _ E1 depth []
                ltac:(pose proof (tdepth_json (TObj p)); lia)) as R1.
  rewrite app_nil_r in R1. now rewrite R1.
Qed.

End Copy.

Lemma resolve_copies_plain_config_witness :
  let p := [("a", TNum 1); ("u", TUndef); ("o", TObj [("x", TArr [TUndef; TStr "s"])])] in
  resolveTree (Example.host []) Example.plain 3 0 (TObj p)
  = Ret (TObj [("a", TNum 1); ("o", TObj [("x", TArr [TNull; TStr "s"])])]).
Proof.
  intros p.
  apply (resolve_copies_plain_config (Example.host []) Example.plain 3 0 p);
    first [reflexivity | exact I | simpl; lia].
Defined.

(** * A reference that is not a string *)

Definition is_string (v : val) : bool :=
  match v with
  | VStr _ => true
  | _ => false
  end.

(** The references of an [extends] value: the elements of an array, or the
    value itself. *)
Definition referencesOf (h : heap) (e : val) : list val :=
  match e with
  | VRef l => match h !! l with Some (OArr a) => a | _ => [e] end
  | _ => [e]
  end.

Section NonString.

Variable env : Env.
Variable this : ConfigResolver.
Variable depth : nat.

(** X15: the references are taken from the last to the first, and one that
    is not a string stops the walk with a [TypeError].  When the last
    reference is not a string nothing has been loaded or changed: [resolve]
    throws with an empty chain, whatever the host would have loaded. *)
Theorem non_string_reference_is_a_TypeError fuel c cp e x h :
  h !! c = Some (OObj cp) ->
  assoc_get "extends" cp = Some e -> truthy e = true ->
  last (referencesOf h e) = Some x -> is_string x = false ->
  (forall v h0, preValidate env this v "config" h0 = (Ret tt, h0)) ->
  exists msg,
    resolve env this depth fuel (VRef c) h =
      (Throw (mkError TypeError
                (msg +:+ newline +:+ "Referenced from: " +:+ newline +:+ "")), h).
Proof.
  intros Hc He Ht Hlast Hx Hpre.
  assert (Ec : (if isArray h e then liftH (arrayElems e "reduceRight") else ret [e]) (h, [])
               = (Ret (referencesOf h e), (h, []))).
  { unfold referencesOf, isArray. destruct e as [| | | | | l]; try reflexivity.
    destruct (h !! l) as [[a | p] |] eqn:Hl; try reflexivity.
    apply run_liftH. apply (arrayElems_arr _ _ _ _ Hl). }
  assert (Es : reduceM (extendsStep env this depth (_load env this depth fuel) (cwd env)
                          (Some (cwd env))
                          (Some (fun c => preValidate env this c "config")))
                 (rev (referencesOf h e)) (VRef c) (h, [])
               = (Throw (mkError TypeError "Path must be a string"), (h, []))).
  { apply last_Some in Hlast. destruct Hlast as [pre ->].
    rewrite rev_app_distr. cbn [rev app reduceM].
    unfold bind at 1. unfold extendsStep at 1.
    destruct x; try discriminate Hx; reflexivity. }
  assert (Ew : _applyExtends env this depth fuel (VRef c) (cwd env) (Some (cwd env))
                 (Some (fun c => preValidate env this c "config")) (h, [])
               = (Throw (mkError TypeError "Path must be a string"), (h, []))).
  { unfold _applyExtends, applyExtendsWith.
    rewrite (bind_run _ _ _ _ _ (run_liftH _ _ _ _ _ (getKey_some _ _ _ _ _ Hc He))).
    rewrite (bind_run (liftH (isArrayM e)) _ (h, []) (isArray h e) (h, []) eq_refl).
    rewrite (bind_run _ _ _ _ _ Ec). exact Es. }
  exists "Path must be a string".
  unfold resolve, resolveGuard. cbn [typeof String.eqb Ascii.eqb Bool.eqb negb].
  rewrite (bind_run (ret tt) _ h _ _ eq_refl).
  rewrite (bind_run _ _ _ _ _ (Hpre (VRef c) h)).
  unfold bind at 1. unfold _resolveExtends.
  rewrite (bind_run _ _ _ _ _ (getKey_some _ _ _ _ _ Hc He)). rewrite Ht.
  cbn [negb]. unfold bind at 1. rewrite Ew. reflexivity.
Qed.

End NonString.

Lemma non_string_reference_is_a_TypeError_witness :
  let env := Example.host [("/work/a.json", TObj [("a", TNum 1)])] in
  let h := [OObj [("extends", VRef 1)]; OArr [VStr "./a.json"; VNum 5]] in
  exists msg,
    resolve env Example.plain 4 4 (VRef 0) h =
      (Throw (mkError TypeError
                (msg +:+ newline +:+ "Referenced from: " +:+ newline +:+ "")), h).
Proof.
  intros env h.
  apply (non_string_reference_is_a_TypeError env Example.plain 4 4 0
           [("extends", VRef 1)] (VRef 1) (VNum 5) h); reflexivity.
Defined.
